(** * fast-fdfb: a shallow embedding of the parameter compiler, the modulus
    switch, the LUT builders, the recursive bootstrap orchestrator and the
    hierarchical encryptor, with the properties checked against the
    specification.

    Conventions.
    - A value of the torus type [T] (uint32 or uint64) is a [Z] in
      [0, 2^w); every arithmetic operation writes its wrap-around out.
    - A Go [int] is a 64-bit signed integer, a [Z] in [-2^63, 2^63);
      [/] and [%] truncate towards zero ([Z.quot], [Z.rem]).
    - A [float64] stored in a record is kept as its IEEE-754 bit pattern
      (a [Z] in [0, 2^64)); where float arithmetic is performed it is
      the binary64 arithmetic of [SpecFloat].
    - A function that can panic returns a [result]. *)

From Stdlib Require Import ZArith Lia Bool String SpecFloat.
From stdpp Require Import base list gmap.

Open Scope Z_scope.

(** ** Outcomes of fallible code *)

Inductive result (A : Type) : Type :=
| Ok (a : A)
| Panic (msg : string).
Arguments Ok {A} a.
Arguments Panic {A} msg%_string.

Definition bind {A B} (r : result A) (k : A -> result B) : result B :=
  match r with
  | Ok a => k a
  | Panic m => Panic m
  end.

Notation "'let!' x ':=' r 'in' k" := (bind r (fun x => k))
  (at level 10, x pattern, r at level 100, k at level 200).

Definition panics {A} (r : result A) : Prop :=
  match r with Ok _ => False | Panic _ => True end.

Definition returns {A} (r : result A) : Prop :=
  match r with Ok _ => True | Panic _ => False end.

(** ** Machine integers *)

Module GoInt.

(** Unsigned [w]-bit wrap-around. *)
Definition wrapU (w x : Z) : Z := x mod 2 ^ w.

(** Signed 64-bit wrap-around (two's complement), Go's [int]. *)
Definition wrapI (x : Z) : Z := (x + 2 ^ 63) mod 2 ^ 64 - 2 ^ 63.

Definition int_mul (a b : Z) : Z := wrapI (a * b).
Definition int_add (a b : Z) : Z := wrapI (a + b).
Definition int_sub (a b : Z) : Z := wrapI (a - b).

(** [a << s] on [int]; a shift count of 64 or more gives 0. *)
Definition int_shl (a s : Z) : Z := wrapI (Z.shiftl a s).

(** [a / b] on [int]: a zero divisor is a run-time panic. *)
Definition int_div (a b : Z) : result Z :=
  if b =? 0 then Panic "integer divide by zero" else Ok (wrapI (Z.quot a b)).

Definition is_int (x : Z) : Prop := - 2 ^ 63 <= x < 2 ^ 63.
Definition is_uint (w x : Z) : Prop := 0 <= x < 2 ^ w.

(** [uint64(x)] of an [int], and [int(x)] of a [uint64]. *)
Definition uint64_of_int (x : Z) : Z := x mod 2 ^ 64.
Definition int_of_uint64 (x : Z) : Z := wrapI x.

(** [bits.TrailingZeros(x)] on a 64-bit [uint]: 64 for [x = 0]. *)
Fixpoint ctz_pos (p : positive) : Z :=
  match p with
  | xO q => 1 + ctz_pos q
  | _ => 0
  end.

Definition TrailingZeros (x : Z) : Z :=
  match x mod 2 ^ 64 with
  | Zpos p => ctz_pos p
  | _ => 64
  end.

End GoInt.

Import GoInt.

(** ** The torus type *)

Inductive TorusInt : Type := U32 | U64.

(** ** Helpers of the [num] package

    The package [math/num] is imported by the sources but is not part of
    them. *)

Module num.

(** Modelled from the spec: [num.SizeT] is missing from the sources;
    the spec's "bitsize introspection", [log2 Q] for [Q = 2^32] or
    [2^64]. *)
Definition SizeT (T : TorusInt) : Z :=
  match T with U32 => 32 | U64 => 64 end.

(** Modelled from the spec: [num.IsPowerOfTwo] is missing from the
    sources; the spec's "is a power of two": positive with one bit set. *)
Definition IsPowerOfTwo (x : Z) : bool :=
  (0 <? x) && (Z.land x (x - 1) =? 0).

(** Modelled from the spec: [num.Log2] is missing from the sources; the
    spec's [log2], the position of the highest set bit. *)
Definition Log2 (x : Z) : Z := Z.log2 x.

(** Modelled from the spec: [num.DivRound] is missing from the sources;
    the spec's [round(a/b)], a division of integers.  A call with a
    zero divisor is a run-time panic; for every other divisor the value
    is the one of the function [DivRound], a parameter of the
    development. *)
Definition DivRound_checked (DivRound : Z -> Z -> Z) (a b : Z) : result Z :=
  if b =? 0 then Panic "integer divide by zero" else Ok (DivRound a b).

End num.

Definition wrapT (T : TorusInt) (x : Z) : Z := wrapU (num.SizeT T) x.
Definition is_T (T : TorusInt) (x : Z) : Prop := is_uint (num.SizeT T) x.

(** ** float64 values kept as bit patterns *)

Module F64.

(** The magnitude bits (everything but the sign). *)
Definition mag (bits : Z) : Z := bits mod 2 ^ 63.
Definition sign (bits : Z) : bool := 2 ^ 63 <=? bits mod 2 ^ 64.

(** NaN: exponent field all ones and a non-zero fraction. *)
Definition isNaN (bits : Z) : bool := Z.shiftl 2047 52 <? mag bits.

(** Go's [x <= 0] on a float64: false for NaN, true for both zeros and
    for every negative value. *)
Definition le_zero (bits : Z) : bool :=
  negb (isNaN bits) && ((mag bits =? 0) || sign bits).

(** [x > 0]: false for NaN. *)
Definition gt_zero (bits : Z) : bool :=
  negb (isNaN bits) && negb (mag bits =? 0) && negb (sign bits).

(** [math.Exp2(float64(w))] for a small non-negative integer [w]:
    the power of two [2^w], biased exponent [1023 + w], fraction 0. *)
Definition Exp2_int (w : Z) : Z := Z.shiftl (1023 + w) 52.

End F64.

(** ** Gadget parameters *)

Module Gadget.

Record GadgetParametersLiteral : Type := {
  Base : Z;   (* T *)
  Level : Z   (* int *)
}.

Record GadgetParameters : Type := {
  base : Z;     (* T *)
  logBase : Z;  (* int *)
  level : Z;    (* int *)
  sizeT : Z     (* int *)
}.

(** [GadgetParametersLiteral.Compile]: the four cases of the switch in
    order, then the compiled record. *)
Definition Compile (T : TorusInt) (p : GadgetParametersLiteral)
  : result GadgetParameters :=
  if Base p <? 2 then Panic "Base smaller than two"
  else if negb (num.IsPowerOfTwo (Base p)) then Panic "Base not power of two"
  else if Level p <=? 0 then Panic "Level smaller than zero"
  else if num.SizeT T <? int_mul (num.Log2 (Base p)) (Level p)
       then Panic "Base * Level larger than Q"
  else Ok {| base := Base p;
             logBase := num.Log2 (Base p);
             level := Level p;
             sizeT := num.SizeT T |}.

Definition Literal (p : GadgetParameters) : GadgetParametersLiteral :=
  {| Base := base p; Level := level p |}.

Definition ByteSize (p : GadgetParameters) : Z := 16.

(** The gadget invariants of the specification: the base is a power of
    two that is at least 2, the level is positive, and
    [log2 Base * Level <= log2 Q] (the product as the code computes it,
    on [int]). *)
Definition invariants (T : TorusInt) (p : GadgetParametersLiteral) : Prop :=
  2 <= Base p /\ num.IsPowerOfTwo (Base p) = true /\ 0 < Level p /\
  int_mul (num.Log2 (Base p)) (Level p) <= num.SizeT T.

(** Machine-representable literals. *)
Definition wf_literal (T : TorusInt) (p : GadgetParametersLiteral) : Prop :=
  is_T T (Base p) /\ is_int (Level p).

End Gadget.

(** ** Parameters *)

Module Params.

Import Gadget.

(** [BootstrapOrder] is an [int] with two named values. *)
Definition OrderKeySwitchBlindRotate : Z := 0.
Definition OrderBlindRotateKeySwitch : Z := 1.

Record ParametersLiteral : Type := {
  LWEDimension : Z;
  GLWERank : Z;
  PolyDegree : Z;
  LookUpTableSize : Z;
  LWEStdDev : Z;      (* float64 bits *)
  GLWEStdDev : Z;     (* float64 bits *)
  BlockSize : Z;
  MessageModulus : Z; (* T *)
  BlindRotateParameters : GadgetParametersLiteral;
  KeySwitchParameters : GadgetParametersLiteral;
  BootstrapOrder : Z
}.

Record Parameters : Type := {
  lweDimension : Z;
  glweDimension : Z;
  glweRank : Z;
  polyDegree : Z;
  logPolyDegree : Z;
  lookUpTableSize : Z;
  polyExtendFactor : Z;
  lweStdDev : Z;      (* float64 bits *)
  glweStdDev : Z;     (* float64 bits *)
  blockSize : Z;
  blockCount : Z;
  messageModulus : Z; (* T *)
  scale : Z;          (* T *)
  logQ : Z;
  floatQ : Z;         (* float64 bits *)
  blindRotateParameters : GadgetParameters;
  keySwitchParameters : GadgetParameters;
  bootstrapOrder : Z
}.

(** The two defaulting assignments at the head of [Compile]. *)
Definition defaulted (p : ParametersLiteral) : ParametersLiteral :=
  let L := if LookUpTableSize p =? 0 then PolyDegree p else LookUpTableSize p in
  let b := if BlockSize p =? 0 then 1 else BlockSize p in
  {| LWEDimension := LWEDimension p;
     GLWERank := GLWERank p;
     PolyDegree := PolyDegree p;
     LookUpTableSize := L;
     LWEStdDev := LWEStdDev p;
     GLWEStdDev := GLWEStdDev p;
     BlockSize := b;
     MessageModulus := MessageModulus p;
     BlindRotateParameters := BlindRotateParameters p;
     KeySwitchParameters := KeySwitchParameters p;
     BootstrapOrder := BootstrapOrder p |}.

Section WithDivRound.

(** [num.DivRound] is missing from the sources: its value on a divisor
    other than zero is a parameter of the development. *)
Variable DivRound : Z -> Z -> Z.

(** [ParametersLiteral.Compile].  The divisions [L / N] and [n / b] of
    the final record are reached only with a positive divisor (the
    cases before); the scale divides by the message modulus, which no
    case guards, and is computed before the gadget parameters are
    compiled (the order of the fields of the literal). *)
Definition Compile (T : TorusInt) (p0 : ParametersLiteral)
  : result Parameters :=
  let p := defaulted p0 in
  if LWEDimension p <=? 0 then Panic "LWEDimension smaller than zero"
  else if int_mul (GLWERank p) (PolyDegree p) <? LWEDimension p
       then Panic "LWEDimension larger than GLWEDimension"
  else if GLWERank p <=? 0 then Panic "GLWERank smaller than zero"
  else if LookUpTableSize p <? PolyDegree p
       then Panic "LookUpTableSize smaller than PolyDegree"
  else if F64.le_zero (LWEStdDev p) then Panic "LWEStdDev smaller than zero"
  else if F64.le_zero (GLWEStdDev p) then Panic "GLWEStdDev smaller than zero"
  else if BlockSize p <=? 0 then Panic "BlockSize smaller than zero"
  else if negb (Z.rem (LWEDimension p) (BlockSize p) =? 0)
       then Panic "LWEDimension not multiple of BlockSize"
  else if negb (Z.rem (LookUpTableSize p) (PolyDegree p) =? 0)
       then Panic "LookUpTableSize not multiple of PolyDegree"
  else if negb (num.IsPowerOfTwo (PolyDegree p))
       then Panic "PolyDegree not power of two"
  else if negb ((BootstrapOrder p =? OrderKeySwitchBlindRotate)
                || (BootstrapOrder p =? OrderBlindRotateKeySwitch))
       then Panic "BootstrapOrder not valid"
  else
    let! half := num.DivRound_checked DivRound (Z.shiftl 1 (num.SizeT T - 1))
                                      (MessageModulus p) in
    let! br := Gadget.Compile T (BlindRotateParameters p) in
    let! ks := Gadget.Compile T (KeySwitchParameters p) in
    Ok {| lweDimension := LWEDimension p;
          glweDimension := int_mul (GLWERank p) (PolyDegree p);
          glweRank := GLWERank p;
          polyDegree := PolyDegree p;
          logPolyDegree := num.Log2 (PolyDegree p);
          lookUpTableSize := LookUpTableSize p;
          polyExtendFactor := Z.quot (LookUpTableSize p) (PolyDegree p);
          lweStdDev := LWEStdDev p;
          glweStdDev := GLWEStdDev p;
          blockSize := BlockSize p;
          blockCount := Z.quot (LWEDimension p) (BlockSize p);
          messageModulus := MessageModulus p;
          scale := wrapT T (half * 2);
          logQ := num.SizeT T;
          floatQ := F64.Exp2_int (num.SizeT T);
          blindRotateParameters := br;
          keySwitchParameters := ks;
          bootstrapOrder := BootstrapOrder p |}.

End WithDivRound.

Definition Literal (p : Parameters) : ParametersLiteral :=
  {| LWEDimension := lweDimension p;
     GLWERank := glweRank p;
     PolyDegree := polyDegree p;
     LookUpTableSize := lookUpTableSize p;
     LWEStdDev := lweStdDev p;
     GLWEStdDev := glweStdDev p;
     BlockSize := blockSize p;
     MessageModulus := messageModulus p;
     BlindRotateParameters := Gadget.Literal (blindRotateParameters p);
     KeySwitchParameters := Gadget.Literal (keySwitchParameters p);
     BootstrapOrder := bootstrapOrder p |}.

Definition ByteSize (p : Parameters) : Z :=
  8 * 8 + Gadget.ByteSize (blindRotateParameters p)
  + Gadget.ByteSize (keySwitchParameters p) + 1.

(** The compile invariants as the specification lists them (section 3),
    read on the literal after defaulting: [n > 0], [n <= k*N], [k > 0],
    [L >= N], [L mod N = 0], [N] a power of two, [n mod b = 0], the
    gadget invariants for both gadgets, both standard deviations
    positive, and the order one of the two named values. *)
Definition listed_invariants (T : TorusInt) (p0 : ParametersLiteral) : Prop :=
  let p := defaulted p0 in
  0 < LWEDimension p /\
  LWEDimension p <= int_mul (GLWERank p) (PolyDegree p) /\
  0 < GLWERank p /\
  PolyDegree p <= LookUpTableSize p /\
  Z.rem (LookUpTableSize p) (PolyDegree p) = 0 /\
  num.IsPowerOfTwo (PolyDegree p) = true /\
  Z.rem (LWEDimension p) (BlockSize p) = 0 /\
  Gadget.invariants T (BlindRotateParameters p) /\
  Gadget.invariants T (KeySwitchParameters p) /\
  F64.gt_zero (LWEStdDev p) = true /\
  F64.gt_zero (GLWEStdDev p) = true /\
  (BootstrapOrder p = OrderKeySwitchBlindRotate \/
   BootstrapOrder p = OrderBlindRotateKeySwitch).

(** The invariants the code enforces: the listed ones, with the block
    size positive as well, with "positive" on a standard deviation read
    as the code tests it: the comparison [sigma <= 0] is false (which a
    NaN also satisfies), and with a message modulus other than zero,
    by which the scale is divided. *)
Definition enforced_invariants (T : TorusInt) (p0 : ParametersLiteral) : Prop :=
  let p := defaulted p0 in
  0 < LWEDimension p /\
  LWEDimension p <= int_mul (GLWERank p) (PolyDegree p) /\
  0 < GLWERank p /\
  PolyDegree p <= LookUpTableSize p /\
  Z.rem (LookUpTableSize p) (PolyDegree p) = 0 /\
  num.IsPowerOfTwo (PolyDegree p) = true /\
  0 < BlockSize p /\
  Z.rem (LWEDimension p) (BlockSize p) = 0 /\
  Gadget.invariants T (BlindRotateParameters p) /\
  Gadget.invariants T (KeySwitchParameters p) /\
  F64.le_zero (LWEStdDev p) = false /\
  F64.le_zero (GLWEStdDev p) = false /\
  (BootstrapOrder p = OrderKeySwitchBlindRotate \/
   BootstrapOrder p = OrderBlindRotateKeySwitch) /\
  MessageModulus p <> 0.

(** Machine-representable literals and parameters. *)
Definition wf_literal (T : TorusInt) (p : ParametersLiteral) : Prop :=
  is_int (LWEDimension p) /\ is_int (GLWERank p) /\ is_int (PolyDegree p) /\
  is_int (LookUpTableSize p) /\ is_uint 64 (LWEStdDev p) /\
  is_uint 64 (GLWEStdDev p) /\ is_int (BlockSize p) /\
  is_T T (MessageModulus p) /\
  Gadget.wf_literal T (BlindRotateParameters p) /\
  Gadget.wf_literal T (KeySwitchParameters p) /\
  is_int (BootstrapOrder p).

(** The default parameter sets of [params_list.go]. *)
Definition ParamsEBS (logE logP brLevel : Z) : ParametersLiteral :=
  {| LWEDimension := 1160;
     GLWERank := 1;
     PolyDegree := 2048;
     LookUpTableSize := 2048 * 2 ^ logE;
     LWEStdDev := 0x3e2fd22cfdeb9769;
     GLWEStdDev := 0x3cb905c5a891bf8c;
     BlockSize := 1;
     MessageModulus := Z.shiftl 1 logP;
     BlindRotateParameters := {| Base := Z.shiftl 1 22; Level := brLevel |};
     KeySwitchParameters := {| Base := Z.shiftl 1 7; Level := 3 |};
     BootstrapOrder := OrderKeySwitchBlindRotate |}.

Definition ParamsEBS5 := ParamsEBS 1 5 1.
Definition ParamsEBS6 := ParamsEBS 2 6 1.
Definition ParamsEBS7 := ParamsEBS 3 7 2.
Definition ParamsEBS8 := ParamsEBS 4 8 2.

Definition ParamsNew (logE logP brLevel : Z) : ParametersLiteral :=
  {| LWEDimension := 1160;
     GLWERank := 1;
     PolyDegree := 2048 * 2 ^ logE;
     LookUpTableSize := 2048 * 2 ^ logE;
     LWEStdDev := 0x3e2fd22cfdeb9769;
     GLWEStdDev := 0x3cb905c5a891bf8c;
     BlockSize := 1;
     MessageModulus := Z.shiftl 1 logP;
     BlindRotateParameters := {| Base := Z.shiftl 1 22; Level := brLevel |};
     KeySwitchParameters := {| Base := Z.shiftl 1 7; Level := 3 |};
     BootstrapOrder := OrderBlindRotateKeySwitch |}.

Definition Params5 := ParamsNew 1 5 1.
Definition Params6 := ParamsNew 2 6 2.
Definition Params7 := ParamsNew 3 7 2.
Definition Params8 := ParamsNew 4 8 2.

End Params.

(** ** Big-endian encoding ([encoding/binary]) and byte streams ([io]) *)

Module binary.

Definition byte_of_Z (z : Z) : Byte.byte :=
  match Byte.of_N (Z.to_N (z mod 256)) with
  | Some b => b
  | None => Byte.x00
  end.

Definition Z_of_byte (b : Byte.byte) : Z := Z.of_N (Byte.to_N b).

(** [binary.BigEndian.PutUint64]: [b[0] = byte(v >> 56)], ...,
    [b[7] = byte(v)]. *)
Definition PutUint64 (v : Z) : list Byte.byte :=
  [ byte_of_Z (Z.shiftr v 56); byte_of_Z (Z.shiftr v 48);
    byte_of_Z (Z.shiftr v 40); byte_of_Z (Z.shiftr v 32);
    byte_of_Z (Z.shiftr v 24); byte_of_Z (Z.shiftr v 16);
    byte_of_Z (Z.shiftr v 8); byte_of_Z v ].

(** [binary.BigEndian.Uint64]:
    [uint64(b[7]) | uint64(b[6])<<8 | ... | uint64(b[0])<<56]. *)
Definition Uint64 (b : list Byte.byte) : Z :=
  match b with
  | [b0; b1; b2; b3; b4; b5; b6; b7] =>
      Z.lor (Z_of_byte b7)
        (Z.lor (Z.shiftl (Z_of_byte b6) 8)
           (Z.lor (Z.shiftl (Z_of_byte b5) 16)
              (Z.lor (Z.shiftl (Z_of_byte b4) 24)
                 (Z.lor (Z.shiftl (Z_of_byte b3) 32)
                    (Z.lor (Z.shiftl (Z_of_byte b2) 40)
                       (Z.lor (Z.shiftl (Z_of_byte b1) 48)
                          (Z.shiftl (Z_of_byte b0) 56)))))))
  | _ => 0
  end.

End binary.

Module io.

Inductive error : Type :=
| EOF
| ErrUnexpectedEOF
| ErrShortWrite.

(** An [io.Writer]: the bytes accepted so far and the room that is left.
    [room = None] is a [bytes.Buffer], which accepts everything; a sink
    with [room = Some k] accepts [k] more bytes and reports a short
    write beyond. *)
Record Writer : Type := {
  data : list Byte.byte;
  room : option Z
}.

Definition len (bs : list Byte.byte) : Z := Z.of_nat (length bs).

Definition Write (w : Writer) (bs : list Byte.byte)
  : Writer * Z * option error :=
  match room w with
  | None => ({| data := data w ++ bs; room := None |}, len bs, None)
  | Some k =>
      if len bs <=? k
      then ({| data := data w ++ bs; room := Some (k - len bs) |}, len bs, None)
      else ({| data := data w ++ take (Z.to_nat k) bs; room := Some 0 |},
            Z.max 0 k, Some ErrShortWrite)
  end.

(** Outcome of a [WriteTo]: the writer, the byte count and the error. *)
Inductive wr : Type :=
| WDone (w : Writer) (n : Z)
| WFail (w : Writer) (n : Z) (e : error).

(** The pattern
    [if nWrite, err = w.Write(buf); err != nil { return n + nWrite, err }
     n += nWrite]. *)
Definition write_then (bs : list Byte.byte) (k : Writer -> Z -> wr)
  (w : Writer) (n : Z) : wr :=
  match Write w bs with
  | (w', nWrite, Some e) => WFail w' (n + nWrite) e
  | (w', nWrite, None) => k w' (n + nWrite)
  end.

(** An [io.Reader] over a byte slice: the bytes not yet consumed. *)
Definition Reader : Type := list Byte.byte.

(** [io.ReadFull(r, buf[:k])]: the bytes read, their count, the error
    and the reader afterwards. *)
Definition ReadFull (r : Reader) (k : nat)
  : list Byte.byte * Z * option error * Reader :=
  if (k <=? length r)%nat then (take k r, Z.of_nat k, None, drop k r)
  else match r with
       | [] => ([], 0, Some EOF, [])
       | _ => (r, len r, Some ErrUnexpectedEOF, [])
       end.

(** Outcome of a [ReadFrom]: the value stored through the receiver, the
    byte count and the reader afterwards; or an error with the byte
    count; or a panic. *)
Inductive rd (A : Type) : Type :=
| RDone (a : A) (n : Z) (rest : Reader)
| RFail (n : Z) (e : error)
| RPanic (msg : string).
Arguments RDone {A} a n rest.
Arguments RFail {A} n e.
Arguments RPanic {A} msg%_string.

(** The pattern
    [if nRead, err = io.ReadFull(r, buf[:k]); err != nil { return n + nRead, err }
     n += nRead]. *)
Definition read_then {A} (k : nat) (cont : list Byte.byte -> Reader -> Z -> rd A)
  (r : Reader) (n : Z) : rd A :=
  match ReadFull r k with
  | (_, nRead, Some e, _) => RFail (n + nRead) e
  | (buf, nRead, None, r') => cont buf r' (n + nRead)
  end.

End io.

Module GadgetIO.

Import Gadget binary io.

(** [GadgetParameters.WriteTo]. *)
Definition WriteTo (p : GadgetParameters) (w : Writer) : wr :=
  write_then (PutUint64 (base p)) (fun w n =>
  write_then (PutUint64 (uint64_of_int (level p))) (fun w n =>
  if n <? ByteSize p then WFail w n ErrShortWrite else WDone w n) w n) w 0.

(** [GadgetParameters.ReadFrom]. *)
Definition ReadFrom (T : TorusInt) (r : Reader) : rd GadgetParameters :=
  read_then 8 (fun buf r n =>
  let base := wrapT T (Uint64 buf) in
  read_then 8 (fun buf r n =>
  let level := int_of_uint64 (Uint64 buf) in
  match Gadget.Compile T {| Base := base; Level := level |} with
  | Panic m => RPanic m
  | Ok p => RDone p n r
  end) r n) r 0.

(** The encoded form documented at [WriteTo]: [8] Base, [8] Level. *)
Definition encoding (p : GadgetParameters) : list Byte.byte :=
  PutUint64 (base p) ++ PutUint64 (uint64_of_int (level p)).

(** A [bytes.Buffer] holding [d]. *)
Definition buffer (d : list Byte.byte) : Writer := {| data := d; room := None |}.

End GadgetIO.

Module ParamsIO.

Import Gadget Params binary io.

(** [Parameters.WriteTo]: eight 8-byte fields, the two gadget blocks,
    one byte for the order. *)
Definition WriteTo (p : Parameters) (w : Writer) : wr :=
  write_then (PutUint64 (uint64_of_int (lweDimension p))) (fun w n =>
  write_then (PutUint64 (uint64_of_int (glweRank p))) (fun w n =>
  write_then (PutUint64 (uint64_of_int (polyDegree p))) (fun w n =>
  write_then (PutUint64 (uint64_of_int (lookUpTableSize p))) (fun w n =>
  write_then (PutUint64 (lweStdDev p)) (fun w n =>
  write_then (PutUint64 (glweStdDev p)) (fun w n =>
  write_then (PutUint64 (uint64_of_int (blockSize p))) (fun w n =>
  write_then (PutUint64 (messageModulus p)) (fun w n =>
  match GadgetIO.WriteTo (blindRotateParameters p) w with
  | WFail w nWrite64 e => WFail w (n + nWrite64) e
  | WDone w nWrite64 =>
  let n := n + nWrite64 in
  match GadgetIO.WriteTo (keySwitchParameters p) w with
  | WFail w nWrite64 e => WFail w (n + nWrite64) e
  | WDone w nWrite64 =>
  let n := n + nWrite64 in
  write_then [byte_of_Z (bootstrapOrder p)] (fun w n =>
  if n <? ByteSize p then WFail w n ErrShortWrite else WDone w n) w n
  end end) w n) w n) w n) w n) w n) w n) w n) w 0.

(** The encoded form documented at [WriteTo]: eight 8-byte fields in the
    order LWEDimension, GLWERank, PolyDegree, LookUpTableSize, LWEStdDev,
    GLWEStdDev, BlockSize, MessageModulus; then BlindRotateParameters and
    KeySwitchParameters; then one byte, BootstrapOrder. *)
Definition encoding (p : Parameters) : list Byte.byte :=
  PutUint64 (uint64_of_int (lweDimension p))
  ++ PutUint64 (uint64_of_int (glweRank p))
  ++ PutUint64 (uint64_of_int (polyDegree p))
  ++ PutUint64 (uint64_of_int (lookUpTableSize p))
  ++ PutUint64 (lweStdDev p)
  ++ PutUint64 (glweStdDev p)
  ++ PutUint64 (uint64_of_int (blockSize p))
  ++ PutUint64 (messageModulus p)
  ++ GadgetIO.encoding (blindRotateParameters p)
  ++ GadgetIO.encoding (keySwitchParameters p)
  ++ [byte_of_Z (bootstrapOrder p)].

Section WithDivRound.

Variable DivRound : Z -> Z -> Z.

(** [Parameters.ReadFrom]. *)
Definition ReadFrom (T : TorusInt) (r : Reader) : rd Parameters :=
  read_then 8 (fun buf r n =>
  let lweDimension := int_of_uint64 (Uint64 buf) in
  read_then 8 (fun buf r n =>
  let glweRank := int_of_uint64 (Uint64 buf) in
  read_then 8 (fun buf r n =>
  let polyDegree := int_of_uint64 (Uint64 buf) in
  read_then 8 (fun buf r n =>
  let lookUpTableSize := int_of_uint64 (Uint64 buf) in
  read_then 8 (fun buf r n =>
  let lweStdDev := Uint64 buf in
  read_then 8 (fun buf r n =>
  let glweStdDev := Uint64 buf in
  read_then 8 (fun buf r n =>
  let blockSize := int_of_uint64 (Uint64 buf) in
  read_then 8 (fun buf r n =>
  let messageModulus := wrapT T (Uint64 buf) in
  match GadgetIO.ReadFrom T r with
  | RPanic m => RPanic m
  | RFail nRead64 e => RFail (n + nRead64) e
  | RDone blindRotateParameters nRead64 r =>
  let n := n + nRead64 in
  match GadgetIO.ReadFrom T r with
  | RPanic m => RPanic m
  | RFail nRead64 e => RFail (n + nRead64) e
  | RDone keySwitchParameters nRead64 r =>
  let n := n + nRead64 in
  read_then 1 (fun buf r n =>
  let bootstrapOrder := match buf with b :: _ => Z_of_byte b | [] => 0 end in
  match Params.Compile DivRound T
          {| LWEDimension := lweDimension;
             GLWERank := glweRank;
             PolyDegree := polyDegree;
             LookUpTableSize := lookUpTableSize;
             LWEStdDev := lweStdDev;
             GLWEStdDev := glweStdDev;
             BlockSize := blockSize;
             MessageModulus := messageModulus;
             BlindRotateParameters := Gadget.Literal blindRotateParameters;
             KeySwitchParameters := Gadget.Literal keySwitchParameters;
             BootstrapOrder := bootstrapOrder |} with
  | Panic m => RPanic m
  | Ok p => RDone p n r
  end) r n
  end end) r n) r n) r n) r n) r n) r n) r n) r 0.

End WithDivRound.

End ParamsIO.

(** ** binary64 arithmetic as Go performs it *)

Module Float.

Definition prec : Z := 53.
Definition emax : Z := 1024.

(** [float64(x)] of an unsigned integer: round to nearest, ties to even. *)
Definition of_uint (x : Z) : spec_float := binary_normalize prec emax x 0 false.

Definition mul (a b : spec_float) : spec_float := SFmul prec emax a b.
Definition div (a b : spec_float) : spec_float := SFdiv prec emax a b.

Definition two : spec_float := of_uint 2.

(** [math.Round]: the nearest integer, halves away from zero; zeros,
    infinities, NaN and values without a fraction are returned as they
    are. *)
Definition Round (f : spec_float) : spec_float :=
  match f with
  | S754_finite s m e =>
      if 0 <=? e then f
      else
        let q := (Zpos m + 2 ^ (- e - 1)) / 2 ^ (- e) in
        binary_normalize prec emax (if s then - q else q) 0 s
  | _ => f
  end.

(** [int(f)]: truncation towards zero; a value outside [int], an
    infinity or a NaN gives the "integer indefinite" value [-2^63] (the
    amd64 behaviour; Go leaves it to the implementation). *)
Definition to_int (f : spec_float) : Z :=
  match f with
  | S754_zero _ => 0
  | S754_finite s m e =>
      let a := if 0 <=? e then Zpos m * 2 ^ e else Zpos m / 2 ^ (- e) in
      let v := if s then - a else a in
      if (- 2 ^ 63 <=? v) && (v <? 2 ^ 63) then v else - 2 ^ 63
  | _ => - 2 ^ 63
  end.

(** [math.Exp2(float64(w))] as a value. *)
Definition Exp2_int (w : Z) : spec_float := binary_normalize prec emax 1 w false.

(** Whether a float64 is the normal number [2^k]. *)
Definition is_pow2 (f : spec_float) (k : Z) : bool :=
  match f with
  | S754_finite false m e => (m =? 4503599627370496)%positive && (e =? k - 52)
  | _ => false
  end.

End Float.

(** ** The modulus switch *)

Module ModSwitchM.

Import Params.

(** The fields of [Evaluator] that the modulus switch reads.  The
    declaration of [Evaluator] is missing from the sources;
    [modSwitchConstant] is a float64 set when the evaluator is built. *)
Record Evaluator : Type := {
  Parameters : Params.Parameters;
  modSwitchConstant : spec_float
}.

(** Modelled from the spec: the constructor of the evaluator is missing
    from the sources; "constant c = 2L/Q", computed in float64. *)
Definition modSwitchConstant_spec (T : TorusInt) (p : Params.Parameters)
  : spec_float :=
  Float.div (Float.of_uint (2 * lookUpTableSize p))
            (Float.Exp2_int (num.SizeT T)).

Definition NewEvaluator_spec (T : TorusInt) (p : Params.Parameters) : Evaluator :=
  {| Parameters := p; modSwitchConstant := modSwitchConstant_spec T p |}.

(** [int(math.Round(e.modSwitchConstant*float64(x))) % (2 * lookUpTableSize)].
    (For compiled parameters the divisors below are positive.) *)
Definition ModSwitch (e : Evaluator) (x : Z) : Z :=
  Z.rem (Float.to_int (Float.Round
           (Float.mul (modSwitchConstant e) (Float.of_uint x))))
        (int_mul 2 (lookUpTableSize (Parameters e))).

(** [int(math.Round(e.modSwitchConstant*float64(x)*2)) % (2 * lookUpTableSize)]. *)
Definition ModSwitchOriginal (e : Evaluator) (x : Z) : Z :=
  Z.rem (Float.to_int (Float.Round
           (Float.mul (Float.mul (modSwitchConstant e) (Float.of_uint x))
                      Float.two)))
        (int_mul 2 (lookUpTableSize (Parameters e))).

(** The float64 value [math.Round(e.modSwitchConstant*float64(x))*2]. *)
Definition roundTimesTwo (e : Evaluator) (x : Z) : spec_float :=
  Float.mul (Float.Round (Float.mul (modSwitchConstant e) (Float.of_uint x)))
            Float.two.

(** [int(math.Round(e.modSwitchConstant*float64(x))*2) % (2 * polyDegree)]. *)
Definition ModSwitchCompress (e : Evaluator) (x : Z) : Z :=
  Z.rem (Float.to_int (roundTimesTwo e x))
        (int_mul 2 (polyDegree (Parameters e))).

(** The nearest integer to the quotient [n/d] of [n >= 0] by [d > 0],
    a half upwards. *)
Definition round_div (n d : Z) : Z := (2 * n + d) / (2 * d).

(** The integer that [float64(x)] is, for an unsigned integer [x]: [x]
    itself when it has at most 53 bits; otherwise the nearest multiple
    of [2^s], [s] the number of bits beyond 53, a tie to the even
    multiple. *)
Definition float64_of (x : Z) : Z :=
  let s := Z.log2 x - 52 in
  if s <=? 0 then x
  else
    let q := x / 2 ^ s in
    let r := x mod 2 ^ s in
    let h := 2 ^ (s - 1) in
    (if r <? h then q
     else if h <? r then q + 1
     else if Z.even q then q else q + 1) * 2 ^ s.

(** The value the specification gives for [ModSwitchCompress]:
    [round(c * x) * 2] reduced modulo [2L], with [c = 2L/Q], [L] the
    look-up-table size and [Q = 2^w]; exact arithmetic. *)
Definition ModSwitchCompress_spec (T : TorusInt) (p : Params.Parameters)
  (x : Z) : Z :=
  (round_div (2 * lookUpTableSize p * x) (2 ^ num.SizeT T) * 2)
  mod (2 * lookUpTableSize p).

End ModSwitchM.

(** ** Slices indexed by Go integers *)

Module Slice.

(** [s[i]] for reading: an index outside the slice is a run-time panic. *)
Definition index {A} (s : list A) (i : Z) : result A :=
  if (0 <=? i) && (i <? Z.of_nat (length s))
  then match s !! Z.to_nat i with
       | Some a => Ok a
       | None => Panic "index out of range"
       end
  else Panic "index out of range".

(** [s[i] = v]. *)
Definition assign {A} (s : list A) (i : Z) (v : A) : result (list A) :=
  if (0 <=? i) && (i <? Z.of_nat (length s))
  then Ok (<[Z.to_nat i := v]> s)
  else Panic "index out of range".

(** The integers [lo, lo+1, ..., lo+n-1]. *)
Definition range (lo : Z) (n : nat) : list Z :=
  map (fun k => lo + Z.of_nat k) (seq 0 n).

(** [for xx := lo; xx < hi; xx++ { s[xx] = v }]. *)
Definition fill {A} (s : list A) (lo hi : Z) (v : A) : result (list A) :=
  foldl (fun acc xx => let! s' := acc in assign s' xx v)
        (Ok s) (range lo (Z.to_nat (hi - lo))).

(** [make([]T, n)]. *)
Definition make (n : Z) : result (list Z) :=
  if n <? 0 then Panic "makeslice: len out of range"
  else Ok (replicate (Z.to_nat n) 0).

End Slice.

(** ** The look-up-table builders *)

Module LUT.

(** [int(math.Log2(float64(x)))] for an [int] [x]: the exponent of a
    power of two exactly, the floor of the binary logarithm for
    [0 < x < 2^47]; the logarithm of zero or of a negative number
    converts to the integer indefinite value. *)
Definition Log2_trunc (x : Z) : Z :=
  if x <=? 0 then - 2 ^ 63 else Z.log2 x.

(** [cur[j]] for an index that the loop keeps inside the table. *)
Definition at_ (cur : list Z) (j : nat) : Z := nth j cur 0.

(** One round of the loop that decomposes the function table:
    [n := len(cur)/2],
    [new[j] = cur[j]/2 + cur[j+n]/2], [neg[j] = cur[j]/2 - cur[j+n]/2],
    in the wrap-around arithmetic of [T]. *)
Definition halve_new (T : TorusInt) (cur : list Z) : list Z :=
  let n := (length cur / 2)%nat in
  map (fun j => wrapT T (at_ cur j / 2 + at_ cur (j + n) / 2)) (seq 0 n).

Definition halve_neg (T : TorusInt) (cur : list Z) : list Z :=
  let n := (length cur / 2)%nat in
  map (fun j => wrapT T (at_ cur j / 2 - at_ cur (j + n) / 2)) (seq 0 n).

(** [for i := 0; i < logExtendFactor; i++ { ... }]: the negative tables
    in the order they are appended, and the last current table. *)
Fixpoint decompose_loop (T : TorusInt) (rounds : nat) (cur : list Z)
  : list (list Z) * list Z :=
  match rounds with
  | O => ([], cur)
  | S r =>
      let '(negs, base) := decompose_loop T r (halve_new T cur) in
      (halve_neg T cur :: negs, base)
  end.

(** The current table at the head of round [i]. *)
Fixpoint current_at (T : TorusInt) (i : nat) (cur : list Z) : list Z :=
  match i with
  | O => cur
  | S k => current_at T k (halve_new T cur)
  end.

(** The head of [GenLookUpTableNegDecomposedFullAssign] and of
    [GenLookUpTableNegDecomposedEBSFullAssign] (the two are the same up to
    [baseFuncEval := currentFuncEval]): the tables
    [decomposedNegFuncEval] and [baseFuncEval] for the function [f], the
    argument [messageModulus] and the evaluator's [lookUpTableSize]. *)
Definition extendFactor (lookUpTableSize : Z) : Z := Z.quot lookUpTableSize 2048.

Definition logExtendFactor (lookUpTableSize : Z) : Z :=
  Log2_trunc (extendFactor lookUpTableSize).

Definition funcEval (f : Z -> Z) (m : Z) : list Z :=
  map f (Slice.range 0 (Z.to_nat m)).

Definition decomposeFuncEval (T : TorusInt) (lookUpTableSize : Z)
  (f : Z -> Z) (messageModulus : Z) : result (list (list Z) * list Z) :=
  let m := int_of_uint64 messageModulus in
  if m <? 0 then Panic "makeslice: len out of range"
  else Ok (decompose_loop T (Z.to_nat (logExtendFactor lookUpTableSize))
                          (funcEval f m)).

(** The identities of the specification, "halving the sum and the
    difference" in [Z_Q]. *)
Definition halve_new_spec (T : TorusInt) (cur : list Z) : list Z :=
  let n := (length cur / 2)%nat in
  map (fun j => wrapT T (at_ cur j + at_ cur (j + n)) / 2) (seq 0 n).

Definition halve_neg_spec (T : TorusInt) (cur : list Z) : list Z :=
  let n := (length cur / 2)%nat in
  map (fun j => wrapT T (at_ cur j - at_ cur (j + n)) / 2) (seq 0 n).

(** The code word of the compress LUT for [x]:
    [(T(1)<<63/m)*x + (T(1) << 62 / m)], shifts and divisions left to
    right, every operation in [T]. *)
Definition compressCodeword (T : TorusInt) (m x : Z) : Z :=
  wrapT T (wrapT T ((wrapT T (Z.shiftl 1 63) / m) * x)
           + wrapT T (Z.shiftl 1 62) / m).

(** The code word of the specification, [(Q/(2m))*x + Q/(4m)]. *)
Definition compressCodeword_spec (T : TorusInt) (m x : Z) : Z :=
  let Q := 2 ^ num.SizeT T in
  (Q / (2 * m)) * x + Q / (4 * m).

Section WithDivRound.

Variable DivRound : Z -> Z -> Z.

(** The first loop of the compress-LUT builders, over a raw table
    [lutRaw] of size [size]:
    [for x := T(0); x < m/2; x++ { start := ...; end := ...;
       for xx := start; xx < end; xx++ { lutRaw[xx] = codeword } }]. *)
Definition runStart (size m x : Z) : Z :=
  DivRound (int_mul (int_mul 2 (int_of_uint64 x)) size) (int_of_uint64 m).

Definition runEnd (size m x : Z) : Z :=
  DivRound (int_mul (int_mul 2 (int_add (int_of_uint64 x) 1)) size)
           (int_of_uint64 m).

Definition fillCompress (T : TorusInt) (size m : Z) (lutRaw : list Z)
  : result (list Z) :=
  foldl (fun acc x =>
           let! raw := acc in
           Slice.fill raw (runStart size m x) (runEnd size m x)
                      (compressCodeword T m x))
        (Ok lutRaw) (Slice.range 0 (Z.to_nat (m / 2))).

(** [GenCompressLUTAssign], up to the end of its first loop: the table is
    a fresh slice of [polyDegree := 2048] zeros. *)
Definition GenCompressLUT_lutRaw (T : TorusInt) (p : Params.Parameters)
  : result (list Z) :=
  let! lutRaw := Slice.make 2048 in
  fillCompress T 2048 (Params.messageModulus p) lutRaw.

(** [GenExtendedCompressLUTAssign], up to the end of its first loop: the
    table is the evaluator's buffer [lutRaw]. *)
Definition GenExtendedCompressLUT_lutRaw (T : TorusInt) (p : Params.Parameters)
  (lutRaw : list Z) : result (list Z) :=
  fillCompress T (Params.lookUpTableSize p) (Params.messageModulus p) lutRaw.

End WithDivRound.

End LUT.

Module num_spec.

(** Modelled from the spec: [num.DivRound] is missing from the sources;
    the spec's [round(a/b)], here with halves rounded up.  It is used
    only to instantiate the parameter [DivRound] on concrete inputs
    whose quotient is exact. *)
Definition DivRound (a b : Z) : Z := (2 * a + b) / (2 * b).

End num_spec.

(** ** The recursive bootstrap orchestrator *)

Module Bootstrap.

(** The ciphertext operands: the two arguments of the entry point and the
    evaluator's buffers. *)
Inductive Loc : Type :=
| ArgCt
| ArgCtOut
| ctKeySwitchForBootstrap
| ctRotate
| ctEBSAcc
| ctLWEExtracted.

Section WithLUT.

(** Look-up tables are opaque to the orchestrator. *)
Variable LookUpTable : Type.

(** The calls the orchestrator makes on the evaluator, with their
    operands in the order of the source. *)
Inductive Call : Type :=
| KeySwitchForBootstrapAssign (ct ctOut : Loc)
| blindRotateArbitraryExtendedAssign (ct : Loc) (lut : LookUpTable)
    (extendedFactor : Z) (ctOut : Loc)
| blindRotateLUTCompressAssign (ct : Loc) (lut : LookUpTable) (ctOut : Loc)
| blindRotateBaseLUTAssign (ct : Loc) (lut : LookUpTable) (ctOut : Loc)
| AddGLWEAssign (ct0 ct1 ctOut : Loc)
| ToLWECiphertextAssign (ct : Loc) (idx : Z) (ctOut : Loc).

(** A call of [blindRotateArbitraryExtendedAssign(ct, lut,
    extendedFactor, ctOut)] on an evaluator with the parameters [p].
    Its first statements (bootstrap.go, lines 519 to 523) are
    [lookuptablesize := e.Parameters.polyDegree * extendedFactor],
    [b2N := 2*lookuptablesize - e.ModSwitch(ct.Value[0])%(2*lookuptablesize)]
    and [b2NMono, b2NIdx := b2N/extendedFactor, b2N%extendedFactor],
    where [e.ModSwitch] reduces modulo [2 * lookUpTableSize]: each of
    these divisions is a run-time panic when its divisor is zero.  The
    statements that follow work on the evaluator's buffers through the
    polynomial code that the sources import; they are recorded as the
    call. *)
Definition call_blindRotateArbitraryExtendedAssign (p : Params.Parameters)
  (ct : Loc) (lut : LookUpTable) (extendedFactor : Z) (ctOut : Loc)
  : result Call :=
  let lookuptablesize := int_mul (Params.polyDegree p) extendedFactor in
  if int_mul 2 (Params.lookUpTableSize p) =? 0
  then Panic "integer divide by zero"
  else if int_mul 2 lookuptablesize =? 0 then Panic "integer divide by zero"
  else if extendedFactor =? 0 then Panic "integer divide by zero"
  else Ok (blindRotateArbitraryExtendedAssign ct lut extendedFactor ctOut).

(** A call of [blindRotateLUTCompressAssign]: its first use of the
    ciphertext is [e.ModSwitchCompress(ct.Value[0])], which reduces
    modulo [2 * polyDegree]. *)
Definition call_blindRotateLUTCompressAssign (p : Params.Parameters)
  (ct : Loc) (lut : LookUpTable) (ctOut : Loc) : result Call :=
  if int_mul 2 (Params.polyDegree p) =? 0 then Panic "integer divide by zero"
  else Ok (blindRotateLUTCompressAssign ct lut ctOut).

(** A call of [blindRotateBaseLUTAssign]: its first use of the
    ciphertext is [e.ModSwitchToBase(ct.Value[0])], which reduces modulo
    [2 * polyDegree]. *)
Definition call_blindRotateBaseLUTAssign (p : Params.Parameters)
  (ct : Loc) (lut : LookUpTable) (ctOut : Loc) : result Call :=
  if int_mul 2 (Params.polyDegree p) =? 0 then Panic "integer divide by zero"
  else Ok (blindRotateBaseLUTAssign ct lut ctOut).

(** [for i := ...; i < len(decomposedLUT)-1; i++ { ... }], [count]
    rounds from index [i]. *)
Fixpoint negLoop (p : Params.Parameters) (ct ctOut : Loc)
  (decomposedLUT : list LookUpTable) (i : Z) (count : nat)
  : result (list Call) :=
  match count with
  | O => Ok []
  | S c =>
      let! lut := Slice.index decomposedLUT i in
      let! ef := int_div (Params.polyExtendFactor p) (int_shl 1 (i + 1)) in
      let! rot := call_blindRotateArbitraryExtendedAssign p ct lut ef ctEBSAcc in
      let! rest := negLoop p ct ctOut decomposedLUT (i + 1) c in
      Ok (rot :: AddGLWEAssign ctEBSAcc ctOut ctOut :: rest)
  end.

(** [BlindRotateExtendedFullDomainAssignNew] on an evaluator with the
    parameters [p]. *)
Definition BlindRotateExtendedFullDomainAssignNew (p : Params.Parameters)
  (ct : Loc) (lutCompress : LookUpTable) (decomposedLUT : list LookUpTable)
  (ctOut : Loc) : result (list Call) :=
  let len := Z.of_nat (length decomposedLUT) in
  let! lut0 := Slice.index decomposedLUT 0 in
  let! rot0 := call_blindRotateArbitraryExtendedAssign p ct lut0
                 (Z.quot (Params.polyExtendFactor p) 2) ctOut in
  let! negs := negLoop p ct ctOut decomposedLUT 1 (Z.to_nat (len - 1 - 1)) in
  let! compress := call_blindRotateLUTCompressAssign p ct lutCompress ctEBSAcc in
  let! lutBase := Slice.index decomposedLUT (len - 1) in
  let! base := call_blindRotateBaseLUTAssign p ctKeySwitchForBootstrap lutBase
                 ctEBSAcc in
  Ok ([rot0]
      ++ negs
      ++ [compress;
          ToLWECiphertextAssign ctEBSAcc 0 ctLWEExtracted;
          KeySwitchForBootstrapAssign ctLWEExtracted ctKeySwitchForBootstrap;
          base;
          AddGLWEAssign ctEBSAcc ctOut ctOut]).

(** [BootstrapExtendedFullDomainAssignNew] on an evaluator with the
    parameters [p]. *)
Definition BootstrapExtendedFullDomainAssignNew (p : Params.Parameters)
  (lutCompress : LookUpTable) (decomposedLut : list LookUpTable)
  : result (list Call) :=
  let! rot := BlindRotateExtendedFullDomainAssignNew p
                ctKeySwitchForBootstrap lutCompress decomposedLut ctRotate in
  Ok (KeySwitchForBootstrapAssign ArgCt ctKeySwitchForBootstrap
      :: rot ++ [ToLWECiphertextAssign ctRotate 0 ArgCtOut]).

(** The sequence (i)-(iv) of the specification, for the ciphertext [ct]
    that is rotated and the accumulator [acc]:
    (i) blind-rotate through [decomposedLUT[0]] with extend factor [e/2];
    (ii) for [k] from 1 to [len-2], blind-rotate through
    [decomposedLUT[k]] with extend factor [e/2^(k+1)] and add into the
    accumulator; (iii) blind-rotate through the compress LUT,
    sample-extract coefficient 0, key-switch, blind-rotate through the
    base LUT [decomposedLUT[len-1]], add into the accumulator;
    (iv) sample-extract index 0 of the accumulator into the output. *)
Definition step_ii (e : Z) (ct acc : Loc) (decomposedLUT : list LookUpTable)
  (k : Z) : result (list Call) :=
  let! lut := Slice.index decomposedLUT k in
  Ok [blindRotateArbitraryExtendedAssign ct lut (e / 2 ^ (k + 1)) ctEBSAcc;
      AddGLWEAssign ctEBSAcc acc acc].

Fixpoint concat_results (rs : list (result (list Call))) : result (list Call) :=
  match rs with
  | [] => Ok []
  | r :: rest =>
      let! a := r in
      let! b := concat_results rest in
      Ok (a ++ b)
  end.

Definition spec_sequence (e : Z) (ct acc : Loc) (lutCompress : LookUpTable)
  (decomposedLUT : list LookUpTable) : result (list Call) :=
  let len := Z.of_nat (length decomposedLUT) in
  let! lut0 := Slice.index decomposedLUT 0 in
  let! ii := concat_results
               (map (step_ii e ct acc decomposedLUT)
                    (Slice.range 1 (Z.to_nat (len - 2)))) in
  let! lutBase := Slice.index decomposedLUT (len - 1) in
  Ok ([blindRotateArbitraryExtendedAssign ct lut0 (e / 2) acc]
      ++ ii
      ++ [blindRotateLUTCompressAssign ct lutCompress ctEBSAcc;
          ToLWECiphertextAssign ctEBSAcc 0 ctLWEExtracted;
          KeySwitchForBootstrapAssign ctLWEExtracted ctKeySwitchForBootstrap;
          blindRotateBaseLUTAssign ctKeySwitchForBootstrap lutBase ctEBSAcc;
          AddGLWEAssign ctEBSAcc acc acc]
      ++ [ToLWECiphertextAssign acc 0 ArgCtOut]).

End WithLUT.

Arguments KeySwitchForBootstrapAssign {LookUpTable} ct ctOut.
Arguments blindRotateArbitraryExtendedAssign {LookUpTable} ct lut extendedFactor ctOut.
Arguments blindRotateLUTCompressAssign {LookUpTable} ct lut ctOut.
Arguments blindRotateBaseLUTAssign {LookUpTable} ct lut ctOut.
Arguments AddGLWEAssign {LookUpTable} ct0 ct1 ctOut.
Arguments ToLWECiphertextAssign {LookUpTable} ct idx ctOut.
Arguments call_blindRotateArbitraryExtendedAssign {LookUpTable}.
Arguments call_blindRotateLUTCompressAssign {LookUpTable}.
Arguments call_blindRotateBaseLUTAssign {LookUpTable}.
Arguments BootstrapExtendedFullDomainAssignNew {LookUpTable}.
Arguments BlindRotateExtendedFullDomainAssignNew {LookUpTable}.
Arguments spec_sequence {LookUpTable}.
Arguments negLoop {LookUpTable}.
Arguments step_ii {LookUpTable}.
Arguments concat_results {LookUpTable}.

End Bootstrap.

(** ** The encryptor and its secret keys *)

Module Enc.

Import Params.

(** A Go slice of [T]: a view [off, off+len) into the buffer [ptr], which
    may be re-sliced up to [cap]. *)
Record slice : Type := {
  ptr : nat;
  off : Z;
  len : Z;
  cap : Z
}.

Definition nil_slice : slice := {| ptr := 0%nat; off := 0; len := 0; cap := 0 |}.

(** [s[lo:hi]]. *)
Definition reslice (s : slice) (lo hi : Z) : result slice :=
  if (0 <=? lo) && (lo <=? hi) && (hi <=? cap s)
  then Ok {| ptr := ptr s; off := off s + lo; len := hi - lo; cap := cap s - lo |}
  else Panic "slice bounds out of range".

(** Modelled from the spec: the declaration of [SecretKey] is missing
    from the sources; the LWE-large key, the GLWE key as [k] polynomials,
    its Fourier image and the LWE key. *)
Record SecretKey : Type := {
  LWELargeKey : slice;
  GLWEKey : list slice;       (* Value[j].Coeffs *)
  FourierGLWEKey : nat;       (* the object holding the Fourier image *)
  LWEKey : slice
}.

Definition nil_key : SecretKey :=
  {| LWELargeKey := nil_slice; GLWEKey := []; FourierGLWEKey := 0%nat;
     LWEKey := nil_slice |}.

(** The collaborators of the encryptor, which the sources import:
    samplers with their stream state, the Fourier transform, and the
    encoder, transformer, polynomial evaluator and scratch buffers as
    opaque values. *)
Class Collaborators : Type := {
  sampler : Type;
  sampler_seed : nat -> sampler;
  SampleVec : sampler -> nat -> list Z * sampler;
  SampleBlockVec : sampler -> Z -> nat -> list Z * sampler;
  FourierPoly : Type;
  ToFourierPoly : list Z -> FourierPoly;
  Encoder : Type;
  GLWETransformer : Type;
  PolyEvaluator : Type;
  encryptionBuffer : Type;
  NewEncoder : Parameters -> Encoder;
  NewGLWETransformer : Z -> GLWETransformer;
  NewPolyEvaluator : Z -> PolyEvaluator;
  newEncryptionBuffer : Parameters -> encryptionBuffer;
  (* a sampler writes every element of the slice it is given *)
  SampleVec_length : forall st n, length (fst (SampleVec st n)) = n;
  SampleBlockVec_length : forall st b n, length (fst (SampleBlockVec st b n)) = n
}.

Section WithCollaborators.

Context {C : Collaborators}.

(** The memory the encryptors share: the buffers of torus elements, the
    Fourier keys, and the sampler objects. *)
Record World : Type := {
  torus : gmap nat (list Z);
  fourier : gmap nat (list FourierPoly);
  samplers : gmap nat sampler
}.

Record Encryptor : Type := {
  Encoder_ : Encoder;
  GLWETransformer_ : GLWETransformer;
  Parameters : Params.Parameters;
  UniformSampler : nat;
  BinarySampler : nat;
  GaussianSampler : nat;
  PolyEvaluator_ : PolyEvaluator;
  SecretKey_ : SecretKey;
  buffer : encryptionBuffer
}.

(** Code that reads and writes the shared memory and can panic. *)
Definition M (A : Type) : Type := World -> result (A * World).

Definition ret {A} (a : A) : M A := fun w => Ok (a, w).

Definition mbind {A B} (m : M A) (k : A -> M B) : M B :=
  fun w => match m w with
           | Ok (a, w') => k a w'
           | Panic msg => Panic msg
           end.

Definition lift {A} (r : result A) : M A :=
  fun w => match r with Ok a => Ok (a, w) | Panic msg => Panic msg end.

Notation "'do!' x ':=' m 'in' k" := (mbind m (fun x => k))
  (at level 10, x pattern, m at level 100, k at level 200).

(** The elements seen through a slice. *)
Definition elems (w : World) (s : slice) : list Z :=
  match torus w !! ptr s with
  | Some buf => take (Z.to_nat (len s)) (drop (Z.to_nat (off s)) buf)
  | None => []
  end.

(** [s[i]] read through the slice [s]. *)
Definition get (w : World) (s : slice) (i : Z) : option Z :=
  match torus w !! ptr s with
  | Some buf => buf !! Z.to_nat (off s + i)
  | None => None
  end.

(** [s[i] = v] written through the slice [s]. *)
Definition set (w : World) (s : slice) (i : Z) (v : Z) : World :=
  {| torus := alter (fun buf => <[Z.to_nat (off s + i) := v]> buf) (ptr s) (torus w);
     fourier := fourier w;
     samplers := samplers w |}.

(** Overwriting all the elements of a slice. *)
Definition store (s : slice) (vals : list Z) : M unit := fun w =>
  match torus w !! ptr s with
  | Some buf =>
      let o := Z.to_nat (off s) in
      let n := Z.to_nat (len s) in
      Ok (tt, {| torus := <[ptr s := take o buf ++ take n vals ++ drop (o + n) buf]> (torus w);
                 fourier := fourier w;
                 samplers := samplers w |})
  | None => Panic "nil pointer dereference"
  end.

(** [make([]T, n)]: a fresh buffer of zeros and the slice over it. *)
Definition make (n : Z) : M slice := fun w =>
  if n <? 0 then Panic "makeslice: len out of range"
  else
    let a := fresh (dom (torus w)) in
    Ok ({| ptr := a; off := 0; len := n; cap := n |},
        {| torus := <[a := replicate (Z.to_nat n) 0]> (torus w);
           fourier := fourier w;
           samplers := samplers w |}).

(** [csprng.New...Sampler()]: a fresh sampler object. *)
Definition NewSampler : M nat := fun w =>
  let a := fresh (dom (samplers w)) in
  Ok (a, {| torus := torus w;
            fourier := fourier w;
            samplers := <[a := sampler_seed a]> (samplers w) |}).

(** [NewFourierGLWESecretKey]: a fresh object for the Fourier image. *)
Definition NewFourierGLWESecretKey (p : Params.Parameters) : M nat := fun w =>
  let a := fresh (dom (fourier w)) in
  Ok (a, {| torus := torus w;
            fourier := <[a := replicate (Z.to_nat (glweRank p)) (ToFourierPoly [])]> (fourier w);
            samplers := samplers w |}).

(** [BinarySampler.SampleVecAssign(v)]. *)
Definition SampleVecAssign (bs : nat) (v : slice) : M unit := fun w =>
  match samplers w !! bs with
  | Some st =>
      let '(vals, st') := SampleVec st (Z.to_nat (len v)) in
      store v vals {| torus := torus w;
                      fourier := fourier w;
                      samplers := <[bs := st']> (samplers w) |}
  | None => Panic "nil pointer dereference"
  end.

(** [BinarySampler.SampleBlockVecAssign(blockSize, v)]. *)
Definition SampleBlockVecAssign (bs : nat) (blockSize : Z) (v : slice)
  : M unit := fun w =>
  match samplers w !! bs with
  | Some st =>
      let '(vals, st') := SampleBlockVec st blockSize (Z.to_nat (len v)) in
      store v vals {| torus := torus w;
                      fourier := fourier w;
                      samplers := <[bs := st']> (samplers w) |}
  | None => Panic "nil pointer dereference"
  end.

(** [ToFourierGLWESecretKeyAssign(skIn, skOut)]: the Fourier image of
    every polynomial of [skIn] is written into the object [skOut]. *)
Definition ToFourierGLWESecretKeyAssign (skIn : list slice) (skOut : nat)
  : M unit := fun w =>
  match fourier w !! skOut with
  | Some _ =>
      Ok (tt, {| torus := torus w;
                 fourier := <[skOut := map (fun s => ToFourierPoly (elems w s)) skIn]> (fourier w);
                 samplers := samplers w |})
  | None => Panic "nil pointer dereference"
  end.

(** Modelled from the spec: [NewSecretKey] is missing from the sources.
    "The GLWE secret is k polynomials of degree N; its flattened
    coefficient vector is the head of the LWE-large key": one buffer of
    [glweDimension] elements, the GLWE polynomials its consecutive chunks
    of [polyDegree] elements, the LWE key its first [lweDimension]
    elements. *)
Fixpoint chunks (large : slice) (N : Z) (j : Z) (count : nat)
  : result (list slice) :=
  match count with
  | O => Ok []
  | S c =>
      let! s := reslice large (int_mul j N) (int_mul (int_add j 1) N) in
      let! rest := chunks large N (j + 1) c in
      Ok (s :: rest)
  end.

Definition NewSecretKey (p : Params.Parameters) : M SecretKey :=
  do! large := make (glweDimension p) in
  do! glwe := lift (if glweRank p <? 0 then Panic "makeslice: len out of range"
                    else chunks large (polyDegree p) 0 (Z.to_nat (glweRank p))) in
  do! fkey := NewFourierGLWESecretKey p in
  do! lwe := lift (reslice large 0 (lweDimension p)) in
  ret {| LWELargeKey := large; GLWEKey := glwe; FourierGLWEKey := fkey;
         LWEKey := lwe |}.

(** [Encryptor.GenSecretKey]: the key and the encryptor after the call. *)
Definition GenSecretKey (e : Encryptor) : M (SecretKey * Encryptor) :=
  do! sk := NewSecretKey (Parameters e) in
  do! _ :=
    (if blockSize (Parameters e) =? 1
     then SampleVecAssign (BinarySampler e) (LWELargeKey sk)
     else
       do! head := lift (reslice (LWELargeKey sk) 0 (lweDimension (Parameters e))) in
       do! _ := SampleBlockVecAssign (BinarySampler e) (blockSize (Parameters e)) head in
       do! tail := lift (reslice (LWELargeKey sk) (lweDimension (Parameters e))
                                 (len (LWELargeKey sk))) in
       SampleVecAssign (BinarySampler e) tail) in
  do! _ := ToFourierGLWESecretKeyAssign (GLWEKey sk) (FourierGLWEKey sk) in
  ret (sk, e).

(** The key material [GenSecretKey] draws from a binary sampler in
    state [st]: one vector of [g] elements when the block size is 1;
    otherwise [n] block-binary elements followed by [g - n] binary
    ones.  With it, the state of the sampler afterwards. *)
Definition sampledKey (p : Params.Parameters) (st : sampler) : list Z * sampler :=
  if blockSize p =? 1
  then SampleVec st (Z.to_nat (glweDimension p))
  else
    let '(v1, st1) := SampleBlockVec st (blockSize p) (Z.to_nat (lweDimension p)) in
    let '(v2, st2) := SampleVec st1 (Z.to_nat (glweDimension p - lweDimension p)) in
    (v1 ++ v2, st2).

Definition with_key (e : Encryptor) (sk : SecretKey) : Encryptor :=
  {| Encoder_ := Encoder_ e;
     GLWETransformer_ := GLWETransformer_ e;
     Parameters := Parameters e;
     UniformSampler := UniformSampler e;
     BinarySampler := BinarySampler e;
     GaussianSampler := GaussianSampler e;
     PolyEvaluator_ := PolyEvaluator_ e;
     SecretKey_ := sk;
     buffer := buffer e |}.

(** [NewEncryptor]. *)
Definition NewEncryptor (params : Params.Parameters) : M Encryptor :=
  do! us := NewSampler in
  do! bs := NewSampler in
  do! gs := NewSampler in
  let encryptor :=
    {| Encoder_ := NewEncoder params;
       GLWETransformer_ := NewGLWETransformer (polyDegree params);
       Parameters := params;
       UniformSampler := us;
       BinarySampler := bs;
       GaussianSampler := gs;
       PolyEvaluator_ := NewPolyEvaluator (polyDegree params);
       SecretKey_ := nil_key;
       buffer := newEncryptionBuffer params |} in
  do! (sk, encryptor) := GenSecretKey encryptor in
  ret (with_key encryptor sk).

(** [newParams := params] with the four fields replaced. *)
Definition with_degree (params : Params.Parameters)
  (polyDegree' lookUpTableSize' glweDimension' logPolyDegree' : Z)
  : Params.Parameters :=
  {| lweDimension := lweDimension params;
     glweDimension := glweDimension';
     glweRank := glweRank params;
     polyDegree := polyDegree';
     logPolyDegree := logPolyDegree';
     lookUpTableSize := lookUpTableSize';
     polyExtendFactor := polyExtendFactor params;
     lweStdDev := lweStdDev params;
     glweStdDev := glweStdDev params;
     blockSize := blockSize params;
     blockCount := blockCount params;
     messageModulus := messageModulus params;
     scale := scale params;
     logQ := logQ params;
     floatQ := floatQ params;
     blindRotateParameters := blindRotateParameters params;
     keySwitchParameters := keySwitchParameters params;
     bootstrapOrder := bootstrapOrder params |}.

(** [depth := bits.TrailingZeros(uint(params.polyDegree / 2048))]. *)
Definition hierarchy_depth (params : Params.Parameters) : Z :=
  TrailingZeros (uint64_of_int (Z.quot (polyDegree params) 2048)).

(** The first loop of [NewEncryptorHierarchyWithSharedLWEKey]: [count]
    encryptors, the four sizes halved after each. *)
Fixpoint buildLevels (params : Params.Parameters)
  (polyDegree' lookUpTableSize' glweDimension' logPolyDegree' : Z)
  (count : nat) : M (list Encryptor) :=
  match count with
  | O => ret []
  | S c =>
      do! enc := NewEncryptor (with_degree params polyDegree' lookUpTableSize'
                                           glweDimension' logPolyDegree') in
      do! rest := buildLevels params (Z.quot polyDegree' 2)
                    (Z.quot lookUpTableSize' 2) (Z.quot glweDimension' 2)
                    (int_sub logPolyDegree' 1) c in
      ret (enc :: rest)
  end.

(** The body of the second loop, for the encryptor [e] at an index
    [i >= 1], with the LWE-large key of [encryptors[0]]. *)
Definition shareKey (large0 : slice) (e : Encryptor) : M Encryptor :=
  let length' := glweDimension (Parameters e) in
  do! large := lift (reslice large0 0 length') in
  do! lwe := lift (reslice large 0 (lweDimension (Parameters e))) in
  let glweRank := glweRank (Parameters e) in
  let polyDegree := polyDegree (Parameters e) in
  do! glwe :=
    lift (foldl (fun acc j =>
                   let! g := acc in
                   let! c := reslice large (int_mul j polyDegree)
                                     (int_mul (int_add j 1) polyDegree) in
                   if (j <? Z.of_nat (length g))
                   then Ok (<[Z.to_nat j := c]> g)
                   else Panic "index out of range")
                (Ok (GLWEKey (SecretKey_ e)))
                (Slice.range 0 (Z.to_nat glweRank))) in
  let sk := {| LWELargeKey := large; GLWEKey := glwe;
               FourierGLWEKey := FourierGLWEKey (SecretKey_ e);
               LWEKey := lwe |} in
  do! _ := ToFourierGLWESecretKeyAssign glwe (FourierGLWEKey sk) in
  ret (with_key e sk).

(** [for i := ...; i < depth; i++ { ... }] of the second loop: [count]
    rounds from index [i], each on [encryptors[i]] with the key of
    [encryptors[0]]. *)
Fixpoint shareLoop (encryptors : list Encryptor) (i : nat) (count : nat)
  : M (list Encryptor) :=
  match count with
  | O => ret encryptors
  | S c =>
      match encryptors !! 0%nat, encryptors !! i with
      | Some e0, Some ei =>
          do! ei' := shareKey (LWELargeKey (SecretKey_ e0)) ei in
          shareLoop (<[i := ei']> encryptors) (S i) c
      | _, _ => lift (Panic "index out of range")
      end
  end.

(** [NewEncryptorHierarchyWithSharedLWEKey]. *)
Definition NewEncryptorHierarchyWithSharedLWEKey (params : Params.Parameters)
  : M (list Encryptor) :=
  let depth := hierarchy_depth params in
  do! encryptors := buildLevels params
                      (Z.quot (polyDegree params) 2)
                      (Z.quot (lookUpTableSize params) 2)
                      (Z.quot (glweDimension params) 2)
                      (int_sub (logPolyDegree params) 1)
                      (Z.to_nat depth) in
  match encryptors !! 0%nat with
  | None => lift (Panic "index out of range")
  | Some e0 =>
      do! (sk, e0) := GenSecretKey e0 in
      shareLoop (<[0%nat := with_key e0 sk]> encryptors) 1 (Z.to_nat (depth - 1))
  end.

End WithCollaborators.

End Enc.

(** ** Concrete inputs *)

Module Inputs.

Import Gadget Params.

(** [ParamsEBS5] with a negative block size. *)
Definition ParamsEBS5_negative_block : ParametersLiteral :=
  {| LWEDimension := LWEDimension ParamsEBS5;
     GLWERank := GLWERank ParamsEBS5;
     PolyDegree := PolyDegree ParamsEBS5;
     LookUpTableSize := LookUpTableSize ParamsEBS5;
     LWEStdDev := LWEStdDev ParamsEBS5;
     GLWEStdDev := GLWEStdDev ParamsEBS5;
     BlockSize := -1;
     MessageModulus := MessageModulus ParamsEBS5;
     BlindRotateParameters := BlindRotateParameters ParamsEBS5;
     KeySwitchParameters := KeySwitchParameters ParamsEBS5;
     BootstrapOrder := BootstrapOrder ParamsEBS5 |}.

(** [ParamsEBS5] with a message modulus of zero. *)
Definition ParamsEBS5_zero_modulus : ParametersLiteral :=
  {| LWEDimension := LWEDimension ParamsEBS5;
     GLWERank := GLWERank ParamsEBS5;
     PolyDegree := PolyDegree ParamsEBS5;
     LookUpTableSize := LookUpTableSize ParamsEBS5;
     LWEStdDev := LWEStdDev ParamsEBS5;
     GLWEStdDev := GLWEStdDev ParamsEBS5;
     BlockSize := BlockSize ParamsEBS5;
     MessageModulus := 0;
     BlindRotateParameters := BlindRotateParameters ParamsEBS5;
     KeySwitchParameters := KeySwitchParameters ParamsEBS5;
     BootstrapOrder := BootstrapOrder ParamsEBS5 |}.

(** [ParamsEBS5.Compile()] on [uint64]. *)
Definition paramsEBS5 : Parameters :=
  {| lweDimension := 1160;
     glweDimension := 2048;
     glweRank := 1;
     polyDegree := 2048;
     logPolyDegree := 11;
     lookUpTableSize := 4096;
     polyExtendFactor := 2;
     lweStdDev := 0x3e2fd22cfdeb9769;
     glweStdDev := 0x3cb905c5a891bf8c;
     blockSize := 1;
     blockCount := 1160;
     messageModulus := 32;
     scale := 2 ^ 59;
     logQ := 64;
     floatQ := 0x43f0000000000000;
     blindRotateParameters :=
       {| base := 2 ^ 22; logBase := 22; level := 1; sizeT := 64 |};
     keySwitchParameters :=
       {| base := 2 ^ 7; logBase := 7; level := 3; sizeT := 64 |};
     bootstrapOrder := OrderKeySwitchBlindRotate |}.

(** [ParamsEBS6.Compile()] on [uint64]. *)
Definition paramsEBS6 : Parameters :=
  {| lweDimension := 1160;
     glweDimension := 2048;
     glweRank := 1;
     polyDegree := 2048;
     logPolyDegree := 11;
     lookUpTableSize := 8192;
     polyExtendFactor := 4;
     lweStdDev := 0x3e2fd22cfdeb9769;
     glweStdDev := 0x3cb905c5a891bf8c;
     blockSize := 1;
     blockCount := 1160;
     messageModulus := 64;
     scale := 2 ^ 58;
     logQ := 64;
     floatQ := 0x43f0000000000000;
     blindRotateParameters :=
       {| base := 2 ^ 22; logBase := 22; level := 1; sizeT := 64 |};
     keySwitchParameters :=
       {| base := 2 ^ 7; logBase := 7; level := 3; sizeT := 64 |};
     bootstrapOrder := OrderKeySwitchBlindRotate |}.

(** The evaluator of [ParamsEBS5]. *)
Definition evalEBS5 : ModSwitchM.Evaluator :=
  ModSwitchM.NewEvaluator_spec U64 paramsEBS5.

(** A parameter set on [uint32] with message modulus 32, and its
    compiled form. *)
Definition ParamsU32 : ParametersLiteral :=
  {| LWEDimension := 600;
     GLWERank := 1;
     PolyDegree := 2048;
     LookUpTableSize := 2048;
     LWEStdDev := 0x3e2fd22cfdeb9769;
     GLWEStdDev := 0x3cb905c5a891bf8c;
     BlockSize := 1;
     MessageModulus := Z.shiftl 1 5;
     BlindRotateParameters := {| Base := Z.shiftl 1 8; Level := 3 |};
     KeySwitchParameters := {| Base := Z.shiftl 1 4; Level := 4 |};
     BootstrapOrder := OrderKeySwitchBlindRotate |}.

Definition paramsU32 : Parameters :=
  {| lweDimension := 600;
     glweDimension := 2048;
     glweRank := 1;
     polyDegree := 2048;
     logPolyDegree := 11;
     lookUpTableSize := 2048;
     polyExtendFactor := 1;
     lweStdDev := 0x3e2fd22cfdeb9769;
     glweStdDev := 0x3cb905c5a891bf8c;
     blockSize := 1;
     blockCount := 600;
     messageModulus := 32;
     scale := 2 ^ 27;
     logQ := 32;
     floatQ := 0x41f0000000000000;
     blindRotateParameters :=
       {| base := 2 ^ 8; logBase := 8; level := 3; sizeT := 32 |};
     keySwitchParameters :=
       {| base := 2 ^ 4; logBase := 4; level := 4; sizeT := 32 |};
     bootstrapOrder := OrderKeySwitchBlindRotate |}.

(** A parameter set with polynomial degree 1024, and its compiled
    form. *)
Definition Params1024 : ParametersLiteral :=
  {| LWEDimension := 500;
     GLWERank := 1;
     PolyDegree := 1024;
     LookUpTableSize := 1024;
     LWEStdDev := 0x3e2fd22cfdeb9769;
     GLWEStdDev := 0x3cb905c5a891bf8c;
     BlockSize := 1;
     MessageModulus := Z.shiftl 1 4;
     BlindRotateParameters := {| Base := Z.shiftl 1 22; Level := 1 |};
     KeySwitchParameters := {| Base := Z.shiftl 1 7; Level := 3 |};
     BootstrapOrder := OrderBlindRotateKeySwitch |}.

Definition params1024 : Parameters :=
  {| lweDimension := 500;
     glweDimension := 1024;
     glweRank := 1;
     polyDegree := 1024;
     logPolyDegree := 10;
     lookUpTableSize := 1024;
     polyExtendFactor := 1;
     lweStdDev := 0x3e2fd22cfdeb9769;
     glweStdDev := 0x3cb905c5a891bf8c;
     blockSize := 1;
     blockCount := 500;
     messageModulus := 16;
     scale := 2 ^ 60;
     logQ := 64;
     floatQ := 0x43f0000000000000;
     blindRotateParameters :=
       {| base := 2 ^ 22; logBase := 22; level := 1; sizeT := 64 |};
     keySwitchParameters :=
       {| base := 2 ^ 7; logBase := 7; level := 3; sizeT := 64 |};
     bootstrapOrder := OrderBlindRotateKeySwitch |}.

(** [Params6.Compile()] on [uint64]. *)
Definition params6 : Parameters :=
  {| lweDimension := 1160;
     glweDimension := 8192;
     glweRank := 1;
     polyDegree := 8192;
     logPolyDegree := 13;
     lookUpTableSize := 8192;
     polyExtendFactor := 1;
     lweStdDev := 0x3e2fd22cfdeb9769;
     glweStdDev := 0x3cb905c5a891bf8c;
     blockSize := 1;
     blockCount := 1160;
     messageModulus := 64;
     scale := 2 ^ 58;
     logQ := 64;
     floatQ := 0x43f0000000000000;
     blindRotateParameters :=
       {| base := 2 ^ 22; logBase := 22; level := 2; sizeT := 64 |};
     keySwitchParameters :=
       {| base := 2 ^ 7; logBase := 7; level := 3; sizeT := 64 |};
     bootstrapOrder := OrderBlindRotateKeySwitch |}.

(** Collaborators for running the encryptor on concrete inputs: a
    sampler is a position in a fixed bit stream, a Fourier polynomial is
    kept as its coefficients, the other components carry no data. *)
Definition streamCollaborators : Enc.Collaborators :=
  {| Enc.sampler := Z;
     Enc.sampler_seed := fun a => Z.of_nat a;
     Enc.SampleVec := fun st n =>
       (map (fun i => (st + Z.of_nat i) mod 2) (seq 0 n), st + Z.of_nat n);
     Enc.SampleBlockVec := fun st b n =>
       (map (fun i => if Z.of_nat i mod b =? st mod b then 1 else 0) (seq 0 n),
        st + Z.of_nat n);
     Enc.FourierPoly := list Z;
     Enc.ToFourierPoly := fun coeffs => coeffs;
     Enc.Encoder := unit;
     Enc.GLWETransformer := unit;
     Enc.PolyEvaluator := unit;
     Enc.encryptionBuffer := unit;
     Enc.NewEncoder := fun _ => tt;
     Enc.NewGLWETransformer := fun _ => tt;
     Enc.NewPolyEvaluator := fun _ => tt;
     Enc.newEncryptionBuffer := fun _ => tt;
     Enc.SampleVec_length := fun st n =>
       eq_trans (length_map _ _) (length_seq n 0);
     Enc.SampleBlockVec_length := fun st b n =>
       eq_trans (length_map _ _) (length_seq n 0) |}.

Definition emptyWorld : @Enc.World streamCollaborators :=
  {| Enc.torus := ∅; Enc.fourier := ∅; Enc.samplers := ∅ |}.

(** An encryptor for [ParamsEBS5] that has no key yet, in a memory that
    holds its binary sampler. *)
Definition encryptorEBS5 : @Enc.Encryptor streamCollaborators :=
  @Enc.Build_Encryptor streamCollaborators
    tt tt paramsEBS5 0%nat 1%nat 2%nat tt Enc.nil_key tt.

Definition worldWithSampler : @Enc.World streamCollaborators :=
  {| Enc.torus := ∅; Enc.fourier := ∅; Enc.samplers := {[ 1%nat := 0 ]} |}.

End Inputs.

(** ** Gadget parameters: the scaled bases *)

Module GadgetQ.

Import Gadget.

(** [T(1 << s)] for an [int] count [s]: the constant takes the type
    [T]; a negative count is a run-time panic, a count of the width of
    [T] or more gives 0. *)
Definition one_shl (T : TorusInt) (s : Z) : result Z :=
  if s <? 0 then Panic "negative shift amount"
  else Ok (wrapT T (Z.shiftl 1 s)).

(** [p.sizeT - (i+1)*p.logBase]. *)
Definition LogBaseQ (p : GadgetParameters) (i : Z) : Z :=
  int_sub (sizeT p) (int_mul (int_add i 1) (logBase p)).

(** [p.sizeT - p.logBase]. *)
Definition LogFirstBaseQ (p : GadgetParameters) : Z :=
  int_sub (sizeT p) (logBase p).

(** [p.sizeT - p.level*p.logBase]. *)
Definition LogLastBaseQ (p : GadgetParameters) : Z :=
  int_sub (sizeT p) (int_mul (level p) (logBase p)).

(** [T(1 << (p.sizeT - (i+1)*p.logBase))]. *)
Definition BaseQ (T : TorusInt) (p : GadgetParameters) (i : Z) : result Z :=
  one_shl T (LogBaseQ p i).

Definition FirstBaseQ (T : TorusInt) (p : GadgetParameters) : result Z :=
  one_shl T (LogFirstBaseQ p).

Definition LastBaseQ (T : TorusInt) (p : GadgetParameters) : result Z :=
  one_shl T (LogLastBaseQ p).

End GadgetQ.

(** ** Parameters: the entities that depend on the bootstrap order *)

Module ParamsQ.

Import Params.

(** [Parameters.DefaultLWEDimension]. *)
Definition DefaultLWEDimension (p : Parameters) : Z :=
  if bootstrapOrder p =? OrderBlindRotateKeySwitch then lweDimension p
  else glweDimension p.

(** [Parameters.DefaultLWEStdDev] (the float64 as its bit pattern). *)
Definition DefaultLWEStdDev (p : Parameters) : Z :=
  if bootstrapOrder p =? OrderBlindRotateKeySwitch then lweStdDev p
  else glweStdDev p.

(** [Parameters.IsPublicKeyEncryptable]. *)
Definition IsPublicKeyEncryptable (p : Parameters) : bool :=
  bootstrapOrder p =? OrderKeySwitchBlindRotate.

End ParamsQ.

(** ** [MarshalBinary] and [UnmarshalBinary] *)

Module Marshal.

Import Gadget Params io.

(** [GadgetParameters.MarshalBinary]: [WriteTo] into an empty
    [bytes.Buffer]; the bytes of the buffer and the error. *)
Definition GadgetMarshalBinary (p : GadgetParameters)
  : list Byte.byte * option error :=
  match GadgetIO.WriteTo p (GadgetIO.buffer []) with
  | WDone w _ => (data w, None)
  | WFail w _ e => (data w, Some e)
  end.

(** [GadgetParameters.UnmarshalBinary]: [ReadFrom] a [bytes.Buffer]
    over [data]; the receiver afterwards and the error.  [ReadFrom]
    assigns through the receiver only when it reaches its end. *)
Definition GadgetUnmarshalBinary (T : TorusInt) (p : GadgetParameters)
  (data : list Byte.byte) : result (GadgetParameters * option error) :=
  match GadgetIO.ReadFrom T data with
  | RDone p' _ _ => Ok (p', None)
  | RFail _ e => Ok (p, Some e)
  | RPanic m => Panic m
  end.

Section WithDivRound.

Variable DivRound : Z -> Z -> Z.

(** [Parameters.MarshalBinary]. *)
Definition MarshalBinary (p : Parameters) : list Byte.byte * option error :=
  match ParamsIO.WriteTo p (GadgetIO.buffer []) with
  | WDone w _ => (data w, None)
  | WFail w _ e => (data w, Some e)
  end.

(** [Parameters.UnmarshalBinary]. *)
Definition UnmarshalBinary (T : TorusInt) (p : Parameters)
  (data : list Byte.byte) : result (Parameters * option error) :=
  match ParamsIO.ReadFrom DivRound T data with
  | RDone p' _ _ => Ok (p', None)
  | RFail _ e => Ok (p, Some e)
  | RPanic m => Panic m
  end.

End WithDivRound.

End Marshal.

(** The error of a read that meets the end of the input: [io.EOF] at
    a boundary between two 8-byte fields, [io.ErrUnexpectedEOF] inside
    a field. *)
Definition short_read_error (r : list Byte.byte) : io.error :=
  if Z.of_nat (length r) mod 8 =? 0 then io.EOF else io.ErrUnexpectedEOF.

(** A sequence of writes, each following the pattern of
    [io.write_then], before the rest [tail] of a [WriteTo]. *)
Definition write_seq (fs : list (list Byte.byte)) (tail : io.Writer -> Z -> io.wr)
  : io.Writer -> Z -> io.wr :=
  foldr io.write_then tail fs.

(** ** The bootstrap entry points on a single LUT *)

Module Entry.

Import Params.

(** The ciphertext operands: the arguments, the evaluator's buffers, and
    the ciphertext that [BootstrapLUT] allocates for its result. *)
Inductive Loc : Type :=
| ArgCt
| ArgCtOut
| ctKeySwitchForBootstrap
| ctRotate
| ctExtract
| newLWECiphertext.

Section WithLUT.

Variable LookUpTable : Type.

Inductive Call : Type :=
| NewLWECiphertext
| KeySwitchForBootstrapAssign (ct ctOut : Loc)
| BlindRotateAssign (ct : Loc) (lut : LookUpTable) (ctOut : Loc)
| ToLWECiphertextAssign (ct : Loc) (idx : Z) (ctOut : Loc).

(** [BootstrapLUTAssign]: a [switch] on the bootstrap order with two
    cases and no default. *)
Definition BootstrapLUTAssign (bootstrapOrder : Z) (ct : Loc)
  (lut : LookUpTable) (ctOut : Loc) : list Call :=
  if bootstrapOrder =? OrderKeySwitchBlindRotate then
    [KeySwitchForBootstrapAssign ct ctKeySwitchForBootstrap;
     BlindRotateAssign ctKeySwitchForBootstrap lut ctRotate;
     ToLWECiphertextAssign ctRotate 0 ctOut]
  else if bootstrapOrder =? OrderBlindRotateKeySwitch then
    [BlindRotateAssign ct lut ctRotate;
     ToLWECiphertextAssign ctRotate 0 ctExtract;
     KeySwitchForBootstrapAssign ctExtract ctOut]
  else [].

(** [BootstrapLUT]: the calls, and the ciphertext returned. *)
Definition BootstrapLUT (bootstrapOrder : Z) (ct : Loc) (lut : LookUpTable)
  : list Call * Loc :=
  (NewLWECiphertext :: BootstrapLUTAssign bootstrapOrder ct lut newLWECiphertext,
   newLWECiphertext).

(** [BootstrapFullDomainAssign]. *)
Definition BootstrapFullDomainAssign (bootstrapOrder : Z) (ct : Loc)
  (lutCompress lutEval : LookUpTable) (ctOut : Loc) : list Call :=
  let '(calls, mid) := BootstrapLUT bootstrapOrder ct lutCompress in
  calls ++ BootstrapLUTAssign bootstrapOrder mid lutEval ctOut.

(** [FDFBLUTAssign]. *)
Definition FDFBLUTAssign (bootstrapOrder : Z) (ct : Loc)
  (compressLUT fdfbLUT : LookUpTable) (ctOut : Loc) : list Call :=
  if bootstrapOrder =? OrderKeySwitchBlindRotate then
    [KeySwitchForBootstrapAssign ct ctKeySwitchForBootstrap;
     BlindRotateAssign ctKeySwitchForBootstrap compressLUT ctRotate;
     ToLWECiphertextAssign ctRotate 0 ctOut;
     KeySwitchForBootstrapAssign ctOut ctKeySwitchForBootstrap;
     BlindRotateAssign ctKeySwitchForBootstrap fdfbLUT ctRotate;
     ToLWECiphertextAssign ctRotate 0 ctOut]
  else if bootstrapOrder =? OrderBlindRotateKeySwitch then
    [BlindRotateAssign ct compressLUT ctRotate;
     ToLWECiphertextAssign ctRotate 0 ctExtract;
     KeySwitchForBootstrapAssign ctExtract ctOut;
     BlindRotateAssign ctOut fdfbLUT ctRotate;
     ToLWECiphertextAssign ctRotate 0 ctExtract;
     KeySwitchForBootstrapAssign ctExtract ctOut]
  else [].

End WithLUT.

Arguments NewLWECiphertext {LookUpTable}.
Arguments KeySwitchForBootstrapAssign {LookUpTable} ct ctOut.
Arguments BlindRotateAssign {LookUpTable} ct lut ctOut.
Arguments ToLWECiphertextAssign {LookUpTable} ct idx ctOut.
Arguments BootstrapLUTAssign {LookUpTable}.
Arguments BootstrapLUT {LookUpTable}.
Arguments BootstrapFullDomainAssign {LookUpTable}.
Arguments FDFBLUTAssign {LookUpTable}.

(** The algorithm [BlindRotateAssign] selects: a [switch] with the
    cases in the order of the source. *)
Inductive Variant : Type := Extended | Block | Original.

Definition BlindRotateAssign_variant (p : Parameters) : Variant :=
  if polyDegree p <? lookUpTableSize p then Extended
  else if 1 <? blockSize p then Block
  else Original.

End Entry.

(** ** The FDFB look-up table over the extended polynomial *)

Module FDFB.

Import Params.

Section WithDivRound.

Variable DivRound : Z -> Z -> Z.

(** [num.DivRound(int(x)*size, int(m))] and
    [num.DivRound((int(x)+1)*size, int(m))]. *)
Definition boxStart (size m x : Z) : Z :=
  DivRound (int_mul (int_of_uint64 x) size) (int_of_uint64 m).

Definition boxEnd (size m x : Z) : Z :=
  DivRound (int_mul (int_add (int_of_uint64 x) 1) size) (int_of_uint64 m).

(** [for x := T(0); x < m/2; x++ { start, end := ...; y := f(int(x));
      for xx := start; xx < end; xx++ { lutRaw[xx] = y } }]. *)
Definition fillLower (size m : Z) (f : Z -> Z) (lutRaw : list Z)
  : result (list Z) :=
  foldl (fun acc x =>
           let! raw := acc in
           Slice.fill raw (boxStart size m x) (boxEnd size m x)
                      (f (int_of_uint64 x)))
        (Ok lutRaw) (Slice.range 0 (Z.to_nat (m / 2))).

(** [for x := m/2; x < m; x++ { start, end := ...;
      y := f(int(m - x + m/2 - 1));
      for xx := start; xx < end; xx++ { lutRaw[xx] = -y } }]. *)
Definition fillUpper (T : TorusInt) (size m : Z) (f : Z -> Z) (lutRaw : list Z)
  : result (list Z) :=
  foldl (fun acc x =>
           let! raw := acc in
           let y := f (int_of_uint64 (wrapT T (m - x + m / 2 - 1))) in
           Slice.fill raw (boxStart size m x) (boxEnd size m x) (wrapT T (- y)))
        (Ok lutRaw) (Slice.range (m / 2) (Z.to_nat (m - m / 2))).

End WithDivRound.

(** [for i := 0; i < ext; i++ { for j := 0; j < N; j++ {
      lutOut.Value[i].Coeffs[j] = lutRaw[j*ext+i] } }], the table
    [lutOut] as the list of the coefficient slices of its polynomials. *)
Definition copyInterleaved (ext N : Z) (lutRaw : list Z) (lutOut : list (list Z))
  : result (list (list Z)) :=
  foldl (fun acc i =>
           foldl (fun acc j =>
                    let! out := acc in
                    let! poly := Slice.index out i in
                    let! v := Slice.index lutRaw (int_add (int_mul j ext) i) in
                    let! poly' := Slice.assign poly j v in
                    Slice.assign out i poly')
                 acc (Slice.range 0 (Z.to_nat N)))
        (Ok lutOut) (Slice.range 0 (Z.to_nat ext)).

Section WithDivRound2.

Variable DivRound : Z -> Z -> Z.

(** [GenExtendedFDFBLookUpTableCustomFullAssign]: the evaluator's raw
    buffer and the table [lutOut] after the call.  The argument
    [messageModulus] is not read: the modulus is the one of the
    evaluator's parameters. *)
Definition GenExtendedFDFBLookUpTableCustomFullAssign (T : TorusInt)
  (p : Parameters) (f : Z -> Z) (messageModulus : Z)
  (lutRaw : list Z) (lutOut : list (list Z))
  : result (list Z * list (list Z)) :=
  let! raw1 := fillLower DivRound (lookUpTableSize p) (Params.messageModulus p)
                 f lutRaw in
  let! raw2 := fillUpper DivRound T (lookUpTableSize p) (Params.messageModulus p)
                 f raw1 in
  let! out := copyInterleaved (polyExtendFactor p) (polyDegree p) raw2 lutOut in
  Ok (raw2, out).

End WithDivRound2.

(** The value the two loops leave at position [xx] of the raw table,
    for the message modulus [m] and runs of [B] positions. *)
Definition rawValue (T : TorusInt) (m B : Z) (f : Z -> Z) (xx : Z) : Z :=
  let x := xx / B in
  if x <? m / 2 then f x else wrapT T (- f (m - x + m / 2 - 1)).

End FDFB.

(** ** The base table of the decomposed builders *)

Module Decomposed.

Section WithDivRound.

Variable DivRound : Z -> Z -> Z.

(** The tail of [GenLookUpTableNegDecomposedFullAssign] and of
    [GenLookUpTableNegDecomposedEBSFullAssign], "generate BaseLUT for
    FDFB from base func", up to the end of its two loops: the raw table
    for the evaluator's message modulus, the extend factor
    [lookUpTableSize / 2048] and the base function table. *)
Definition baseLUT_lutRaw (T : TorusInt) (paramsMessageModulus extendFactor : Z)
  (baseFuncEval : list Z) : result (list Z) :=
  let polyDegree := 2048 in
  if wrapT T extendFactor =? 0 then Panic "integer divide by zero"
  else
    let baseMessageModulus := paramsMessageModulus / wrapT T extendFactor in
    let! lutRaw := Slice.make polyDegree in
    let! raw1 :=
      foldl (fun acc x =>
               let! raw := acc in
               let! y := Slice.index baseFuncEval (int_of_uint64 x) in
               Slice.fill raw (FDFB.boxStart DivRound polyDegree baseMessageModulus x)
                          (FDFB.boxEnd DivRound polyDegree baseMessageModulus x) y)
            (Ok lutRaw) (Slice.range 0 (Z.to_nat (baseMessageModulus / 2))) in
    foldl (fun acc x =>
             let! raw := acc in
             let! y := Slice.index baseFuncEval
                         (int_of_uint64
                            (wrapT T (baseMessageModulus - x
                                      + baseMessageModulus / 2 - 1))) in
             Slice.fill raw (FDFB.boxStart DivRound polyDegree baseMessageModulus x)
                        (FDFB.boxEnd DivRound polyDegree baseMessageModulus x)
                        (wrapT T (- y)))
          (Ok raw1)
          (Slice.range (baseMessageModulus / 2)
                       (Z.to_nat (baseMessageModulus - baseMessageModulus / 2))).

End WithDivRound.

End Decomposed.

(** ** The other modulus switches *)

Module ModSwitchQ.

Import Params ModSwitchM.

(** [int(math.Round(MSconst*float64(x))) % (2 * lookUpTableSize)]. *)
Definition ModSwitchWithMSconst (e : Evaluator) (x : Z) (MSconst : spec_float) : Z :=
  Z.rem (Float.to_int (Float.Round (Float.mul MSconst (Float.of_uint x))))
        (int_mul 2 (lookUpTableSize (Parameters e))).

(** [int(math.Round(e.modSwitchConstant*float64(x)*2/float64(polyExtendFactor)))
     % (2 * polyDegree)]. *)
Definition ModSwitchToBase (e : Evaluator) (x : Z) : Z :=
  Z.rem (Float.to_int (Float.Round
           (Float.div
              (Float.mul (Float.mul (modSwitchConstant e) (Float.of_uint x))
                         Float.two)
              (Float.of_uint (polyExtendFactor (Parameters e))))))
        (int_mul 2 (polyDegree (Parameters e))).

(** A float64 that is not a negative number: a zero, a positive
    number, an infinity or a NaN. *)
Definition not_negative (f : spec_float) : Prop :=
  match f with
  | S754_finite true _ _ => False
  | _ => True
  end.

End ModSwitchQ.

(** ** The head of the extended blind rotations *)

Module Rotate.

Import Params.

(** A call [MonomialMulPolyAssign(lut.Value[i], d, ctAcc[ii].Value[0])]. *)
Record MonomialMul : Type := {
  lutIndex : Z;
  degree : Z;
  accIndex : Z
}.

(** [for i, ii := i0, ii0; i < stop; i, ii = i+1, ii+1 { ... }],
    [count] rounds. *)
Fixpoint monomialLoop (i ii d : Z) (count : nat) : list MonomialMul :=
  match count with
  | O => []
  | S c =>
      {| lutIndex := i; degree := d; accIndex := ii |}
        :: monomialLoop (int_add i 1) (int_add ii 1) d c
  end.

(** [b2NMono, b2NIdx := b2N/ext, b2N%ext] and the two loops that
    follow. *)
Definition monomialLoops (ext b2N : Z) : result (list MonomialMul) :=
  if ext =? 0 then Panic "integer divide by zero"
  else
    let b2NMono := wrapI (Z.quot b2N ext) in
    let b2NIdx := Z.rem b2N ext in
    Ok (monomialLoop 0 (int_sub ext b2NIdx) (int_add b2NMono 1) (Z.to_nat b2NIdx)
        ++ monomialLoop b2NIdx 0 b2NMono (Z.to_nat (ext - b2NIdx))).

(** The head of [blindRotateArbitraryExtendedAssign], for the value
    [ms] of [e.ModSwitch(ct.Value[0])]:
    [lookuptablesize := polyDegree * extendedFactor],
    [b2N := 2*lookuptablesize - ms%(2*lookuptablesize)]. *)
Definition arbitraryExtendedHead (polyDegree extendedFactor ms : Z)
  : result (Z * list MonomialMul) :=
  let lookuptablesize := int_mul polyDegree extendedFactor in
  let twice := int_mul 2 lookuptablesize in
  if twice =? 0 then Panic "integer divide by zero"
  else
    let b2N := int_sub twice (wrapI (Z.rem ms twice)) in
    let! calls := monomialLoops extendedFactor b2N in
    Ok (b2N, calls).

(** The head of [blindRotateExtendedAssign], for the value [ms] of
    [e.ModSwitchOriginal(ct.Value[0])]:
    [b2N := 2*lookUpTableSize - ms]. *)
Definition extendedHead (p : Parameters) (ms : Z) : result (Z * list MonomialMul) :=
  let b2N := int_sub (int_mul 2 (lookUpTableSize p)) ms in
  let! calls := monomialLoops (polyExtendFactor p) b2N in
  Ok (b2N, calls).

End Rotate.

(** ** The tables that the decomposed builders write into *)

Module Shapes.

(** The two sizes of a call [NewLookUpTableCustom[T](extendFactor,
    polyDegree)]: the number of polynomials of the table and the number
    of coefficients of each. *)
Record Shape : Type := {
  polys : Z;
  coeffs : Z
}.

(** [x << s] on [int] with a count that is not a constant: a negative
    count is a run-time panic. *)
Definition int_shl_checked (x s : Z) : result Z :=
  if s <? 0 then Panic "negative shift amount" else Ok (int_shl x s).

(** [for i := 0; i < length-1; i++ { decomposedLut[i] = shape i }],
    [count] rounds from [i]. *)
Fixpoint negShapes (shape : Z -> result Shape) (i : Z) (count : nat)
  : result (list Shape) :=
  match count with
  | O => Ok []
  | S c =>
      let! s := shape i in
      let! rest := negShapes shape (int_add i 1) c in
      Ok (s :: rest)
  end.

(** The common frame of [NewDecomposedLutEBS] and [NewDecomposedLut]:
    [length := int(math.Log2(float64(lookUpTableSize/2048))) + 1],
    [make([]LookUpTable[T], length)], the loop over the negacyclic
    tables and the base table at index [length-1]. *)
Definition newDecomposed (shape : Z -> Z -> result Shape) (lookUpTableSize : Z)
  : result (list Shape) :=
  let length := int_add (LUT.logExtendFactor lookUpTableSize) 1 in
  if length <? 0 then Panic "makeslice: len out of range"
  else
    let! negs := negShapes (shape length) 0 (Z.to_nat (int_sub length 1)) in
    if length =? 0 then Panic "index out of range"
    else Ok (negs ++ [{| polys := 1; coeffs := 2048 |}]).

(** [NewLookUpTableCustom[T](1<<(length-i-2), 2048)]. *)
Definition NewDecomposedLutEBS (lookUpTableSize : Z) : result (list Shape) :=
  newDecomposed
    (fun length i =>
       let! e := int_shl_checked 1 (int_sub (int_sub length i) 2) in
       Ok {| polys := e; coeffs := 2048 |})
    lookUpTableSize.

(** [NewLookUpTableCustom[T](1, 2048<<(length-i-2))]. *)
Definition NewDecomposedLut (lookUpTableSize : Z) : result (list Shape) :=
  newDecomposed
    (fun length i =>
       let! n := int_shl_checked 2048 (int_sub (int_sub length i) 2) in
       Ok {| polys := 1; coeffs := n |})
    lookUpTableSize.

(** The sizes the builders use for the negacyclic table [k]:
    [length := lookUpTableSize / (1 << (k + 1))] and, in the EBS
    builder, [extendFactor := length / 2048]. *)
Definition builderLength (lookUpTableSize k : Z) : result Z :=
  let! d := int_shl_checked 1 (int_add k 1) in
  int_div lookUpTableSize d.

End Shapes.

(** ** The default key of the encryptor *)

Module EncQ.

Import Params Enc.

Section WithCollaborators.

Context {C : Collaborators}.

(** [Encryptor.DefaultLWESecretKey]. *)
Definition DefaultLWESecretKey (e : Encryptor) : slice :=
  if bootstrapOrder (Parameters e) =? OrderKeySwitchBlindRotate
  then LWELargeKey (SecretKey_ e)
  else LWEKey (SecretKey_ e).

End WithCollaborators.

End EncQ.

(** ** Sizes and levels of the encryptors *)

Module EncSizes.

(** Sizes with which a secret key can be allocated and filled: the
    LWE key and the [k] polynomials of [N] coefficients fit into the
    [g] elements of the LWE-large key. *)
Definition fits (p : Params.Parameters) : Prop :=
  0 <= Params.lweDimension p <= Params.glweDimension p /\
  0 <= Params.glweRank p /\ 0 <= Params.polyDegree p /\
  Params.glweRank p * Params.polyDegree p <= Params.glweDimension p /\
  is_int (Params.glweDimension p) /\ is_int (Params.glweRank p).

End EncSizes.

Module EncLevels.

Section WithCollaborators.

Context {C : Enc.Collaborators}.

(** An encryptor of a level of the hierarchy: rank [k], LWE dimension
    [n], degree [N'], with a key of [k] polynomials whose Fourier image
    and whose binary sampler exist in the memory [w]. *)
Definition level_ok (w : Enc.World) (k n N' : Z) (e : Enc.Encryptor) : Prop :=
  Params.polyDegree (Enc.Parameters e) = N' /\
  Params.glweDimension (Enc.Parameters e) = k * N' /\
  Params.glweRank (Enc.Parameters e) = k /\
  Params.lweDimension (Enc.Parameters e) = n /\
  length (Enc.GLWEKey (Enc.SecretKey_ e)) = Z.to_nat k /\
  is_Some (Enc.fourier w !! Enc.FourierGLWEKey (Enc.SecretKey_ e)) /\
  is_Some (Enc.samplers w !! Enc.BinarySampler e).

(** No Fourier key and no sampler of [w] is missing from [w']. *)
Definition grows (w w' : Enc.World) : Prop :=
  (forall b, is_Some (Enc.fourier w !! b) -> is_Some (Enc.fourier w' !! b)) /\
  (forall b, is_Some (Enc.samplers w !! b) -> is_Some (Enc.samplers w' !! b)).

End WithCollaborators.

End EncLevels.

(** ** The bootstrap over the negacyclic tables only *)

Module DecomposedEntry.

(** The ciphertext operands: the two arguments, the evaluator's buffers
    and the accumulator [ctRotateAcc] that the function allocates. *)
Inductive Loc : Type :=
| ArgCt
| ArgCtOut
| ctKeySwitchForBootstrap
| ctRotate
| ctRotateAcc.

Section WithLUT.

Variable LookUpTable : Type.

Inductive Call : Type :=
| NewGLWECiphertext
| KeySwitchForBootstrapAssign (ct ctOut : Loc)
| blindRotateArbitraryExtendedAssign (ct : Loc) (lut : LookUpTable)
    (extendedFactor : Z) (ctOut : Loc)
| AddGLWEAssign (ct0 ct1 ctOut : Loc)
| ToLWECiphertextAssign (ct : Loc) (idx : Z) (ctOut : Loc).

(** The operands of a call. *)
Definition operands (c : Call) : list Loc :=
  match c with
  | NewGLWECiphertext => []
  | KeySwitchForBootstrapAssign ct ctOut => [ct; ctOut]
  | blindRotateArbitraryExtendedAssign ct _ _ ctOut => [ct; ctOut]
  | AddGLWEAssign ct0 ct1 ctOut => [ct0; ct1; ctOut]
  | ToLWECiphertextAssign ct _ ctOut => [ct; ctOut]
  end.

(** A call of [blindRotateArbitraryExtendedAssign] on an evaluator with
    the parameters [p]: the divisions of its first statements
    (bootstrap.go, lines 519 to 523), by [2 * lookUpTableSize] in
    [e.ModSwitch], by [2 * (polyDegree * extendedFactor)] and by
    [extendedFactor], are run-time panics on a zero divisor; the rest
    of its body is recorded as the call. *)
Definition call_blindRotateArbitraryExtendedAssign (p : Params.Parameters)
  (ct : Loc) (lut : LookUpTable) (extendedFactor : Z) (ctOut : Loc)
  : result Call :=
  let lookuptablesize := int_mul (Params.polyDegree p) extendedFactor in
  if int_mul 2 (Params.lookUpTableSize p) =? 0
  then Panic "integer divide by zero"
  else if int_mul 2 lookuptablesize =? 0 then Panic "integer divide by zero"
  else if extendedFactor =? 0 then Panic "integer divide by zero"
  else Ok (blindRotateArbitraryExtendedAssign ct lut extendedFactor ctOut).

(** [for i := ...; i < len(decomposedLUT)-1; i++ { ... }], [count]
    rounds from index [i]. *)
Fixpoint negLoop (p : Params.Parameters) (decomposedLUT : list LookUpTable)
  (i : Z) (count : nat) : result (list Call) :=
  match count with
  | O => Ok []
  | S c =>
      let! lut := Slice.index decomposedLUT i in
      let! ef := int_div (Params.polyExtendFactor p) (int_shl 1 (i + 1)) in
      let! rot := call_blindRotateArbitraryExtendedAssign p ArgCt lut ef ctRotate in
      let! rest := negLoop p decomposedLUT (i + 1) c in
      Ok (rot :: AddGLWEAssign ctRotateAcc ctRotate ctRotateAcc :: rest)
  end.

(** [BootstrapDecomposedLUTAssign] on an evaluator with the parameters
    [p]. *)
Definition BootstrapDecomposedLUTAssign (p : Params.Parameters)
  (decomposedLUT : list LookUpTable) : result (list Call) :=
  let len := Z.of_nat (length decomposedLUT) in
  let! negs := negLoop p decomposedLUT 0 (Z.to_nat (len - 1)) in
  Ok (NewGLWECiphertext
      :: KeySwitchForBootstrapAssign ArgCt ctKeySwitchForBootstrap
      :: negs ++ [ToLWECiphertextAssign ctRotateAcc 0 ArgCtOut]).

End WithLUT.

Arguments NewGLWECiphertext {LookUpTable}.
Arguments KeySwitchForBootstrapAssign {LookUpTable} ct ctOut.
Arguments blindRotateArbitraryExtendedAssign {LookUpTable} ct lut extendedFactor ctOut.
Arguments AddGLWEAssign {LookUpTable} ct0 ct1 ctOut.
Arguments ToLWECiphertextAssign {LookUpTable} ct idx ctOut.
Arguments operands {LookUpTable}.
Arguments call_blindRotateArbitraryExtendedAssign {LookUpTable}.
Arguments negLoop {LookUpTable}.
Arguments BootstrapDecomposedLUTAssign {LookUpTable}.

End DecomposedEntry.

(** * Properties *)

(** ** Outcomes *)

Lemma panics_not_returns {A} (r : result A) : panics r <-> ~ returns r.
Proof. destruct r; simpl; tauto. Qed.

Lemma bind_Ok_inv {A B} (r : result A) (k : A -> result B) (b : B) :
  bind r k = Ok b -> exists a, r = Ok a /\ k a = Ok b.
Proof. destruct r as [a|m]; simpl; [eauto | discriminate]. Qed.

(** ** Parameter compilation *)

Lemma Gadget_Compile_Ok_iff T p g :
  Gadget.Compile T p = Ok g <->
  Gadget.invariants T p /\
  g = {| Gadget.base := Gadget.Base p;
         Gadget.logBase := num.Log2 (Gadget.Base p);
         Gadget.level := Gadget.Level p;
         Gadget.sizeT := num.SizeT T |}.
Proof.
  unfold Gadget.Compile, Gadget.invariants.
  destruct (Z.ltb_spec (Gadget.Base p) 2);
    [ split; [discriminate | intros [? _]; lia] |].
  destruct (num.IsPowerOfTwo (Gadget.Base p)); cbn [negb];
    [| split; [discriminate | intros [(_ & ? & _) _]; discriminate] ].
  destruct (Z.leb_spec (Gadget.Level p) 0);
    [ split; [discriminate | intros [? _]; lia] |].
  destruct (Z.ltb_spec (num.SizeT T)
              (int_mul (num.Log2 (Gadget.Base p)) (Gadget.Level p)));
    [ split; [discriminate | intros [? _]; lia] |].
  split.
  - intros [= <-]. repeat split; auto; lia.
  - intros [_ ->]. reflexivity.
Qed.

Lemma Gadget_Compile_returns_iff T p :
  returns (Gadget.Compile T p) <-> Gadget.invariants T p.
Proof.
  split.
  - destruct (Gadget.Compile T p) as [g|] eqn:E; simpl; [| tauto].
    intros _. apply Gadget_Compile_Ok_iff in E. tauto.
  - intros H.
    assert (E : Gadget.Compile T p =
                Ok {| Gadget.base := Gadget.Base p;
                      Gadget.logBase := num.Log2 (Gadget.Base p);
                      Gadget.level := Gadget.Level p;
                      Gadget.sizeT := num.SizeT T |})
      by (apply Gadget_Compile_Ok_iff; auto).
    rewrite E. exact I.
Qed.

Lemma Compile_returns_iff D T p :
  returns (Params.Compile D T p) <-> Params.enforced_invariants T p.
Proof.
  unfold Params.Compile, Params.enforced_invariants.
  set (q := Params.defaulted p). cbv zeta.
  destruct (Z.leb_spec (Params.LWEDimension q) 0);
    [ split; [intros [] | intros ?; lia] |].
  destruct (Z.ltb_spec (int_mul (Params.GLWERank q) (Params.PolyDegree q))
              (Params.LWEDimension q));
    [ split; [intros [] | intros ?; lia] |].
  destruct (Z.leb_spec (Params.GLWERank q) 0);
    [ split; [intros [] | intros ?; lia] |].
  destruct (Z.ltb_spec (Params.LookUpTableSize q) (Params.PolyDegree q));
    [ split; [intros [] | intros ?; lia] |].
  destruct (F64.le_zero (Params.LWEStdDev q)) eqn:E1;
    [ split; [intros [] | intros ?; intuition discriminate] |].
  destruct (F64.le_zero (Params.GLWEStdDev q)) eqn:E2;
    [ split; [intros [] | intros ?; intuition discriminate] |].
  destruct (Z.leb_spec (Params.BlockSize q) 0);
    [ split; [intros [] | intros ?; lia] |].
  destruct (Z.eqb_spec (Z.rem (Params.LWEDimension q) (Params.BlockSize q)) 0);
    cbn [negb]; [| split; [intros [] | intros ?; tauto] ].
  destruct (Z.eqb_spec (Z.rem (Params.LookUpTableSize q) (Params.PolyDegree q)) 0);
    cbn [negb]; [| split; [intros [] | intros ?; tauto] ].
  destruct (num.IsPowerOfTwo (Params.PolyDegree q)) eqn:E3;
    cbn [negb]; [| split; [intros [] | intros ?; intuition discriminate] ].
  unfold Params.OrderKeySwitchBlindRotate, Params.OrderBlindRotateKeySwitch.
  destruct (Z.eqb_spec (Params.BootstrapOrder q) 0) as [E4|E4];
    destruct (Z.eqb_spec (Params.BootstrapOrder q) 1) as [E5|E5];
    cbn [orb negb]; try lia;
    try (split; [intros [] | intros ?; lia]).
  all: unfold num.DivRound_checked;
    destruct (Z.eqb_spec (Params.MessageModulus q) 0) as [E6|E6]; cbn [bind returns];
    [ split; [intros [] | intros ?; tauto] |];
    pose proof (Gadget_Compile_returns_iff T (Params.BlindRotateParameters q)) as Hbr;
    pose proof (Gadget_Compile_returns_iff T (Params.KeySwitchParameters q)) as Hks;
    destruct (Gadget.Compile T (Params.BlindRotateParameters q)); cbn [bind returns] in *;
    [| split; [intros [] | intros ?; tauto] ];
    destruct (Gadget.Compile T (Params.KeySwitchParameters q)); cbn [bind returns] in *;
    [| split; [intros [] | intros ?; tauto] ];
    split; [intros _ | tauto];
    pose proof (proj1 Hbr I); pose proof (proj1 Hks I); tauto.
Qed.

(** C5 (as amended).  [ParametersLiteral.Compile], after defaulting
    [L = N] when [L] is zero and [b = 1] when [b] is zero, panics if and
    only if one of the enforced invariants is violated, and returns for
    every literal that satisfies them all.  The enforced invariants are
    the listed ones together with [b > 0] and with a message modulus
    other than zero (the scale is [num.DivRound] of [2^(w-1)] by the
    message modulus, an integer division); a standard deviation passes
    when the comparison [sigma <= 0] is false; the products [k*N] and
    [log2 B * level] are the ones the code computes on [int]. *)
Theorem Compile_panics_iff_enforced_invariant_violated D T p :
  (panics (Params.Compile D T p) <-> ~ Params.enforced_invariants T p) /\
  (Params.enforced_invariants T p -> returns (Params.Compile D T p)).
Proof.
  split.
  - rewrite panics_not_returns, Compile_returns_iff. tauto.
  - apply Compile_returns_iff.
Qed.

(** C5, as stated, fails: with a negative block size [b = -1] every
    listed invariant holds ([n mod b = 0] in particular) and [Compile]
    panics; and with a message modulus of zero every listed invariant
    holds and [Compile] panics with a division by zero. *)
Lemma Compile_listed_invariants_not_sufficient :
  (Params.listed_invariants U64 Inputs.ParamsEBS5_negative_block /\
   panics (Params.Compile num_spec.DivRound U64 Inputs.ParamsEBS5_negative_block)) /\
  (Params.listed_invariants U64 Inputs.ParamsEBS5_zero_modulus /\
   Params.Compile num_spec.DivRound U64 Inputs.ParamsEBS5_zero_modulus
   = Panic "integer divide by zero").
Proof.
  split; split.
  - unfold Params.listed_invariants, Gadget.invariants. cbv zeta.
    vm_compute. repeat split; try discriminate; auto.
  - vm_compute. exact I.
  - unfold Params.listed_invariants, Gadget.invariants. cbv zeta.
    vm_compute. repeat split; try discriminate; auto.
  - vm_compute. reflexivity.
Qed.

(** ** Machine integers and bytes *)

Lemma wrapI_id x : is_int x -> wrapI x = x.
Proof.
  unfold is_int, wrapI. intros H.
  rewrite Z.mod_small by lia. lia.
Qed.

Lemma wrapI_is_int x : is_int (wrapI x).
Proof.
  unfold is_int, wrapI.
  pose proof (Z.mod_pos_bound (x + 2 ^ 63) (2 ^ 64) ltac:(lia)). lia.
Qed.

Lemma int_of_uint64_of_int x : is_int x -> int_of_uint64 (uint64_of_int x) = x.
Proof.
  unfold is_int, int_of_uint64, uint64_of_int, wrapI. intros H.
  rewrite Zplus_mod_idemp_l. rewrite Z.mod_small by lia. lia.
Qed.

Lemma wrapT_id T x : is_T T x -> wrapT T x = x.
Proof. unfold is_T, is_uint, wrapT, wrapU. intros H. apply Z.mod_small. lia. Qed.

Lemma is_T_uint64 T x : is_T T x -> is_uint 64 x.
Proof.
  unfold is_T, is_uint. destruct T; simpl; lia.
Qed.

Lemma Z_of_byte_of_Z z : binary.Z_of_byte (binary.byte_of_Z z) = z mod 256.
Proof.
  unfold binary.Z_of_byte, binary.byte_of_Z.
  pose proof (Z.mod_pos_bound z 256 ltac:(lia)) as Hb.
  destruct (Byte.of_N (Z.to_N (z mod 256))) as [b|] eqn:E.
  - apply Byte.to_of_N in E. rewrite E. lia.
  - apply Byte.of_N_None_iff in E. lia.
Qed.

Lemma byte_slot_bits v s n :
  0 <= s -> 0 <= n ->
  Z.testbit (Z.shiftl ((Z.shiftr v s) mod 256) s) n
  = (s <=? n) && (n <? s + 8) && Z.testbit v n.
Proof.
  intros Hs Hn.
  rewrite Z.shiftl_spec by assumption.
  destruct (Z.leb_spec s n) as [Hle|Hlt]; cbn [andb].
  - change 256 with (2 ^ 8).
    destruct (Z.ltb_spec n (s + 8)) as [H8|H8]; cbn [andb].
    + rewrite Z.mod_pow2_bits_low by lia.
      rewrite Z.shiftr_spec by lia. f_equal. lia.
    + apply Z.mod_pow2_bits_high. lia.
  - apply Z.testbit_neg_r. lia.
Qed.

Lemma low_byte_bits v n :
  0 <= n -> Z.testbit (v mod 256) n = (n <? 8) && Z.testbit v n.
Proof.
  intros Hn. change 256 with (2 ^ 8).
  destruct (Z.ltb_spec n 8); cbn [andb].
  - apply Z.mod_pow2_bits_low. lia.
  - apply Z.mod_pow2_bits_high. lia.
Qed.

Lemma Uint64_PutUint64 v : binary.Uint64 (binary.PutUint64 v) = v mod 2 ^ 64.
Proof.
  unfold binary.Uint64, binary.PutUint64.
  rewrite !Z_of_byte_of_Z.
  apply Z.bits_inj'. intros n Hn.
  rewrite !Z.lor_spec, !byte_slot_bits, low_byte_bits by lia.
  destruct (Z.ltb_spec n 64) as [H64|H64].
  - rewrite Z.mod_pow2_bits_low by lia.
    destruct (Z.testbit v n); rewrite ?andb_false_r; [| reflexivity].
    rewrite !andb_true_r.
    repeat match goal with
           | |- context [ ?a <=? ?b ] => destruct (Z.leb_spec a b); try lia
           | |- context [ ?a <? ?b ] => destruct (Z.ltb_spec a b); try lia
           end; reflexivity.
  - rewrite Z.mod_pow2_bits_high by lia.
    repeat match goal with
           | |- context [ ?a <? ?b ] => destruct (Z.ltb_spec a b); try lia
           end; rewrite ?andb_false_r; reflexivity.
Qed.

Lemma Uint64_PutUint64_uint v : is_uint 64 v -> binary.Uint64 (binary.PutUint64 v) = v.
Proof.
  intros H. rewrite Uint64_PutUint64. apply Z.mod_small. exact H.
Qed.

Lemma Uint64_PutUint64_int v :
  is_int v -> int_of_uint64 (binary.Uint64 (binary.PutUint64 (uint64_of_int v))) = v.
Proof.
  intros H. rewrite Uint64_PutUint64. unfold uint64_of_int.
  rewrite Z.mod_mod by lia. apply int_of_uint64_of_int; exact H.
Qed.

(** ** Byte streams *)

Lemma ReadFull_app bs rest (k : nat) :
  length bs = k ->
  io.ReadFull (bs ++ rest) k = (bs, Z.of_nat k, None, rest).
Proof.
  intros <-. unfold io.ReadFull.
  rewrite length_app.
  destruct (Nat.leb_spec (length bs) (length bs + length rest)); [| lia].
  rewrite take_app_length, drop_app_length. reflexivity.
Qed.

Lemma read_then_app {A} bs rest (k : nat) (cont : list Byte.byte -> io.Reader -> Z -> io.rd A) n :
  length bs = k ->
  io.read_then k cont (bs ++ rest) n = cont bs rest (n + Z.of_nat k).
Proof.
  intros H. unfold io.read_then. rewrite ReadFull_app by exact H. reflexivity.
Qed.

Lemma write_then_buffer bs k d n :
  io.write_then bs k {| io.data := d; io.room := None |} n
  = k {| io.data := d ++ bs; io.room := None |} (n + io.len bs).
Proof. reflexivity. Qed.

Lemma PutUint64_length v : length (binary.PutUint64 v) = 8%nat.
Proof. reflexivity. Qed.

(** ** Serialization round trip *)

Lemma Gadget_Literal_Compile T lit g :
  Gadget.Compile T lit = Ok g -> Gadget.Literal g = lit.
Proof.
  intros H. apply Gadget_Compile_Ok_iff in H as [_ ->].
  destruct lit; reflexivity.
Qed.

Lemma Gadget_wf_compiled T lit g :
  Gadget.wf_literal T lit -> Gadget.Compile T lit = Ok g ->
  is_T T (Gadget.base g) /\ is_int (Gadget.level g).
Proof.
  intros Hwf H. apply Gadget_Compile_Ok_iff in H as [_ ->]. exact Hwf.
Qed.

Lemma Gadget_WriteTo_buffer g d :
  GadgetIO.WriteTo g (GadgetIO.buffer d)
  = io.WDone (GadgetIO.buffer (d ++ GadgetIO.encoding g)) 16.
Proof.
  unfold GadgetIO.WriteTo, GadgetIO.buffer, GadgetIO.encoding.
  rewrite !write_then_buffer. cbn. rewrite <- app_assoc. reflexivity.
Qed.

Lemma Gadget_ReadFrom_encoding T lit g rest :
  Gadget.wf_literal T lit -> Gadget.Compile T lit = Ok g ->
  GadgetIO.ReadFrom T (GadgetIO.encoding g ++ rest) = io.RDone g 16 rest.
Proof.
  intros Hwf HC.
  destruct (Gadget_wf_compiled T lit g Hwf HC) as [Hb Hl].
  unfold GadgetIO.ReadFrom, GadgetIO.encoding.
  rewrite <- app_assoc.
  rewrite read_then_app by apply PutUint64_length.
  rewrite read_then_app by apply PutUint64_length.
  rewrite Uint64_PutUint64_uint by (eapply is_T_uint64; exact Hb).
  rewrite wrapT_id by exact Hb.
  rewrite Uint64_PutUint64_int by exact Hl.
  pose proof (Gadget_Literal_Compile T lit g HC) as HL.
  unfold Gadget.Literal in HL. rewrite HL, HC. reflexivity.
Qed.

Lemma defaulted_idempotent p : Params.defaulted (Params.defaulted p) = Params.defaulted p.
Proof.
  unfold Params.defaulted. cbn.
  destruct (Z.eqb_spec (Params.LookUpTableSize p) 0) as [E|E];
    destruct (Z.eqb_spec (Params.BlockSize p) 0) as [E'|E']; cbn;
    repeat match goal with
           | |- context [ ?a =? 0 ] => destruct (Z.eqb_spec a 0); try lia
           end; try reflexivity; f_equal; lia.
Qed.

Lemma Compile_defaulted D T p :
  Params.Compile D T (Params.defaulted p) = Params.Compile D T p.
Proof.
  unfold Params.Compile. rewrite defaulted_idempotent. reflexivity.
Qed.

Lemma Compile_Ok_inv D T lit p :
  Params.Compile D T lit = Ok p ->
  let q := Params.defaulted lit in
  exists br ks,
    Gadget.Compile T (Params.BlindRotateParameters q) = Ok br /\
    Gadget.Compile T (Params.KeySwitchParameters q) = Ok ks /\
    p = {| Params.lweDimension := Params.LWEDimension q;
           Params.glweDimension := int_mul (Params.GLWERank q) (Params.PolyDegree q);
           Params.glweRank := Params.GLWERank q;
           Params.polyDegree := Params.PolyDegree q;
           Params.logPolyDegree := num.Log2 (Params.PolyDegree q);
           Params.lookUpTableSize := Params.LookUpTableSize q;
           Params.polyExtendFactor := Z.quot (Params.LookUpTableSize q) (Params.PolyDegree q);
           Params.lweStdDev := Params.LWEStdDev q;
           Params.glweStdDev := Params.GLWEStdDev q;
           Params.blockSize := Params.BlockSize q;
           Params.blockCount := Z.quot (Params.LWEDimension q) (Params.BlockSize q);
           Params.messageModulus := Params.MessageModulus q;
           Params.scale := wrapT T (D (Z.shiftl 1 (num.SizeT T - 1))
                                      (Params.MessageModulus q) * 2);
           Params.logQ := num.SizeT T;
           Params.floatQ := F64.Exp2_int (num.SizeT T);
           Params.blindRotateParameters := br;
           Params.keySwitchParameters := ks;
           Params.bootstrapOrder := Params.BootstrapOrder q |}.
Proof.
  intros H q. unfold Params.Compile in H. fold q in H. cbv zeta in H.
  repeat match type of H with
         | (if ?c then Panic _ else _) = Ok _ =>
             destruct c; [discriminate H |]
         end.
  apply bind_Ok_inv in H as (half & Hhalf & H).
  apply bind_Ok_inv in H as (br & Hbr & H).
  apply bind_Ok_inv in H as (ks & Hks & H).
  exists br, ks. split; [exact Hbr|]. split; [exact Hks|].
  unfold num.DivRound_checked in Hhalf.
  destruct (Params.MessageModulus q =? 0); [discriminate|].
  congruence.
Qed.

Lemma Literal_Compile D T lit p :
  Params.Compile D T lit = Ok p -> Params.Literal p = Params.defaulted lit.
Proof.
  intros H. destruct (Compile_Ok_inv D T lit p H) as (br & ks & Hbr & Hks & ->).
  unfold Params.Literal. cbn.
  rewrite (Gadget_Literal_Compile _ _ _ Hbr), (Gadget_Literal_Compile _ _ _ Hks).
  destruct lit; reflexivity.
Qed.

Lemma Compile_Literal D T lit p :
  Params.Compile D T lit = Ok p -> Params.Compile D T (Params.Literal p) = Ok p.
Proof.
  intros H. rewrite (Literal_Compile D T lit p H), Compile_defaulted. exact H.
Qed.

Lemma paramsEBS5_compiled :
  Params.Compile num_spec.DivRound U64 Params.ParamsEBS5 = Ok Inputs.paramsEBS5.
Proof. vm_compute. reflexivity. Qed.

Lemma len_PutUint64 v : io.len (binary.PutUint64 v) = 8.
Proof. reflexivity. Qed.

Lemma Params_WriteTo_buffer p d :
  ParamsIO.WriteTo p (GadgetIO.buffer d)
  = io.WDone (GadgetIO.buffer (d ++ ParamsIO.encoding p)) 97.
Proof.
  unfold ParamsIO.WriteTo, GadgetIO.buffer.
  rewrite !write_then_buffer, !len_PutUint64.
  change {| io.data := ?x; io.room := None |} with (GadgetIO.buffer x).
  rewrite !Gadget_WriteTo_buffer.
  unfold GadgetIO.buffer. rewrite write_then_buffer.
  unfold ParamsIO.encoding. rewrite <- !app_assoc.
  reflexivity.
Qed.

Lemma Gadget_encoding_length g : length (GadgetIO.encoding g) = 16%nat.
Proof. reflexivity. Qed.

Lemma Params_encoding_length p : length (ParamsIO.encoding p) = 97%nat.
Proof.
  unfold ParamsIO.encoding.
  rewrite !length_app, !PutUint64_length, !Gadget_encoding_length. reflexivity.
Qed.

Lemma Params_ReadFrom_encoding D T lit p rest :
  Params.wf_literal T lit -> Params.Compile D T lit = Ok p ->
  ParamsIO.ReadFrom D T (ParamsIO.encoding p ++ rest) = io.RDone p 97 rest.
Proof.
  intros Hwf HC.
  pose proof (Compile_Literal D T lit p HC) as HL.
  pose proof (proj1 (Compile_returns_iff D T lit)) as Hinv.
  rewrite HC in Hinv. specialize (Hinv I).
  destruct (Compile_Ok_inv D T lit p HC) as (br & ks & Hbr & Hks & Hp).
  destruct Hwf as (W1 & W2 & W3 & W4 & W5 & W6 & W7 & W8 & W9 & W10 & W11).
  unfold Params.enforced_invariants in Hinv. cbv zeta in Hinv.
  destruct Hinv as (I1 & I2 & I3 & I4 & I5 & I6 & I7 & I8 & I9 & I10 & I11 & I12 & I13 & I14).
  assert (Wn : is_int (Params.lweDimension p)) by (subst p; exact W1).
  assert (Wk : is_int (Params.glweRank p)) by (subst p; exact W2).
  assert (WN : is_int (Params.polyDegree p)) by (subst p; exact W3).
  assert (WL : is_int (Params.lookUpTableSize p)).
  { subst p. cbn. destruct (Params.LookUpTableSize lit =? 0); assumption. }
  assert (Ws1 : is_uint 64 (Params.lweStdDev p)) by (subst p; exact W5).
  assert (Ws2 : is_uint 64 (Params.glweStdDev p)) by (subst p; exact W6).
  assert (Wb : is_int (Params.blockSize p)).
  { subst p. cbn. destruct (Params.BlockSize lit =? 0); [unfold is_int; lia | assumption]. }
  assert (Wm : is_T T (Params.messageModulus p)) by (subst p; exact W8).
  assert (Wo : Params.bootstrapOrder p mod 256 = Params.bootstrapOrder p).
  { subst p. cbn in *.
    unfold Params.OrderKeySwitchBlindRotate, Params.OrderBlindRotateKeySwitch in I13.
    destruct I13 as [-> | ->]; reflexivity. }
  assert (Ebr : Params.blindRotateParameters p = br) by (subst p; reflexivity).
  assert (Eks : Params.keySwitchParameters p = ks) by (subst p; reflexivity).
  clear Hp.
  unfold ParamsIO.ReadFrom, ParamsIO.encoding.
  rewrite <- !app_assoc.
  rewrite !read_then_app by apply PutUint64_length.
  rewrite Ebr, Eks.
  rewrite (Gadget_ReadFrom_encoding T _ br _ W9 Hbr).
  rewrite (Gadget_ReadFrom_encoding T _ ks _ W10 Hks).
  cbv zeta.
  rewrite (read_then_app [_] rest 1) by reflexivity.
  rewrite !Uint64_PutUint64_int by assumption.
  rewrite !Uint64_PutUint64_uint by (assumption || (eapply is_T_uint64; eassumption)).
  rewrite wrapT_id by assumption.
  rewrite Z_of_byte_of_Z, Wo.
  rewrite <- Ebr, <- Eks.
  change (Params.Compile D T _) with (Params.Compile D T (Params.Literal p)).
  rewrite HL. reflexivity.
Qed.

(** C7.  A compiled [GadgetParameters] is written as exactly 16 bytes
    (Base and Level, each a big-endian u64) and a compiled [Parameters]
    as exactly 97 bytes (eight u64 header fields, the two gadget blocks,
    one byte for the order); reading the bytes back with [ReadFrom]
    yields the value that was written. *)
Theorem WriteTo_ReadFrom_round_trip D T :
  (forall glit g d rest,
      Gadget.wf_literal T glit -> Gadget.Compile T glit = Ok g ->
      GadgetIO.WriteTo g (GadgetIO.buffer d)
        = io.WDone (GadgetIO.buffer (d ++ GadgetIO.encoding g)) 16 /\
      length (GadgetIO.encoding g) = 16%nat /\
      GadgetIO.ReadFrom T (GadgetIO.encoding g ++ rest) = io.RDone g 16 rest) /\
  (forall lit p d rest,
      Params.wf_literal T lit -> Params.Compile D T lit = Ok p ->
      ParamsIO.WriteTo p (GadgetIO.buffer d)
        = io.WDone (GadgetIO.buffer (d ++ ParamsIO.encoding p)) 97 /\
      length (ParamsIO.encoding p) = (8 * 8 + 16 + 16 + 1)%nat /\
      ParamsIO.ReadFrom D T (ParamsIO.encoding p ++ rest) = io.RDone p 97 rest).
Proof.
  split.
  - intros glit g d rest Hwf HC. split; [apply Gadget_WriteTo_buffer|].
    split; [apply Gadget_encoding_length|].
    eapply Gadget_ReadFrom_encoding; eassumption.
  - intros lit p d rest Hwf HC. split; [apply Params_WriteTo_buffer|].
    split; [apply Params_encoding_length|].
    eapply Params_ReadFrom_encoding; eassumption.
Qed.

Lemma wf_ParamsEBS5 : Params.wf_literal U64 Params.ParamsEBS5.
Proof.
  unfold Params.wf_literal, Gadget.wf_literal, is_T, is_int, is_uint.
  repeat split; vm_compute; (reflexivity || discriminate).
Qed.

Lemma WriteTo_ReadFrom_round_trip_witness :
  ParamsIO.ReadFrom num_spec.DivRound U64
    (ParamsIO.encoding Inputs.paramsEBS5 ++ [])
  = io.RDone Inputs.paramsEBS5 97 [] /\
  GadgetIO.ReadFrom U64
    (GadgetIO.encoding (Params.blindRotateParameters Inputs.paramsEBS5) ++ [])
  = io.RDone (Params.blindRotateParameters Inputs.paramsEBS5) 16 [].
Proof.
  split.
  - apply (proj2 (WriteTo_ReadFrom_round_trip num_spec.DivRound U64)
             Params.ParamsEBS5 Inputs.paramsEBS5 [] []).
    + unfold Params.wf_literal, Gadget.wf_literal, is_T, is_int, is_uint.
      repeat split; vm_compute; (reflexivity || discriminate).
    + vm_compute. reflexivity.
  - apply (proj1 (WriteTo_ReadFrom_round_trip num_spec.DivRound U64)
             (Params.BlindRotateParameters Params.ParamsEBS5)
             (Params.blindRotateParameters Inputs.paramsEBS5) [] []).
    + unfold Gadget.wf_literal, is_T, is_int, is_uint.
      repeat split; vm_compute; (reflexivity || discriminate).
    + vm_compute. reflexivity.
Defined.

(** ** The recursive bootstrap orchestrator *)

Section BootstrapProofs.

Context {LookUpTable : Type}.

Lemma int_shl_small i : 0 <= i <= 62 -> int_shl 1 i = 2 ^ i.
Proof.
  intros H. unfold int_shl. rewrite Z.shiftl_1_l.
  apply wrapI_id. unfold is_int.
  assert (2 ^ i <= 2 ^ 62) by (apply Z.pow_le_mono_r; lia).
  assert (0 < 2 ^ i) by (apply Z.pow_pos_nonneg; lia).
  lia.
Qed.

Lemma int_div_pow2 e i :
  0 <= e -> is_int e -> 0 <= i <= 62 ->
  int_div e (int_shl 1 i) = Ok (e / 2 ^ i).
Proof.
  intros He Hint Hi. unfold int_div. rewrite int_shl_small by exact Hi.
  assert (Hp : 0 < 2 ^ i) by (apply Z.pow_pos_nonneg; lia).
  destruct (Z.eqb_spec (2 ^ i) 0); [lia|].
  rewrite Z.quot_div_nonneg by lia.
  rewrite wrapI_id; [reflexivity|].
  unfold is_int in *.
  pose proof (Z.div_pos e (2 ^ i) He Hp).
  pose proof (Z.div_le_upper_bound e (2 ^ i) e Hp ltac:(nia)). lia.
Qed.

Lemma range_S lo n : Slice.range lo (S n) = lo :: Slice.range (lo + 1) n.
Proof.
  unfold Slice.range. cbn [seq map]. f_equal; [lia|].
  rewrite <- seq_shift, map_map. apply map_ext. intros k. lia.
Qed.

Lemma call_rotate_Ok (p : Params.Parameters) ct (lut : LookUpTable) ef ctOut :
  0 < Params.polyDegree p ->
  Params.lookUpTableSize p = Params.polyExtendFactor p * Params.polyDegree p ->
  2 * Params.lookUpTableSize p < 2 ^ 63 ->
  1 <= ef <= Params.polyExtendFactor p ->
  Bootstrap.call_blindRotateArbitraryExtendedAssign p ct lut ef ctOut
  = Ok (Bootstrap.blindRotateArbitraryExtendedAssign ct lut ef ctOut).
Proof.
  intros HN HL Hfit Hef. unfold Bootstrap.call_blindRotateArbitraryExtendedAssign.
  cbv zeta. unfold int_mul.
  assert (0 < Params.polyDegree p * ef <= Params.lookUpTableSize p) by nia.
  rewrite (wrapI_id (2 * Params.lookUpTableSize p)) by (unfold is_int; lia).
  rewrite (wrapI_id (Params.polyDegree p * ef)) by (unfold is_int; lia).
  rewrite (wrapI_id (2 * (Params.polyDegree p * ef))) by (unfold is_int; lia).
  destruct (Z.eqb_spec (2 * Params.lookUpTableSize p) 0); [lia|].
  destruct (Z.eqb_spec (2 * (Params.polyDegree p * ef)) 0); [lia|].
  destruct (Z.eqb_spec ef 0); [lia|]. reflexivity.
Qed.

Lemma call_rotate_zero (p : Params.Parameters) ct (lut : LookUpTable) ctOut :
  Bootstrap.call_blindRotateArbitraryExtendedAssign p ct lut 0 ctOut
  = Panic "integer divide by zero".
Proof.
  unfold Bootstrap.call_blindRotateArbitraryExtendedAssign. cbv zeta.
  destruct (int_mul 2 (Params.lookUpTableSize p) =? 0); [reflexivity|].
  unfold int_mul. rewrite Z.mul_0_r. reflexivity.
Qed.

Lemma call_compress_base_Ok (p : Params.Parameters) ct (lut : LookUpTable) ctOut :
  0 < Params.polyDegree p -> 2 * Params.polyDegree p < 2 ^ 63 ->
  Bootstrap.call_blindRotateLUTCompressAssign p ct lut ctOut
  = Ok (Bootstrap.blindRotateLUTCompressAssign ct lut ctOut) /\
  Bootstrap.call_blindRotateBaseLUTAssign p ct lut ctOut
  = Ok (Bootstrap.blindRotateBaseLUTAssign ct lut ctOut).
Proof.
  intros HN Hfit.
  unfold Bootstrap.call_blindRotateLUTCompressAssign,
    Bootstrap.call_blindRotateBaseLUTAssign, int_mul.
  rewrite wrapI_id by (unfold is_int; lia).
  destruct (Z.eqb_spec (2 * Params.polyDegree p) 0); [lia|]. auto.
Qed.

Lemma pow2_le_of_log2 e i : 0 < e -> 0 <= i <= Z.log2 e -> 2 ^ i <= e.
Proof.
  intros He Hi. destruct (Z.log2_spec e He) as [Hlo _].
  assert (2 ^ i <= 2 ^ Z.log2 e) by (apply Z.pow_le_mono_r; lia). lia.
Qed.

Lemma negLoop_follows_step_ii (p : Params.Parameters) ct ctOut
  (dec : list LookUpTable) count :
  let e := Params.polyExtendFactor p in
  0 < Params.polyDegree p ->
  Params.lookUpTableSize p = e * Params.polyDegree p ->
  2 * Params.lookUpTableSize p < 2 ^ 63 ->
  1 <= e ->
  forall i, 0 <= i -> i + Z.of_nat count <= Z.log2 e ->
  Bootstrap.negLoop p ct ctOut dec i count
  = Bootstrap.concat_results
      (map (Bootstrap.step_ii e ct ctOut dec) (Slice.range i count)).
Proof.
  intros e HN HL Hfit He.
  assert (Hint : is_int e) by (unfold is_int; nia).
  assert (Hlog : Z.log2 e <= 62).
  { assert (Z.log2 e < 63); [| lia]. apply Z.log2_lt_pow2; nia. }
  induction count as [|c IH]; intros i Hi Hb.
  - reflexivity.
  - rewrite range_S. cbn [map Bootstrap.concat_results Bootstrap.negLoop].
    unfold Bootstrap.step_ii at 1.
    rewrite <- IH by lia.
    destruct (Slice.index dec i) as [lut|m]; cbn [bind]; [| reflexivity].
    fold e. rewrite int_div_pow2 by (assumption || lia). cbn [bind].
    assert (Hp : 2 ^ (i + 1) <= e) by (apply pow2_le_of_log2; lia).
    assert (Hp0 : 0 < 2 ^ (i + 1)) by (apply Z.pow_pos_nonneg; lia).
    rewrite call_rotate_Ok; try assumption.
    + cbn [bind].
      destruct (Bootstrap.negLoop p ct ctOut dec (i + 1) c); reflexivity.
    + fold e. split.
      * apply Z.div_le_lower_bound; lia.
      * apply Z.div_le_upper_bound; nia.
Qed.

Lemma index_in_range {A} (s : list A) i :
  0 <= i < Z.of_nat (length s) -> exists a, Slice.index s i = Ok a.
Proof.
  intros H. unfold Slice.index.
  destruct (Z.leb_spec 0 i); [| lia].
  destruct (Z.ltb_spec i (Z.of_nat (length s))); [| lia]. cbn [andb].
  destruct (s !! Z.to_nat i) eqn:E; [eauto|].
  apply lookup_ge_None in E. lia.
Qed.

Lemma steps_return (e : Z) ct acc (dec : list LookUpTable) count :
  forall i, 0 <= i -> i + Z.of_nat count <= Z.of_nat (length dec) ->
  exists calls,
    Bootstrap.concat_results
      (map (Bootstrap.step_ii e ct acc dec) (Slice.range i count)) = Ok calls.
Proof.
  induction count as [|c IH]; intros i Hi Hb.
  - exists []. reflexivity.
  - rewrite range_S. cbn [map Bootstrap.concat_results].
    destruct (index_in_range dec i ltac:(lia)) as [lut Hl].
    unfold Bootstrap.step_ii at 1. rewrite Hl. cbn [bind].
    destruct (IH (i + 1) ltac:(lia) ltac:(lia)) as [calls Hc].
    rewrite Hc. cbn [bind]. eauto.
Qed.


End BootstrapProofs.

Lemma paramsEBS6_compiled :
  Params.Compile num_spec.DivRound U64 Params.ParamsEBS6 = Ok Inputs.paramsEBS6.
Proof. vm_compute. reflexivity. Qed.



(** ** Recursive decomposition of the function table *)

Lemma halve_new_length T cur : length (LUT.halve_new T cur) = (length cur / 2)%nat.
Proof. unfold LUT.halve_new. rewrite length_map, length_seq. reflexivity. Qed.

Lemma halve_neg_length T cur : length (LUT.halve_neg T cur) = (length cur / 2)%nat.
Proof. unfold LUT.halve_neg. rewrite length_map, length_seq. reflexivity. Qed.

Lemma nth_map_seq (g : nat -> Z) n j :
  (j < n)%nat -> nth j (map g (seq 0 n)) 0 = g j.
Proof.
  intros H. rewrite (nth_indep _ 0 (g 0%nat)) by (rewrite length_map, length_seq; lia).
  rewrite map_nth, seq_nth by lia. reflexivity.
Qed.

Lemma halve_new_nth T cur j :
  (j < length cur / 2)%nat ->
  nth j (LUT.halve_new T cur) 0
  = wrapT T (nth j cur 0 / 2 + nth (j + length cur / 2) cur 0 / 2).
Proof. intros H. unfold LUT.halve_new. rewrite nth_map_seq by exact H. reflexivity. Qed.

Lemma halve_neg_nth T cur j :
  (j < length cur / 2)%nat ->
  nth j (LUT.halve_neg T cur) 0
  = wrapT T (nth j cur 0 / 2 - nth (j + length cur / 2) cur 0 / 2).
Proof. intros H. unfold LUT.halve_neg. rewrite nth_map_seq by exact H. reflexivity. Qed.

Lemma current_at_S T i cur :
  LUT.current_at T (S i) cur = LUT.halve_new T (LUT.current_at T i cur).
Proof.
  revert cur. induction i as [|i IH]; intros cur; [reflexivity|].
  change (LUT.current_at T (S (S i)) cur)
    with (LUT.current_at T (S i) (LUT.halve_new T cur)).
  rewrite IH. reflexivity.
Qed.

Lemma current_at_length T i cur :
  Z.of_nat (length (LUT.current_at T i cur))
  = Z.of_nat (length cur) / 2 ^ Z.of_nat i.
Proof.
  induction i as [|i IH].
  - cbn [LUT.current_at]. change (2 ^ Z.of_nat 0) with 1. rewrite Z.div_1_r. reflexivity.
  - rewrite current_at_S, halve_new_length, Nat2Z.inj_div, IH.
    change (Z.of_nat 2) with 2.
    replace (Z.of_nat (S i)) with (Z.of_nat i + 1) by lia.
    rewrite Z.pow_add_r by lia.
    rewrite Z.div_div by (try apply Z.pow_pos_nonneg; lia).
    reflexivity.
Qed.

Lemma decompose_loop_unfold T r cur :
  LUT.decompose_loop T r cur
  = (map (fun i => LUT.halve_neg T (LUT.current_at T i cur)) (seq 0 r),
     LUT.current_at T r cur).
Proof.
  revert cur. induction r as [|r IH]; intros cur; [reflexivity|].
  cbn [LUT.decompose_loop]. rewrite IH.
  cbn [seq map LUT.current_at]. rewrite <- seq_shift, map_map. reflexivity.
Qed.

Lemma logExtendFactor_pow2 k :
  0 <= k -> LUT.logExtendFactor (2048 * 2 ^ k) = k.
Proof.
  intros Hk. unfold LUT.logExtendFactor, LUT.extendFactor, LUT.Log2_trunc.
  assert (Hp : 0 < 2 ^ k) by (apply Z.pow_pos_nonneg; lia).
  rewrite Z.mul_comm, Z.quot_mul by lia.
  destruct (Z.leb_spec (2 ^ k) 0); [lia|].
  apply Z.log2_pow2. exact Hk.
Qed.

Lemma funcEval_length f m : 0 <= m -> Z.of_nat (length (LUT.funcEval f m)) = m.
Proof.
  intros H. unfold LUT.funcEval, Slice.range.
  rewrite !length_map, length_seq. lia.
Qed.

(** C2 (as amended).  For a function table over [[0, m)] and a look-up
    table of size [2048 * 2^k], both builders return [k] negative tables
    and a base table; round [i] computes, from the current table [cur]
    with [h = len(cur)/2],
    [new[j] = cur[j]/2 + cur[j+h]/2] and [neg[j] = cur[j]/2 - cur[j+h]/2]
    in [Z_Q], each entry halved (rounding down) before the sum and the
    difference are taken; the [i]-th negative table has length
    [m / 2^(i+1)] and the base table has length [m / 2^k]. *)
Theorem decomposition_halves_each_entry T (f : Z -> Z) (m k : Z) :
  0 <= m < 2 ^ 63 -> 0 <= k ->
  exists negs base,
    LUT.decomposeFuncEval T (2048 * 2 ^ k) f m = Ok (negs, base) /\
    length negs = Z.to_nat k /\
    base = LUT.current_at T (Z.to_nat k) (LUT.funcEval f m) /\
    Z.of_nat (length base) = m / 2 ^ k /\
    forall i, (i < Z.to_nat k)%nat ->
      let cur := LUT.current_at T i (LUT.funcEval f m) in
      let new := LUT.current_at T (S i) (LUT.funcEval f m) in
      let h := (length cur / 2)%nat in
      exists neg,
        negs !! i = Some neg /\
        Z.of_nat (length neg) = m / 2 ^ (Z.of_nat i + 1) /\
        length new = length neg /\
        forall j, (j < h)%nat ->
          nth j new 0 = wrapT T (nth j cur 0 / 2 + nth (j + h) cur 0 / 2) /\
          nth j neg 0 = wrapT T (nth j cur 0 / 2 - nth (j + h) cur 0 / 2).
Proof.
  intros Hm Hk.
  unfold LUT.decomposeFuncEval, int_of_uint64.
  rewrite (wrapI_id m) by (unfold is_int; lia).
  destruct (Z.ltb_spec m 0); [lia|].
  rewrite logExtendFactor_pow2 by exact Hk.
  rewrite decompose_loop_unfold.
  eexists. eexists. split; [reflexivity|].
  split; [rewrite length_map, length_seq; reflexivity|].
  split; [reflexivity|].
  split.
  { rewrite current_at_length, funcEval_length by lia.
    rewrite Z2Nat.id by lia. reflexivity. }
  intros i Hi.
  set (cur := LUT.current_at T i (LUT.funcEval f m)).
  exists (LUT.halve_neg T cur). split.
  { rewrite list_lookup_fmap.
    rewrite lookup_seq_lt by exact Hi. reflexivity. }
  split.
  { rewrite halve_neg_length, Nat2Z.inj_div. subst cur.
    rewrite current_at_length, funcEval_length by lia.
    change (Z.of_nat 2) with 2.
    rewrite Z.div_div by (try apply Z.pow_pos_nonneg; lia).
    rewrite Z.pow_add_r by lia. reflexivity. }
  split.
  { rewrite current_at_S, halve_new_length, halve_neg_length.
    reflexivity. }
  intros j Hj. rewrite current_at_S.
  split; [apply halve_new_nth | apply halve_neg_nth]; exact Hj.
Qed.

Lemma decomposition_halves_each_entry_witness :
  exists negs base,
    LUT.decomposeFuncEval U64 (2048 * 2 ^ 1) (fun x => 2 * x + 1) 4 = Ok (negs, base) /\
    length negs = Z.to_nat 1 /\
    base = LUT.current_at U64 (Z.to_nat 1) (LUT.funcEval (fun x => 2 * x + 1) 4) /\
    Z.of_nat (length base) = 4 / 2 ^ 1 /\
    forall i, (i < Z.to_nat 1)%nat ->
      let cur := LUT.current_at U64 i (LUT.funcEval (fun x => 2 * x + 1) 4) in
      let new := LUT.current_at U64 (S i) (LUT.funcEval (fun x => 2 * x + 1) 4) in
      let h := (length cur / 2)%nat in
      exists neg,
        negs !! i = Some neg /\
        Z.of_nat (length neg) = 4 / 2 ^ (Z.of_nat i + 1) /\
        length new = length neg /\
        forall j, (j < h)%nat ->
          nth j new 0 = wrapT U64 (nth j cur 0 / 2 + nth (j + h) cur 0 / 2) /\
          nth j neg 0 = wrapT U64 (nth j cur 0 / 2 - nth (j + h) cur 0 / 2).
Proof.
  apply (decomposition_halves_each_entry U64 (fun x => 2 * x + 1) 4 1); lia.
Defined.

(** C2, as stated, fails: on the table [1, 1] the code gives
    [new[0] = 1/2 + 1/2 = 0], and halving the sum gives [(1 + 1)/2 = 1]. *)
Lemma decomposition_does_not_halve_the_sum :
  LUT.funcEval (fun _ => 1) 2 = [1; 1] /\
  LUT.decomposeFuncEval U64 4096 (fun _ => 1) 2 = Ok ([[0]], [0]) /\
  LUT.halve_new U64 [1; 1] = [0] /\
  LUT.halve_new_spec U64 [1; 1] = [1].
Proof. vm_compute. auto. Qed.

(** ** The compress LUT *)

Lemma paramsU32_compiled :
  Params.Compile num_spec.DivRound U32 Inputs.ParamsU32 = Ok Inputs.paramsU32.
Proof. vm_compute. reflexivity. Qed.

Lemma compressCodeword_uint32 m x : LUT.compressCodeword U32 m x = 0.
Proof.
  unfold LUT.compressCodeword, wrapT, wrapU. cbn [num.SizeT].
  change (Z.shiftl 1 63 mod 2 ^ 32) with 0.
  change (Z.shiftl 1 62 mod 2 ^ 32) with 0.
  rewrite !Zdiv_0_l. reflexivity.
Qed.

Lemma compressCodeword_uint64 m x :
  0 < m -> 0 <= x < m / 2 ->
  LUT.compressCodeword U64 m x = LUT.compressCodeword_spec U64 m x.
Proof.
  intros Hm Hx.
  unfold LUT.compressCodeword, LUT.compressCodeword_spec, wrapT, wrapU.
  cbn [num.SizeT].
  change (Z.shiftl 1 63 mod 2 ^ 64) with (2 ^ 63).
  change (Z.shiftl 1 62 mod 2 ^ 64) with (2 ^ 62).
  change (2 ^ 64) with (2 * 2 ^ 63) at 3.
  change (2 ^ 64) with (4 * 2 ^ 62) at 3.
  rewrite !Z.div_mul_cancel_l by lia.
  assert (H1 : 0 <= 2 ^ 63 / m) by (apply Z.div_pos; lia).
  assert (H2 : 0 <= 2 ^ 62 / m <= 2 ^ 62).
  { split; [apply Z.div_pos; lia|].
    apply Z.div_le_upper_bound; [lia|]. nia. }
  assert (H3 : 2 ^ 63 / m * x <= 2 ^ 62).
  { assert (m * (2 ^ 63 / m) <= 2 ^ 63) by (apply Z.mul_div_le; lia).
    assert (2 * (m / 2) <= m) by (apply Z.mul_div_le; lia).
    nia. }
  assert (H4 : 0 <= 2 ^ 63 / m * x) by nia.
  rewrite (Z.mod_small (2 ^ 63 / m * x)) by lia.
  apply Z.mod_small. lia.
Qed.

(** C8, the failing input.  On [uint32] with message modulus 32 the
    shifts [T(1)<<63] and [T(1)<<62] are zero, so both builders fill
    every run with the code word 0: the run of [x = 1], positions
    128 to 255, holds 0 where the specification has
    [(Q/(2m))*x + Q/(4m) = 2^26 + 2^25]. *)
Theorem compress_LUT_uint32_all_zero :
  LUT.GenCompressLUT_lutRaw num_spec.DivRound U32 Inputs.paramsU32
    = Ok (replicate 2048 0) /\
  LUT.GenExtendedCompressLUT_lutRaw num_spec.DivRound U32 Inputs.paramsU32
    (replicate 2048 7) = Ok (replicate 2048 0) /\
  LUT.runStart num_spec.DivRound 2048 32 1 = 128 /\
  LUT.runEnd num_spec.DivRound 2048 32 1 = 256 /\
  LUT.compressCodeword U32 32 1 = 0 /\
  LUT.compressCodeword_spec U32 32 1 = 2 ^ 26 + 2 ^ 25.
Proof. vm_compute. auto 10. Qed.

(** ** The modulus switch for the compress LUT, in exact arithmetic *)

Lemma digits2_pos_size m : digits2_pos m = Pos.size m.
Proof. induction m as [m IH|m IH|]; cbn; rewrite ?IH; reflexivity. Qed.

Lemma digits2_pos_log2 m : Z.pos (digits2_pos m) = Z.log2 (Z.pos m) + 1.
Proof.
  rewrite digits2_pos_size.
  destruct m as [m|m|]; cbn [Pos.size Z.log2]; lia.
Qed.

Lemma digits2_pos_53 m :
  2 ^ 52 <= Z.pos m < 2 ^ 53 -> Z.pos (digits2_pos m) = 53.
Proof.
  intros H. rewrite digits2_pos_log2.
  rewrite (Z.log2_unique (Z.pos m) 52); lia.
Qed.

Lemma pos_iter_xO m k : Z.pos (Pos.iter xO m k) = Z.pos m * 2 ^ Z.pos k.
Proof.
  induction k as [|k IH] using Pos.peano_ind.
  - cbn [Pos.iter]. lia.
  - rewrite Pos.iter_succ, Pos2Z.inj_succ, Z.pow_succ_r by lia.
    rewrite Pos2Z.inj_xO, IH. ring.
Qed.

Lemma iter_pos_nat {A} (f : A -> A) n x :
  SpecFloat.iter_pos f n x = Nat.iter (Pos.to_nat n) f x.
Proof.
  revert x. induction n as [n IH|n IH|]; intros x; cbn [SpecFloat.iter_pos].
  - rewrite !IH, Pos2Nat.inj_xI.
    replace (S (2 * Pos.to_nat n)) with (Pos.to_nat n + (Pos.to_nat n + 1))%nat by lia.
    rewrite !Nat.iter_add. reflexivity.
  - rewrite !IH, Pos2Nat.inj_xO.
    replace (2 * Pos.to_nat n)%nat with (Pos.to_nat n + Pos.to_nat n)%nat by lia.
    rewrite Nat.iter_add. reflexivity.
  - reflexivity.
Qed.

Lemma shr_1_nonneg M r s :
  0 <= M ->
  shr_1 {| shr_m := M; shr_r := r; shr_s := s |}
  = {| shr_m := M / 2; shr_r := Z.odd M; shr_s := r || s |}.
Proof.
  intros HM. rewrite <- Z.div2_div.
  destruct M as [|[p|p|]|p]; try reflexivity. lia.
Qed.

Lemma mod_pow2_succ x k :
  0 <= k -> x mod 2 ^ (k + 1) = x mod 2 ^ k + 2 ^ k * ((x / 2 ^ k) mod 2).
Proof.
  intros Hk. rewrite Z.pow_add_r by lia. change (2 ^ 1) with 2.
  apply Z.rem_mul_r; [pose proof (Z.pow_pos_nonneg 2 k); lia | lia].
Qed.

Lemma odd_mod2 y : Z.odd y = (y mod 2 =? 1).
Proof.
  rewrite Zmod_odd. destruct (Z.odd y); reflexivity.
Qed.

Lemma shr_iter x (k : nat) :
  0 <= x -> (1 <= k)%nat ->
  Nat.iter k shr_1 {| shr_m := x; shr_r := false; shr_s := false |}
  = {| shr_m := x / 2 ^ Z.of_nat k;
       shr_r := 2 ^ (Z.of_nat k - 1) <=? x mod 2 ^ Z.of_nat k;
       shr_s := negb (x mod 2 ^ (Z.of_nat k - 1) =? 0) |}.
Proof.
  intros Hx Hk. induction k as [|k IH]; [lia|].
  destruct k as [|k].
  - cbn [Nat.iter]. rewrite shr_1_nonneg by exact Hx.
    change (Z.of_nat 1) with 1. change (2 ^ 1) with 2. change (2 ^ (1 - 1)) with 1.
    rewrite Z.mod_1_r. cbn [orb negb Z.eqb]. f_equal.
    rewrite odd_mod2.
    pose proof (Z.mod_pos_bound x 2 ltac:(lia)).
    destruct (Z.eqb_spec (x mod 2) 1); destruct (Z.leb_spec 1 (x mod 2)); lia.
  - rewrite Nat.iter_succ, IH by lia.
    set (j := Z.of_nat (S k)) in *.
    assert (Hj : 1 <= j) by lia.
    replace (Z.of_nat (S (S k))) with (j + 1) by lia.
    replace (j + 1 - 1) with j by lia.
    assert (Hp : 0 < 2 ^ j) by (apply Z.pow_pos_nonneg; lia).
    assert (Hq : 0 <= x / 2 ^ j) by (apply Z.div_pos; lia).
    rewrite shr_1_nonneg by exact Hq.
    pose proof (mod_pow2_succ x j ltac:(lia)) as E1.
    pose proof (mod_pow2_succ x (j - 1) ltac:(lia)) as E0.
    replace (j - 1 + 1) with j in E0 by lia.
    pose proof (Z.mod_pos_bound x (2 ^ j) Hp) as B1.
    assert (Hp0 : 0 < 2 ^ (j - 1)) by (apply Z.pow_pos_nonneg; lia).
    pose proof (Z.mod_pos_bound x (2 ^ (j - 1)) Hp0) as B0.
    pose proof (Z.mod_pos_bound (x / 2 ^ j) 2 ltac:(lia)) as Bb1.
    pose proof (Z.mod_pos_bound (x / 2 ^ (j - 1)) 2 ltac:(lia)) as Bb0.
    remember ((x / 2 ^ j) mod 2) as b1 eqn:Eb1.
    remember ((x / 2 ^ (j - 1)) mod 2) as b0 eqn:Eb0.
    f_equal.
    + rewrite Z.pow_add_r by lia. rewrite Z.div_div by lia. reflexivity.
    + rewrite odd_mod2, <- Eb1.
      assert (Hb : b1 = 0 \/ b1 = 1) by lia.
      destruct Hb as [-> | ->]; rewrite ?Z.mul_0_r, ?Z.mul_1_r in E1;
        destruct (Z.leb_spec (2 ^ j) (x mod 2 ^ (j + 1))); cbn [Z.eqb Pos.eqb];
        try reflexivity; lia.
    + assert (Hb : b0 = 0 \/ b0 = 1) by lia.
      destruct Hb as [-> | ->]; rewrite ?Z.mul_0_r, ?Z.mul_1_r in E0;
        destruct (Z.leb_spec (2 ^ (j - 1)) (x mod 2 ^ j));
        destruct (Z.eqb_spec (x mod 2 ^ (j - 1)) 0);
        destruct (Z.eqb_spec (x mod 2 ^ j) 0); cbn [orb negb]; try reflexivity; lia.
Qed.

(** A mantissa of 53 bits with an exponent in range is kept as it is. *)
Lemma binary_round_aux_canonical m e :
  2 ^ 52 <= Z.pos m < 2 ^ 53 -> - 1074 <= e <= 971 ->
  binary_round_aux Float.prec Float.emax false (Z.pos m) e loc_Exact
  = S754_finite false m e.
Proof.
  intros Hm He.
  pose proof (digits2_pos_53 m Hm) as Hd.
  assert (Hs : fexp Float.prec Float.emax (Z.pos (digits2_pos m) + e) - e = 0).
  { rewrite Hd. unfold fexp, emin, Float.prec, Float.emax. lia. }
  unfold binary_round_aux, shr_fexp. cbn [Zdigits2 shr_record_of_loc].
  rewrite Hs. cbn [shr shr_m loc_of_shr_record round_nearest_even Zdigits2
                   shr_record_of_loc].
  rewrite Hs. cbn [shr shr_m].
  unfold Float.emax, Float.prec.
  destruct (Z.leb_spec e (1024 - 53)); [reflexivity | lia].
Qed.

(** The product of a mantissa of 53 bits with [2^52] is shifted back
    without loss. *)
Lemma binary_round_aux_shifted m e :
  2 ^ 52 <= Z.pos m < 2 ^ 53 -> - 1074 <= e + 52 <= 971 ->
  binary_round_aux Float.prec Float.emax false
    (Z.pos (4503599627370496 * m)) e loc_Exact
  = S754_finite false m (e + 52).
Proof.
  intros Hm He.
  pose proof (digits2_pos_53 m Hm) as Hd.
  assert (Hd2 : Z.pos (digits2_pos (4503599627370496 * m)) = 105).
  { rewrite digits2_pos_log2.
    rewrite (Z.log2_unique (Z.pos (4503599627370496 * m)) 104); lia. }
  assert (Hs : fexp Float.prec Float.emax
                 (Z.pos (digits2_pos (4503599627370496 * m)) + e) - e = 52).
  { rewrite Hd2. unfold fexp, emin, Float.prec, Float.emax. lia. }
  assert (Hs0 : fexp Float.prec Float.emax (Z.pos (digits2_pos m) + (e + 52))
                - (e + 52) = 0).
  { rewrite Hd. unfold fexp, emin, Float.prec, Float.emax. lia. }
  unfold binary_round_aux, shr_fexp. cbn [Zdigits2 shr_record_of_loc].
  rewrite Hs. cbn [shr].
  assert (E : SpecFloat.iter_pos shr_1 52
                {| shr_m := Z.pos (4503599627370496 * m);
                   shr_r := false; shr_s := false |}
              = {| shr_m := Z.pos m; shr_r := false; shr_s := false |})
    by reflexivity.
  rewrite E. cbn [shr_m loc_of_shr_record round_nearest_even Zdigits2
                  shr_record_of_loc].
  rewrite Hs0. cbn [shr shr_m].
  unfold Float.emax, Float.prec.
  destruct (Z.leb_spec (e + 52) (1024 - 53)); [reflexivity | lia].
Qed.

(** [float64(x)] of a positive integer of at most 53 bits is exact. *)
Lemma of_uint_small x :
  0 < x < 2 ^ 53 ->
  exists m,
    Float.of_uint x = S754_finite false m (Z.log2 x - 52) /\
    Z.pos m = x * 2 ^ (52 - Z.log2 x) /\
    2 ^ 52 <= Z.pos m < 2 ^ 53.
Proof.
  intros Hx. destruct x as [|p|p]; try lia.
  pose proof (Z.log2_spec (Z.pos p) ltac:(lia)) as Hl.
  pose proof (Z.log2_nonneg (Z.pos p)) as Hl0.
  assert (Hl52 : Z.log2 (Z.pos p) <= 52).
  { assert (Z.log2 (Z.pos p) < 53); [| lia]. apply Z.log2_lt_pow2; lia. }
  set (l := Z.log2 (Z.pos p)) in *.
  assert (Hb : 2 ^ 52 <= Z.pos p * 2 ^ (52 - l) < 2 ^ 53).
  { assert (E52 : 2 ^ 52 = 2 ^ l * 2 ^ (52 - l))
      by (rewrite <- Z.pow_add_r by lia; f_equal; lia).
    assert (E53 : 2 ^ 53 = 2 ^ Z.succ l * 2 ^ (52 - l))
      by (rewrite <- Z.pow_add_r by lia; f_equal; lia).
    assert (0 < 2 ^ (52 - l)) by (apply Z.pow_pos_nonneg; lia).
    rewrite E52 at 1. rewrite E53. nia. }
  unfold Float.of_uint, binary_normalize, binary_round.
  rewrite digits2_pos_log2. fold l.
  assert (Hf : fexp Float.prec Float.emax (l + 1 + 0) = l - 52).
  { unfold fexp, emin, Float.prec, Float.emax. lia. }
  rewrite Hf. unfold shl_align.
  replace (l - 52 - 0) with (l - 52) by lia.
  destruct (l - 52) as [|d|d] eqn:Ed; try lia.
  - exists p. replace (52 - l) with 0 in * by lia.
    rewrite Z.pow_0_r, Z.mul_1_r in *.
    split; [apply binary_round_aux_canonical; lia|]. split; [reflexivity | exact Hb].
  - assert (Em : Z.pos (Pos.iter xO p d) = Z.pos p * 2 ^ (52 - l)).
    { rewrite pos_iter_xO. f_equal. f_equal. lia. }
    exists (Pos.iter xO p d).
    split; [apply binary_round_aux_canonical; lia|].
    split; [exact Em | rewrite Em; exact Hb].
Qed.

(** [float64(x)] of an integer of more than 53 bits: the 53 leading
    bits, rounded to nearest, a tie to even. *)
Lemma of_uint_large x :
  2 ^ 53 <= x < 2 ^ 64 ->
  exists m ex,
    Float.of_uint x = S754_finite false m ex /\
    2 ^ 52 <= Z.pos m < 2 ^ 53 /\
    0 < ex <= Z.log2 x - 51 /\
    Z.pos m * 2 ^ ex = ModSwitchM.float64_of x /\
    ModSwitchM.float64_of x <= 2 ^ (Z.log2 x + 1).
Proof.
  intros Hx. destruct x as [|p|p]; try lia.
  pose proof (Z.log2_spec (Z.pos p) ltac:(lia)) as Hl.
  assert (Hl53 : 53 <= Z.log2 (Z.pos p)) by (apply Z.log2_le_pow2; lia).
  assert (Hl64 : Z.log2 (Z.pos p) < 64) by (apply Z.log2_lt_pow2; lia).
  unfold ModSwitchM.float64_of. cbv zeta.
  set (l := Z.log2 (Z.pos p)) in *.
  set (s := l - 52).
  assert (Hs : 1 <= s <= 11) by lia.
  destruct (Z.leb_spec s 0) as [|_]; [lia|].
  set (q := Z.pos p / 2 ^ s).
  set (r := Z.pos p mod 2 ^ s).
  set (h := 2 ^ (s - 1)).
  set (D := if r <? h then q else if h <? r then q + 1
            else if Z.even q then q else q + 1).
  assert (Hps : 0 < 2 ^ s) by (apply Z.pow_pos_nonneg; lia).
  assert (Hph : 0 < h) by (apply Z.pow_pos_nonneg; lia).
  assert (Ehs : 2 ^ s = 2 * h).
  { unfold h. rewrite <- Z.pow_succ_r by lia. f_equal. lia. }
  assert (Hq : 2 ^ 52 <= q < 2 ^ 53).
  { unfold q. split.
    - apply Z.div_le_lower_bound; [lia|].
      rewrite <- Z.pow_add_r by lia. replace (s + 52) with l by lia. lia.
    - apply Z.div_lt_upper_bound; [lia|].
      rewrite <- Z.pow_add_r by lia. replace (s + 53) with (Z.succ l) by lia. lia. }
  assert (HD : q <= D <= q + 1).
  { unfold D. destruct (r <? h); [lia|]. destruct (h <? r); [lia|].
    destruct (Z.even q); lia. }
  (* the first shift *)
  assert (H1 : shr_fexp Float.prec Float.emax (Z.pos p) 0 loc_Exact
               = ({| shr_m := q; shr_r := h <=? r;
                     shr_s := negb (Z.pos p mod h =? 0) |}, s)).
  { unfold shr_fexp. cbn [Zdigits2 shr_record_of_loc].
    rewrite digits2_pos_log2. fold l.
    assert (Hf : fexp Float.prec Float.emax (l + 1 + 0) - 0 = s).
    { unfold fexp, emin, Float.prec, Float.emax. lia. }
    rewrite Hf. unfold shr.
    destruct s as [|sp|sp] eqn:Es; try lia.
    rewrite iter_pos_nat, shr_iter by lia.
    rewrite positive_nat_Z. reflexivity. }
  assert (H2 : round_nearest_even q
                 (loc_of_shr_record
                    {| shr_m := q; shr_r := h <=? r;
                       shr_s := negb (Z.pos p mod h =? 0) |}) = D).
  { pose proof (mod_pow2_succ (Z.pos p) (s - 1) ltac:(lia)) as E0.
    replace (s - 1 + 1) with s in E0 by lia. fold r in E0. fold h in E0.
    pose proof (Z.mod_pos_bound (Z.pos p) h Hph) as B0.
    pose proof (Z.mod_pos_bound (Z.pos p / h) 2 ltac:(lia)) as Bb.
    remember ((Z.pos p / h) mod 2) as b eqn:Eb.
    assert (Hb : b = 0 \/ b = 1) by lia.
    unfold D, loc_of_shr_record, round_nearest_even.
    destruct Hb as [-> | ->]; rewrite ?Z.mul_0_r, ?Z.mul_1_r in E0;
      destruct (Z.leb_spec h r); destruct (Z.eqb_spec (Z.pos p mod h) 0);
      destruct (Z.ltb_spec r h); destruct (Z.ltb_spec h r);
      cbn [negb]; try reflexivity; lia. }
  unfold Float.of_uint, binary_normalize, binary_round.
  rewrite digits2_pos_log2. fold l.
  assert (Hf : fexp Float.prec Float.emax (l + 1 + 0) = s).
  { unfold fexp, emin, Float.prec, Float.emax. lia. }
  rewrite Hf. unfold shl_align.
  replace (s - 0) with s by lia.
  destruct s as [|sp|sp] eqn:Es; try lia. rewrite <- Es in *.
  unfold binary_round_aux. rewrite H1. cbv beta iota. cbn [shr_m]. rewrite H2.
  destruct (Z.eq_dec D (2 ^ 53)) as [E53 | N53].
  - (* the mantissa carries into a 54th bit *)
    rewrite E53.
    assert (H3 : shr_fexp Float.prec Float.emax (2 ^ 53) s loc_Exact
                 = ({| shr_m := 2 ^ 52; shr_r := false; shr_s := false |}, s + 1)).
    { unfold shr_fexp. change (Zdigits2 (2 ^ 53)) with 54.
      assert (Hf' : fexp Float.prec Float.emax (54 + s) - s = 1).
      { unfold fexp, emin, Float.prec, Float.emax. lia. }
      rewrite Hf'. reflexivity. }
    rewrite H3. cbn [shr_m]. change (2 ^ 52) with (Z.pos 4503599627370496).
    cbv iota beta.
    unfold Float.emax, Float.prec.
    destruct (Z.leb_spec (s + 1) (1024 - 53)); [| lia].
    exists 4503599627370496%positive, (s + 1).
    split; [reflexivity|]. split; [lia|]. split; [lia|].
    split.
    + rewrite Z.pow_add_r by lia. lia.
    + replace (l + 1) with (53 + s) by lia. rewrite Z.pow_add_r by lia. lia.
  - assert (HDb : 2 ^ 52 <= D < 2 ^ 53) by lia.
    destruct D as [|dp|dp] eqn:ED; try lia.
    assert (H3 : shr_fexp Float.prec Float.emax (Z.pos dp) s loc_Exact
                 = ({| shr_m := Z.pos dp; shr_r := false; shr_s := false |}, s)).
    { unfold shr_fexp. cbn [Zdigits2 shr_record_of_loc].
      rewrite (digits2_pos_53 dp HDb).
      assert (Hf' : fexp Float.prec Float.emax (53 + s) - s = 0).
      { unfold fexp, emin, Float.prec, Float.emax. lia. }
      rewrite Hf'. reflexivity. }
    rewrite H3. cbn [shr_m].
    unfold Float.emax, Float.prec.
    destruct (Z.leb_spec s (1024 - 53)); [| lia].
    exists dp, s.
    split; [reflexivity|]. split; [lia|]. split; [lia|].
    split; [reflexivity|].
    replace (l + 1) with (53 + s) by lia. rewrite Z.pow_add_r by lia. nia.
Qed.

(** [float64(x)] of a positive 64-bit integer: a mantissa of 53 bits
    and an exponent whose value is [float64_of x]. *)
Lemma of_uint_pos x :
  0 < x < 2 ^ 64 ->
  exists m ex,
    Float.of_uint x = S754_finite false m ex /\
    2 ^ 52 <= Z.pos m < 2 ^ 53 /\
    - 52 <= ex <= Z.log2 x - 51 /\
    Z.pos m * 2 ^ (ex + 52) = ModSwitchM.float64_of x * 2 ^ 52 /\
    ModSwitchM.float64_of x <= 2 ^ (Z.log2 x + 1).
Proof.
  intros Hx. pose proof (Z.log2_nonneg x) as Hl0.
  destruct (Z.lt_ge_cases x (2 ^ 53)) as [Hs | Hb].
  - destruct (of_uint_small x ltac:(lia)) as (m & E & Em & Hm).
    assert (Hl52 : Z.log2 x <= 52).
    { assert (Z.log2 x < 53); [| lia]. apply Z.log2_lt_pow2; lia. }
    assert (EF : ModSwitchM.float64_of x = x).
    { unfold ModSwitchM.float64_of. cbv zeta.
      destruct (Z.leb_spec (Z.log2 x - 52) 0); [reflexivity | lia]. }
    exists m, (Z.log2 x - 52).
    split; [exact E|]. split; [exact Hm|]. split; [lia|].
    rewrite EF. split.
    + rewrite Em, <- Z.mul_assoc, <- Z.pow_add_r by lia.
      f_equal. f_equal. lia.
    + pose proof (Z.log2_spec x ltac:(lia)) as Hl.
      replace (Z.log2 x + 1) with (Z.succ (Z.log2 x)) by lia. lia.
  - destruct (of_uint_large x ltac:(lia)) as (m & ex & E & Hm & Hex & Ev & HF).
    exists m, ex.
    split; [exact E|]. split; [exact Hm|]. split; [lia|].
    split; [| exact HF].
    rewrite Z.pow_add_r by lia. rewrite Z.mul_assoc, Ev. reflexivity.
Qed.

Lemma two_is : Float.two = S754_finite false 4503599627370496 (- 51).
Proof. reflexivity. Qed.

(** Doubling a float64 changes its exponent only. *)
Lemma mul_two m e :
  2 ^ 52 <= Z.pos m < 2 ^ 53 -> - 1074 <= e + 1 <= 971 ->
  Float.mul (S754_finite false m e) Float.two = S754_finite false m (e + 1).
Proof.
  intros Hm He. rewrite two_is. unfold Float.mul, SFmul. cbn [xorb].
  rewrite Pos.mul_comm.
  rewrite binary_round_aux_shifted by (assumption || lia).
  f_equal. lia.
Qed.

(** Multiplying a float64 by a power of two changes its exponent only. *)
Lemma mul_pow2 ec m e :
  2 ^ 52 <= Z.pos m < 2 ^ 53 -> - 1074 <= ec + e + 52 <= 971 ->
  Float.mul (S754_finite false 4503599627370496 ec) (S754_finite false m e)
  = S754_finite false m (ec + e + 52).
Proof.
  intros Hm He. unfold Float.mul, SFmul. cbn [xorb].
  apply binary_round_aux_shifted; assumption.
Qed.

Lemma is_pow2_eq f k :
  Float.is_pow2 f k = true -> f = S754_finite false 4503599627370496 (k - 52).
Proof.
  destruct f as [| | |[] m e]; try discriminate. cbn [Float.is_pow2].
  intros H. apply andb_true_iff in H as [Hm He].
  apply Pos.eqb_eq in Hm. apply Z.eqb_eq in He. subst. reflexivity.
Qed.

(** The modulus-switch constant [2L/Q] of a table size [L = 2^l] is the
    float64 [2^(l+1-w)]. *)
Lemma modSwitchConstant_pow2 T p l :
  Params.lookUpTableSize p = 2 ^ l -> 0 <= l <= 60 ->
  ModSwitchM.modSwitchConstant_spec T p
  = S754_finite false 4503599627370496 (l + 1 - num.SizeT T - 52).
Proof.
  intros HL Hl. unfold ModSwitchM.modSwitchConstant_spec. rewrite HL.
  apply is_pow2_eq.
  assert (Hall : forallb (fun k : nat =>
            Float.is_pow2
              (Float.div (Float.of_uint (2 * 2 ^ Z.of_nat k))
                         (Float.Exp2_int (num.SizeT T)))
              (Z.of_nat k + 1 - num.SizeT T)) (seq 0 61) = true)
    by (destruct T; vm_compute; reflexivity).
  rewrite forallb_forall in Hall.
  specialize (Hall (Z.to_nat l)). rewrite Z2Nat.id in Hall by lia.
  apply Hall. apply in_seq. lia.
Qed.

Lemma round_div_exact V W : 0 < W -> ModSwitchM.round_div (V * W) W = V.
Proof.
  intros HW. unfold ModSwitchM.round_div.
  symmetry. apply (Z.div_unique_pos _ _ V W); lia.
Qed.

Lemma round_div_scale n d c :
  0 < d -> 0 < c -> ModSwitchM.round_div (n * c) (d * c) = ModSwitchM.round_div n d.
Proof.
  intros Hd Hc. unfold ModSwitchM.round_div.
  replace (2 * (n * c) + d * c) with ((2 * n + d) * c) by ring.
  replace (2 * (d * c)) with (2 * d * c) by ring.
  apply Z.div_mul_cancel_r; lia.
Qed.

(** [int(math.Round(f))] followed by the doubling, for a float64 [f]
    with a mantissa of 53 bits: twice the nearest integer, a half
    upwards. *)
Lemma round_times_two m e1 :
  2 ^ 52 <= Z.pos m < 2 ^ 53 -> - 200 <= e1 <= 9 ->
  Float.to_int (Float.mul (Float.Round (S754_finite false m e1)) Float.two)
  = ModSwitchM.round_div (Z.pos m * 2 ^ (e1 + 200)) (2 ^ 200) * 2.
Proof.
  intros Hm He. unfold Float.Round.
  destruct (Z.leb_spec 0 e1) as [Hpos | Hneg].
  - rewrite mul_two by (assumption || lia).
    rewrite Z.pow_add_r by lia. rewrite Z.mul_assoc.
    rewrite round_div_exact by lia.
    cbn [Float.to_int].
    destruct (Z.leb_spec 0 (e1 + 1)); [| lia].
    rewrite Z.pow_add_r by lia. change (2 ^ 1) with 2.
    assert (Hb : 0 < 2 ^ e1 <= 2 ^ 9)
      by (split; [apply Z.pow_pos_nonneg; lia | apply Z.pow_le_mono_r; lia]).
    assert (Hv : 0 <= Z.pos m * (2 ^ e1 * 2) < 2 ^ 63) by nia.
    destruct (Z.leb_spec (- 2 ^ 63) (Z.pos m * (2 ^ e1 * 2)));
      destruct (Z.ltb_spec (Z.pos m * (2 ^ e1 * 2)) (2 ^ 63)); cbn [andb]; lia.
  - set (t := - e1).
    assert (Ht : 1 <= t <= 200) by lia.
    set (q := (Z.pos m + 2 ^ (- e1 - 1)) / 2 ^ (- e1)).
    change (Float.to_int (Float.mul (Float.of_uint q) Float.two)
            = ModSwitchM.round_div (Z.pos m * 2 ^ (e1 + 200)) (2 ^ 200) * 2).
    replace (- e1 - 1) with (t - 1) in q by lia. fold t in q.
    assert (Hu : 0 < 2 ^ (t - 1)) by (apply Z.pow_pos_nonneg; lia).
    assert (Et : 2 ^ t = 2 ^ (t - 1) * 2).
    { rewrite Z.mul_comm, <- Z.pow_succ_r by lia. f_equal. lia. }
    assert (ER : ModSwitchM.round_div (Z.pos m * 2 ^ (e1 + 200)) (2 ^ 200) = q).
    { replace (2 ^ 200) with (2 ^ t * 2 ^ (e1 + 200))
        by (rewrite <- Z.pow_add_r by lia; f_equal; lia).
      rewrite round_div_scale by (apply Z.pow_pos_nonneg; lia).
      unfold ModSwitchM.round_div, q.
      replace (2 * Z.pos m + 2 ^ t) with ((Z.pos m + 2 ^ (t - 1)) * 2) by lia.
      replace (2 * 2 ^ t) with (2 ^ t * 2) by ring.
      apply Z.div_mul_cancel_r; lia. }
    rewrite ER.
    assert (Hq : 0 <= q < 2 ^ 53).
    { unfold q. split.
      - apply Z.div_pos; lia.
      - apply Z.div_lt_upper_bound; [lia|]. rewrite Et. nia. }
    destruct (Z.eq_dec q 0) as [-> | Hq0]; [reflexivity|].
    destruct (of_uint_small q ltac:(lia)) as (m' & E & Em & Hm').
    pose proof (Z.log2_nonneg q) as Hl0.
    assert (Hl52 : Z.log2 q <= 52).
    { assert (Z.log2 q < 53); [| lia]. apply Z.log2_lt_pow2; lia. }
    rewrite E. rewrite mul_two by (assumption || lia).
    cbn [Float.to_int]. rewrite Em.
    set (lq := Z.log2 q) in *.
    assert (Ea : (if 0 <=? lq - 52 + 1
                  then q * 2 ^ (52 - lq) * 2 ^ (lq - 52 + 1)
                  else q * 2 ^ (52 - lq) / 2 ^ (- (lq - 52 + 1))) = q * 2).
    { destruct (Z.leb_spec 0 (lq - 52 + 1)).
      - rewrite <- Z.mul_assoc, <- Z.pow_add_r by lia.
        replace (52 - lq + (lq - 52 + 1)) with 1 by lia. reflexivity.
      - replace (52 - lq) with (1 + - (lq - 52 + 1)) by lia.
        rewrite Z.pow_add_r by lia. change (2 ^ 1) with 2.
        rewrite Z.mul_assoc. apply Z.div_mul.
        pose proof (Z.pow_pos_nonneg 2 (- (lq - 52 + 1))). lia. }
    rewrite Ea.
    destruct (Z.leb_spec (- 2 ^ 63) (q * 2));
      destruct (Z.ltb_spec (q * 2) (2 ^ 63)); cbn [andb]; lia.
Qed.

Lemma float64_of_small x : x < 2 ^ 53 -> ModSwitchM.float64_of x = x.
Proof.
  intros Hx. unfold ModSwitchM.float64_of. cbv zeta.
  destruct (Z.leb_spec (Z.log2 x - 52) 0) as [|Hl]; [reflexivity|].
  exfalso. destruct (Z.le_gt_cases x 0) as [H0|H0].
  - rewrite Z.log2_nonpos in Hl by exact H0. lia.
  - assert (Z.log2 x < 53) by (apply Z.log2_lt_pow2; lia). lia.
Qed.

Lemma round_div_nonneg n d : 0 <= n -> 0 < d -> 0 <= ModSwitchM.round_div n d.
Proof. intros Hn Hd. unfold ModSwitchM.round_div. apply Z.div_pos; lia. Qed.

(** The float64 computation of [ModSwitchCompress] before the
    remainder, in exact arithmetic. *)
Lemma roundTimesTwo_exact T (e : ModSwitchM.Evaluator) l x :
  ModSwitchM.modSwitchConstant e
  = ModSwitchM.modSwitchConstant_spec T (ModSwitchM.Parameters e) ->
  Params.lookUpTableSize (ModSwitchM.Parameters e) = 2 ^ l ->
  0 <= l <= 60 -> 0 <= x < 2 ^ num.SizeT T ->
  Float.to_int (ModSwitchM.roundTimesTwo e x)
  = ModSwitchM.round_div
      (2 * Params.lookUpTableSize (ModSwitchM.Parameters e)
       * ModSwitchM.float64_of x) (2 ^ num.SizeT T) * 2.
Proof.
  intros Hc HL Hl Hx.
  unfold ModSwitchM.roundTimesTwo.
  rewrite Hc, (modSwitchConstant_pow2 T _ l HL Hl), HL.
  set (w := num.SizeT T) in *.
  assert (Hw : 32 <= w <= 64) by (subst w; destruct T; cbn; lia).
  assert (HW : 0 < 2 ^ w) by (apply Z.pow_pos_nonneg; lia).
  destruct (Z.eq_dec x 0) as [-> | Hx0].
  - rewrite float64_of_small by lia. rewrite Z.mul_0_r.
    unfold ModSwitchM.round_div. rewrite Z.div_small by lia. reflexivity.
  - assert (Hx64 : x < 2 ^ 64).
    { assert (2 ^ w <= 2 ^ 64) by (apply Z.pow_le_mono_r; lia). lia. }
    destruct (of_uint_pos x ltac:(lia)) as (m & ex & E & Hm & Hex & Ev & HF).
    assert (Hlx : Z.log2 x < w) by (apply Z.log2_lt_pow2; lia).
    rewrite E. rewrite mul_pow2 by (assumption || lia).
    rewrite round_times_two by (assumption || lia).
    f_equal.
    set (F := ModSwitchM.float64_of x) in *.
    rewrite <- (round_div_scale (Z.pos m * _) (2 ^ 200) (2 ^ 52)) by lia.
    rewrite <- (round_div_scale (2 * 2 ^ l * F) (2 ^ w) (2 ^ (252 - w)))
      by (apply Z.pow_pos_nonneg; lia).
    f_equal.
    + replace (l + 1 - w - 52 + ex + 52 + 200) with ((l + 1) + (200 - w) + ex) by lia.
      replace (2 * 2 ^ l) with (2 ^ (l + 1)) by (rewrite Z.pow_add_r; lia).
      replace (252 - w) with (52 + (200 - w)) by lia.
      destruct (Z.le_gt_cases 0 ex) as [Hpos | Hneg].
      * rewrite (Z.pow_add_r 2 ex 52), Z.mul_assoc in Ev by lia.
        apply Z.mul_reg_r in Ev; [| lia].
        rewrite <- Ev, !Z.pow_add_r by lia. ring.
      * assert (E52 : 2 ^ 52 = 2 ^ (- ex) * 2 ^ (ex + 52))
          by (rewrite <- Z.pow_add_r by lia; f_equal; lia).
        assert (Hp : 0 < 2 ^ (ex + 52)) by (apply Z.pow_pos_nonneg; lia).
        assert (Em : Z.pos m * 2 ^ (ex + 52) = F * 2 ^ (- ex) * 2 ^ (ex + 52))
          by (rewrite Ev, E52; ring).
        apply Z.mul_reg_r in Em; [| lia].
        assert (E1 : 2 ^ (l + 1) * 2 ^ (52 + (200 - w))
                     = 2 ^ (- ex) * 2 ^ (l + 1 + (200 - w) + ex) * 2 ^ 52)
          by (rewrite <- !Z.pow_add_r by lia; f_equal; lia).
        transitivity (F * (2 ^ (l + 1) * 2 ^ (52 + (200 - w))));
          [rewrite E1, Em; ring | ring].
    + rewrite <- !Z.pow_add_r by lia. f_equal. lia.
Qed.

(** C3 (as amended).  For an evaluator whose constant is the float64
    [2L/Q] of a table size [L = 2^l] with [l <= 60], a polynomial degree
    [N > 0] with [2N] an [int], and a torus element [x] in [[0, Q)]:
    [ModSwitchCompress(x)] is [round(c * fl(x)) * 2] reduced modulo
    [2N], where [c = 2L/Q], [round] is the nearest integer (a half
    upwards) and [fl(x) = float64(x)] is [x] rounded to 53 significant
    bits; for [x < 2^53], so for every [uint32], it is
    [round(c * x) * 2] reduced modulo [2N], which is the value of the
    specification (reduced modulo [2L]) reduced once more modulo [2N]
    when [N] divides [L], and the value of the specification when
    [L = N]. *)
Theorem ModSwitchCompress_reduces_modulo_twice_polyDegree
  (T : TorusInt) (e : ModSwitchM.Evaluator) (l x : Z) :
  let p := ModSwitchM.Parameters e in
  let N := Params.polyDegree p in
  let L := Params.lookUpTableSize p in
  let w := num.SizeT T in
  ModSwitchM.modSwitchConstant e = ModSwitchM.modSwitchConstant_spec T p ->
  L = 2 ^ l -> 0 <= l <= 60 -> 0 < N -> 2 * N < 2 ^ 63 -> 0 <= x < 2 ^ w ->
  ModSwitchM.ModSwitchCompress e x
    = (ModSwitchM.round_div (2 * L * ModSwitchM.float64_of x) (2 ^ w) * 2)
      mod (2 * N) /\
  (x < 2 ^ 53 ->
   ModSwitchM.ModSwitchCompress e x
     = (ModSwitchM.round_div (2 * L * x) (2 ^ w) * 2) mod (2 * N)) /\
  (x < 2 ^ 53 -> Z.divide N L ->
   ModSwitchM.ModSwitchCompress e x
     = ModSwitchM.ModSwitchCompress_spec T p x mod (2 * N)) /\
  (x < 2 ^ 53 -> L = N ->
   ModSwitchM.ModSwitchCompress e x = ModSwitchM.ModSwitchCompress_spec T p x).
Proof.
  intros p N L w Hc HL Hl HN HN2 Hx.
  assert (Hw : 0 < 2 ^ w) by (apply Z.pow_pos_nonneg; subst w; destruct T; cbn; lia).
  assert (HF : 0 <= ModSwitchM.float64_of x).
  { destruct (Z.eq_dec x 0) as [-> | Hx0]; [rewrite float64_of_small; lia|].
    assert (Hx64 : x < 2 ^ 64).
    { assert (2 ^ w <= 2 ^ 64)
        by (apply Z.pow_le_mono_r; subst w; destruct T; cbn; lia). lia. }
    destruct (of_uint_pos x ltac:(lia)) as (m & ex & _ & Hm & Hex & Ev & _).
    assert (0 < 2 ^ (ex + 52)) by (apply Z.pow_pos_nonneg; lia). nia. }
  assert (HL0 : 0 < L) by (rewrite HL; apply Z.pow_pos_nonneg; lia).
  assert (E : ModSwitchM.ModSwitchCompress e x
              = (ModSwitchM.round_div (2 * L * ModSwitchM.float64_of x) (2 ^ w) * 2)
                mod (2 * N)).
  { unfold ModSwitchM.ModSwitchCompress. fold p. fold N.
    rewrite (roundTimesTwo_exact T e l x Hc HL Hl Hx). fold p. fold L. fold w.
    unfold int_mul. rewrite wrapI_id by (unfold is_int; lia).
    apply Z.rem_mod_nonneg; [| lia].
    pose proof (round_div_nonneg (2 * L * ModSwitchM.float64_of x) (2 ^ w)
                  ltac:(nia) Hw). lia. }
  split; [exact E|]. split; [| split].
  - intros Hs. rewrite E, float64_of_small by exact Hs. reflexivity.
  - intros Hs Hdiv. rewrite E, float64_of_small by exact Hs.
    unfold ModSwitchM.ModSwitchCompress_spec. fold p. fold L. fold w.
    symmetry. apply Z.mod_mod_divide.
    apply Z.mul_divide_mono_l. exact Hdiv.
  - intros Hs HLN. rewrite E, float64_of_small by exact Hs.
    unfold ModSwitchM.ModSwitchCompress_spec. fold L. fold w. rewrite HLN.
    reflexivity.
Qed.

Lemma ModSwitchCompress_reduces_modulo_twice_polyDegree_witness :
  ModSwitchM.ModSwitchCompress Inputs.evalEBS5 (2 ^ 53 + 2 ^ 50 - 1)
  = (ModSwitchM.round_div
       (2 * 4096 * ModSwitchM.float64_of (2 ^ 53 + 2 ^ 50 - 1)) (2 ^ 64) * 2)
    mod (2 * 2048).
Proof.
  apply (ModSwitchCompress_reduces_modulo_twice_polyDegree U64 Inputs.evalEBS5
           12 (2 ^ 53 + 2 ^ 50 - 1)); vm_compute; try reflexivity;
    split; (reflexivity || discriminate).
Defined.

(** C3, as stated, fails twice for [ParamsEBS5] ([N = 2048],
    [L = 4096], [c = 2L/Q = 2^-51]).  For [x = 2^62],
    [round(c * x) * 2 = 4096]: the code reduces it modulo [2N = 4096]
    to 0, the specification modulo [2L = 8192] to 4096.  For
    [x = 2^53 + 2^50 - 1], [c * x] is below [4.5] and
    [round(c * x) * 2 = 8], but [float64(x) = 2^53 + 2^50], [c] times it
    is [4.5], and the code returns 10. *)
Lemma ModSwitchCompress_not_modulo_twice_lookUpTableSize :
  (ModSwitchM.ModSwitchCompress Inputs.evalEBS5 (2 ^ 62) = 0 /\
   ModSwitchM.ModSwitchCompress_spec U64 Inputs.paramsEBS5 (2 ^ 62) = 4096) /\
  (ModSwitchM.ModSwitchCompress Inputs.evalEBS5 (2 ^ 53 + 2 ^ 50 - 1) = 10 /\
   ModSwitchM.ModSwitchCompress_spec U64 Inputs.paramsEBS5 (2 ^ 53 + 2 ^ 50 - 1) = 8 /\
   ModSwitchM.float64_of (2 ^ 53 + 2 ^ 50 - 1) = 2 ^ 53 + 2 ^ 50).
Proof. vm_compute. auto 10. Qed.

(** ** The encryptor *)

Lemma params6_compiled :
  Params.Compile num_spec.DivRound U64 Params.Params6 = Ok Inputs.params6.
Proof. vm_compute. reflexivity. Qed.

Lemma params1024_compiled :
  Params.Compile num_spec.DivRound U64 Inputs.Params1024 = Ok Inputs.params1024.
Proof. vm_compute. reflexivity. Qed.

Lemma reslice_Ok_inv s lo hi s' :
  Enc.reslice s lo hi = Ok s' ->
  0 <= lo /\ lo <= hi /\ hi <= Enc.cap s /\
  s' = {| Enc.ptr := Enc.ptr s; Enc.off := Enc.off s + lo;
          Enc.len := hi - lo; Enc.cap := Enc.cap s - lo |}.
Proof.
  unfold Enc.reslice.
  destruct (Z.leb_spec 0 lo); [| discriminate].
  destruct (Z.leb_spec lo hi); [| discriminate].
  destruct (Z.leb_spec hi (Enc.cap s)); [| discriminate].
  cbn [andb]. intros [= <-]. auto.
Qed.

Lemma reslice_Ok s lo hi :
  0 <= lo -> lo <= hi -> hi <= Enc.cap s ->
  Enc.reslice s lo hi
  = Ok {| Enc.ptr := Enc.ptr s; Enc.off := Enc.off s + lo;
          Enc.len := hi - lo; Enc.cap := Enc.cap s - lo |}.
Proof.
  intros H1 H2 H3. unfold Enc.reslice.
  destruct (Z.leb_spec 0 lo); [| lia].
  destruct (Z.leb_spec lo hi); [| lia].
  destruct (Z.leb_spec hi (Enc.cap s)); [| lia].
  reflexivity.
Qed.

Section EncProofs.

Context {C : Enc.Collaborators}.

Lemma mbind_Ok_inv {A B} (m : Enc.M A) (k : A -> Enc.M B) w b w' :
  Enc.mbind m k w = Ok (b, w') ->
  exists a w1, m w = Ok (a, w1) /\ k a w1 = Ok (b, w').
Proof.
  unfold Enc.mbind. destruct (m w) as [[a w1]|msg]; [eauto | discriminate].
Qed.

Lemma mbind_Ok {A B} (m : Enc.M A) (k : A -> Enc.M B) w a w1 :
  m w = Ok (a, w1) -> Enc.mbind m k w = k a w1.
Proof. intros H. unfold Enc.mbind. rewrite H. reflexivity. Qed.

Lemma lift_Ok_inv {A} (r : result A) w a w' :
  Enc.lift r w = Ok (a, w') -> r = Ok a /\ w' = w.
Proof. unfold Enc.lift. destruct r; [intros [= -> ->]; auto | discriminate]. Qed.

Lemma lift_Ok {A} (r : result A) (a : A) w :
  r = Ok a -> Enc.lift r w = Ok (a, w).
Proof. intros ->. reflexivity. Qed.

Lemma ret_Ok_inv {A} (a : A) w b w' :
  Enc.ret a w = Ok (b, w') -> b = a /\ w' = w.
Proof. unfold Enc.ret. intros [= -> ->]. auto. Qed.

(** Forward steps. *)

Lemma make_Ok n w :
  0 <= n ->
  let a := fresh (dom (Enc.torus w)) in
  Enc.torus w !! a = None /\
  Enc.make n w
  = Ok ({| Enc.ptr := a; Enc.off := 0; Enc.len := n; Enc.cap := n |},
        {| Enc.torus := <[a := replicate (Z.to_nat n) 0]> (Enc.torus w);
           Enc.fourier := Enc.fourier w;
           Enc.samplers := Enc.samplers w |}).
Proof.
  intros Hn a. split.
  - apply not_elem_of_dom. apply is_fresh.
  - unfold Enc.make. destruct (Z.ltb_spec n 0); [lia | reflexivity].
Qed.

Lemma chunks_Ok large N count :
  0 <= N ->
  forall j, 0 <= j ->
    (j + Z.of_nat count) * N <= Enc.cap large ->
    (j + Z.of_nat count) * N < 2 ^ 63 -> j + Z.of_nat count < 2 ^ 63 ->
    exists l, Enc.chunks large N j count = Ok l /\
              Forall (fun s => Enc.ptr s = Enc.ptr large) l /\
              length l = count.
Proof.
  intros HN. induction count as [|c IH]; intros j Hj Hcap Hb Hb'.
  - exists []. auto.
  - cbn [Enc.chunks]. unfold int_mul, int_add.
    rewrite (wrapI_id (j + 1)) by (unfold is_int; lia).
    rewrite !wrapI_id by (unfold is_int; nia).
    rewrite reslice_Ok by nia. cbn [bind].
    destruct (IH (j + 1)) as (l & Hl & HF & Hlen); try lia.
    rewrite Hl. cbn [bind]. eexists. split; [reflexivity|].
    split; [constructor; [reflexivity | exact HF] | cbn; lia].
Qed.

Lemma NewSecretKey_Ok p w :
  0 <= Params.lweDimension p <= Params.glweDimension p ->
  0 <= Params.glweRank p -> 0 <= Params.polyDegree p ->
  Params.glweRank p * Params.polyDegree p <= Params.glweDimension p ->
  is_int (Params.glweDimension p) -> is_int (Params.glweRank p) ->
  let a := fresh (dom (Enc.torus w)) in
  let f := fresh (dom (Enc.fourier w)) in
  exists sk,
    Enc.NewSecretKey p w
    = Ok (sk,
          {| Enc.torus := <[a := replicate (Z.to_nat (Params.glweDimension p)) 0]> (Enc.torus w);
             Enc.fourier := <[f := replicate (Z.to_nat (Params.glweRank p)) (Enc.ToFourierPoly [])]> (Enc.fourier w);
             Enc.samplers := Enc.samplers w |}) /\
    Enc.torus w !! a = None /\ Enc.fourier w !! f = None /\
    Enc.LWELargeKey sk
    = {| Enc.ptr := a; Enc.off := 0; Enc.len := Params.glweDimension p;
         Enc.cap := Params.glweDimension p |} /\
    Enc.FourierGLWEKey sk = f /\
    Enc.ptr (Enc.LWEKey sk) = a /\
    Forall (fun s => Enc.ptr s = a) (Enc.GLWEKey sk).
Proof.
  intros Hn Hk HN Hg Ig Ik a f.
  unfold Enc.NewSecretKey.
  destruct (make_Ok (Params.glweDimension p) w ltac:(lia)) as [Hfresh Hmake].
  fold a in Hfresh, Hmake.
  unfold Enc.mbind at 1. rewrite Hmake.
  destruct (Z.ltb_spec (Params.glweRank p) 0); [lia|].
  set (large := {| Enc.ptr := a; Enc.off := 0; Enc.len := Params.glweDimension p;
                   Enc.cap := Params.glweDimension p |}).
  destruct (chunks_Ok large (Params.polyDegree p) (Z.to_nat (Params.glweRank p)) HN 0)
    as (glwe & Hglwe & HF & _); unfold is_int in *; cbn [Enc.cap large];
    rewrite ?Z2Nat.id by lia; try lia.
  unfold Enc.mbind at 1. rewrite Hglwe. cbn [Enc.lift].
  unfold Enc.mbind at 1. unfold Enc.NewFourierGLWESecretKey. cbn [Enc.fourier].
  fold f.
  unfold Enc.mbind at 1. rewrite reslice_Ok by (cbn [Enc.cap large]; lia).
  cbn [Enc.lift]. unfold Enc.ret.
  eexists. split; [reflexivity|]. cbn.
  split; [exact Hfresh|].
  split; [apply not_elem_of_dom, is_fresh|].
  auto.
Qed.

Lemma SampleVecAssign_Ok bs v (w : Enc.World) st buf :
  Enc.samplers w !! bs = Some st ->
  Enc.torus w !! Enc.ptr v = Some buf ->
  let o := Z.to_nat (Enc.off v) in
  let n := Z.to_nat (Enc.len v) in
  Enc.SampleVecAssign bs v w
  = Ok (tt, {| Enc.torus :=
                 <[Enc.ptr v := take o buf ++ take n (fst (Enc.SampleVec st n))
                                 ++ drop (o + n) buf]> (Enc.torus w);
               Enc.fourier := Enc.fourier w;
               Enc.samplers := <[bs := snd (Enc.SampleVec st n)]> (Enc.samplers w) |}).
Proof.
  intros Hs Hb o n. unfold Enc.SampleVecAssign. rewrite Hs. fold n.
  destruct (Enc.SampleVec st n) as [vals st'].
  unfold Enc.store. cbn [Enc.torus Enc.fourier Enc.samplers]. rewrite Hb.
  reflexivity.
Qed.

Lemma SampleBlockVecAssign_Ok bs b v (w : Enc.World) st buf :
  Enc.samplers w !! bs = Some st ->
  Enc.torus w !! Enc.ptr v = Some buf ->
  let o := Z.to_nat (Enc.off v) in
  let n := Z.to_nat (Enc.len v) in
  Enc.SampleBlockVecAssign bs b v w
  = Ok (tt, {| Enc.torus :=
                 <[Enc.ptr v := take o buf ++ take n (fst (Enc.SampleBlockVec st b n))
                                 ++ drop (o + n) buf]> (Enc.torus w);
               Enc.fourier := Enc.fourier w;
               Enc.samplers := <[bs := snd (Enc.SampleBlockVec st b n)]> (Enc.samplers w) |}).
Proof.
  intros Hs Hb o n. unfold Enc.SampleBlockVecAssign. rewrite Hs. fold n.
  destruct (Enc.SampleBlockVec st b n) as [vals st'].
  unfold Enc.store. cbn [Enc.torus Enc.fourier Enc.samplers]. rewrite Hb.
  reflexivity.
Qed.

Lemma ToFourier_Ok skIn skOut (w : Enc.World) old :
  Enc.fourier w !! skOut = Some old ->
  Enc.ToFourierGLWESecretKeyAssign skIn skOut w
  = Ok (tt, {| Enc.torus := Enc.torus w;
               Enc.fourier :=
                 <[skOut := map (fun s => Enc.ToFourierPoly (Enc.elems w s)) skIn]>
                   (Enc.fourier w);
               Enc.samplers := Enc.samplers w |}).
Proof. intros H. unfold Enc.ToFourierGLWESecretKeyAssign. rewrite H. reflexivity. Qed.

Lemma insert_fresh_preserves {V} (m : gmap nat V) a v v' k x :
  m !! a = None -> m !! k = Some x -> <[a := v']> (<[a := v]> m) !! k = Some x.
Proof.
  intros Hf Hk. assert (a <> k) by congruence.
  rewrite !lookup_insert_ne by assumption. exact Hk.
Qed.

Lemma sampledKey_length p st :
  0 <= Params.lweDimension p <= Params.glweDimension p ->
  length (fst (Enc.sampledKey p st)) = Z.to_nat (Params.glweDimension p).
Proof.
  intros Hn. unfold Enc.sampledKey.
  destruct (Params.blockSize p =? 1); [apply Enc.SampleVec_length|].
  pose proof (Enc.SampleBlockVec_length st (Params.blockSize p)
                (Z.to_nat (Params.lweDimension p))) as H1.
  destruct (Enc.SampleBlockVec st (Params.blockSize p)
              (Z.to_nat (Params.lweDimension p))) as [v1 st1].
  pose proof (Enc.SampleVec_length st1
                (Z.to_nat (Params.glweDimension p - Params.lweDimension p))) as H2.
  destruct (Enc.SampleVec st1
              (Z.to_nat (Params.glweDimension p - Params.lweDimension p))) as [v2 st2].
  cbn [fst] in *. rewrite length_app, H1, H2. lia.
Qed.

(** The sampling step of [GenSecretKey] on a fresh buffer of zeros. *)
Lemma sample_into_fresh_key (e : Enc.Encryptor) a st
  (T0 : gmap nat (list Z)) F0 (S0 : gmap nat Enc.sampler) :
  let p := Enc.Parameters e in
  let large := {| Enc.ptr := a; Enc.off := 0; Enc.len := Params.glweDimension p;
                  Enc.cap := Params.glweDimension p |} in
  0 <= Params.lweDimension p <= Params.glweDimension p ->
  S0 !! Enc.BinarySampler e = Some st ->
  (if Params.blockSize p =? 1
   then Enc.SampleVecAssign (Enc.BinarySampler e) large
   else
     Enc.mbind (Enc.lift (Enc.reslice large 0 (Params.lweDimension p)))
       (fun head =>
          Enc.mbind (Enc.SampleBlockVecAssign (Enc.BinarySampler e)
                       (Params.blockSize p) head)
            (fun _ =>
               Enc.mbind (Enc.lift (Enc.reslice large (Params.lweDimension p)
                                      (Enc.len large)))
                 (fun tail => Enc.SampleVecAssign (Enc.BinarySampler e) tail))))
    {| Enc.torus := <[a := replicate (Z.to_nat (Params.glweDimension p)) 0]> T0;
       Enc.fourier := F0;
       Enc.samplers := S0 |}
  = Ok (tt, {| Enc.torus := <[a := fst (Enc.sampledKey p st)]> T0;
               Enc.fourier := F0;
               Enc.samplers := <[Enc.BinarySampler e := snd (Enc.sampledKey p st)]> S0 |}).
Proof.
  intros p large Hn Hst. unfold Enc.sampledKey.
  set (g := Z.to_nat (Params.glweDimension p)).
  destruct (Params.blockSize p =? 1).
  - rewrite (SampleVecAssign_Ok _ large _ st (replicate g 0));
      [| exact Hst | apply lookup_insert_eq].
    cbn [Enc.torus Enc.fourier Enc.samplers Enc.ptr Enc.off Enc.len large].
    fold g. change (Z.to_nat 0) with 0%nat.
    rewrite insert_insert_eq. cbn [firstn app Nat.add].
    rewrite (take_ge (Enc.SampleVec st g).1)
      by (rewrite Enc.SampleVec_length; lia).
    rewrite (drop_ge (replicate g 0)) by (rewrite length_replicate; lia).
    rewrite app_nil_r. reflexivity.
  - cbn [Enc.len large].
    erewrite mbind_Ok
      by (apply lift_Ok, reslice_Ok; cbn [Enc.cap large]; lia).
    cbn [Enc.lift Enc.ptr Enc.off Enc.cap large].
    erewrite mbind_Ok.
    2:{ apply SampleBlockVecAssign_Ok with (st := st) (buf := replicate g 0);
          [exact Hst | apply lookup_insert_eq]. }
    cbn [Enc.torus Enc.fourier Enc.samplers Enc.ptr Enc.off Enc.len].
    erewrite mbind_Ok
      by (apply lift_Ok, reslice_Ok; cbn [Enc.cap large]; lia).
    cbn [Enc.lift Enc.ptr Enc.off Enc.cap large].
    erewrite SampleVecAssign_Ok;
      [| cbn [Enc.samplers]; apply lookup_insert_eq
       | cbn [Enc.torus Enc.ptr]; apply lookup_insert_eq].
    cbn [Enc.torus Enc.fourier Enc.samplers Enc.ptr Enc.off Enc.len].
    rewrite !insert_insert_eq.
    replace (Params.lweDimension p - 0) with (Params.lweDimension p) by lia.
    replace (0 + 0) with 0 by lia.
    replace (0 + Params.lweDimension p) with (Params.lweDimension p) by lia.
    change (Z.to_nat 0) with 0%nat. cbn [firstn app Nat.add].
    set (n := Z.to_nat (Params.lweDimension p)).
    pose proof (Enc.SampleBlockVec_length st (Params.blockSize p) n) as H1.
    destruct (Enc.SampleBlockVec st (Params.blockSize p) n) as [v1 st1].
    cbn [fst snd] in *.
    set (m := Z.to_nat (Params.glweDimension p - Params.lweDimension p)).
    pose proof (Enc.SampleVec_length st1 m) as H2.
    destruct (Enc.SampleVec st1 m) as [v2 st2].
    cbn [fst snd] in *.
    rewrite (take_ge v1) by lia.
    change (take 0 (replicate g 0)) with (@nil Z). cbn [app].
    rewrite take_app_length' by (symmetry; exact H1).
    rewrite (take_ge v2) by lia.
    rewrite (drop_ge (v1 ++ _))
      by (rewrite length_app, length_drop, length_replicate; lia).
    rewrite app_nil_r. reflexivity.
Qed.

(** C9.  For an encryptor whose parameters have consistent sizes
    ([0 <= n <= g], [k * N <= g], as every compiled set without [int]
    overflow has) and whose binary sampler exists, [GenSecretKey]
    returns; the encryptor after the call is the encryptor before it,
    field for field; the key returned lives in a buffer and a Fourier
    object that did not exist before the call, and its elements are the
    ones drawn from the sampler; and every buffer and Fourier key that
    existed before the call, those of the encryptor's own [SecretKey]
    among them, is unchanged.  (The sampler object behind the unchanged
    field [BinarySampler] has advanced.) *)
Theorem GenSecretKey_leaves_encryptor_unchanged
  (e : Enc.Encryptor) (w : Enc.World) (st : Enc.sampler) :
  let p := Enc.Parameters e in
  0 <= Params.lweDimension p <= Params.glweDimension p ->
  0 <= Params.glweRank p -> 0 <= Params.polyDegree p ->
  Params.glweRank p * Params.polyDegree p <= Params.glweDimension p ->
  is_int (Params.glweDimension p) -> is_int (Params.glweRank p) ->
  Enc.samplers w !! Enc.BinarySampler e = Some st ->
  exists sk w',
    Enc.GenSecretKey e w = Ok ((sk, e), w') /\
    Enc.torus w !! Enc.ptr (Enc.LWELargeKey sk) = None /\
    Enc.fourier w !! Enc.FourierGLWEKey sk = None /\
    Enc.ptr (Enc.LWEKey sk) = Enc.ptr (Enc.LWELargeKey sk) /\
    Forall (fun s => Enc.ptr s = Enc.ptr (Enc.LWELargeKey sk)) (Enc.GLWEKey sk) /\
    Enc.elems w' (Enc.LWELargeKey sk) = fst (Enc.sampledKey p st) /\
    Enc.samplers w' !! Enc.BinarySampler e = Some (snd (Enc.sampledKey p st)) /\
    is_Some (Enc.fourier w' !! Enc.FourierGLWEKey sk) /\
    (forall a buf, Enc.torus w !! a = Some buf -> Enc.torus w' !! a = Some buf) /\
    (forall a fk, Enc.fourier w !! a = Some fk -> Enc.fourier w' !! a = Some fk) /\
    (forall a, is_Some (Enc.samplers w !! a) -> is_Some (Enc.samplers w' !! a)) /\
    (forall s, is_Some (Enc.torus w !! Enc.ptr s) -> Enc.elems w' s = Enc.elems w s).
Proof.
  intros p Hn Hk HN Hg Ig Ik Hst.
  destruct (NewSecretKey_Ok p w Hn Hk HN Hg Ig Ik)
    as (sk & HNew & Hfa & Hff & Hlarge & Hfk & Hlwe & Hglwe).
  set (a := fresh (dom (Enc.torus w))) in *.
  set (f := fresh (dom (Enc.fourier w))) in *.
  assert (Hpa : Enc.ptr (Enc.LWELargeKey sk) = a) by (rewrite Hlarge; reflexivity).
  pose proof (sample_into_fresh_key e a st (Enc.torus w)
                (<[f := replicate (Z.to_nat (Params.glweRank p)) (Enc.ToFourierPoly [])]>
                   (Enc.fourier w))
                (Enc.samplers w) Hn Hst) as Hsample.
  fold p in Hsample. cbv zeta in Hsample. rewrite <- Hlarge in Hsample.
  unfold Enc.GenSecretKey. fold p.
  rewrite (mbind_Ok _ _ _ _ _ HNew).
  rewrite (mbind_Ok _ _ _ _ _ Hsample).
  erewrite mbind_Ok
    by (apply ToFourier_Ok with (old := replicate (Z.to_nat (Params.glweRank p)) (Enc.ToFourierPoly []));
        cbn [Enc.fourier]; rewrite Hfk; apply lookup_insert_eq).
  unfold Enc.ret. cbn [Enc.torus Enc.fourier Enc.samplers].
  eexists. eexists. split; [reflexivity|].
  cbn [Enc.torus Enc.fourier Enc.samplers].
  rewrite Hpa, Hfk.
  split; [exact Hfa|]. split; [exact Hff|]. split; [exact Hlwe|].
  split; [exact Hglwe|].
  split.
  { unfold Enc.elems. cbn [Enc.torus]. rewrite Hpa, lookup_insert_eq.
    rewrite Hlarge. cbn [Enc.off Enc.len]. change (Z.to_nat 0) with 0%nat.
    rewrite drop_0. apply take_ge. rewrite sampledKey_length by exact Hn. lia. }
  split; [apply lookup_insert_eq|].
  split; [rewrite lookup_insert_eq; eauto|].
  split.
  { intros k buf Hk'. assert (a <> k) by congruence.
    rewrite lookup_insert_ne by assumption. exact Hk'. }
  split.
  { intros k fk Hk'. eapply insert_fresh_preserves; eassumption. }
  split.
  { intros k Hk'. destruct (decide (Enc.BinarySampler e = k)) as [->|Hne].
    - rewrite lookup_insert_eq. eauto.
    - rewrite lookup_insert_ne by exact Hne. exact Hk'. }
  intros s [buf Hs]. unfold Enc.elems. cbn [Enc.torus].
  assert (a <> Enc.ptr s) by congruence.
  rewrite lookup_insert_ne by assumption. reflexivity.
Qed.

(** Backward steps: what a successful call implies. *)

Lemma make_Ok_inv n w s w' :
  Enc.make n w = Ok (s, w') ->
  0 <= n /\ Enc.off s = 0 /\ Enc.len s = n /\ Enc.cap s = n.
Proof.
  unfold Enc.make. destruct (Z.ltb_spec n 0); [discriminate|].
  intros [= <- _]. cbn. auto.
Qed.

Lemma NewSecretKey_Ok_inv p w sk w' :
  Enc.NewSecretKey p w = Ok (sk, w') ->
  0 <= Params.lweDimension p <= Params.glweDimension p /\
  Enc.off (Enc.LWELargeKey sk) = 0 /\
  Enc.len (Enc.LWELargeKey sk) = Params.glweDimension p /\
  Enc.cap (Enc.LWELargeKey sk) = Params.glweDimension p.
Proof.
  unfold Enc.NewSecretKey. intros H.
  apply mbind_Ok_inv in H as (large & w1 & Hmake & H).
  apply mbind_Ok_inv in H as (glwe & w2 & _ & H).
  apply mbind_Ok_inv in H as (fkey & w3 & _ & H).
  apply mbind_Ok_inv in H as (lwe & w4 & Hlwe & H).
  apply ret_Ok_inv in H as [-> _].
  apply lift_Ok_inv in Hlwe as [Hlwe _].
  apply reslice_Ok_inv in Hlwe as (_ & H1 & H2 & _).
  apply make_Ok_inv in Hmake as (H3 & H4 & H5 & H6).
  cbn [Enc.LWELargeKey]. rewrite H6 in H2. auto with zarith.
Qed.

Lemma GenSecretKey_Ok_inv e w sk e' w' :
  Enc.GenSecretKey e w = Ok ((sk, e'), w') ->
  e' = e /\
  0 <= Params.lweDimension (Enc.Parameters e) <= Params.glweDimension (Enc.Parameters e) /\
  Enc.off (Enc.LWELargeKey sk) = 0 /\
  Enc.len (Enc.LWELargeKey sk) = Enc.cap (Enc.LWELargeKey sk).
Proof.
  unfold Enc.GenSecretKey. intros H.
  apply mbind_Ok_inv in H as (sk0 & w1 & HNew & H).
  apply mbind_Ok_inv in H as (u1 & w2 & _ & H).
  apply mbind_Ok_inv in H as (u2 & w3 & _ & H).
  apply ret_Ok_inv in H as [[= -> ->] _].
  apply NewSecretKey_Ok_inv in HNew as (H1 & H2 & H3 & H4).
  split; [reflexivity|]. split; [exact H1|]. split; [exact H2|]. congruence.
Qed.

Lemma NewEncryptor_Ok_inv p w e w' :
  Enc.NewEncryptor p w = Ok (e, w') ->
  Enc.Parameters e = p /\
  0 <= Params.lweDimension p <= Params.glweDimension p.
Proof.
  unfold Enc.NewEncryptor. intros H.
  apply mbind_Ok_inv in H as (us & w1 & _ & H).
  apply mbind_Ok_inv in H as (bs & w2 & _ & H).
  apply mbind_Ok_inv in H as (gs & w3 & _ & H).
  cbv zeta in H.
  apply mbind_Ok_inv in H as ([sk e1] & w4 & HGen & H).
  apply ret_Ok_inv in H as [-> _].
  apply GenSecretKey_Ok_inv in HGen as (-> & Hn & _).
  cbn in Hn |- *. auto.
Qed.

Lemma buildLevels_Ok_inv params count :
  forall N L g lg w l w',
    Enc.buildLevels params N L g lg count w = Ok (l, w') ->
    length l = count /\
    (forall e, l !! 0%nat = Some e ->
               Enc.Parameters e = Enc.with_degree params N L g lg) /\
    (count = 0%nat \/
     (0 <= g -> Params.lweDimension params * 2 ^ (Z.of_nat count - 1) <= g)) /\
    (count <> 0%nat -> 0 <= Params.lweDimension params <= g).
Proof.
  induction count as [|c IH]; intros N L g lg w l w' H.
  - apply ret_Ok_inv in H as [-> _]. cbn.
    split; [reflexivity|]. split; [intros e [=]|]. split; [auto | congruence].
  - cbn [Enc.buildLevels] in H.
    apply mbind_Ok_inv in H as (enc & w1 & HNew & H).
    apply mbind_Ok_inv in H as (rest & w2 & Hrest & H).
    apply ret_Ok_inv in H as [-> _].
    apply NewEncryptor_Ok_inv in HNew as [HP Hn]. cbn in Hn.
    apply IH in Hrest as (Hlen & _ & Hb & Hc).
    split; [cbn; lia|].
    split; [intros e [= <-]; exact HP|].
    split; [| intros _; exact Hn].
    right. intros Hg.
    destruct Hb as [-> | Hb].
    + cbn. rewrite Z.mul_1_r. lia.
    + assert (Hq : 0 <= Z.quot g 2) by (apply Z.quot_pos; lia).
      specialize (Hb Hq).
      assert (2 * Z.quot g 2 <= g).
      { rewrite Z.quot_div_nonneg by lia. apply Z.mul_div_le. lia. }
      destruct c as [|c']; [cbn in *; lia|].
      replace (Z.of_nat (S (S c')) - 1) with (Z.succ (Z.of_nat (S c') - 1)) by lia.
      rewrite Z.pow_succ_r by lia. lia.
Qed.

Lemma foldl_Panic {A B} (f : A -> result B) (g : B -> A -> result B) msg l :
  foldl (fun acc x => let! b := acc in g b x) (Panic msg) l = Panic msg.
Proof. induction l as [|x l IH]; [reflexivity | exact IH]. Qed.

Lemma glwe_fold_inv large N cnt :
  forall lo g0 g,
    0 <= lo ->
    foldl (fun acc j =>
             let! g := acc in
             let! c := Enc.reslice large (int_mul j N) (int_mul (int_add j 1) N) in
             if (j <? Z.of_nat (length g))
             then Ok (<[Z.to_nat j := c]> g)
             else Panic "index out of range")
          (Ok g0) (Slice.range lo cnt) = Ok g ->
    forall j, lo <= j < lo + Z.of_nat cnt ->
      exists c, Enc.reslice large (int_mul j N) (int_mul (int_add j 1) N) = Ok c /\
                g !! Z.to_nat j = Some c.
Proof.
  induction cnt as [|c IH]; intros lo g0 g Hlo H j Hj; [lia|].
  rewrite range_S in H. cbn [foldl bind] in H.
  destruct (Enc.reslice large (int_mul lo N) (int_mul (int_add lo 1) N))
    as [c0|msg] eqn:Hr; cbn [bind] in H;
    [| rewrite (foldl_Panic (fun _ : Z => Ok g0)) in H; discriminate].
  destruct (Z.ltb_spec lo (Z.of_nat (length g0))) as [Hlt|Hge];
    [| rewrite (foldl_Panic (fun _ : Z => Ok g0)) in H; discriminate].
  destruct (Z.eq_dec j lo) as [->|Hne].
  - exists c0. split; [exact Hr|].
    clear IH Hj. revert H.
    assert (Hin : <[Z.to_nat lo := c0]> g0 !! Z.to_nat lo = Some c0)
      by (apply list_lookup_insert_eq; lia).
    assert (Hlo' : lo < lo + 1) by lia.
    revert Hin Hlo'. generalize (<[Z.to_nat lo := c0]> g0). generalize (lo + 1).
    induction c as [|c IHc]; intros lo' g1 Hin Hlo' H.
    + cbn in H. congruence.
    + rewrite range_S in H. cbn [foldl bind] in H.
      destruct (Enc.reslice large (int_mul lo' N) (int_mul (int_add lo' 1) N));
        cbn [bind] in H;
        [| rewrite (foldl_Panic (fun _ : Z => Ok g0)) in H; discriminate].
      destruct (lo' <? Z.of_nat (length g1));
        [| rewrite (foldl_Panic (fun _ : Z => Ok g0)) in H; discriminate].
      apply (IHc (lo' + 1) _) in H; [exact H | | lia].
      rewrite list_lookup_insert_ne by lia. exact Hin.
  - apply (IH (lo + 1) _ g ltac:(lia) H). lia.
Qed.

Lemma shareKey_Ok_inv large0 e w e' w' :
  Enc.shareKey large0 e w = Ok (e', w') ->
  let p := Enc.Parameters e in
  Enc.Parameters e' = p /\
  0 <= Params.glweDimension p <= Enc.cap large0 /\
  Enc.LWELargeKey (Enc.SecretKey_ e')
  = {| Enc.ptr := Enc.ptr large0; Enc.off := Enc.off large0 + 0;
       Enc.len := Params.glweDimension p - 0; Enc.cap := Enc.cap large0 - 0 |} /\
  Enc.reslice (Enc.LWELargeKey (Enc.SecretKey_ e')) 0 (Params.lweDimension p)
  = Ok (Enc.LWEKey (Enc.SecretKey_ e')) /\
  forall j, 0 <= j < Params.glweRank p ->
    exists c,
      Enc.reslice (Enc.LWELargeKey (Enc.SecretKey_ e'))
                  (int_mul j (Params.polyDegree p))
                  (int_mul (int_add j 1) (Params.polyDegree p)) = Ok c /\
      Enc.GLWEKey (Enc.SecretKey_ e') !! Z.to_nat j = Some c.
Proof.
  intros H p. unfold Enc.shareKey in H. cbv zeta in H. fold p in H.
  apply mbind_Ok_inv in H as (large & w1 & Hlarge & H).
  apply mbind_Ok_inv in H as (lwe & w2 & Hlwe & H).
  apply mbind_Ok_inv in H as (glwe & w3 & Hglwe & H).
  apply mbind_Ok_inv in H as (u & w4 & _ & H).
  apply ret_Ok_inv in H as [-> _].
  apply lift_Ok_inv in Hlarge as [Hlarge _].
  apply lift_Ok_inv in Hlwe as [Hlwe _].
  apply lift_Ok_inv in Hglwe as [Hglwe _].
  pose proof (reslice_Ok_inv _ _ _ _ Hlarge) as (_ & H1 & H2 & ->).
  cbn [Enc.with_key Enc.Parameters Enc.SecretKey_ Enc.LWELargeKey Enc.LWEKey Enc.GLWEKey].
  split; [reflexivity|]. split; [lia|]. split; [reflexivity|].
  split; [exact Hlwe|].
  intros j Hj.
  eapply glwe_fold_inv in Hglwe; [exact Hglwe | lia | lia].
Qed.

Lemma shareLoop_Ok_inv count :
  forall i encs w encs' w',
    (1 <= i)%nat ->
    Enc.shareLoop encs i count w = Ok (encs', w') ->
    length encs' = length encs /\
    encs' !! 0%nat = encs !! 0%nat /\
    (forall d, (d < i)%nat -> encs' !! d = encs !! d) /\
    (forall d, (i <= d < i + count)%nat ->
       exists e0 ed ed' wa wb,
         encs !! 0%nat = Some e0 /\ encs !! d = Some ed /\ encs' !! d = Some ed' /\
         Enc.shareKey (Enc.LWELargeKey (Enc.SecretKey_ e0)) ed wa = Ok (ed', wb)).
Proof.
  induction count as [|c IH]; intros i encs w encs' w' Hi H.
  - apply ret_Ok_inv in H as [-> _].
    split; [reflexivity|]. split; [reflexivity|]. split; [reflexivity|].
    intros d Hd. lia.
  - cbn [Enc.shareLoop] in H.
    destruct (encs !! 0%nat) as [e0|] eqn:H0; [| discriminate].
    destruct (encs !! i) as [ei|] eqn:Hei; [| discriminate].
    apply mbind_Ok_inv in H as (ei' & w1 & Hshare & H).
    apply IH in H as (Hlen & Hzero & Hlow & Hhigh); [| lia].
    rewrite length_insert in Hlen.
    assert (Hlt : (i < length encs)%nat) by (eapply lookup_lt_Some; exact Hei).
    split; [exact Hlen|].
    split; [rewrite Hzero, list_lookup_insert_ne by lia; exact H0|].
    split.
    { intros d Hd. rewrite Hlow by lia. apply list_lookup_insert_ne. lia. }
    intros d Hd. destruct (decide (d = i)) as [->|Hne].
    + exists e0, ei, ei', w, w1. split; [reflexivity|]. split; [exact Hei|].
      split; [| exact Hshare].
      rewrite Hlow by lia. apply list_lookup_insert_eq. exact Hlt.
    + destruct (Hhigh d ltac:(lia)) as (e0' & ed & ed' & wa & wb & A & B & C' & D').
      rewrite list_lookup_insert_ne in A by lia.
      rewrite list_lookup_insert_ne in B by lia.
      exists e0', ed, ed', wa, wb. rewrite <- H0. auto.
Qed.

Lemma slice_views_same_cells (s s0 : Enc.slice) :
  Enc.ptr s = Enc.ptr s0 -> Enc.off s = Enc.off s0 ->
  forall (w : Enc.World) i v,
    Enc.get w s i = Enc.get w s0 i /\ Enc.set w s i v = Enc.set w s0 i v.
Proof.
  intros Hp Ho w i v. unfold Enc.get, Enc.set. rewrite Hp, Ho. auto.
Qed.

Lemma get_set_same (w : Enc.World) s i v :
  is_Some (Enc.get w s i) -> Enc.get (Enc.set w s i v) s i = Some v.
Proof.
  unfold Enc.get, Enc.set. cbn [Enc.torus]. intros [x Hx].
  rewrite lookup_alter_eq.
  destruct (Enc.torus w !! Enc.ptr s) as [buf|]; [| discriminate].
  cbn. apply list_lookup_insert_eq. eapply lookup_lt_Some. exact Hx.
Qed.

(** C6.  In every list returned by
    [NewEncryptorHierarchyWithSharedLWEKey], for every depth [d >= 1]:
    the LWE-large key of [enc[d]] is the slice of the first [g_d]
    elements of the LWE-large key of [enc[0]] (same buffer, same start,
    length [g_d], not a copy); its LWE key is the slice of the first
    [n] elements and its GLWE polynomials are the consecutive chunks of
    [N_d] elements of that same buffer; so in every state of the memory
    both keys read the same cells, a write through one is the same
    write through the other and is read back through either, and the
    elements of [enc[d]]'s key are the first [g_d] elements of
    [enc[0]]'s key. *)
Theorem hierarchy_keys_are_prefix_views_of_level_0
  (params : Params.Parameters) (w : Enc.World) encs w' :
  Enc.NewEncryptorHierarchyWithSharedLWEKey params w = Ok (encs, w') ->
  exists e0,
    encs !! 0%nat = Some e0 /\
    forall d ed, (1 <= d)%nat -> encs !! d = Some ed ->
      let large0 := Enc.LWELargeKey (Enc.SecretKey_ e0) in
      let large := Enc.LWELargeKey (Enc.SecretKey_ ed) in
      let lwe := Enc.LWEKey (Enc.SecretKey_ ed) in
      let p := Enc.Parameters ed in
      0 <= Params.glweDimension p <= Enc.len large0 /\
      (Enc.ptr large = Enc.ptr large0 /\ Enc.off large = Enc.off large0 /\
       Enc.len large = Params.glweDimension p) /\
      (Enc.ptr lwe = Enc.ptr large0 /\ Enc.off lwe = Enc.off large0 /\
       Enc.len lwe = Params.lweDimension p) /\
      (forall j, 0 <= j < Params.glweRank p ->
         exists c,
           Enc.GLWEKey (Enc.SecretKey_ ed) !! Z.to_nat j = Some c /\
           Enc.ptr c = Enc.ptr large0 /\
           Enc.off c = Enc.off large0 + int_mul j (Params.polyDegree p) /\
           Enc.len c = int_mul (int_add j 1) (Params.polyDegree p)
                       - int_mul j (Params.polyDegree p)) /\
      (forall (w'' : Enc.World) i v,
         Enc.get w'' large i = Enc.get w'' large0 i /\
         Enc.set w'' large i v = Enc.set w'' large0 i v) /\
      (forall (w'' : Enc.World) i v,
         is_Some (Enc.get w'' large0 i) ->
         Enc.get (Enc.set w'' large0 i v) large i = Some v /\
         Enc.get (Enc.set w'' large i v) large0 i = Some v) /\
      (forall w'' : Enc.World,
         Enc.elems w'' large
         = take (Z.to_nat (Params.glweDimension p)) (Enc.elems w'' large0)).
Proof.
  unfold Enc.NewEncryptorHierarchyWithSharedLWEKey. intros H.
  apply mbind_Ok_inv in H as (l & w1 & Hbuild & H).
  apply buildLevels_Ok_inv in Hbuild as (Hlen & _ & _ & _).
  destruct (l !! 0%nat) as [e0|] eqn:H0; [| discriminate].
  apply mbind_Ok_inv in H as ([sk e0'] & w2 & HGen & H).
  apply GenSecretKey_Ok_inv in HGen as (-> & _ & Hoff0 & Hlencap).
  apply shareLoop_Ok_inv in H as (Hlen' & Hzero & _ & Hhigh); [| lia].
  rewrite length_insert in Hlen'.
  assert (Hl0 : (0 < length l)%nat) by (eapply lookup_lt_Some; exact H0).
  rewrite list_lookup_insert_eq in Hzero by exact Hl0.
  exists (Enc.with_key e0 sk). split; [exact Hzero|].
  intros d ed Hd Hed. cbv zeta. cbn [Enc.with_key Enc.SecretKey_].
  assert (Hdl : (d < length encs)%nat) by (eapply lookup_lt_Some; exact Hed).
  destruct (Hhigh d) as (e0' & ed0 & ed' & wa & wb & A & B & C' & D').
  { rewrite Hlen', Hlen in Hdl. rewrite Hlen in Hl0.
    generalize dependent (Enc.hierarchy_depth params). intros; lia. }
  rewrite list_lookup_insert_eq in A by exact Hl0.
  injection A as <-. rewrite Hed in C'. injection C' as <-.
  cbn [Enc.with_key Enc.SecretKey_] in D'.
  apply shareKey_Ok_inv in D' as (HP & Hg & Hlarge & Hlwe & Hglwe).
  rewrite <- HP in Hg, Hlarge, Hlwe, Hglwe. clear HP.
  set (p := Enc.Parameters ed) in *.
  apply reslice_Ok_inv in Hlwe as (_ & _ & _ & Hlwe).
  rewrite Hlarge in Hlwe. cbn [Enc.ptr Enc.off Enc.cap] in Hlwe.
  split; [lia|].
  split; [rewrite Hlarge; cbn; split; [reflexivity | split; lia]|].
  split; [rewrite Hlwe; cbn; split; [reflexivity | split; lia]|].
  split.
  { intros j Hj. destruct (Hglwe j Hj) as (c & Hc & Hcj).
    exists c. split; [exact Hcj|].
    apply reslice_Ok_inv in Hc as (_ & _ & _ & ->).
    rewrite Hlarge. cbn. split; [reflexivity | split; lia]. }
  assert (Hsame : forall (w'' : Enc.World) i v,
             Enc.get w'' (Enc.LWELargeKey (Enc.SecretKey_ ed)) i
             = Enc.get w'' (Enc.LWELargeKey sk) i /\
             Enc.set w'' (Enc.LWELargeKey (Enc.SecretKey_ ed)) i v
             = Enc.set w'' (Enc.LWELargeKey sk) i v)
    by (apply slice_views_same_cells; rewrite Hlarge; cbn; [reflexivity | lia]).
  split; [exact Hsame|].
  split.
  { intros w'' i v Hsome.
    destruct (Hsame w'' i v) as [_ Hset].
    destruct (Hsame (Enc.set w'' (Enc.LWELargeKey sk) i v) i v) as [Hget _].
    rewrite Hset, Hget. split; apply get_set_same; exact Hsome. }
  intros w''. unfold Enc.elems. rewrite Hlarge. cbn [Enc.ptr Enc.off Enc.len].
  destruct (Enc.torus w'' !! Enc.ptr (Enc.LWELargeKey sk)) as [buf|];
    [| rewrite take_nil; reflexivity].
  rewrite take_take. rewrite Z.add_0_r, Z.sub_0_r. f_equal. lia.
Qed.

Lemma compiled_sizes D T lit params :
  Params.Compile D T lit = Ok params ->
  0 < Params.lweDimension params <= Params.glweDimension params /\
  is_int (Params.glweDimension params) /\
  0 < Params.polyDegree params.
Proof.
  intros H.
  pose proof (proj1 (Compile_returns_iff D T lit)) as Hinv.
  rewrite H in Hinv. specialize (Hinv I).
  destruct (Compile_Ok_inv D T lit params H) as (br & ks & _ & _ & ->).
  unfold Params.enforced_invariants in Hinv. cbv zeta in Hinv.
  destruct Hinv as (I1 & I2 & _ & _ & _ & I6 & _).
  cbn [Params.lweDimension Params.glweDimension Params.polyDegree].
  split; [lia|]. split; [apply wrapI_is_int|].
  unfold num.IsPowerOfTwo in I6. apply andb_true_iff in I6 as [I6 _].
  apply Z.ltb_lt in I6. exact I6.
Qed.

(** C10 (as amended).  For every compiled parameter set:
    with [polyDegree = 2048] (every [ParamsEBS] default set) the computed
    depth is 0 and [NewEncryptorHierarchyWithSharedLWEKey] panics with
    an index out of range on the empty slice; with [polyDegree < 2048]
    the computed depth is 64, the trailing zeros of [uint(0)], and the
    call panics as well; and whenever the call returns, [polyDegree] is
    greater than 2048 and the list returned is non-empty with a first
    encryptor of polynomial degree [N/2]. *)
Theorem hierarchy_panics_unless_degree_above_2048
  D T lit (params : Params.Parameters) (w : Enc.World) :
  Params.Compile D T lit = Ok params ->
  (Params.polyDegree params = 2048 ->
   Enc.hierarchy_depth params = 0 /\
   Enc.NewEncryptorHierarchyWithSharedLWEKey params w = Panic "index out of range") /\
  (Params.polyDegree params < 2048 ->
   Enc.hierarchy_depth params = 64 /\
   panics (Enc.NewEncryptorHierarchyWithSharedLWEKey params w)) /\
  (forall encs w',
     Enc.NewEncryptorHierarchyWithSharedLWEKey params w = Ok (encs, w') ->
     2048 < Params.polyDegree params /\
     exists e0 rest,
       encs = e0 :: rest /\
       Params.polyDegree (Enc.Parameters e0) = Z.quot (Params.polyDegree params) 2).
Proof.
  intros HC.
  destruct (compiled_sizes D T lit params HC) as (Hn & Hg & HN).
  assert (Ha : Params.polyDegree params = 2048 ->
               Enc.hierarchy_depth params = 0 /\
               Enc.NewEncryptorHierarchyWithSharedLWEKey params w
               = Panic "index out of range").
  { intros E.
    assert (Hd : Enc.hierarchy_depth params = 0)
      by (unfold Enc.hierarchy_depth; rewrite E; reflexivity).
    split; [exact Hd|].
    unfold Enc.NewEncryptorHierarchyWithSharedLWEKey. rewrite Hd. reflexivity. }
  assert (Hb : Params.polyDegree params < 2048 ->
               Enc.hierarchy_depth params = 64 /\
               panics (Enc.NewEncryptorHierarchyWithSharedLWEKey params w)).
  { intros E.
    assert (Hd : Enc.hierarchy_depth params = 64).
    { unfold Enc.hierarchy_depth. rewrite Z.quot_small by lia. reflexivity. }
    split; [exact Hd|].
    unfold Enc.NewEncryptorHierarchyWithSharedLWEKey. rewrite Hd.
    unfold Enc.mbind at 1.
    destruct (Enc.buildLevels params _ _ _ _ (Z.to_nat 64) w)
      as [[l w1]|msg] eqn:Hbuild; [| exact I].
    exfalso.
    apply buildLevels_Ok_inv in Hbuild as (_ & _ & [Hz | Hbound] & _).
    - revert Hz. cbn. discriminate.
    - unfold is_int in Hg.
      assert (Hq : 0 <= Z.quot (Params.glweDimension params) 2)
        by (apply Z.quot_pos; lia).
      specialize (Hbound Hq).
      assert (Z.quot (Params.glweDimension params) 2 < 2 ^ 63).
      { rewrite Z.quot_div_nonneg by lia.
        apply Z.div_lt_upper_bound; lia. }
      change (Z.of_nat (Z.to_nat 64) - 1) with 63 in Hbound.
      nia. }
  split; [exact Ha|]. split; [exact Hb|].
  intros encs w' H.
  assert (HN' : 2048 < Params.polyDegree params).
  { destruct (Z.lt_trichotomy (Params.polyDegree params) 2048) as [E|[E|E]];
      [| | exact E].
    - destruct (Hb E) as [_ Hp]. rewrite H in Hp. destruct Hp.
    - destruct (Ha E) as [_ Hp]. rewrite H in Hp. discriminate. }
  split; [exact HN'|].
  unfold Enc.NewEncryptorHierarchyWithSharedLWEKey in H.
  apply mbind_Ok_inv in H as (l & w1 & Hbuild & H).
  apply buildLevels_Ok_inv in Hbuild as (_ & Hhead & _ & _).
  destruct (l !! 0%nat) as [e0|] eqn:H0; [| discriminate].
  apply mbind_Ok_inv in H as ([sk e0'] & w2 & HGen & H).
  apply GenSecretKey_Ok_inv in HGen as (-> & _).
  apply shareLoop_Ok_inv in H as (_ & Hzero & _); [| lia].
  assert (Hl0 : (0 < length l)%nat) by (eapply lookup_lt_Some; exact H0).
  rewrite list_lookup_insert_eq in Hzero by exact Hl0.
  destruct encs as [|e rest]; [discriminate|].
  injection Hzero as ->.
  exists (Enc.with_key e0 sk), rest. split; [reflexivity|].
  cbn [Enc.with_key Enc.Parameters]. rewrite (Hhead e0 eq_refl). reflexivity.
Qed.

End EncProofs.

Lemma GenSecretKey_leaves_encryptor_unchanged_witness :
  exists sk w',
    Enc.GenSecretKey Inputs.encryptorEBS5 Inputs.worldWithSampler
    = Ok ((sk, Inputs.encryptorEBS5), w').
Proof.
  destruct (GenSecretKey_leaves_encryptor_unchanged
              Inputs.encryptorEBS5 Inputs.worldWithSampler 0)
    as (sk & w' & H & _).
  - vm_compute. split; discriminate.
  - vm_compute. discriminate.
  - vm_compute. discriminate.
  - vm_compute. discriminate.
  - unfold is_int. vm_compute. split; [discriminate | reflexivity].
  - unfold is_int. vm_compute. split; [discriminate | reflexivity].
  - reflexivity.
  - exists sk, w'. exact H.
Defined.

Lemma hierarchy_keys_are_prefix_views_of_level_0_witness :
  exists encs w' e0,
    Enc.NewEncryptorHierarchyWithSharedLWEKey Inputs.params6 Inputs.emptyWorld
    = Ok (encs, w') /\
    encs !! 0%nat = Some e0 /\
    forall d ed, (1 <= d)%nat -> encs !! d = Some ed ->
      Enc.ptr (Enc.LWELargeKey (Enc.SecretKey_ ed))
      = Enc.ptr (Enc.LWELargeKey (Enc.SecretKey_ e0)).
Proof.
  destruct (Enc.NewEncryptorHierarchyWithSharedLWEKey Inputs.params6 Inputs.emptyWorld)
    as [[encs w']|msg] eqn:E.
  - destruct (hierarchy_keys_are_prefix_views_of_level_0
                Inputs.params6 Inputs.emptyWorld encs w' E) as (e0 & H0 & H).
    exists encs, w', e0. split; [reflexivity|]. split; [exact H0|].
    intros d ed Hd Hed. apply (H d ed Hd Hed).
  - exfalso. revert E. vm_compute. discriminate.
Defined.

Lemma hierarchy_panics_unless_degree_above_2048_witness :
  Enc.hierarchy_depth Inputs.paramsEBS5 = 0 /\
  Enc.NewEncryptorHierarchyWithSharedLWEKey Inputs.paramsEBS5 Inputs.emptyWorld
  = Panic "index out of range".
Proof.
  apply (proj1 (hierarchy_panics_unless_degree_above_2048
                  num_spec.DivRound U64 Params.ParamsEBS5 Inputs.paramsEBS5
                  Inputs.emptyWorld ltac:(vm_compute; reflexivity))).
  reflexivity.
Defined.

(** C10, as stated, fails: for the compiled set with [polyDegree = 1024]
    the computed depth is 64, not 0, and the panic is not the index out
    of range on an empty slice: the second encryptor of the 64 cannot be
    built. *)
Lemma hierarchy_depth_is_64_below_2048 :
  Params.Compile num_spec.DivRound U64 Inputs.Params1024 = Ok Inputs.params1024 /\
  Params.polyDegree Inputs.params1024 <= 2048 /\
  Enc.hierarchy_depth Inputs.params1024 = 64 /\
  Enc.NewEncryptorHierarchyWithSharedLWEKey Inputs.params1024 Inputs.emptyWorld
  = Panic "slice bounds out of range".
Proof.
  split; [vm_compute; reflexivity|].
  split; [vm_compute; discriminate|].
  split; vm_compute; reflexivity.
Qed.

(** ** Gadget parameters: the scaled bases *)

Lemma IsPowerOfTwo_pow2 x :
  num.IsPowerOfTwo x = true -> x = 2 ^ Z.log2 x.
Proof.
  unfold num.IsPowerOfTwo. intros H.
  apply andb_true_iff in H as [Hpos Hland].
  apply Z.ltb_lt in Hpos. apply Z.eqb_eq in Hland.
  destruct (Z.log2_spec x Hpos) as [Hlo Hhi].
  destruct (Z.eq_dec x (2 ^ Z.log2 x)) as [E|E]; [exact E|].
  exfalso.
  assert (Hx1 : 0 < x - 1) by (pose proof (Z.pow_pos_nonneg 2 (Z.log2 x) ltac:(lia) (Z.log2_nonneg x)); lia).
  assert (Hl : Z.log2 (x - 1) = Z.log2 x).
  { apply Z.log2_unique; [apply Z.log2_nonneg|].
    replace (Z.log2 x + 1) with (Z.succ (Z.log2 x)) by lia. lia. }
  pose proof (Z.bit_log2 x Hpos) as B1.
  pose proof (Z.bit_log2 (x - 1) Hx1) as B2. rewrite Hl in B2.
  assert (B : Z.testbit (Z.land x (x - 1)) (Z.log2 x) = true)
    by (rewrite Z.land_spec, B1, B2; reflexivity).
  rewrite Hland, Z.bits_0 in B. discriminate.
Qed.

Lemma wrapI_add_sub_1 x : is_int x -> int_add (int_sub x 1) 1 = x.
Proof.
  unfold int_add, int_sub, wrapI, is_int. intros H.
  replace ((x - 1 + 2 ^ 63) mod 2 ^ 64 - 2 ^ 63 + 1 + 2 ^ 63)
    with ((x - 1 + 2 ^ 63) mod 2 ^ 64 + 1) by lia.
  rewrite Zplus_mod_idemp_l.
  replace (x - 1 + 2 ^ 63 + 1) with (x + 2 ^ 63) by lia.
  rewrite Z.mod_small by lia. lia.
Qed.

(** X1.  For gadget parameters compiled from a literal, with
    [logBase * level <= sizeT] and an index [0 <= i < level]: the
    exponent [LogBaseQ(i)] lies in [[0, sizeT)], [BaseQ(i)] returns
    [2^LogBaseQ(i)] without wrapping, and [BaseQ(i) * Base^(i+1) = Q]
    for [Q = 2^sizeT]; that is, [BaseQ(i)] is [Q / Base^(i+1)]. *)
Theorem BaseQ_is_Q_over_power_of_base T lit g i :
  Gadget.Compile T lit = Ok g ->
  Gadget.logBase g * Gadget.level g <= Gadget.sizeT g ->
  0 <= i < Gadget.level g ->
  0 <= GadgetQ.LogBaseQ g i < num.SizeT T /\
  GadgetQ.BaseQ T g i = Ok (2 ^ GadgetQ.LogBaseQ g i) /\
  2 ^ GadgetQ.LogBaseQ g i * Gadget.base g ^ (i + 1) = 2 ^ num.SizeT T.
Proof.
  intros HC Hfit Hi.
  apply Gadget_Compile_Ok_iff in HC as [(Hb & Hp & Hl & _) ->].
  cbn [Gadget.logBase Gadget.level Gadget.sizeT Gadget.base] in *.
  pose proof (IsPowerOfTwo_pow2 _ Hp) as Hbase.
  unfold num.Log2 in *.
  set (b := Z.log2 (Gadget.Base lit)) in *.
  assert (Hb1 : 1 <= b).
  { destruct (Z.le_gt_cases 1 b) as [?|Hlt]; [assumption|].
    assert (b = 0) by (pose proof (Z.log2_nonneg (Gadget.Base lit)); lia).
    rewrite H in Hbase. change (2 ^ 0) with 1 in Hbase. lia. }
  assert (HS : num.SizeT T <= 64) by (destruct T; cbn; lia).
  assert (Hprod : 0 < (i + 1) * b <= num.SizeT T) by nia.
  assert (HL : GadgetQ.LogBaseQ
                 {| Gadget.base := Gadget.Base lit; Gadget.logBase := b;
                    Gadget.level := Gadget.Level lit; Gadget.sizeT := num.SizeT T |} i
               = num.SizeT T - (i + 1) * b).
  { unfold GadgetQ.LogBaseQ. cbn [Gadget.logBase Gadget.sizeT].
    unfold int_sub, int_mul, int_add.
    rewrite (wrapI_id (i + 1)) by (unfold is_int; nia).
    rewrite (wrapI_id ((i + 1) * b)) by (unfold is_int; lia).
    apply wrapI_id. unfold is_int. lia. }
  rewrite HL. split; [lia|]. split.
  - unfold GadgetQ.BaseQ, GadgetQ.one_shl. rewrite HL.
    destruct (Z.ltb_spec (num.SizeT T - (i + 1) * b) 0); [lia|].
    rewrite Z.shiftl_1_l. unfold wrapT, wrapU.
    rewrite Z.mod_small; [reflexivity|].
    split; [apply Z.pow_nonneg; lia|].
    apply Z.pow_lt_mono_r; lia.
  - rewrite Hbase at 1. rewrite <- Z.pow_mul_r by lia.
    rewrite <- Z.pow_add_r by nia. f_equal. lia.
Qed.

Lemma BaseQ_is_Q_over_power_of_base_witness :
  GadgetQ.BaseQ U64 (Params.keySwitchParameters Inputs.paramsEBS5) 2 = Ok (2 ^ 43) /\
  2 ^ 43 * (2 ^ 7) ^ 3 = 2 ^ 64.
Proof.
  destruct (BaseQ_is_Q_over_power_of_base U64
              (Params.KeySwitchParameters Params.ParamsEBS5)
              (Params.keySwitchParameters Inputs.paramsEBS5) 2)
    as (_ & H1 & H2).
  - vm_compute. reflexivity.
  - vm_compute. discriminate.
  - vm_compute. split; [discriminate | reflexivity].
  - split; [exact H1 | exact H2].
Defined.

(** X2.  [FirstBaseQ] and [LastBaseQ] are [BaseQ] at the indices [0]
    and [level - 1], and [LogFirstBaseQ] and [LogLastBaseQ] are
    [LogBaseQ] at these indices, for every gadget whose [logBase] and
    [level] are Go [int]s. *)
Theorem FirstBaseQ_LastBaseQ_are_BaseQ T (g : Gadget.GadgetParameters) :
  is_int (Gadget.logBase g) -> is_int (Gadget.level g) ->
  GadgetQ.FirstBaseQ T g = GadgetQ.BaseQ T g 0 /\
  GadgetQ.LastBaseQ T g = GadgetQ.BaseQ T g (int_sub (Gadget.level g) 1) /\
  GadgetQ.LogFirstBaseQ g = GadgetQ.LogBaseQ g 0 /\
  GadgetQ.LogLastBaseQ g = GadgetQ.LogBaseQ g (int_sub (Gadget.level g) 1).
Proof.
  intros Hb Hl.
  assert (E1 : GadgetQ.LogFirstBaseQ g = GadgetQ.LogBaseQ g 0).
  { unfold GadgetQ.LogFirstBaseQ, GadgetQ.LogBaseQ.
    change (int_add 0 1) with 1. unfold int_mul.
    rewrite Z.mul_1_l, wrapI_id by exact Hb. reflexivity. }
  assert (E2 : GadgetQ.LogLastBaseQ g
               = GadgetQ.LogBaseQ g (int_sub (Gadget.level g) 1)).
  { unfold GadgetQ.LogLastBaseQ, GadgetQ.LogBaseQ.
    rewrite wrapI_add_sub_1 by exact Hl. reflexivity. }
  unfold GadgetQ.FirstBaseQ, GadgetQ.LastBaseQ, GadgetQ.BaseQ.
  rewrite E1, E2. auto.
Qed.

Lemma FirstBaseQ_LastBaseQ_are_BaseQ_witness :
  GadgetQ.FirstBaseQ U64 (Params.keySwitchParameters Inputs.paramsEBS5) = Ok (2 ^ 57) /\
  GadgetQ.LastBaseQ U64 (Params.keySwitchParameters Inputs.paramsEBS5) = Ok (2 ^ 43).
Proof.
  destruct (FirstBaseQ_LastBaseQ_are_BaseQ U64
              (Params.keySwitchParameters Inputs.paramsEBS5))
    as (H1 & H2 & _).
  - unfold is_int. vm_compute. split; [discriminate | reflexivity].
  - unfold is_int. vm_compute. split; [discriminate | reflexivity].
  - rewrite H1, H2. vm_compute. auto.
Defined.

(** ** Literals and compiled parameters *)

(** X3.  [Literal] undoes [Compile]: when a literal compiles to [p],
    [p.Literal()] is the literal with its defaults filled in and
    compiling it again returns [p]; likewise the literals of the two
    gadget parameters of [p] compile to these gadget parameters. *)
Theorem Literal_inverts_Compile D T lit p :
  Params.Compile D T lit = Ok p ->
  Params.Literal p = Params.defaulted lit /\
  Params.Compile D T (Params.Literal p) = Ok p /\
  Gadget.Compile T (Gadget.Literal (Params.blindRotateParameters p))
    = Ok (Params.blindRotateParameters p) /\
  Gadget.Compile T (Gadget.Literal (Params.keySwitchParameters p))
    = Ok (Params.keySwitchParameters p).
Proof.
  intros H. split; [eapply Literal_Compile; exact H|].
  split; [eapply Compile_Literal; exact H|].
  destruct (Compile_Ok_inv D T lit p H) as (br & ks & Hbr & Hks & ->).
  cbn [Params.blindRotateParameters Params.keySwitchParameters].
  rewrite (Gadget_Literal_Compile _ _ _ Hbr), (Gadget_Literal_Compile _ _ _ Hks).
  auto.
Qed.

Lemma Literal_inverts_Compile_witness :
  Params.Literal Inputs.params6 = Params.defaulted Params.Params6 /\
  Params.Compile num_spec.DivRound U64 (Params.Literal Inputs.params6)
    = Ok Inputs.params6.
Proof.
  destruct (Literal_inverts_Compile num_spec.DivRound U64 Params.Params6 Inputs.params6)
    as (H1 & H2 & _).
  - vm_compute. reflexivity.
  - split; [exact H1 | exact H2].
Defined.

(** X4.  The fields that [Compile] derives.  In parameters returned by
    [Compile]: [0 < n <= glweDimension], [glweDimension] is the [int]
    product [k * N] with [k > 0], [N = 2^logPolyDegree],
    [L = polyExtendFactor * N] with [polyExtendFactor >= 1],
    [n = blockCount * blockSize] with both positive, [logQ] is the bit
    width of [T] and the [sizeT] of both gadgets, and the bootstrap
    order is one of the two declared orders. *)
Theorem Compile_derived_fields D T lit p :
  Params.Compile D T lit = Ok p ->
  0 < Params.lweDimension p <= Params.glweDimension p /\
  Params.glweDimension p = int_mul (Params.glweRank p) (Params.polyDegree p) /\
  0 < Params.glweRank p /\
  Params.polyDegree p = 2 ^ Params.logPolyDegree p /\
  Params.lookUpTableSize p = Params.polyExtendFactor p * Params.polyDegree p /\
  1 <= Params.polyExtendFactor p /\
  Params.lweDimension p = Params.blockCount p * Params.blockSize p /\
  1 <= Params.blockCount p /\ 0 < Params.blockSize p /\
  Params.logQ p = num.SizeT T /\
  Gadget.sizeT (Params.blindRotateParameters p) = Params.logQ p /\
  Gadget.sizeT (Params.keySwitchParameters p) = Params.logQ p /\
  (Params.bootstrapOrder p = Params.OrderKeySwitchBlindRotate \/
   Params.bootstrapOrder p = Params.OrderBlindRotateKeySwitch).
Proof.
  intros H.
  pose proof (proj1 (Compile_returns_iff D T lit)) as Hinv.
  rewrite H in Hinv. specialize (Hinv I).
  destruct (Compile_Ok_inv D T lit p H) as (br & ks & Hbr & Hks & ->).
  apply Gadget_Compile_Ok_iff in Hbr as [_ ->].
  apply Gadget_Compile_Ok_iff in Hks as [_ ->].
  unfold Params.enforced_invariants in Hinv. cbv zeta in Hinv.
  set (q := Params.defaulted lit) in *.
  destruct Hinv as (I1 & I2 & I3 & I4 & I5 & I6 & I7 & I8 & _ & _ & _ & _ & I13 & _).
  cbn [Params.lweDimension Params.glweDimension Params.glweRank Params.polyDegree
       Params.logPolyDegree Params.lookUpTableSize Params.polyExtendFactor
       Params.blockSize Params.blockCount Params.logQ Params.bootstrapOrder
       Params.blindRotateParameters Params.keySwitchParameters Gadget.sizeT].
  pose proof (IsPowerOfTwo_pow2 _ I6) as HN.
  assert (HNpos : 0 < Params.PolyDegree q).
  { unfold num.IsPowerOfTwo in I6. apply andb_true_iff in I6 as [I6 _].
    apply Z.ltb_lt in I6. exact I6. }
  assert (HL : Params.LookUpTableSize q
               = Z.quot (Params.LookUpTableSize q) (Params.PolyDegree q)
                 * Params.PolyDegree q).
  { pose proof (Z.quot_rem' (Params.LookUpTableSize q) (Params.PolyDegree q)). lia. }
  assert (Hn : Params.LWEDimension q
               = Z.quot (Params.LWEDimension q) (Params.BlockSize q)
                 * Params.BlockSize q).
  { pose proof (Z.quot_rem' (Params.LWEDimension q) (Params.BlockSize q)). lia. }
  repeat split; try assumption; try lia; try nia.
Qed.

(** X5.  For compiled parameters, [DefaultLWEDimension] and
    [DefaultLWEStdDev] are the GLWE entities exactly when
    [IsPublicKeyEncryptable] holds (key switch before blind rotation)
    and the LWE entities otherwise; in both cases
    [0 < DefaultLWEDimension <= glweDimension]. *)
Theorem default_LWE_entities_follow_the_order D T lit p :
  Params.Compile D T lit = Ok p ->
  (ParamsQ.IsPublicKeyEncryptable p = true ->
   ParamsQ.DefaultLWEDimension p = Params.glweDimension p /\
   ParamsQ.DefaultLWEStdDev p = Params.glweStdDev p) /\
  (ParamsQ.IsPublicKeyEncryptable p = false ->
   ParamsQ.DefaultLWEDimension p = Params.lweDimension p /\
   ParamsQ.DefaultLWEStdDev p = Params.lweStdDev p) /\
  0 < ParamsQ.DefaultLWEDimension p <= Params.glweDimension p.
Proof.
  intros H.
  pose proof (proj1 (Compile_returns_iff D T lit)) as Hinv.
  rewrite H in Hinv. specialize (Hinv I).
  destruct (Compile_Ok_inv D T lit p H) as (br & ks & _ & _ & ->).
  unfold Params.enforced_invariants in Hinv. cbv zeta in Hinv.
  destruct Hinv as (I1 & I2 & _ & _ & _ & _ & _ & _ & _ & _ & _ & _ & I13 & _).
  unfold ParamsQ.IsPublicKeyEncryptable, ParamsQ.DefaultLWEDimension,
    ParamsQ.DefaultLWEStdDev,
    Params.OrderKeySwitchBlindRotate, Params.OrderBlindRotateKeySwitch in *.
  cbn [Params.bootstrapOrder Params.lweDimension Params.glweDimension
       Params.lweStdDev Params.glweStdDev].
  destruct I13 as [-> | ->].
  - change (0 =? 1) with false. change (0 =? 0) with true. cbv iota.
    split; [auto|]. split; [discriminate|]. lia.
  - change (1 =? 1) with true. change (1 =? 0) with false. cbv iota.
    split; [discriminate|]. split; [auto|]. lia.
Qed.

Lemma default_LWE_entities_follow_the_order_witness :
  ParamsQ.IsPublicKeyEncryptable Inputs.params6 = false /\
  ParamsQ.DefaultLWEDimension Inputs.params6 = 1160 /\
  0 < ParamsQ.DefaultLWEDimension Inputs.params6 <= 8192.
Proof.
  destruct (default_LWE_entities_follow_the_order num_spec.DivRound U64
              Params.Params6 Inputs.params6) as (_ & H2 & H3).
  - vm_compute. reflexivity.
  - split; [reflexivity|]. split; [apply H2; reflexivity | exact H3].
Defined.

(** ** Reading from short and from malformed input *)

Lemma read_then_short {A} (k : nat) (cont : list Byte.byte -> io.Reader -> Z -> io.rd A) r n :
  (length r < k)%nat ->
  io.read_then k cont r n
  = io.RFail (n + io.len r)
      (match r with [] => io.EOF | _ => io.ErrUnexpectedEOF end).
Proof.
  intros H. unfold io.read_then, io.ReadFull.
  destruct (Nat.leb_spec k (length r)); [lia|].
  destruct r; [reflexivity | reflexivity].
Qed.

Lemma read_then_long {A} (k : nat) (cont : list Byte.byte -> io.Reader -> Z -> io.rd A) r n :
  (k <= length r)%nat ->
  io.read_then k cont r n = cont (take k r) (drop k r) (n + Z.of_nat k).
Proof.
  intros H. unfold io.read_then, io.ReadFull.
  destruct (Nat.leb_spec k (length r)); [reflexivity | lia].
Qed.

Lemma short_error_here (r : list Byte.byte) :
  (length r < 8)%nat ->
  match r with [] => io.EOF | _ => io.ErrUnexpectedEOF end = short_read_error r.
Proof.
  intros H. unfold short_read_error. destruct r as [|b r]; [reflexivity|].
  cbn [length] in *. rewrite Z.mod_small by lia.
  destruct (Z.eqb_spec (Z.of_nat (S (length r))) 0); [lia | reflexivity].
Qed.

Lemma short_error_drop8 (r : list Byte.byte) :
  (8 <= length r)%nat -> short_read_error (drop 8 r) = short_read_error r.
Proof.
  intros H. unfold short_read_error. rewrite length_drop.
  replace (Z.of_nat (length r)) with (Z.of_nat (length r - 8) + 1 * 8) by lia.
  rewrite Z.mod_add by lia. reflexivity.
Qed.

Lemma len_drop8 (r : list Byte.byte) :
  (8 <= length r)%nat -> 8 + io.len (drop 8 r) = io.len r.
Proof. intros H. unfold io.len. rewrite length_drop. lia. Qed.

Lemma Gadget_ReadFrom_short_input T r n0 :
  (length r < 16)%nat ->
  match GadgetIO.ReadFrom T r with
  | io.RFail n e => n0 + n = n0 + io.len r /\ e = short_read_error r
  | _ => False
  end.
Proof.
  intros H. unfold GadgetIO.ReadFrom.
  destruct (Nat.lt_ge_cases (length r) 8) as [H8|H8].
  - rewrite read_then_short by exact H8.
    split; [lia | apply short_error_here; exact H8].
  - rewrite read_then_long by exact H8.
    rewrite read_then_short by (rewrite length_drop; lia).
    split; [pose proof (len_drop8 r H8); lia|].
    rewrite short_error_here by (rewrite length_drop; lia).
    apply short_error_drop8. exact H8.
Qed.

(** X6.  [GadgetParameters.ReadFrom] on an input of fewer than 16
    bytes returns an error and no panic; the count it reports is the
    length of the input, and the error is [io.EOF] when the input ends
    between two fields (0 or 8 bytes) and [io.ErrUnexpectedEOF] when it
    ends inside a field. *)
Theorem Gadget_ReadFrom_truncated_input T r :
  (length r < 16)%nat ->
  GadgetIO.ReadFrom T r
  = io.RFail (io.len r)
      (if Z.of_nat (length r) mod 8 =? 0 then io.EOF else io.ErrUnexpectedEOF).
Proof.
  intros H. pose proof (Gadget_ReadFrom_short_input T r 0 H) as G.
  destruct (GadgetIO.ReadFrom T r) as [| n e |]; try contradiction.
  destruct G as [Hn ->]. f_equal. lia.
Qed.

Lemma Gadget_ReadFrom_truncated_input_witness :
  GadgetIO.ReadFrom U64 (binary.PutUint64 4) = io.RFail 8 io.EOF /\
  GadgetIO.ReadFrom U64 [Byte.x00; Byte.x01] = io.RFail 2 io.ErrUnexpectedEOF.
Proof.
  split.
  - apply (Gadget_ReadFrom_truncated_input U64 (binary.PutUint64 4)). cbn. lia.
  - apply (Gadget_ReadFrom_truncated_input U64 [Byte.x00; Byte.x01]). cbn. lia.
Defined.

(** X7.  On an input of at least 16 bytes [GadgetParameters.ReadFrom]
    never returns an error: when the literal decoded from the first 16
    bytes satisfies the gadget invariants it returns the parameters
    compiled from that literal, the count 16 and the input after these
    bytes; otherwise it panics. *)
Theorem Gadget_ReadFrom_never_fails_on_16_bytes T r :
  (16 <= length r)%nat ->
  let lit := {| Gadget.Base := wrapT T (binary.Uint64 (take 8 r));
                Gadget.Level := int_of_uint64 (binary.Uint64 (take 8 (drop 8 r))) |} in
  (Gadget.invariants T lit ->
   GadgetIO.ReadFrom T r
   = io.RDone {| Gadget.base := Gadget.Base lit;
                 Gadget.logBase := num.Log2 (Gadget.Base lit);
                 Gadget.level := Gadget.Level lit;
                 Gadget.sizeT := num.SizeT T |} 16 (drop 16 r)) /\
  (~ Gadget.invariants T lit ->
   exists msg, GadgetIO.ReadFrom T r = io.RPanic msg).
Proof.
  intros H lit.
  assert (E : GadgetIO.ReadFrom T r
              = match Gadget.Compile T lit with
                | Panic m => io.RPanic m
                | Ok p => io.RDone p 16 (drop 16 r)
                end).
  { unfold GadgetIO.ReadFrom.
    rewrite read_then_long by lia.
    rewrite read_then_long by (rewrite length_drop; lia).
    rewrite drop_drop. reflexivity. }
  rewrite E. split.
  - intros Hinv.
    rewrite (proj2 (Gadget_Compile_Ok_iff T lit _) (conj Hinv eq_refl)).
    reflexivity.
  - intros Hn. destruct (Gadget.Compile T lit) as [g|m] eqn:EC; [| eauto].
    exfalso. apply Hn. apply (Gadget_Compile_Ok_iff T lit g). exact EC.
Qed.

Lemma Gadget_ReadFrom_never_fails_on_16_bytes_witness :
  exists msg, GadgetIO.ReadFrom U64 (replicate 16 Byte.x00) = io.RPanic msg.
Proof.
  apply (Gadget_ReadFrom_never_fails_on_16_bytes U64 (replicate 16 Byte.x00)).
  - cbn. lia.
  - unfold Gadget.invariants. vm_compute. intros [H _]. apply H. reflexivity.
Defined.

Lemma short_error_drop (k : nat) (r : list Byte.byte) :
  Z.of_nat k mod 8 = 0 -> (k <= length r)%nat ->
  short_read_error (drop k r) = short_read_error r.
Proof.
  intros Hk H. unfold short_read_error. rewrite length_drop.
  apply Z.mod_divide in Hk as [q Hq]; [| lia].
  replace (Z.of_nat (length r)) with (Z.of_nat (length r - k) + q * 8) by lia.
  rewrite Z.mod_add by lia. reflexivity.
Qed.

Ltac read_header_step :=
  match goal with
  | |- context [ io.read_then 8 ?c ?r ?n ] =>
      let Hs := fresh "Hs" in
      let Hl := fresh "Hl" in
      destruct (Nat.lt_ge_cases (length r) 8) as [Hs|Hl];
      [ rewrite (read_then_short 8 c r n) by exact Hs;
        rewrite (short_error_here r Hs);
        rewrite ?length_drop in Hs
      | rewrite (read_then_long 8 c r n) by exact Hl;
        rewrite ?length_drop in Hl;
        rewrite ?drop_drop ]
  end.

Lemma Params_ReadFrom_short_input D T r :
  (length r < 80)%nat ->
  ParamsIO.ReadFrom D T r = io.RFail (io.len r) (short_read_error r).
Proof.
  intros H. unfold ParamsIO.ReadFrom.
  read_header_step.
  { f_equal. }
  do 7 (read_header_step;
        [ rewrite short_error_drop by (reflexivity || lia);
          f_equal; unfold io.len; rewrite length_drop; lia
        | ]).
  pose proof (Gadget_ReadFrom_short_input T (drop (8 + 8 + 8 + 8 + 8 + 8 + 8 + 8) r)
                (0 + Z.of_nat 8 + Z.of_nat 8 + Z.of_nat 8 + Z.of_nat 8
                 + Z.of_nat 8 + Z.of_nat 8 + Z.of_nat 8 + Z.of_nat 8)) as G.
  rewrite length_drop in G. specialize (G ltac:(lia)).
  destruct (GadgetIO.ReadFrom T _) as [| n e |]; try contradiction.
  destruct G as [Hn ->].
  rewrite short_error_drop by (reflexivity || lia).
  f_equal. rewrite Hn. unfold io.len. rewrite length_drop. lia.
Qed.

(** X8.  [Parameters.ReadFrom] on an input of fewer than 80 bytes (that
    is, one that ends before the first gadget block is complete)
    returns an error and no panic; the count is the length of the input
    and the error is [io.EOF] at a boundary between 8-byte fields and
    [io.ErrUnexpectedEOF] inside a field. *)
Theorem Params_ReadFrom_truncated_input D T r :
  (length r < 80)%nat ->
  ParamsIO.ReadFrom D T r
  = io.RFail (io.len r)
      (if Z.of_nat (length r) mod 8 =? 0 then io.EOF else io.ErrUnexpectedEOF).
Proof. apply Params_ReadFrom_short_input. Qed.

Lemma Params_ReadFrom_truncated_input_witness :
  ParamsIO.ReadFrom num_spec.DivRound U64 (take 24 (ParamsIO.encoding Inputs.paramsEBS5))
  = io.RFail 24 io.EOF /\
  ParamsIO.ReadFrom num_spec.DivRound U64 (take 79 (ParamsIO.encoding Inputs.paramsEBS5))
  = io.RFail 79 io.ErrUnexpectedEOF.
Proof.
  split.
  - apply (Params_ReadFrom_truncated_input num_spec.DivRound U64
             (take 24 (ParamsIO.encoding Inputs.paramsEBS5))).
    vm_compute. lia.
  - apply (Params_ReadFrom_truncated_input num_spec.DivRound U64
             (take 79 (ParamsIO.encoding Inputs.paramsEBS5))).
    vm_compute. lia.
Defined.

(** X9.  For parameters [p] compiled from a machine-representable
    literal, [MarshalBinary] returns the 97 bytes of the encoding and no
    error; [UnmarshalBinary] of these bytes, followed by any trailing
    bytes, sets the receiver to [p] with no error; and [UnmarshalBinary]
    of fewer than 80 bytes returns an error and leaves the receiver as
    it was. *)
Theorem MarshalBinary_UnmarshalBinary_round_trip D T lit p :
  Params.wf_literal T lit -> Params.Compile D T lit = Ok p ->
  Marshal.MarshalBinary p = (ParamsIO.encoding p, None) /\
  length (fst (Marshal.MarshalBinary p)) = 97%nat /\
  (forall p0 trailing,
     Marshal.UnmarshalBinary D T p0 (fst (Marshal.MarshalBinary p) ++ trailing)
     = Ok (p, None)) /\
  (forall p0 data, (length data < 80)%nat ->
     exists e, Marshal.UnmarshalBinary D T p0 data = Ok (p0, Some e)).
Proof.
  intros Hwf HC.
  assert (E : Marshal.MarshalBinary p = (ParamsIO.encoding p, None)).
  { unfold Marshal.MarshalBinary. rewrite Params_WriteTo_buffer. reflexivity. }
  rewrite E. cbn [fst].
  split; [reflexivity|]. split; [apply Params_encoding_length|]. split.
  - intros p0 trailing. unfold Marshal.UnmarshalBinary.
    rewrite (Params_ReadFrom_encoding D T lit p trailing Hwf HC). reflexivity.
  - intros p0 data Hd. unfold Marshal.UnmarshalBinary.
    rewrite Params_ReadFrom_short_input by exact Hd. eauto.
Qed.

Lemma MarshalBinary_UnmarshalBinary_round_trip_witness :
  Marshal.UnmarshalBinary num_spec.DivRound U64 Inputs.params6
    (fst (Marshal.MarshalBinary Inputs.paramsEBS5) ++ [Byte.xff])
  = Ok (Inputs.paramsEBS5, None).
Proof.
  destruct (MarshalBinary_UnmarshalBinary_round_trip num_spec.DivRound U64
              Params.ParamsEBS5 Inputs.paramsEBS5) as (_ & _ & H & _).
  - unfold Params.wf_literal, Gadget.wf_literal, is_T, is_int, is_uint.
    repeat split; vm_compute; (reflexivity || discriminate).
  - vm_compute. reflexivity.
  - apply H.
Defined.

(** ** Writing to a sink with limited room *)

Lemma write_seq_room fs tail d k n :
  0 <= k ->
  write_seq fs tail {| io.data := d; io.room := Some k |} n
  = if io.len (concat fs) <=? k
    then tail {| io.data := d ++ concat fs;
                 io.room := Some (k - io.len (concat fs)) |}
              (n + io.len (concat fs))
    else io.WFail {| io.data := d ++ take (Z.to_nat k) (concat fs);
                     io.room := Some 0 |} (n + k) io.ErrShortWrite.
Proof.
  revert d k n. induction fs as [|bs fs IH]; intros d k n Hk.
  - cbn [write_seq foldr concat]. unfold io.len. cbn [length].
    change (Z.of_nat 0) with 0.
    destruct (Z.leb_spec 0 k); [| lia].
    rewrite app_nil_r, Z.sub_0_r, Z.add_0_r. reflexivity.
  - cbn [write_seq foldr concat]. fold (write_seq fs tail).
    unfold io.write_then at 1. unfold io.Write. cbn [io.room io.data].
    assert (Hlen : io.len (bs ++ concat fs) = io.len bs + io.len (concat fs))
      by (unfold io.len; rewrite length_app; lia).
    rewrite Hlen.
    assert (0 <= io.len bs /\ 0 <= io.len (concat fs)) by (unfold io.len; lia).
    destruct (Z.leb_spec (io.len bs) k) as [Hb|Hb].
    + rewrite IH by lia.
      destruct (Z.leb_spec (io.len (concat fs)) (k - io.len bs));
        destruct (Z.leb_spec (io.len bs + io.len (concat fs)) k); try lia.
      * rewrite <- app_assoc. f_equal; [f_equal; f_equal; lia | lia].
      * rewrite <- app_assoc. f_equal; [| lia]. f_equal. f_equal.
        rewrite take_app_ge by (unfold io.len in Hb; lia).
        f_equal. f_equal. unfold io.len. lia.
    + destruct (Z.leb_spec (io.len bs + io.len (concat fs)) k); [lia|].
      f_equal; [| lia]. f_equal. f_equal.
      rewrite take_app_le by (unfold io.len in Hb; lia). reflexivity.
Qed.

Lemma Gadget_WriteTo_room g d k :
  0 <= k ->
  GadgetIO.WriteTo g {| io.data := d; io.room := Some k |}
  = if 16 <=? k
    then io.WDone {| io.data := d ++ GadgetIO.encoding g; io.room := Some (k - 16) |} 16
    else io.WFail {| io.data := d ++ take (Z.to_nat k) (GadgetIO.encoding g);
                     io.room := Some 0 |} k io.ErrShortWrite.
Proof.
  intros Hk.
  change (GadgetIO.WriteTo g {| io.data := d; io.room := Some k |})
    with (write_seq [binary.PutUint64 (Gadget.base g);
                     binary.PutUint64 (uint64_of_int (Gadget.level g))]
            (fun w n => if n <? Gadget.ByteSize g
                        then io.WFail w n io.ErrShortWrite else io.WDone w n)
            {| io.data := d; io.room := Some k |} 0).
  rewrite write_seq_room by exact Hk.
  change (io.len (concat _)) with 16.
  change (concat _) with (GadgetIO.encoding g).
  destruct (Z.leb_spec 16 k); reflexivity.
Qed.

(** X10.  [Parameters.WriteTo] into a sink that accepts [k >= 0] more
    bytes: with [k >= 97] all 97 bytes are written and the count is 97;
    with [k < 97] the call stops at the first short write, the sink
    holds the first [k] bytes of the encoding, and the result is the
    count [k] with [io.ErrShortWrite]. *)
Theorem WriteTo_reports_bytes_accepted_by_a_short_sink p d k :
  0 <= k ->
  ParamsIO.WriteTo p {| io.data := d; io.room := Some k |}
  = if 97 <=? k
    then io.WDone {| io.data := d ++ ParamsIO.encoding p; io.room := Some (k - 97) |} 97
    else io.WFail {| io.data := d ++ take (Z.to_nat k) (ParamsIO.encoding p);
                     io.room := Some 0 |} k io.ErrShortWrite.
Proof.
  intros Hk.
  set (hdr := [binary.PutUint64 (uint64_of_int (Params.lweDimension p));
               binary.PutUint64 (uint64_of_int (Params.glweRank p));
               binary.PutUint64 (uint64_of_int (Params.polyDegree p));
               binary.PutUint64 (uint64_of_int (Params.lookUpTableSize p));
               binary.PutUint64 (Params.lweStdDev p);
               binary.PutUint64 (Params.glweStdDev p);
               binary.PutUint64 (uint64_of_int (Params.blockSize p));
               binary.PutUint64 (Params.messageModulus p)]).
  set (br := GadgetIO.encoding (Params.blindRotateParameters p)).
  set (ks := GadgetIO.encoding (Params.keySwitchParameters p)).
  set (o := [binary.byte_of_Z (Params.bootstrapOrder p)]).
  assert (Henc : ParamsIO.encoding p = concat hdr ++ br ++ ks ++ o).
  { unfold ParamsIO.encoding, hdr. cbn [concat]. rewrite <- !app_assoc. reflexivity. }
  assert (Lh : length (concat hdr) = 64%nat) by reflexivity.
  assert (Lb : length br = 16%nat) by reflexivity.
  assert (Lk : length ks = 16%nat) by reflexivity.
  assert (Lo : length o = 1%nat) by reflexivity.
  change (ParamsIO.WriteTo p {| io.data := d; io.room := Some k |})
    with (write_seq hdr
            (fun w n =>
               match GadgetIO.WriteTo (Params.blindRotateParameters p) w with
               | io.WFail w nWrite64 e => io.WFail w (n + nWrite64) e
               | io.WDone w nWrite64 =>
                   let n := n + nWrite64 in
                   match GadgetIO.WriteTo (Params.keySwitchParameters p) w with
                   | io.WFail w nWrite64 e => io.WFail w (n + nWrite64) e
                   | io.WDone w nWrite64 =>
                       let n := n + nWrite64 in
                       write_seq [o]
                         (fun w n => if n <? Params.ByteSize p
                                     then io.WFail w n io.ErrShortWrite
                                     else io.WDone w n) w n
                   end
               end)
            {| io.data := d; io.room := Some k |} 0).
  rewrite write_seq_room by exact Hk.
  replace (io.len (concat hdr)) with 64 by (unfold io.len; rewrite Lh; reflexivity).
  rewrite Henc.
  destruct (Z.leb_spec 64 k) as [H64|H64].
  2:{ destruct (Z.leb_spec 97 k); [lia|].
      rewrite take_app_le by lia. reflexivity. }
  rewrite Gadget_WriteTo_room by lia. fold br.
  destruct (Z.leb_spec 16 (k - 64)) as [H80|H80].
  2:{ destruct (Z.leb_spec 97 k); [lia|].
      rewrite take_app_ge by lia. rewrite take_app_le by lia.
      rewrite <- app_assoc. f_equal; [| lia].
      f_equal. f_equal. f_equal. f_equal. lia. }
  cbv zeta. rewrite Gadget_WriteTo_room by lia. fold ks.
  destruct (Z.leb_spec 16 (k - 64 - 16)) as [H96|H96].
  2:{ destruct (Z.leb_spec 97 k); [lia|].
      rewrite take_app_ge by lia. rewrite take_app_ge by lia.
      rewrite take_app_le by lia.
      rewrite <- !app_assoc. f_equal; [| lia].
      f_equal. f_equal. f_equal. f_equal. f_equal. lia. }
  rewrite write_seq_room by lia.
  change (concat [o]) with (o ++ []). rewrite app_nil_r.
  replace (io.len o) with 1 by reflexivity.
  destruct (Z.leb_spec 1 (k - 64 - 16 - 16)) as [H97|H97].
  - destruct (Z.leb_spec 97 k); [| lia].
    change (0 + 64 + 16 + 16 + 1 <? Params.ByteSize p) with false. cbv iota.
    rewrite <- !app_assoc. f_equal. f_equal. f_equal. lia.
  - destruct (Z.leb_spec 97 k); [lia|].
    rewrite take_app_ge by lia. rewrite take_app_ge by lia.
    rewrite take_app_ge by lia.
    assert (k = 96) by lia. subst k.
    rewrite <- !app_assoc. reflexivity.
Qed.

(** ** The bootstrap entry points on a single LUT *)

(** X11.  [FDFBLUTAssign] makes the calls of [BootstrapLUTAssign] with
    the compress LUT from [ct] into [ctOut], then those of
    [BootstrapLUTAssign] with the FDFB LUT from [ctOut] into [ctOut];
    [BootstrapFullDomainAssign] makes the same two bootstraps through a
    freshly allocated ciphertext.  For a bootstrap order that is neither
    of the two declared ones [FDFBLUTAssign] makes no call at all. *)
Theorem FDFBLUTAssign_is_two_bootstraps {LookUpTable : Type}
  (order : Z) (ct ctOut : Entry.Loc) (compressLUT fdfbLUT : LookUpTable) :
  Entry.FDFBLUTAssign order ct compressLUT fdfbLUT ctOut
  = Entry.BootstrapLUTAssign order ct compressLUT ctOut
    ++ Entry.BootstrapLUTAssign order ctOut fdfbLUT ctOut /\
  Entry.BootstrapFullDomainAssign order ct compressLUT fdfbLUT ctOut
  = Entry.NewLWECiphertext
    :: Entry.BootstrapLUTAssign order ct compressLUT Entry.newLWECiphertext
    ++ Entry.BootstrapLUTAssign order Entry.newLWECiphertext fdfbLUT ctOut /\
  (order = Params.OrderKeySwitchBlindRotate \/
   order = Params.OrderBlindRotateKeySwitch \/
   Entry.FDFBLUTAssign order ct compressLUT fdfbLUT ctOut = []).
Proof.
  unfold Entry.FDFBLUTAssign, Entry.BootstrapFullDomainAssign,
    Entry.BootstrapLUT, Entry.BootstrapLUTAssign.
  destruct (Z.eqb_spec order Params.OrderKeySwitchBlindRotate);
    [auto 10|].
  destruct (Z.eqb_spec order Params.OrderBlindRotateKeySwitch); auto 10.
Qed.

Lemma Compile_fields D T lit p :
  Params.Compile D T lit = Ok p ->
  0 < Params.polyDegree p /\
  Params.lookUpTableSize p = Params.polyExtendFactor p * Params.polyDegree p /\
  1 <= Params.polyExtendFactor p /\ 0 < Params.blockSize p.
Proof.
  intros H.
  pose proof (proj1 (Compile_returns_iff D T lit)) as Hinv.
  rewrite H in Hinv. specialize (Hinv I).
  destruct (Compile_Ok_inv D T lit p H) as (br & ks & _ & _ & ->).
  unfold Params.enforced_invariants in Hinv. cbv zeta in Hinv.
  set (q := Params.defaulted lit) in *.
  destruct Hinv as (I1 & I2 & I3 & I4 & I5 & I6 & I7 & _).
  cbn [Params.polyDegree Params.lookUpTableSize Params.polyExtendFactor
       Params.blockSize].
  assert (HNpos : 0 < Params.PolyDegree q).
  { unfold num.IsPowerOfTwo in I6. apply andb_true_iff in I6 as [I6 _].
    apply Z.ltb_lt in I6. exact I6. }
  assert (HL : Params.LookUpTableSize q
               = Z.quot (Params.LookUpTableSize q) (Params.PolyDegree q)
                 * Params.PolyDegree q).
  { pose proof (Z.quot_rem' (Params.LookUpTableSize q) (Params.PolyDegree q)). lia. }
  repeat split; try assumption; nia.
Qed.

(** X12.  On compiled parameters the [switch] of [BlindRotateAssign]
    selects the extended algorithm exactly when the extend factor is at
    least 2, the block algorithm exactly when the extend factor is 1
    and the block size is at least 2, and the original algorithm
    exactly when both are 1. *)
Theorem BlindRotateAssign_selects_by_extend_factor D T lit p :
  Params.Compile D T lit = Ok p ->
  (Entry.BlindRotateAssign_variant p = Entry.Extended
   <-> 2 <= Params.polyExtendFactor p) /\
  (Entry.BlindRotateAssign_variant p = Entry.Block
   <-> Params.polyExtendFactor p = 1 /\ 2 <= Params.blockSize p) /\
  (Entry.BlindRotateAssign_variant p = Entry.Original
   <-> Params.polyExtendFactor p = 1 /\ Params.blockSize p = 1).
Proof.
  intros H. destruct (Compile_fields D T lit p H) as (HN & HL & He & Hb).
  unfold Entry.BlindRotateAssign_variant.
  destruct (Z.ltb_spec (Params.polyDegree p) (Params.lookUpTableSize p)) as [H1|H1].
  - assert (2 <= Params.polyExtendFactor p) by nia.
    repeat split; intros; try discriminate; try lia; auto.
  - assert (Params.polyExtendFactor p = 1) by nia.
    destruct (Z.ltb_spec 1 (Params.blockSize p));
      repeat split; intros; try discriminate; try lia; auto.
Qed.

Lemma BlindRotateAssign_selects_by_extend_factor_witness :
  Entry.BlindRotateAssign_variant Inputs.paramsEBS5 = Entry.Extended /\
  Entry.BlindRotateAssign_variant Inputs.params6 = Entry.Original.
Proof.
  split.
  - apply (BlindRotateAssign_selects_by_extend_factor num_spec.DivRound U64
             Params.ParamsEBS5 Inputs.paramsEBS5).
    + vm_compute. reflexivity.
    + vm_compute. discriminate.
  - apply (BlindRotateAssign_selects_by_extend_factor num_spec.DivRound U64
             Params.Params6 Inputs.params6).
    + vm_compute. reflexivity.
    + vm_compute. auto.
Defined.

(** ** When the recursive orchestrator panics *)

Lemma int_shl_1_zero_iff s : 0 <= s -> (int_shl 1 s = 0 <-> 64 <= s).
Proof.
  intros Hs. unfold int_shl, wrapI. rewrite Z.shiftl_1_l.
  destruct (Z.le_gt_cases 64 s) as [H|H].
  - split; [intros _; exact H | intros _].
    replace s with (64 + (s - 64)) by lia. rewrite Z.pow_add_r by lia.
    rewrite Z.add_comm, Z.mul_comm, Z.mod_add by lia. reflexivity.
  - split; [| lia]. intros E. exfalso.
    assert (Hp : 0 < 2 ^ s) by (apply Z.pow_pos_nonneg; lia).
    destruct (Z.eq_dec s 63) as [->|Hne].
    + vm_compute in E. discriminate.
    + assert (2 ^ s <= 2 ^ 62) by (apply Z.pow_le_mono_r; lia).
      rewrite Z.mod_small in E by lia. lia.
Qed.

Section OrchestratorPanics.

Context {LookUpTable : Type}.

Lemma int_div_small_by_shl e i :
  0 < e -> is_int e -> Z.log2 e < i ->
  int_div e (int_shl 1 i) = Ok 0 \/
  int_div e (int_shl 1 i) = Panic "integer divide by zero".
Proof.
  intros He Hint Hi. pose proof (Z.log2_nonneg e) as Hl.
  unfold int_div.
  destruct (Z.eqb_spec (int_shl 1 i) 0) as [E|E]; [right; reflexivity | left].
  assert (Hi64 : i < 64).
  { destruct (Z.lt_ge_cases i 64); [assumption|].
    exfalso. apply E. apply int_shl_1_zero_iff; lia. }
  f_equal.
  assert (Hlt : e < 2 ^ i).
  { destruct (Z.log2_spec e He) as [_ Hhi].
    assert (2 ^ Z.succ (Z.log2 e) <= 2 ^ i) by (apply Z.pow_le_mono_r; lia). lia. }
  destruct (Z.eq_dec i 63) as [->|Hne].
  - change (int_shl 1 63) with (- 2 ^ 63).
    rewrite Z.quot_opp_r by lia. rewrite Z.quot_small by (unfold is_int in Hint; lia).
    reflexivity.
  - rewrite int_shl_small by lia. rewrite Z.quot_small by lia. reflexivity.
Qed.

Lemma negLoop_panics (p : Params.Parameters) ct ctOut (dec : list LookUpTable) count :
  let e := Params.polyExtendFactor p in
  0 < Params.polyDegree p ->
  Params.lookUpTableSize p = e * Params.polyDegree p ->
  2 * Params.lookUpTableSize p < 2 ^ 63 ->
  1 <= e ->
  forall i, 0 <= i <= Z.log2 e -> Z.log2 e < i + Z.of_nat count ->
    i + Z.of_nat count <= Z.of_nat (length dec) ->
    Bootstrap.negLoop p ct ctOut dec i count = Panic "integer divide by zero".
Proof.
  intros e HN HL Hfit He.
  assert (Hint : is_int e) by (unfold is_int; nia).
  assert (Hlog : Z.log2 e <= 62).
  { assert (Z.log2 e < 63); [| lia]. apply Z.log2_lt_pow2; nia. }
  induction count as [|c IH]; intros i Hi Hc Hlen; [lia|].
  cbn [Bootstrap.negLoop].
  destruct (index_in_range dec i ltac:(lia)) as [lut Hl]. rewrite Hl. cbn [bind].
  fold e.
  destruct (Z.eq_dec i (Z.log2 e)) as [Ei|Ei].
  - destruct (int_div_small_by_shl e (i + 1) ltac:(lia) Hint ltac:(lia)) as [-> | ->];
      cbn [bind]; [| reflexivity].
    rewrite call_rotate_zero. reflexivity.
  - rewrite int_div_pow2 by (assumption || lia). cbn [bind].
    assert (Hp : 2 ^ (i + 1) <= e) by (apply pow2_le_of_log2; lia).
    assert (Hp0 : 0 < 2 ^ (i + 1)) by (apply Z.pow_pos_nonneg; lia).
    rewrite call_rotate_Ok; try assumption.
    + cbn [bind]. rewrite IH by lia. reflexivity.
    + fold e. split.
      * apply Z.div_le_lower_bound; lia.
      * apply Z.div_le_upper_bound; nia.
Qed.


End OrchestratorPanics.


(** ** Filling runs of a raw table *)

Lemma range_snoc lo n :
  Slice.range lo (S n) = Slice.range lo n ++ [lo + Z.of_nat n].
Proof.
  unfold Slice.range. rewrite seq_S, map_app. reflexivity.
Qed.

Lemma assign_Ok {A} (s : list A) i v :
  0 <= i < Z.of_nat (length s) ->
  Slice.assign s i v = Ok (<[Z.to_nat i := v]> s).
Proof.
  intros H. unfold Slice.assign.
  destruct (Z.leb_spec 0 i); [| lia].
  destruct (Z.ltb_spec i (Z.of_nat (length s))); [reflexivity | lia].
Qed.

(** [for xx := lo; xx < hi; xx++ { s[xx] = v }] inside the slice: the
    elements from [lo] to [hi - 1] become [v], the others stay. *)
Lemma fill_Ok {A} (s : list A) lo hi v :
  0 <= lo -> hi <= Z.of_nat (length s) ->
  exists s',
    Slice.fill s lo hi v = Ok s' /\ length s' = length s /\
    forall i : nat,
      s' !! i = if (lo <=? Z.of_nat i) && (Z.of_nat i <? hi) then
                  (if (i <? length s)%nat then Some v else None)
                else s !! i.
Proof.
  intros Hlo Hhi. unfold Slice.fill.
  remember (Z.to_nat (hi - lo)) as n eqn:En.
  assert (Hn : Z.of_nat n = Z.max 0 (hi - lo)) by lia.
  clear En. revert hi Hhi Hn.
  induction n as [|n IH]; intros hi Hhi Hn.
  - exists s. split; [reflexivity|]. split; [reflexivity|].
    intros i.
    destruct (Z.leb_spec lo (Z.of_nat i)); destruct (Z.ltb_spec (Z.of_nat i) hi);
      cbn [andb]; try reflexivity. lia.
  - rewrite range_snoc, foldl_app. cbn [foldl].
    destruct (IH (hi - 1) ltac:(lia) ltac:(lia)) as (s1 & H1 & L1 & P1).
    rewrite H1. cbn [bind].
    assert (Hidx : lo + Z.of_nat n = hi - 1) by lia.
    rewrite Hidx.
    rewrite assign_Ok by lia.
    eexists. split; [reflexivity|].
    split; [rewrite length_insert; exact L1|].
    intros i.
    destruct (Nat.eq_dec i (Z.to_nat (hi - 1))) as [->|Hne].
    + rewrite list_lookup_insert_eq by lia.
      rewrite Z2Nat.id by lia.
      destruct (Z.leb_spec lo (hi - 1)); [| lia].
      destruct (Z.ltb_spec (hi - 1) hi); [| lia]. cbn [andb].
      destruct (Nat.ltb_spec (Z.to_nat (hi - 1)) (length s)); [reflexivity | lia].
    + rewrite list_lookup_insert_ne by congruence.
      rewrite P1.
      destruct (Z.leb_spec lo (Z.of_nat i)); cbn [andb]; [| reflexivity].
      destruct (Z.ltb_spec (Z.of_nat i) (hi - 1));
        destruct (Z.ltb_spec (Z.of_nat i) hi); try reflexivity; lia.
Qed.

(** A loop that fills the consecutive runs of [B] elements for
    [x = x0, ..., x0 + k - 1]: run [x] covers the positions from [B*x]
    to [B*(x+1) - 1] and receives [val x]. *)
Lemma runs_fill (body : list Z -> Z -> result (list Z)) (B : Z) (val : Z -> Z)
  (n : nat) (x0 : Z) (k : nat) (l : list Z) :
  0 < B -> 0 <= x0 -> (x0 + Z.of_nat k) * B <= Z.of_nat n ->
  length l = n ->
  (forall x raw, x0 <= x < x0 + Z.of_nat k -> length raw = n ->
     body raw x = Slice.fill raw (B * x) (B * (x + 1)) (val x)) ->
  exists l',
    foldl (fun acc x => let! raw := acc in body raw x) (Ok l) (Slice.range x0 k)
    = Ok l' /\
    length l' = n /\
    forall i : nat,
      l' !! i = if (x0 * B <=? Z.of_nat i) && (Z.of_nat i <? (x0 + Z.of_nat k) * B)
                then Some (val (Z.of_nat i / B))
                else l !! i.
Proof.
  intros HB Hx0. induction k as [|k IH]; intros Hfit Hlen Hbody.
  - exists l. split; [reflexivity|]. split; [exact Hlen|].
    intros i.
    destruct (Z.leb_spec (x0 * B) (Z.of_nat i));
      destruct (Z.ltb_spec (Z.of_nat i) ((x0 + Z.of_nat 0%nat) * B));
      cbn [andb]; try reflexivity. lia.
  - rewrite range_snoc, foldl_app. cbn [foldl].
    destruct IH as (l1 & H1 & L1 & P1); [nia | exact Hlen | |].
    { intros x raw Hx Hr. apply Hbody; [lia | exact Hr]. }
    rewrite H1. cbn [bind].
    rewrite Hbody by (lia || exact L1).
    set (x := x0 + Z.of_nat k).
    destruct (fill_Ok l1 (B * x) (B * (x + 1)) (val x)) as (l2 & H2 & L2 & P2);
      [subst x; nia | rewrite L1; subst x; nia |].
    rewrite H2. exists l2. split; [reflexivity|]. split; [congruence|].
    intros i. rewrite P2, P1.
    replace (x0 + Z.of_nat (S k)) with (x + 1) by (subst x; lia).
    fold x.
    destruct (Z.leb_spec (B * x) (Z.of_nat i));
      destruct (Z.ltb_spec (Z.of_nat i) (B * (x + 1))); cbn [andb].
    + destruct (Nat.ltb_spec i (length l1)); [| nia].
      destruct (Z.leb_spec (x0 * B) (Z.of_nat i)); [| nia].
      destruct (Z.ltb_spec (Z.of_nat i) ((x + 1) * B)); [| nia].
      cbn [andb]. f_equal. f_equal.
      apply Z.div_unique with (r := Z.of_nat i - B * x); lia.
    + destruct (Z.leb_spec (x0 * B) (Z.of_nat i)); cbn [andb];
        destruct (Z.ltb_spec (Z.of_nat i) (x * B));
        destruct (Z.ltb_spec (Z.of_nat i) ((x + 1) * B));
        try reflexivity; try nia.
    + destruct (Z.leb_spec (x0 * B) (Z.of_nat i)); cbn [andb];
        destruct (Z.ltb_spec (Z.of_nat i) (x * B));
        destruct (Z.ltb_spec (Z.of_nat i) ((x + 1) * B));
        try reflexivity; try nia.
    + destruct (Z.leb_spec (x0 * B) (Z.of_nat i)); cbn [andb];
        destruct (Z.ltb_spec (Z.of_nat i) (x * B));
        destruct (Z.ltb_spec (Z.of_nat i) ((x + 1) * B));
        try reflexivity; try nia.
Qed.

(** ** The FDFB look-up table over the extended polynomial *)

Lemma index_Ok (s : list Z) i :
  0 <= i < Z.of_nat (length s) ->
  Slice.index s i = Ok (nth (Z.to_nat i) s 0).
Proof.
  intros H. unfold Slice.index.
  destruct (Z.leb_spec 0 i); [| lia].
  destruct (Z.ltb_spec i (Z.of_nat (length s))); [| lia]. cbn [andb].
  destruct (s !! Z.to_nat i) as [a|] eqn:E.
  - f_equal. symmetry. apply nth_lookup_Some with (d := 0) in E. exact E.
  - apply lookup_ge_None in E. lia.
Qed.

Lemma index_Ok_gen {A} (s : list A) i a :
  0 <= i -> s !! Z.to_nat i = Some a -> Slice.index s i = Ok a.
Proof.
  intros H E. unfold Slice.index.
  pose proof (lookup_lt_Some _ _ _ E).
  destruct (Z.leb_spec 0 i); [| lia].
  destruct (Z.ltb_spec i (Z.of_nat (length s))); [| lia]. cbn [andb].
  rewrite E. reflexivity.
Qed.

Lemma range_length lo n : length (Slice.range lo n) = n.
Proof. unfold Slice.range. rewrite length_map, length_seq. reflexivity. Qed.

Lemma range_lookup lo n (i : nat) :
  (i < n)%nat -> Slice.range lo n !! i = Some (lo + Z.of_nat i).
Proof.
  intros H. unfold Slice.range. rewrite list_lookup_fmap.
  rewrite lookup_seq_lt by exact H. reflexivity.
Qed.

(** A table all of whose [n] positions are known is the image of
    [0, ..., n-1]. *)
Lemma list_is_map_range (g : Z -> Z) (n : nat) (l : list Z) :
  length l = n ->
  (forall i : nat, (i < n)%nat -> l !! i = Some (g (Z.of_nat i))) ->
  l = map g (Slice.range 0 n).
Proof.
  intros Hlen H. apply list_eq. intros i.
  destruct (Nat.lt_ge_cases i n) as [Hi|Hi].
  - rewrite H by exact Hi. rewrite list_lookup_fmap, range_lookup by exact Hi.
    reflexivity.
  - rewrite !lookup_ge_None_2; [reflexivity | |].
    + rewrite length_map, range_length. lia.
    + lia.
Qed.

Section FDFBProofs.

Variable DivRound : Z -> Z -> Z.

(** What is assumed of the missing [num.DivRound]: on an exact multiple
    it returns the quotient. *)
Hypothesis DivRound_exact :
  forall a b, 0 < b -> 0 <= a -> a * b < 2 ^ 53 -> DivRound (a * b) b = a.

Lemma boxStart_exact L m B x :
  0 < m -> L = m * B -> 0 < B -> 0 <= x < m -> m * L < 2 ^ 53 ->
  FDFB.boxStart DivRound L m x = B * x /\
  FDFB.boxEnd DivRound L m x = B * (x + 1).
Proof.
  intros Hm HL HB Hx Hfit.
  assert (HmL : m <= L) by nia.
  assert (HLL : L <= m * L) by nia.
  assert (Hx1 : 0 <= x * L <= m * L) by nia.
  assert (Hx2 : 0 <= (x + 1) * L <= m * L) by nia.
  unfold FDFB.boxStart, FDFB.boxEnd, int_of_uint64, int_mul, int_add.
  rewrite (wrapI_id x) by (unfold is_int; lia).
  rewrite (wrapI_id m) by (unfold is_int; lia).
  rewrite (wrapI_id (x + 1)) by (unfold is_int; lia).
  rewrite (wrapI_id (x * L)) by (unfold is_int; lia).
  rewrite (wrapI_id ((x + 1) * L)) by (unfold is_int; lia).
  subst L. split.
  - replace (x * (m * B)) with (B * x * m) by ring.
    apply DivRound_exact; nia.
  - replace ((x + 1) * (m * B)) with (B * (x + 1) * m) by ring.
    apply DivRound_exact; nia.
Qed.

Lemma fillLower_fillUpper_Ok T L m h B f lutRaw :
  0 < h -> m = 2 * h -> 0 < B -> L = m * B -> m * L < 2 ^ 53 ->
  m <= 2 ^ num.SizeT T ->
  Z.of_nat (length lutRaw) = L ->
  exists raw1,
    FDFB.fillLower DivRound L m f lutRaw = Ok raw1 /\
    FDFB.fillUpper DivRound T L m f raw1
    = Ok (map (FDFB.rawValue T m B f) (Slice.range 0 (Z.to_nat L))).
Proof.
  intros Hh Hm HB HL Hfit HT Hlen.
  assert (Hm2 : m / 2 = h) by (subst m; rewrite Z.mul_comm, Z.div_mul; lia).
  destruct (runs_fill
              (fun raw x => Slice.fill raw (FDFB.boxStart DivRound L m x)
                              (FDFB.boxEnd DivRound L m x) (f (int_of_uint64 x)))
              B (fun x => f x) (length lutRaw) 0 (Z.to_nat (m / 2)) lutRaw)
    as (raw1 & H1 & L1 & P1); try lia.
  { intros x raw Hx _.
    destruct (boxStart_exact L m B x) as [-> ->]; try lia.
    unfold int_of_uint64. rewrite wrapI_id by (unfold is_int; nia). reflexivity. }
  exists raw1. split; [exact H1|].
  destruct (runs_fill
              (fun raw x =>
                 let y := f (int_of_uint64 (wrapT T (m - x + m / 2 - 1))) in
                 Slice.fill raw (FDFB.boxStart DivRound L m x)
                   (FDFB.boxEnd DivRound L m x) (wrapT T (- y)))
              B (fun x => wrapT T (- f (m - x + m / 2 - 1)))
              (length lutRaw) (m / 2) (Z.to_nat (m - m / 2)) raw1)
    as (raw2 & H2 & L2 & P2); try lia.
  { intros x raw Hx _. cbv zeta.
    destruct (boxStart_exact L m B x) as [-> ->]; try lia.
    assert (Hw : wrapT T (m - x + m / 2 - 1) = m - x + m / 2 - 1)
      by (unfold wrapT, wrapU; apply Z.mod_small; lia).
    rewrite Hw. unfold int_of_uint64.
    rewrite wrapI_id by (unfold is_int; nia). reflexivity. }
  unfold FDFB.fillUpper. etransitivity; [exact H2|]. f_equal.
  replace (Z.to_nat L) with (length lutRaw) by lia.
  apply list_is_map_range; [exact L2|].
  intros i Hi. rewrite P2, P1. unfold FDFB.rawValue. cbv zeta.
  rewrite Hm2 in *.
  assert (Hq : 0 <= Z.of_nat i / B < m).
  { split; [apply Z.div_pos; lia|]. apply Z.div_lt_upper_bound; nia. }
  destruct (Z.ltb_spec (Z.of_nat i / B) h) as [Hx|Hx].
  - assert (Z.of_nat i < h * B).
    { destruct (Z.lt_ge_cases (Z.of_nat i) (h * B)); [assumption|].
      assert (h <= Z.of_nat i / B) by (apply Z.div_le_lower_bound; lia). lia. }
    destruct (Z.leb_spec (h * B) (Z.of_nat i)); [lia|]. cbn [andb].
    destruct (Z.leb_spec (0 * B) (Z.of_nat i)); [| lia].
    destruct (Z.ltb_spec (Z.of_nat i) ((0 + Z.of_nat (Z.to_nat h)) * B)); [| lia].
    reflexivity.
  - assert (h * B <= Z.of_nat i).
    { destruct (Z.lt_ge_cases (Z.of_nat i) (h * B)); [| assumption].
      assert (Z.of_nat i / B < h) by (apply Z.div_lt_upper_bound; lia). lia. }
    destruct (Z.leb_spec (h * B) (Z.of_nat i)); [| lia].
    destruct (Z.ltb_spec (Z.of_nat i) ((h + Z.of_nat (Z.to_nat (m - h))) * B));
      [| nia].
    reflexivity.
Qed.

End FDFBProofs.

Lemma insert_prefix_drop {A} (l1 l : list A) (k : nat) v :
  length l1 = k -> (k < length l)%nat ->
  <[k := v]> (l1 ++ drop k l) = (l1 ++ [v]) ++ drop (S k) l.
Proof.
  intros H1 H2. rewrite insert_app_r_alt by lia.
  replace (k - length l1)%nat with 0%nat by lia.
  destruct (lookup_lt_is_Some_2 l k H2) as [x Hx].
  rewrite (drop_S l x k Hx). cbn. rewrite <- app_assoc. reflexivity.
Qed.

Lemma nth_map_range (g : Z -> Z) (n : nat) (i : Z) :
  0 <= i < Z.of_nat n ->
  nth (Z.to_nat i) (map g (Slice.range 0 n)) 0 = g i.
Proof.
  intros H.
  assert (E : map g (Slice.range 0 n) !! Z.to_nat i = Some (g i)).
  { rewrite list_lookup_fmap, range_lookup by lia. cbn. f_equal. f_equal. lia. }
  apply nth_lookup_Some with (d := 0) in E. exact E.
Qed.

(** The inner loop of the copy, for the polynomial [i]. *)
Lemma copy_inner (ext : Z) (raw : list Z) (i : Z) (out : list (list Z))
  (poly : list Z) (N : nat) (k : nat) :
  0 <= i < ext -> Z.of_nat (length raw) = ext * Z.of_nat N ->
  ext * Z.of_nat N < 2 ^ 63 ->
  out !! Z.to_nat i = Some poly -> length poly = N -> (k <= N)%nat ->
  foldl (fun acc j =>
           let! out := acc in
           let! poly := Slice.index out i in
           let! v := Slice.index raw (int_add (int_mul j ext) i) in
           let! poly' := Slice.assign poly j v in
           Slice.assign out i poly')
        (Ok out) (Slice.range 0 k)
  = Ok (<[Z.to_nat i :=
            map (fun j => nth (Z.to_nat (j * ext + i)) raw 0) (Slice.range 0 k)
            ++ drop k poly]> out).
Proof.
  intros Hi Hraw Hfit Hout Hpoly.
  pose proof (lookup_lt_Some _ _ _ Hout) as Hlt.
  induction k as [|k IH]; intros Hk.
  - cbn [Slice.range seq map foldl app]. rewrite drop_0.
    rewrite list_insert_id by exact Hout. reflexivity.
  - rewrite range_snoc, foldl_app. cbn [foldl]. rewrite IH by lia.
    cbn [bind]. rewrite Z.add_0_l.
    set (Pk := map (fun j => nth (Z.to_nat (j * ext + i)) raw 0) (Slice.range 0 k)
               ++ drop k poly).
    rewrite (index_Ok_gen _ i Pk) by (lia || (apply list_lookup_insert_eq; lia)).
    cbn [bind].
    assert (Hidx : 0 <= Z.of_nat k * ext + i < ext * Z.of_nat N) by nia.
    unfold int_add, int_mul.
    rewrite (wrapI_id (Z.of_nat k * ext)) by (unfold is_int; nia).
    rewrite (wrapI_id (Z.of_nat k * ext + i)) by (unfold is_int; lia).
    rewrite index_Ok by lia. cbn [bind].
    assert (HPk : length Pk = N).
    { subst Pk. rewrite length_app, length_map, range_length, length_drop. lia. }
    rewrite assign_Ok by lia. cbn [bind].
    rewrite assign_Ok by (rewrite length_insert; lia).
    rewrite list_insert_insert_eq. f_equal. f_equal.
    subst Pk. rewrite Nat2Z.id.
    rewrite insert_prefix_drop by (rewrite ?length_map, ?range_length; lia).
    rewrite ?map_app, ?Z.add_0_l. reflexivity.
Qed.

Lemma copyInterleaved_Ok (ext N : Z) (raw : list Z) (out : list (list Z)) :
  0 <= ext -> 0 <= N -> Z.of_nat (length raw) = ext * N -> ext * N < 2 ^ 63 ->
  Z.of_nat (length out) = ext ->
  Forall (fun pl => Z.of_nat (length pl) = N) out ->
  FDFB.copyInterleaved ext N raw out
  = Ok (map (fun i => map (fun j => nth (Z.to_nat (j * ext + i)) raw 0)
                          (Slice.range 0 (Z.to_nat N)))
            (Slice.range 0 (Z.to_nat ext))).
Proof.
  intros He HN Hraw Hfit Hout Hshape. unfold FDFB.copyInterleaved.
  set (G := fun i => map (fun j => nth (Z.to_nat (j * ext + i)) raw 0)
                         (Slice.range 0 (Z.to_nat N))).
  assert (Hgen : forall c : nat, (c <= Z.to_nat ext)%nat ->
            foldl (fun acc i =>
                     foldl (fun acc j =>
                              let! out := acc in
                              let! poly := Slice.index out i in
                              let! v := Slice.index raw (int_add (int_mul j ext) i) in
                              let! poly' := Slice.assign poly j v in
                              Slice.assign out i poly')
                           acc (Slice.range 0 (Z.to_nat N)))
                  (Ok out) (Slice.range 0 c)
            = Ok (map G (Slice.range 0 c) ++ drop c out)).
  { induction c as [|c IH]; intros Hc.
    - cbn [Slice.range seq map foldl app]. rewrite drop_0. reflexivity.
    - rewrite range_snoc, foldl_app. cbn [foldl]. rewrite IH by lia.
      rewrite Z.add_0_l.
      destruct (lookup_lt_is_Some_2 out c ltac:(lia)) as [poly Hpoly].
      assert (HpN : length poly = Z.to_nat N).
      { pose proof (Forall_lookup_1 _ _ _ _ Hshape Hpoly) as Hp. cbv beta in Hp. lia. }
      rewrite (copy_inner ext raw (Z.of_nat c) _ poly (Z.to_nat N) (Z.to_nat N));
        try lia.
      + f_equal. rewrite Nat2Z.id.
        rewrite drop_ge by lia. rewrite app_nil_r.
        rewrite insert_prefix_drop by (rewrite ?length_map, ?range_length; lia).
        rewrite ?map_app, ?Z.add_0_l. reflexivity.
      + rewrite Nat2Z.id.
        rewrite lookup_app_r by (rewrite length_map, range_length; lia).
        rewrite length_map, range_length, Nat.sub_diag.
        rewrite lookup_drop, Nat.add_0_r. exact Hpoly. }
  rewrite Hgen by lia.
  rewrite drop_ge by lia. rewrite app_nil_r. reflexivity.
Qed.

Section FDFBProofs2.

Variable DivRound : Z -> Z -> Z.
Hypothesis DivRound_exact :
  forall a b, 0 < b -> 0 <= a -> a * b < 2 ^ 53 -> DivRound (a * b) b = a.

(** X14.  [GenExtendedFDFBLookUpTableCustomFullAssign], for a message
    modulus [m = 2h] that divides the table size [L = m * B] (with
    [num.DivRound] exact on exact quotients): every position [xx] of the
    raw buffer is written; it holds [f(xx / B)] in the lower half and
    [-f(m - xx/B + h - 1)] in the upper half; and coefficient [j] of
    polynomial [i] of the table is the raw value at [j * e + i]. *)
Theorem GenExtendedFDFBLookUpTable_contents (T : TorusInt)
  (p : Params.Parameters) (f : Z -> Z) (messageModulus : Z)
  (lutRaw : list Z) (lutOut : list (list Z)) (h B : Z) :
  let m := Params.messageModulus p in
  let L := Params.lookUpTableSize p in
  let e := Params.polyExtendFactor p in
  let N := Params.polyDegree p in
  0 < h -> m = 2 * h -> 0 < B -> L = m * B -> m * L < 2 ^ 53 ->
  m <= 2 ^ num.SizeT T ->
  0 <= e -> 0 <= N -> L = e * N ->
  Z.of_nat (length lutRaw) = L ->
  Z.of_nat (length lutOut) = e ->
  Forall (fun pl => Z.of_nat (length pl) = N) lutOut ->
  FDFB.GenExtendedFDFBLookUpTableCustomFullAssign DivRound T p f messageModulus
    lutRaw lutOut
  = Ok (map (FDFB.rawValue T m B f) (Slice.range 0 (Z.to_nat L)),
        map (fun i => map (fun j => FDFB.rawValue T m B f (j * e + i))
                          (Slice.range 0 (Z.to_nat N)))
            (Slice.range 0 (Z.to_nat e))).
Proof.
  intros m L e N Hh Hm HB HL Hfit HT He HN HeN Hlen Hout Hshape.
  unfold FDFB.GenExtendedFDFBLookUpTableCustomFullAssign.
  fold m L e N.
  destruct (fillLower_fillUpper_Ok DivRound DivRound_exact T L m h B f lutRaw)
    as (raw1 & H1 & H2); try assumption.
  rewrite H1. cbn [bind]. rewrite H2. cbn [bind].
  assert (HLpos : 0 <= L) by nia.
  rewrite copyInterleaved_Ok; try assumption.
  - cbn [bind]. f_equal. f_equal.
    apply map_ext_in. intros i Hi.
    apply map_ext_in. intros j Hj.
    apply nth_map_range.
    unfold Slice.range in Hi, Hj.
    apply in_map_iff in Hi as (i' & <- & Hi). apply in_seq in Hi.
    apply in_map_iff in Hj as (j' & <- & Hj). apply in_seq in Hj.
    rewrite Z2Nat.id by lia. nia.
  - rewrite length_map, range_length. lia.
  - assert (m <= L) by nia. nia.
Qed.

End FDFBProofs2.

(** ** One round of the decomposition, recombined *)

(** X23.  One round of the decomposition loses only the lowest bits:
    for a table [cur] of values of [T] and [j < len(cur)/2], the sum of
    [new[j]] and [neg[j]] in [T] is [2 * (cur[j] / 2)] and their
    difference in [T] is [2 * (cur[j+h] / 2)], for [h = len(cur)/2]. *)
Theorem halves_recombine_to_the_table T (cur : list Z) (j : nat) :
  Forall (is_T T) cur ->
  (j < length cur / 2)%nat ->
  let h := (length cur / 2)%nat in
  let new := nth j (LUT.halve_new T cur) 0 in
  let neg := nth j (LUT.halve_neg T cur) 0 in
  is_T T new /\ is_T T neg /\
  wrapT T (new + neg) = 2 * (nth j cur 0 / 2) /\
  wrapT T (new - neg) = 2 * (nth (j + h) cur 0 / 2).
Proof.
  intros Hcur Hj h new neg. subst new neg.
  rewrite halve_new_nth, halve_neg_nth by exact Hj. fold h.
  assert (Hin : forall i, (i < length cur)%nat -> is_T T (nth i cur 0)).
  { intros i Hi. rewrite Forall_forall in Hcur. apply Hcur.
    apply list_elem_of_In. apply nth_In. exact Hi. }
  assert (Hh : (j + h < length cur)%nat).
  { subst h. pose proof (Nat.div_mod_eq (length cur) 2). lia. }
  pose proof (Hin j ltac:(lia)) as Ha. pose proof (Hin (j + h)%nat Hh) as Hb.
  set (a := nth j cur 0) in *. set (b := nth (j + h) cur 0) in *.
  unfold is_T, is_uint, wrapT, wrapU in *.
  set (Q := 2 ^ num.SizeT T) in *.
  assert (HQ : 0 < Q) by (subst Q; apply Z.pow_pos_nonneg; destruct T; cbn; lia).
  assert (Ha2 : 0 <= a / 2 /\ 2 * (a / 2) <= a)
    by (split; [apply Z.div_pos; lia | apply Z.mul_div_le; lia]).
  assert (Hb2 : 0 <= b / 2 /\ 2 * (b / 2) <= b)
    by (split; [apply Z.div_pos; lia | apply Z.mul_div_le; lia]).
  split; [apply Z.mod_pos_bound; lia|].
  split; [apply Z.mod_pos_bound; lia|].
  split.
  - rewrite <- Zplus_mod. replace (a / 2 + b / 2 + (a / 2 - b / 2)) with (2 * (a / 2)) by lia.
    apply Z.mod_small. lia.
  - rewrite <- Zminus_mod. replace (a / 2 + b / 2 - (a / 2 - b / 2)) with (2 * (b / 2)) by lia.
    apply Z.mod_small. lia.
Qed.

Lemma halves_recombine_to_the_table_witness :
  wrapT U64 (nth 0 (LUT.halve_new U64 [7; 2 ^ 64 - 1]) 0
             + nth 0 (LUT.halve_neg U64 [7; 2 ^ 64 - 1]) 0) = 6 /\
  wrapT U64 (nth 0 (LUT.halve_new U64 [7; 2 ^ 64 - 1]) 0
             - nth 0 (LUT.halve_neg U64 [7; 2 ^ 64 - 1]) 0) = 2 ^ 64 - 2.
Proof.
  destruct (halves_recombine_to_the_table U64 [7; 2 ^ 64 - 1] 0)
    as (_ & _ & H1 & H2).
  - apply Forall_cons; split; [| apply Forall_cons; split; [| apply Forall_nil; exact I] ];
      vm_compute; split; (discriminate || reflexivity).
  - cbn. lia.
  - split; [exact H1 | exact H2].
Defined.

Section CompressProofs.

Variable DivRound : Z -> Z -> Z.
Hypothesis DivRound_exact :
  forall a b, 0 < b -> 0 <= a -> a * b < 2 ^ 53 -> DivRound (a * b) b = a.

Lemma runStart_exact size m h B x :
  0 < h -> m = 2 * h -> 0 < B -> size = h * B -> 0 <= x < h ->
  m * size < 2 ^ 53 ->
  LUT.runStart DivRound size m x = B * x /\
  LUT.runEnd DivRound size m x = B * (x + 1).
Proof.
  intros Hh Hm HB Hs Hx Hfit.
  assert (H1 : 0 <= 2 * x * size <= m * size) by nia.
  assert (H2 : 0 <= 2 * (x + 1) * size <= m * size) by nia.
  assert (H3 : m <= m * size) by nia.
  unfold LUT.runStart, LUT.runEnd, int_of_uint64, int_mul, int_add.
  rewrite (wrapI_id x) by (unfold is_int; lia).
  rewrite (wrapI_id m) by (unfold is_int; lia).
  rewrite (wrapI_id (x + 1)) by (unfold is_int; lia).
  rewrite (wrapI_id (2 * x)) by (unfold is_int; lia).
  rewrite (wrapI_id (2 * (x + 1))) by (unfold is_int; lia).
  rewrite (wrapI_id (2 * x * size)) by (unfold is_int; lia).
  rewrite (wrapI_id (2 * (x + 1) * size)) by (unfold is_int; lia).
  subst size m. split.
  - replace (2 * x * (h * B)) with (B * x * (2 * h)) by ring.
    apply DivRound_exact; nia.
  - replace (2 * (x + 1) * (h * B)) with (B * (x + 1) * (2 * h)) by ring.
    apply DivRound_exact; nia.
Qed.

Lemma fillCompress_Ok T size m h B lutRaw :
  0 < h -> m = 2 * h -> 0 < B -> size = h * B -> m * size < 2 ^ 53 ->
  Z.of_nat (length lutRaw) = size ->
  LUT.fillCompress DivRound T size m lutRaw
  = Ok (map (fun xx => LUT.compressCodeword T m (xx / B))
            (Slice.range 0 (Z.to_nat size))).
Proof.
  intros Hh Hm HB Hs Hfit Hlen.
  assert (Hm2 : m / 2 = h) by (subst m; rewrite Z.mul_comm, Z.div_mul; lia).
  destruct (runs_fill
              (fun raw x => Slice.fill raw (LUT.runStart DivRound size m x)
                              (LUT.runEnd DivRound size m x)
                              (LUT.compressCodeword T m x))
              B (fun x => LUT.compressCodeword T m x)
              (length lutRaw) 0 (Z.to_nat (m / 2)) lutRaw)
    as (raw1 & H1 & L1 & P1); try lia.
  { intros x raw Hx _.
    destruct (runStart_exact size m h B x) as [-> ->]; try lia. reflexivity. }
  unfold LUT.fillCompress. etransitivity; [exact H1|]. f_equal.
  replace (Z.to_nat size) with (length lutRaw) by lia.
  apply list_is_map_range; [exact L1|].
  intros i Hi. rewrite P1.
  destruct (Z.leb_spec (0 * B) (Z.of_nat i)); [| lia].
  destruct (Z.ltb_spec (Z.of_nat i) ((0 + Z.of_nat (Z.to_nat (m / 2))) * B));
    [reflexivity | lia].
Qed.

(** X15.  The first loop of [GenCompressLUTAssign] and of
    [GenExtendedCompressLUTAssign], for a message modulus [m = 2h] with
    [h] dividing the table size [h * B] (with [num.DivRound] exact on
    exact quotients): every position [xx] of the raw table is written
    and holds the code word of [xx / B]; on [uint64] the code word of
    [x < h] is [(Q/2m) * x + Q/4m] for [Q = 2^64]. *)
Theorem compress_LUT_first_loop_fills_every_position (T : TorusInt)
  (p : Params.Parameters) (lutRaw : list Z) (h B B' : Z) :
  let m := Params.messageModulus p in
  let L := Params.lookUpTableSize p in
  0 < h -> m = 2 * h -> 0 < B -> 2048 = h * B -> 0 < B' -> L = h * B' ->
  m * L < 2 ^ 53 -> m * 2048 < 2 ^ 53 ->
  Z.of_nat (length lutRaw) = L ->
  LUT.GenCompressLUT_lutRaw DivRound T p
  = Ok (map (fun xx => LUT.compressCodeword T m (xx / B)) (Slice.range 0 2048)) /\
  LUT.GenExtendedCompressLUT_lutRaw DivRound T p lutRaw
  = Ok (map (fun xx => LUT.compressCodeword T m (xx / B'))
            (Slice.range 0 (Z.to_nat L))) /\
  (T = U64 -> forall x, 0 <= x < h ->
     LUT.compressCodeword T m x = 2 ^ 64 / (2 * m) * x + 2 ^ 64 / (4 * m)).
Proof.
  intros m L Hh Hm HB H2048 HB' HL Hfit Hfit' Hlen.
  split; [| split].
  - unfold LUT.GenCompressLUT_lutRaw. fold m.
    change (Slice.make 2048) with (Ok (replicate 2048 0)). cbn [bind].
    rewrite (fillCompress_Ok T 2048 m h B); try assumption; reflexivity.
  - unfold LUT.GenExtendedCompressLUT_lutRaw. fold m L.
    apply (fillCompress_Ok T L m h B'); assumption.
  - intros -> x Hx.
    assert (Hm2 : m / 2 = h) by (rewrite Hm, Z.mul_comm, Z.div_mul; lia).
    rewrite compressCodeword_uint64 by lia. reflexivity.
Qed.

End CompressProofs.

(** ** The base table of the decomposed builders *)

Section BaseLUTProofs.

Variable DivRound : Z -> Z -> Z.
Hypothesis DivRound_exact :
  forall a b, 0 < b -> 0 <= a -> a * b < 2 ^ 53 -> DivRound (a * b) b = a.

(** X16.  The base table that both decomposed builders produce, for a
    base message modulus [Bm = m / e = 2h] with [2048 = Bm * B] and a
    base function table of [Bm] entries: position [xx] holds
    [base[xx / B]] in the lower half and the negation of
    [base[Bm - xx/B + h - 1]] in the upper half. *)
Theorem base_LUT_holds_the_base_table_and_its_negated_mirror (T : TorusInt)
  (paramsMessageModulus extendFactor : Z) (baseFuncEval : list Z) (h B : Z) :
  let d := wrapT T extendFactor in
  let Bm := paramsMessageModulus / d in
  0 < d -> 0 < h -> Bm = 2 * h -> 0 < B -> 2048 = Bm * B ->
  Z.of_nat (length baseFuncEval) = Bm ->
  Decomposed.baseLUT_lutRaw DivRound T paramsMessageModulus extendFactor baseFuncEval
  = Ok (map (fun xx =>
               let x := xx / B in
               if x <? h then nth (Z.to_nat x) baseFuncEval 0
               else wrapT T (- nth (Z.to_nat (Bm - x + h - 1)) baseFuncEval 0))
            (Slice.range 0 2048)).
Proof.
  intros d Bm Hd Hh HBm HB H2048 Hlen.
  unfold Decomposed.baseLUT_lutRaw. fold d.
  destruct (Z.eqb_spec d 0); [lia|]. cbv zeta. fold Bm.
  change (Slice.make 2048) with (Ok (replicate 2048 0)). cbn [bind].
  assert (Hm2 : Bm / 2 = h) by (rewrite HBm, Z.mul_comm, Z.div_mul; lia).
  assert (HBm' : Bm <= 2048) by nia.
  assert (HT : 2048 < 2 ^ num.SizeT T) by (destruct T; cbn; lia).
  destruct (runs_fill
              (fun raw x =>
                 let! y := Slice.index baseFuncEval (int_of_uint64 x) in
                 Slice.fill raw (FDFB.boxStart DivRound 2048 Bm x)
                   (FDFB.boxEnd DivRound 2048 Bm x) y)
              B (fun x => nth (Z.to_nat x) baseFuncEval 0)
              2048 0 (Z.to_nat (Bm / 2)) (replicate 2048 0))
    as (raw1 & H1 & L1 & P1); try lia.
  { rewrite length_replicate. reflexivity. }
  { intros x raw Hx _.
    destruct (boxStart_exact DivRound DivRound_exact 2048 Bm B x) as [-> ->];
      try lia.
    unfold int_of_uint64. rewrite wrapI_id by (unfold is_int; lia).
    rewrite index_Ok by lia. reflexivity. }
  etransitivity.
  { apply f_equal with (f := fun r => bind r _). exact H1. }
  cbn [bind].
  destruct (runs_fill
              (fun raw x =>
                 let! y := Slice.index baseFuncEval
                             (int_of_uint64 (wrapT T (Bm - x + Bm / 2 - 1))) in
                 Slice.fill raw (FDFB.boxStart DivRound 2048 Bm x)
                   (FDFB.boxEnd DivRound 2048 Bm x) (wrapT T (- y)))
              B (fun x => wrapT T (- nth (Z.to_nat (Bm - x + h - 1)) baseFuncEval 0))
              2048 (Bm / 2) (Z.to_nat (Bm - Bm / 2)) raw1)
    as (raw2 & H2 & L2 & P2); try lia.
  { intros x raw Hx _.
    destruct (boxStart_exact DivRound DivRound_exact 2048 Bm B x) as [-> ->];
      try lia.
    assert (Hw : wrapT T (Bm - x + Bm / 2 - 1) = Bm - x + h - 1)
      by (unfold wrapT, wrapU; rewrite Hm2; apply Z.mod_small; lia).
    rewrite Hw. unfold int_of_uint64.
    rewrite wrapI_id by (unfold is_int; lia).
    rewrite index_Ok by lia. reflexivity. }
  etransitivity; [exact H2|]. f_equal.
  apply (list_is_map_range _ 2048); [exact L2|].
  intros i Hi. rewrite P2, P1. cbv zeta.
  rewrite Hm2 in *.
  destruct (Z.ltb_spec (Z.of_nat i / B) h) as [Hx|Hx].
  - assert (Z.of_nat i < h * B).
    { destruct (Z.lt_ge_cases (Z.of_nat i) (h * B)); [assumption|].
      assert (h <= Z.of_nat i / B) by (apply Z.div_le_lower_bound; lia). lia. }
    destruct (Z.leb_spec (h * B) (Z.of_nat i)); [lia|]. cbn [andb].
    destruct (Z.leb_spec (0 * B) (Z.of_nat i)); [| lia].
    destruct (Z.ltb_spec (Z.of_nat i) ((0 + Z.of_nat (Z.to_nat h)) * B)); [| lia].
    reflexivity.
  - assert (h * B <= Z.of_nat i).
    { destruct (Z.lt_ge_cases (Z.of_nat i) (h * B)); [| assumption].
      assert (Z.of_nat i / B < h) by (apply Z.div_lt_upper_bound; lia). lia. }
    destruct (Z.leb_spec (h * B) (Z.of_nat i)); [| lia].
    destruct (Z.ltb_spec (Z.of_nat i) ((h + Z.of_nat (Z.to_nat (Bm - h))) * B));
      [| nia].
    reflexivity.
Qed.

End BaseLUTProofs.

(** ** The range of the modulus switches *)

Lemma binary_round_aux_sign s m e l :
  match binary_round_aux Float.prec Float.emax s m e l with
  | S754_finite s' _ _ => s' = s
  | _ => True
  end.
Proof.
  unfold binary_round_aux.
  destruct (shr_fexp Float.prec Float.emax m e l) as [mrs' e'].
  destruct (shr_fexp Float.prec Float.emax _ e' loc_Exact) as [mrs'' e''].
  destruct (shr_m mrs''); [exact I | | exact I].
  destruct (Z.leb e'' (Float.emax - Float.prec)); [reflexivity | exact I].
Qed.

Lemma binary_round_aux_not_negative m e l :
  ModSwitchQ.not_negative (binary_round_aux Float.prec Float.emax false m e l).
Proof.
  pose proof (binary_round_aux_sign false m e l) as H.
  destruct (binary_round_aux Float.prec Float.emax false m e l) as [| | |s' m' e'];
    try exact I.
  subst s'. exact I.
Qed.

Lemma of_uint_not_negative x : 0 <= x -> ModSwitchQ.not_negative (Float.of_uint x).
Proof.
  intros H. unfold Float.of_uint, binary_normalize.
  destruct x as [|p|p]; [exact I | | lia].
  unfold binary_round.
  destruct (shl_align p 0 _) as [mz ez].
  apply binary_round_aux_not_negative.
Qed.

Lemma mul_not_negative a b :
  ModSwitchQ.not_negative a -> ModSwitchQ.not_negative b ->
  ModSwitchQ.not_negative (Float.mul a b).
Proof.
  unfold Float.mul, SFmul.
  destruct a as [sa|sa| |sa ma ea], b as [sb|sb| |sb mb eb]; try (intros; exact I).
  destruct sa; [intros []|]. destruct sb; [intros _ []|]. intros _ _.
  apply binary_round_aux_not_negative.
Qed.

Lemma div_not_negative a b :
  ModSwitchQ.not_negative a -> ModSwitchQ.not_negative b ->
  ModSwitchQ.not_negative (Float.div a b).
Proof.
  unfold Float.div, SFdiv.
  destruct a as [sa|sa| |sa ma ea], b as [sb|sb| |sb mb eb]; try (intros; exact I).
  destruct sa; [intros []|]. destruct sb; [intros _ []|]. intros _ _.
  destruct (SFdiv_core_binary Float.prec Float.emax (Z.pos ma) ea (Z.pos mb) eb)
    as [[mz ez] lz].
  apply binary_round_aux_not_negative.
Qed.

Lemma Round_not_negative f :
  ModSwitchQ.not_negative f -> ModSwitchQ.not_negative (Float.Round f).
Proof.
  destruct f as [s|s| |s m e]; try (intros; exact I).
  destruct s; [intros []|]. intros _. unfold Float.Round.
  destruct (Z.leb_spec 0 e); [exact I|].
  assert (Hq : 0 <= (Z.pos m + 2 ^ (- e - 1)) / 2 ^ (- e)).
  { apply Z.div_pos; [| apply Z.pow_pos_nonneg; lia].
    pose proof (Z.pow_nonneg 2 (- e - 1)). lia. }
  unfold binary_normalize.
  destruct ((Z.pos m + 2 ^ (- e - 1)) / 2 ^ (- e)) as [|q|q]; [exact I | | lia].
  unfold binary_round.
  destruct (shl_align q 0 _) as [mz ez].
  apply binary_round_aux_not_negative.
Qed.

Lemma to_int_not_negative f :
  ModSwitchQ.not_negative f ->
  0 <= Float.to_int f < 2 ^ 63 \/ Float.to_int f = - 2 ^ 63.
Proof.
  destruct f as [s|s| |s m e]; cbn [Float.to_int]; try (intros; lia).
  destruct s; [intros []|]. intros _.
  set (a := if 0 <=? e then Z.pos m * 2 ^ e else Z.pos m / 2 ^ (- e)).
  assert (Ha : 0 <= a).
  { subst a. destruct (Z.leb_spec 0 e).
    - pose proof (Z.pow_nonneg 2 e). nia.
    - apply Z.div_pos; [lia | apply Z.pow_pos_nonneg; lia]. }
  destruct (Z.leb_spec (- 2 ^ 63) a); destruct (Z.ltb_spec a (2 ^ 63));
    cbn [andb]; lia.
Qed.

Lemma rem_pow2_index v k :
  0 <= k <= 62 ->
  0 <= v < 2 ^ 63 \/ v = - 2 ^ 63 ->
  0 <= Z.rem v (2 ^ k) < 2 ^ k.
Proof.
  intros Hk [Hv | ->].
  - apply Z.rem_bound_pos; [lia | apply Z.pow_pos_nonneg; lia].
  - assert (E : Z.rem (- 2 ^ 63) (2 ^ k) = 0).
    { rewrite Z.rem_opp_l by (pose proof (Z.pow_pos_nonneg 2 k); lia).
      replace (2 ^ 63) with (2 ^ (63 - k) * 2 ^ k)
        by (rewrite <- Z.pow_add_r by lia; f_equal; lia).
      rewrite Z.rem_mul by (pose proof (Z.pow_pos_nonneg 2 k); lia). reflexivity. }
    rewrite E. pose proof (Z.pow_pos_nonneg 2 k). lia.
Qed.

Lemma int_mul_2_pow2 k : 0 <= k <= 61 -> int_mul 2 (2 ^ k) = 2 ^ (k + 1).
Proof.
  intros Hk. unfold int_mul. rewrite Z.pow_add_r by lia.
  rewrite Z.mul_comm. apply wrapI_id. unfold is_int.
  assert (2 ^ k <= 2 ^ 61) by (apply Z.pow_le_mono_r; lia).
  pose proof (Z.pow_pos_nonneg 2 k). lia.
Qed.

(** X18.  For a modulus-switch constant that is not a negative number,
    an input [x >= 0] and a size [2^k] with [k <= 61]: [ModSwitch],
    [ModSwitchOriginal] and [ModSwitchWithMSconst] return an index in
    [[0, 2L)] when [L = 2^k], and [ModSwitchCompress] and
    [ModSwitchToBase] an index in [[0, 2N)] when [N = 2^k]; the result
    is never negative, whatever the rounding and the conversion to
    [int] do. *)
Theorem modulus_switch_yields_an_index (e : ModSwitchM.Evaluator) (x k : Z) :
  ModSwitchQ.not_negative (ModSwitchM.modSwitchConstant e) ->
  0 <= x -> 0 <= k <= 61 ->
  (Params.lookUpTableSize (ModSwitchM.Parameters e) = 2 ^ k ->
   0 <= ModSwitchM.ModSwitch e x < 2 * 2 ^ k /\
   0 <= ModSwitchM.ModSwitchOriginal e x < 2 * 2 ^ k /\
   forall MSconst, ModSwitchQ.not_negative MSconst ->
     0 <= ModSwitchQ.ModSwitchWithMSconst e x MSconst < 2 * 2 ^ k) /\
  (Params.polyDegree (ModSwitchM.Parameters e) = 2 ^ k ->
   0 <= ModSwitchM.ModSwitchCompress e x < 2 * 2 ^ k /\
   (0 <= Params.polyExtendFactor (ModSwitchM.Parameters e) ->
    0 <= ModSwitchQ.ModSwitchToBase e x < 2 * 2 ^ k)).
Proof.
  intros Hc Hx Hk.
  pose proof (of_uint_not_negative x Hx) as Hfx.
  assert (Htwo : ModSwitchQ.not_negative Float.two) by exact I.
  assert (Hpow : 2 * 2 ^ k = 2 ^ (k + 1)) by (rewrite Z.pow_add_r; lia).
  rewrite Hpow.
  split; intros HL.
  - unfold ModSwitchM.ModSwitch, ModSwitchM.ModSwitchOriginal,
      ModSwitchQ.ModSwitchWithMSconst.
    rewrite HL, int_mul_2_pow2 by exact Hk.
    split; [| split; [| intros MSconst HMS] ];
      apply rem_pow2_index; try lia; apply to_int_not_negative, Round_not_negative;
      repeat apply mul_not_negative; assumption.
  - unfold ModSwitchM.ModSwitchCompress, ModSwitchM.roundTimesTwo,
      ModSwitchQ.ModSwitchToBase.
    rewrite HL, int_mul_2_pow2 by exact Hk.
    split; [| intros He ]; apply rem_pow2_index; try lia; apply to_int_not_negative.
    + apply mul_not_negative; [| assumption].
      apply Round_not_negative, mul_not_negative; assumption.
    + apply Round_not_negative, div_not_negative.
      * repeat apply mul_not_negative; assumption.
      * apply of_uint_not_negative. exact He.
Qed.

Lemma modulus_switch_yields_an_index_witness :
  0 <= ModSwitchM.ModSwitch Inputs.evalEBS5 (2 ^ 62) < 2 * 2 ^ 12 /\
  0 <= ModSwitchM.ModSwitchCompress Inputs.evalEBS5 (2 ^ 62) < 2 * 2 ^ 11.
Proof.
  split.
  - destruct (modulus_switch_yields_an_index Inputs.evalEBS5 (2 ^ 62) 12)
      as [H _]; [vm_compute; exact I | lia | lia |].
    exact (proj1 (H eq_refl)).
  - destruct (modulus_switch_yields_an_index Inputs.evalEBS5 (2 ^ 62) 11)
      as [_ H]; [vm_compute; exact I | lia | lia |].
    exact (proj1 (H eq_refl)).
Defined.

(** ** The head of the extended blind rotations *)

Lemma range_shift lo n : map (fun k => lo + k) (Slice.range 0 n) = Slice.range lo n.
Proof.
  unfold Slice.range. rewrite map_map. apply map_ext. intros k. lia.
Qed.

Lemma range_app lo (a b : nat) :
  Slice.range lo (a + b) = Slice.range lo a ++ Slice.range (lo + Z.of_nat a) b.
Proof.
  unfold Slice.range. rewrite seq_app, map_app. f_equal.
  replace (0 + a)%nat with (a + 0)%nat by lia.
  rewrite <- (fmap_add_seq a 0 b).
  change (@fmap list _ nat nat) with (@map nat nat). rewrite map_map.
  apply map_ext. intros k. lia.
Qed.

Lemma NoDup_range lo n : NoDup (Slice.range lo n).
Proof.
  unfold Slice.range.
  assert (Hinj : Inj eq eq (fun k : nat => lo + Z.of_nat k))
    by (intros x y H; lia).
  apply (NoDup_fmap_2 (fun k : nat => lo + Z.of_nat k)). apply NoDup_seq.
Qed.

Lemma elem_of_range lo n k :
  k ∈ Slice.range lo n -> lo <= k < lo + Z.of_nat n.
Proof.
  unfold Slice.range. intros H. apply list_elem_of_fmap in H as (i & -> & Hi).
  apply elem_of_seq in Hi. lia.
Qed.

Lemma monomialLoop_map i ii d count :
  0 <= i -> 0 <= ii -> i + Z.of_nat count < 2 ^ 63 -> ii + Z.of_nat count < 2 ^ 63 ->
  Rotate.monomialLoop i ii d count
  = map (fun k => {| Rotate.lutIndex := i + k; Rotate.degree := d;
                     Rotate.accIndex := ii + k |})
        (Slice.range 0 count).
Proof.
  revert i ii. induction count as [|c IH]; intros i ii Hi Hii H1 H2; [reflexivity|].
  cbn [Rotate.monomialLoop]. rewrite range_S. cbn [map].
  rewrite !Z.add_0_r. f_equal.
  unfold int_add. rewrite !wrapI_id by (unfold is_int; lia).
  rewrite IH by lia.
  rewrite <- (range_shift (0 + 1)). rewrite map_map. apply map_ext. intros k.
  f_equal; lia.
Qed.

Lemma monomialLoops_Ok ext b2N :
  0 < ext < 2 ^ 62 -> 0 <= b2N < 2 ^ 63 - 1 ->
  exists calls,
    Rotate.monomialLoops ext b2N = Ok calls /\
    map Rotate.lutIndex calls = Slice.range 0 (Z.to_nat ext) /\
    NoDup (map Rotate.accIndex calls) /\
    Forall (fun c =>
              0 <= Rotate.accIndex c < ext /\
              Rotate.degree c * ext - Rotate.accIndex c = b2N - Rotate.lutIndex c)
           calls.
Proof.
  intros Hext Hb. unfold Rotate.monomialLoops.
  destruct (Z.eqb_spec ext 0); [lia|]. cbv zeta.
  pose proof (Z.rem_bound_pos b2N ext ltac:(lia) ltac:(lia)) as Hidx.
  pose proof (Z.quot_rem' b2N ext) as Hqr.
  pose proof (Z.quot_pos b2N ext ltac:(lia) ltac:(lia)) as Hq0.
  set (idx := Z.rem b2N ext) in *. set (mono := Z.quot b2N ext) in *.
  assert (Hq : mono <= b2N) by nia.
  rewrite (wrapI_id mono) by (unfold is_int; lia).
  unfold int_sub, int_add.
  rewrite (wrapI_id (ext - idx)) by (unfold is_int; lia).
  rewrite (wrapI_id (mono + 1)) by (unfold is_int; lia).
  rewrite !monomialLoop_map by lia.
  eexists. split; [reflexivity|].
  rewrite !map_app, !map_map. cbn [Rotate.lutIndex Rotate.accIndex].
  rewrite !range_shift.
  split; [| split].
  - replace (Z.to_nat ext) with (Z.to_nat idx + Z.to_nat (ext - idx))%nat by lia.
    rewrite range_app. f_equal. f_equal. lia.
  - rewrite (Permutation_app_comm _ _).
    replace (ext - idx) with (0 + Z.of_nat (Z.to_nat (ext - idx))) at 2 by lia.
    rewrite <- range_app. apply NoDup_range.
  - apply Forall_app. split; apply Forall_map, Forall_forall; intros k Hk;
      try apply (proj2 (list_elem_of_In _ _)) in Hk; apply elem_of_range in Hk;
      cbn [Rotate.lutIndex Rotate.accIndex Rotate.degree]; split; nia.
Qed.

(** X17.  The head of [blindRotateArbitraryExtendedAssign], for a
    positive degree and a positive extend factor [e]: the rotation
    [b2N] is in [(0, 4 * N * e)]; the two loops read the LUT
    polynomials [0, ..., e-1] in this order, write each of the [e]
    accumulators exactly once, and the call for LUT polynomial [i] into
    accumulator [ii] with monomial degree [d] satisfies
    [d * e - ii = b2N - i].  With an extend factor of zero the function
    panics with a division by zero. *)
Theorem extended_rotation_writes_each_accumulator_once
  (polyDegree extendedFactor ms : Z) :
  0 < polyDegree -> 0 < extendedFactor ->
  polyDegree * extendedFactor < 2 ^ 61 -> is_int ms ->
  (exists b2N calls,
     Rotate.arbitraryExtendedHead polyDegree extendedFactor ms = Ok (b2N, calls) /\
     0 < b2N < 4 * (polyDegree * extendedFactor) /\
     map Rotate.lutIndex calls = Slice.range 0 (Z.to_nat extendedFactor) /\
     NoDup (map Rotate.accIndex calls) /\
     Forall (fun c =>
               0 <= Rotate.accIndex c < extendedFactor /\
               Rotate.degree c * extendedFactor - Rotate.accIndex c
               = b2N - Rotate.lutIndex c)
            calls) /\
  Rotate.arbitraryExtendedHead polyDegree 0 ms = Panic "integer divide by zero".
Proof.
  intros HN He Hfit Hms. split.
  2:{ unfold Rotate.arbitraryExtendedHead. unfold int_mul.
      rewrite Z.mul_0_r. reflexivity. }
  unfold Rotate.arbitraryExtendedHead.
  set (lts := polyDegree * extendedFactor) in *.
  assert (Hlts : 0 < lts) by (subst lts; nia).
  unfold int_mul. fold lts. rewrite (wrapI_id lts) by (unfold is_int; lia).
  rewrite (wrapI_id (2 * lts)) by (unfold is_int; lia).
  destruct (Z.eqb_spec (2 * lts) 0); [lia|]. cbv zeta.
  pose proof (Z.rem_bound_abs ms (2 * lts) ltac:(lia)) as Hrem.
  rewrite (wrapI_id (Z.rem ms (2 * lts))) by (unfold is_int; lia).
  unfold int_sub.
  rewrite wrapI_id by (unfold is_int; lia).
  destruct (monomialLoops_Ok extendedFactor (2 * lts - Z.rem ms (2 * lts)))
    as (calls & Hc & H1 & H2 & H3); [subst lts; nia | lia |].
  rewrite Hc. cbn [bind].
  eexists. eexists. split; [reflexivity|].
  split; [lia|]. auto.
Qed.

Lemma extended_rotation_writes_each_accumulator_once_witness :
  exists b2N calls,
    Rotate.arbitraryExtendedHead 2048 4 5 = Ok (b2N, calls) /\
    0 < b2N < 4 * (2048 * 4) /\
    map Rotate.lutIndex calls = Slice.range 0 (Z.to_nat 4) /\
    NoDup (map Rotate.accIndex calls) /\
    Forall (fun c =>
              0 <= Rotate.accIndex c < 4 /\
              Rotate.degree c * 4 - Rotate.accIndex c = b2N - Rotate.lutIndex c)
           calls.
Proof.
  apply (extended_rotation_writes_each_accumulator_once 2048 4 5);
    unfold is_int; lia.
Defined.

(** ** The tables that the decomposed builders write into *)

Lemma negShapes_Ok (shape : Z -> result Shapes.Shape) (g : Z -> Shapes.Shape) count :
  forall i, 0 <= i -> i + Z.of_nat count < 2 ^ 63 ->
    (forall j, i <= j < i + Z.of_nat count -> shape j = Ok (g j)) ->
    Shapes.negShapes shape i count = Ok (map g (Slice.range i count)).
Proof.
  induction count as [|c IH]; intros i Hi Hfit Hs; [reflexivity|].
  cbn [Shapes.negShapes]. rewrite Hs by lia. cbn [bind].
  unfold int_add. rewrite wrapI_id by (unfold is_int; lia).
  rewrite IH by (lia || (intros; apply Hs; lia)). cbn [bind].
  rewrite range_S. reflexivity.
Qed.

(** X22.  For a look-up-table size [L = 2048 * 2^k], [k <= 50]:
    [NewDecomposedLutEBS] returns [k] tables of [2^(k-1-i)] polynomials
    of 2048 coefficients followed by one table of one polynomial of
    2048 coefficients; [NewDecomposedLut] returns [k] tables of one
    polynomial of [2048 * 2^(k-1-i)] coefficients followed by the same
    base table.  These are the sizes the builders write: the length
    [L / (1 << (i+1))] the builders compute for table [i] is
    [2048 * 2^(k-1-i)], and its quotient by 2048 is [2^(k-1-i)]. *)
Theorem decomposed_tables_match_the_builders (k : Z) :
  0 <= k <= 50 ->
  let L := 2048 * 2 ^ k in
  Shapes.NewDecomposedLutEBS L
  = Ok (map (fun i => {| Shapes.polys := 2 ^ (k - 1 - i); Shapes.coeffs := 2048 |})
            (Slice.range 0 (Z.to_nat k))
        ++ [{| Shapes.polys := 1; Shapes.coeffs := 2048 |}]) /\
  Shapes.NewDecomposedLut L
  = Ok (map (fun i => {| Shapes.polys := 1; Shapes.coeffs := 2048 * 2 ^ (k - 1 - i) |})
            (Slice.range 0 (Z.to_nat k))
        ++ [{| Shapes.polys := 1; Shapes.coeffs := 2048 |}]) /\
  forall i, 0 <= i < k ->
    Shapes.builderLength L i = Ok (2048 * 2 ^ (k - 1 - i)) /\
    Z.quot (2048 * 2 ^ (k - 1 - i)) 2048 = 2 ^ (k - 1 - i).
Proof.
  intros Hk L.
  assert (Hlen : int_add (LUT.logExtendFactor L) 1 = k + 1).
  { subst L. rewrite logExtendFactor_pow2 by lia.
    apply wrapI_id. unfold is_int. lia. }
  assert (Hsh : forall i, 0 <= i < k ->
            int_sub (int_sub (k + 1) i) 2 = k - 1 - i).
  { intros i Hi. unfold int_sub.
    rewrite (wrapI_id (k + 1 - i)) by (unfold is_int; lia).
    rewrite wrapI_id by (unfold is_int; lia). lia. }
  assert (Hcnt : Z.to_nat (int_sub (k + 1) 1) = Z.to_nat k).
  { unfold int_sub. rewrite wrapI_id by (unfold is_int; lia). f_equal. lia. }
  split; [| split].
  - unfold Shapes.NewDecomposedLutEBS, Shapes.newDecomposed. fold L.
    rewrite Hlen, Hcnt. cbv zeta.
    destruct (Z.ltb_spec (k + 1) 0); [lia|].
    rewrite (negShapes_Ok _
               (fun i => {| Shapes.polys := 2 ^ (k - 1 - i); Shapes.coeffs := 2048 |}));
      try lia.
    + cbn [bind]. destruct (Z.eqb_spec (k + 1) 0); [lia | reflexivity].
    + intros j Hj. rewrite Hsh by lia. unfold Shapes.int_shl_checked.
      destruct (Z.ltb_spec (k - 1 - j) 0); [lia|].
      rewrite int_shl_small by lia. reflexivity.
  - unfold Shapes.NewDecomposedLut, Shapes.newDecomposed. fold L.
    rewrite Hlen, Hcnt. cbv zeta.
    destruct (Z.ltb_spec (k + 1) 0); [lia|].
    rewrite (negShapes_Ok _
               (fun i => {| Shapes.polys := 1;
                            Shapes.coeffs := 2048 * 2 ^ (k - 1 - i) |}));
      try lia.
    + cbn [bind]. destruct (Z.eqb_spec (k + 1) 0); [lia | reflexivity].
    + intros j Hj. rewrite Hsh by lia. unfold Shapes.int_shl_checked.
      destruct (Z.ltb_spec (k - 1 - j) 0); [lia|].
      unfold int_shl. rewrite Z.shiftl_mul_pow2 by lia.
      rewrite wrapI_id; [reflexivity|].
      unfold is_int.
      assert (2 ^ (k - 1 - j) <= 2 ^ 50) by (apply Z.pow_le_mono_r; lia).
      pose proof (Z.pow_pos_nonneg 2 (k - 1 - j)). lia.
  - intros i Hi.
    assert (Hp : 0 < 2 ^ (k - 1 - i)) by (apply Z.pow_pos_nonneg; lia).
    assert (Hq : 0 < 2 ^ (i + 1)) by (apply Z.pow_pos_nonneg; lia).
    split.
    + unfold Shapes.builderLength, Shapes.int_shl_checked, int_add.
      rewrite wrapI_id by (unfold is_int; lia).
      destruct (Z.ltb_spec (i + 1) 0); [lia|]. cbn [bind].
      rewrite int_shl_small by lia. unfold int_div.
      destruct (Z.eqb_spec (2 ^ (i + 1)) 0); [lia|].
      f_equal. subst L.
      replace (2 ^ k) with (2 ^ (k - 1 - i) * 2 ^ (i + 1))
        by (rewrite <- Z.pow_add_r by lia; f_equal; lia).
      rewrite Z.mul_assoc, Z.quot_mul by lia.
      apply wrapI_id. unfold is_int.
      assert (2 ^ (k - 1 - i) <= 2 ^ 50) by (apply Z.pow_le_mono_r; lia). lia.
    + rewrite Z.mul_comm, Z.quot_mul by lia. reflexivity.
Qed.

Lemma decomposed_tables_match_the_builders_witness :
  Shapes.NewDecomposedLutEBS (2048 * 2 ^ 2)
  = Ok [{| Shapes.polys := 2; Shapes.coeffs := 2048 |};
        {| Shapes.polys := 1; Shapes.coeffs := 2048 |};
        {| Shapes.polys := 1; Shapes.coeffs := 2048 |}].
Proof.
  destruct (decomposed_tables_match_the_builders 2) as (H & _); [lia|].
  exact H.
Defined.

(** ** Three new samplers *)

Section EncProofs2.

Context {C : Enc.Collaborators}.

Lemma three_samplers (w : Enc.World) :
  let S0 := Enc.samplers w in
  let us := fresh (dom S0) in
  let S1 := <[us := Enc.sampler_seed us]> S0 in
  let bs := fresh (dom S1) in
  let S2 := <[bs := Enc.sampler_seed bs]> S1 in
  let gs := fresh (dom S2) in
  let S3 := <[gs := Enc.sampler_seed gs]> S2 in
  S0 !! us = None /\ S0 !! bs = None /\ S0 !! gs = None /\
  us <> bs /\ bs <> gs /\ us <> gs /\
  S3 !! bs = Some (Enc.sampler_seed bs) /\
  (forall a st, S0 !! a = Some st -> S3 !! a = Some st).
Proof.
  intros S0 us S1 bs S2 gs S3.
  assert (H0 : S0 !! us = None) by (apply not_elem_of_dom, is_fresh).
  assert (H1 : S1 !! bs = None) by (apply not_elem_of_dom, is_fresh).
  assert (H2 : S2 !! gs = None) by (apply not_elem_of_dom, is_fresh).
  assert (Hub : us <> bs).
  { intros E. subst S1. rewrite <- E, lookup_insert_eq in H1. discriminate. }
  assert (Hbg : bs <> gs).
  { intros E. subst S2. rewrite <- E, lookup_insert_eq in H2. discriminate. }
  assert (Hug : us <> gs).
  { intros E. subst S2 S1. rewrite lookup_insert_ne in H2 by exact Hbg.
    rewrite <- E, lookup_insert_eq in H2. discriminate. }
  subst S1 S2 S3.
  rewrite lookup_insert_ne in H1 by exact Hub.
  rewrite lookup_insert_ne in H2 by exact Hbg.
  rewrite lookup_insert_ne in H2 by exact Hug.
  repeat split; try assumption.
  - rewrite lookup_insert_ne by congruence. apply lookup_insert_eq.
  - intros a st Ha.
    rewrite !lookup_insert_ne by congruence. exact Ha.
Qed.

End EncProofs2.

(** ** Constructing an encryptor *)

Section EncForward.

Context {C : Enc.Collaborators}.

Lemma NewSecretKey_run p (w : Enc.World) :
  EncSizes.fits p ->
  let a := fresh (dom (Enc.torus w)) in
  let f := fresh (dom (Enc.fourier w)) in
  exists sk,
    Enc.NewSecretKey p w
    = Ok (sk,
          {| Enc.torus := <[a := replicate (Z.to_nat (Params.glweDimension p)) 0]> (Enc.torus w);
             Enc.fourier := <[f := replicate (Z.to_nat (Params.glweRank p)) (Enc.ToFourierPoly [])]> (Enc.fourier w);
             Enc.samplers := Enc.samplers w |}) /\
    Enc.torus w !! a = None /\ Enc.fourier w !! f = None /\
    Enc.LWELargeKey sk
    = {| Enc.ptr := a; Enc.off := 0; Enc.len := Params.glweDimension p;
         Enc.cap := Params.glweDimension p |} /\
    Enc.FourierGLWEKey sk = f /\
    Enc.len (Enc.LWEKey sk) = Params.lweDimension p /\
    length (Enc.GLWEKey sk) = Z.to_nat (Params.glweRank p).
Proof.
  intros (Hn & Hk & HN & Hg & Ig & Ik) a f.
  unfold Enc.NewSecretKey.
  destruct (make_Ok (Params.glweDimension p) w ltac:(lia)) as [Hfresh Hmake].
  fold a in Hfresh, Hmake.
  unfold Enc.mbind at 1. rewrite Hmake.
  destruct (Z.ltb_spec (Params.glweRank p) 0); [lia|].
  set (large := {| Enc.ptr := a; Enc.off := 0; Enc.len := Params.glweDimension p;
                   Enc.cap := Params.glweDimension p |}).
  destruct (chunks_Ok large (Params.polyDegree p) (Z.to_nat (Params.glweRank p)) HN 0)
    as (glwe & Hglwe & HF & Hlen); unfold is_int in *; cbn [Enc.cap large];
    rewrite ?Z2Nat.id by lia; try lia.
  unfold Enc.mbind at 1. rewrite Hglwe. cbn [Enc.lift].
  unfold Enc.mbind at 1. unfold Enc.NewFourierGLWESecretKey. cbn [Enc.fourier].
  fold f.
  unfold Enc.mbind at 1. rewrite reslice_Ok by (cbn [Enc.cap large]; lia).
  cbn [Enc.lift]. unfold Enc.ret.
  eexists. split; [reflexivity|].
  cbn [Enc.LWELargeKey Enc.FourierGLWEKey Enc.LWEKey Enc.GLWEKey Enc.len].
  split; [exact Hfresh|].
  split; [apply not_elem_of_dom, is_fresh|].
  split; [reflexivity|]. split; [reflexivity|]. split; [lia | exact Hlen].
Qed.

Lemma GenSecretKey_run (e : Enc.Encryptor) (w : Enc.World) st :
  let p := Enc.Parameters e in
  EncSizes.fits p ->
  Enc.samplers w !! Enc.BinarySampler e = Some st ->
  let a := fresh (dom (Enc.torus w)) in
  let f := fresh (dom (Enc.fourier w)) in
  exists sk fk,
    Enc.GenSecretKey e w
    = Ok ((sk, e),
          {| Enc.torus := <[a := fst (Enc.sampledKey p st)]> (Enc.torus w);
             Enc.fourier := <[f := fk]> (Enc.fourier w);
             Enc.samplers :=
               <[Enc.BinarySampler e := snd (Enc.sampledKey p st)]> (Enc.samplers w) |}) /\
    Enc.torus w !! a = None /\ Enc.fourier w !! f = None /\
    Enc.LWELargeKey sk
    = {| Enc.ptr := a; Enc.off := 0; Enc.len := Params.glweDimension p;
         Enc.cap := Params.glweDimension p |} /\
    Enc.FourierGLWEKey sk = f /\
    Enc.len (Enc.LWEKey sk) = Params.lweDimension p /\
    length (Enc.GLWEKey sk) = Z.to_nat (Params.glweRank p).
Proof.
  intros p Hfit Hst a f.
  destruct (NewSecretKey_run p w Hfit)
    as (sk & HNew & Hfa & Hff & Hlarge & Hfk & Hlwe & Hglwe).
  fold a f in HNew, Hfa, Hff, Hlarge, Hfk.
  destruct Hfit as (Hn & _).
  pose proof (sample_into_fresh_key e a st (Enc.torus w)
                (<[f := replicate (Z.to_nat (Params.glweRank p)) (Enc.ToFourierPoly [])]>
                   (Enc.fourier w))
                (Enc.samplers w) Hn Hst) as Hsample.
  fold p in Hsample. cbv zeta in Hsample. rewrite <- Hlarge in Hsample.
  unfold Enc.GenSecretKey. fold p.
  rewrite (mbind_Ok _ _ _ _ _ HNew).
  rewrite (mbind_Ok _ _ _ _ _ Hsample).
  erewrite mbind_Ok
    by (apply ToFourier_Ok with (old := replicate (Z.to_nat (Params.glweRank p)) (Enc.ToFourierPoly []));
        cbn [Enc.fourier]; rewrite Hfk; apply lookup_insert_eq).
  unfold Enc.ret. cbn [Enc.torus Enc.fourier Enc.samplers].
  rewrite Hfk, insert_insert_eq.
  eexists. eexists. split; [reflexivity|]. auto 10.
Qed.

Lemma NewEncryptor_run (p : Params.Parameters) (w : Enc.World) :
  EncSizes.fits p ->
  let a := fresh (dom (Enc.torus w)) in
  let f := fresh (dom (Enc.fourier w)) in
  exists e w',
    Enc.NewEncryptor p w = Ok (e, w') /\
    Enc.Parameters e = p /\
    Enc.samplers w !! Enc.BinarySampler e = None /\
    Enc.torus w' = <[a := fst (Enc.sampledKey p (Enc.sampler_seed (Enc.BinarySampler e)))]>
                     (Enc.torus w) /\
    Enc.torus w !! a = None /\
    Enc.fourier w !! f = None /\
    is_Some (Enc.fourier w' !! f) /\
    (forall b fk, Enc.fourier w !! b = Some fk -> Enc.fourier w' !! b = Some fk) /\
    (forall b, is_Some (Enc.samplers w !! b) -> is_Some (Enc.samplers w' !! b)) /\
    is_Some (Enc.samplers w' !! Enc.BinarySampler e) /\
    Enc.LWELargeKey (Enc.SecretKey_ e)
    = {| Enc.ptr := a; Enc.off := 0; Enc.len := Params.glweDimension p;
         Enc.cap := Params.glweDimension p |} /\
    Enc.FourierGLWEKey (Enc.SecretKey_ e) = f /\
    Enc.len (Enc.LWEKey (Enc.SecretKey_ e)) = Params.lweDimension p /\
    length (Enc.GLWEKey (Enc.SecretKey_ e)) = Z.to_nat (Params.glweRank p).
Proof.
  intros Hfit a f.
  destruct (three_samplers w) as (H0 & H1 & H2 & Hub & Hbg & Hug & Hbs & Hmono).
  unfold Enc.NewEncryptor.
  unfold Enc.mbind at 1. unfold Enc.NewSampler at 1.
  unfold Enc.mbind at 1. unfold Enc.NewSampler at 1. cbn [Enc.samplers].
  unfold Enc.mbind at 1. unfold Enc.NewSampler at 1. cbn [Enc.samplers Enc.torus Enc.fourier].
  cbv zeta.
  set (S0 := Enc.samplers w) in *.
  set (us := fresh (dom S0)) in *.
  set (S1 := <[us := Enc.sampler_seed us]> S0) in *.
  set (bs := fresh (dom S1)) in *.
  set (S2 := <[bs := Enc.sampler_seed bs]> S1) in *.
  set (gs := fresh (dom S2)) in *.
  set (S3 := <[gs := Enc.sampler_seed gs]> S2) in *.
  set (e0 := {| Enc.Encoder_ := Enc.NewEncoder p;
                Enc.GLWETransformer_ := Enc.NewGLWETransformer (Params.polyDegree p);
                Enc.Parameters := p;
                Enc.UniformSampler := us;
                Enc.BinarySampler := bs;
                Enc.GaussianSampler := gs;
                Enc.PolyEvaluator_ := Enc.NewPolyEvaluator (Params.polyDegree p);
                Enc.SecretKey_ := Enc.nil_key;
                Enc.buffer := Enc.newEncryptionBuffer p |}).
  set (w3 := {| Enc.torus := Enc.torus w; Enc.fourier := Enc.fourier w;
                Enc.samplers := S3 |}).
  destruct (GenSecretKey_run e0 w3 (Enc.sampler_seed bs) Hfit Hbs)
    as (sk & fk & HGen & Hfa & Hff & Hlarge & Hfk & Hlwe & Hglwe).
  cbn [Enc.Parameters Enc.BinarySampler Enc.torus Enc.fourier Enc.samplers e0 w3]
    in HGen, Hfa, Hff, Hlarge, Hfk, Hlwe, Hglwe.
  fold a f in HGen, Hfa, Hff, Hlarge, Hfk.
  rewrite (mbind_Ok _ _ _ _ _ HGen). unfold Enc.ret.
  eexists. eexists. split; [reflexivity|].
  cbn [Enc.with_key Enc.Parameters Enc.BinarySampler Enc.SecretKey_
       Enc.torus Enc.fourier Enc.samplers e0].
  split; [reflexivity|]. split; [exact H1|]. split; [reflexivity|].
  split; [exact Hfa|]. split; [exact Hff|].
  split; [rewrite lookup_insert_eq; eauto|].
  split.
  { intros b fk' Hb. assert (f <> b) by congruence.
    rewrite lookup_insert_ne by assumption. exact Hb. }
  split.
  { intros b [st Hb]. destruct (decide (bs = b)) as [->|Hne].
    - rewrite lookup_insert_eq. eauto.
    - rewrite lookup_insert_ne by exact Hne. rewrite (Hmono b st Hb). eauto. }
  split; [rewrite lookup_insert_eq; eauto|].
  auto.
Qed.

End EncForward.

Section EncForward2.

Context {C : Enc.Collaborators}.

(** X20.  [NewEncryptor] returns when the sizes of the parameters fit
    ([0 <= n <= glweDimension], [k * N <= glweDimension], non-negative
    rank and degree).  The encryptor carries the given parameters and a
    new binary sampler; its LWE-large key is a new buffer that holds
    the [glweDimension] values drawn from that sampler in its initial
    state; no buffer that existed before is changed; and for the two
    declared bootstrap orders the default LWE secret key has
    [DefaultLWEDimension] elements. *)
Theorem NewEncryptor_returns_an_encryptor_with_a_sampled_key
  (p : Params.Parameters) (w : Enc.World) :
  EncSizes.fits p ->
  exists e w',
    Enc.NewEncryptor p w = Ok (e, w') /\
    Enc.Parameters e = p /\
    Enc.samplers w !! Enc.BinarySampler e = None /\
    Enc.torus w !! Enc.ptr (Enc.LWELargeKey (Enc.SecretKey_ e)) = None /\
    Enc.elems w' (Enc.LWELargeKey (Enc.SecretKey_ e))
    = fst (Enc.sampledKey p (Enc.sampler_seed (Enc.BinarySampler e))) /\
    Z.of_nat (length (Enc.elems w' (Enc.LWELargeKey (Enc.SecretKey_ e))))
    = Params.glweDimension p /\
    (forall b v, Enc.torus w !! b = Some v -> Enc.torus w' !! b = Some v) /\
    (Params.bootstrapOrder p = Params.OrderKeySwitchBlindRotate \/
     Params.bootstrapOrder p = Params.OrderBlindRotateKeySwitch ->
     Enc.len (EncQ.DefaultLWESecretKey e) = ParamsQ.DefaultLWEDimension p).
Proof.
  intros Hfit.
  destruct (NewEncryptor_run p w Hfit)
    as (e & w' & Hrun & HP & Hbs & Ht & Hfa & _ & _ & _ & _ & _ & Hlarge & _ & Hlwe & _).
  cbv zeta in Ht, Hfa, Hlarge.
  assert (Hn : 0 <= Params.lweDimension p <= Params.glweDimension p) by (destruct Hfit; lia).
  pose proof (sampledKey_length p (Enc.sampler_seed (Enc.BinarySampler e)) Hn) as Hlen.
  assert (Hel : Enc.elems w' (Enc.LWELargeKey (Enc.SecretKey_ e))
                = fst (Enc.sampledKey p (Enc.sampler_seed (Enc.BinarySampler e)))).
  { unfold Enc.elems. rewrite Ht, Hlarge. cbn [Enc.ptr Enc.off Enc.len].
    rewrite lookup_insert_eq. change (Z.to_nat 0) with 0%nat. rewrite drop_0.
    apply take_ge. lia. }
  exists e, w'. split; [exact Hrun|]. split; [exact HP|]. split; [exact Hbs|].
  split; [rewrite Hlarge; exact Hfa|].
  split; [exact Hel|].
  split; [rewrite Hel; lia|].
  split.
  { intros b v Hb. rewrite Ht. rewrite lookup_insert_ne; [exact Hb|]. congruence. }
  intros Ho. unfold EncQ.DefaultLWESecretKey, ParamsQ.DefaultLWEDimension.
  rewrite HP, Hlarge.
  destruct Ho as [-> | ->]; cbn; [reflexivity | exact Hlwe].
Qed.

End EncForward2.

Lemma NewEncryptor_returns_an_encryptor_with_a_sampled_key_witness :
  exists (e : @Enc.Encryptor Inputs.streamCollaborators) (w' : @Enc.World Inputs.streamCollaborators),
    Enc.NewEncryptor (C := Inputs.streamCollaborators) Inputs.params1024 Inputs.emptyWorld = Ok (e, w') /\
    Enc.Parameters e = Inputs.params1024 /\
    Enc.samplers Inputs.emptyWorld !! Enc.BinarySampler e = None /\
    Enc.torus Inputs.emptyWorld !! Enc.ptr (Enc.LWELargeKey (Enc.SecretKey_ e)) = None /\
    Enc.elems w' (Enc.LWELargeKey (Enc.SecretKey_ e))
    = fst (Enc.sampledKey (C := Inputs.streamCollaborators) Inputs.params1024
            (Enc.sampler_seed (Enc.BinarySampler e))) /\
    Z.of_nat (length (Enc.elems w' (Enc.LWELargeKey (Enc.SecretKey_ e))))
    = Params.glweDimension Inputs.params1024 /\
    (forall b v, Enc.torus Inputs.emptyWorld !! b = Some v -> Enc.torus w' !! b = Some v) /\
    (Params.bootstrapOrder Inputs.params1024 = Params.OrderKeySwitchBlindRotate \/
     Params.bootstrapOrder Inputs.params1024 = Params.OrderBlindRotateKeySwitch ->
     Enc.len (EncQ.DefaultLWESecretKey e) = ParamsQ.DefaultLWEDimension Inputs.params1024).
Proof.
  apply (NewEncryptor_returns_an_encryptor_with_a_sampled_key
           Inputs.params1024 Inputs.emptyWorld).
  unfold EncSizes.fits, is_int. cbn. lia.
Defined.

(** ** Constructing the hierarchy *)

Lemma pow2_ctz (d : nat) :
  exists p, 2 ^ Z.of_nat d = Zpos p /\ ctz_pos p = Z.of_nat d.
Proof.
  induction d as [|d (p & Hp & Hc)].
  - exists 1%positive. split; reflexivity.
  - exists (xO p). split.
    + rewrite Nat2Z.inj_succ, Z.pow_succ_r by lia. rewrite Hp. reflexivity.
    + cbn [ctz_pos]. rewrite Hc. lia.
Qed.

Lemma TrailingZeros_pow2 d :
  0 <= d < 64 -> TrailingZeros (uint64_of_int (2 ^ d)) = d.
Proof.
  intros Hd. unfold TrailingZeros, uint64_of_int.
  assert (H : 0 < 2 ^ d < 2 ^ 64)
    by (split; [apply Z.pow_pos_nonneg; lia | apply Z.pow_lt_mono_r; lia]).
  rewrite Z.mod_mod by lia. rewrite Z.mod_small by lia.
  destruct (pow2_ctz (Z.to_nat d)) as (p & Hp & Hc).
  rewrite Z2Nat.id in Hp, Hc by lia. rewrite Hp. exact Hc.
Qed.

Section HierarchyForward.

Context {C : Enc.Collaborators}.

Lemma grows_refl (w : Enc.World) : EncLevels.grows w w.
Proof. split; auto. Qed.

Lemma grows_trans (w1 w2 w3 : Enc.World) :
  EncLevels.grows w1 w2 -> EncLevels.grows w2 w3 -> EncLevels.grows w1 w3.
Proof. intros [A B] [A' B']. split; auto. Qed.

Lemma level_ok_grows (w w' : Enc.World) k n N' e :
  EncLevels.grows w w' -> EncLevels.level_ok w k n N' e -> EncLevels.level_ok w' k n N' e.
Proof.
  intros [A B] (H1 & H2 & H3 & H4 & H5 & H6 & H7).
  unfold EncLevels.level_ok. auto 10.
Qed.

Lemma NewEncryptor_level (p : Params.Parameters) (w : Enc.World) :
  EncSizes.fits p ->
  Params.glweDimension p = Params.glweRank p * Params.polyDegree p ->
  exists e w',
    Enc.NewEncryptor p w = Ok (e, w') /\
    EncLevels.level_ok w' (Params.glweRank p) (Params.lweDimension p)
                       (Params.polyDegree p) e /\
    Enc.Parameters e = p /\
    EncLevels.grows w w'.
Proof.
  intros Hfit Hg.
  destruct (NewEncryptor_run p w Hfit)
    as (e & w' & Hrun & HP & _ & _ & _ & _ & Hf & Hfm & Hsm & Hs & _ & Hfk & _ & Hlen).
  cbv zeta in Hf, Hfk.
  exists e, w'. split; [exact Hrun|]. split.
  - unfold EncLevels.level_ok. rewrite HP, Hfk. auto 10.
  - split; [exact HP|]. split; [| exact Hsm].
    intros b [fk Hb]. exists fk. apply Hfm. exact Hb.
Qed.

Lemma buildLevels_run (params : Params.Parameters) k n M :
  Params.glweRank params = k -> Params.lweDimension params = n ->
  0 <= k -> 0 < M -> 0 <= n <= k * M ->
  forall (c : nat) N' L' g' lg' (w : Enc.World),
    k * M * 2 ^ Z.of_nat c < 2 ^ 63 ->
    (c = 0%nat \/ (N' = M * 2 ^ (Z.of_nat c - 1) /\ g' = k * N')) ->
    exists l w',
      Enc.buildLevels params N' L' g' lg' c w = Ok (l, w') /\
      length l = c /\
      (forall (i : nat) e, l !! i = Some e ->
         EncLevels.level_ok w' k n (M * 2 ^ (Z.of_nat c - 1 - Z.of_nat i)) e) /\
      EncLevels.grows w w'.
Proof.
  intros Hk Hn Hk0 HM Hn0.
  induction c as [|c IH]; intros N' L' g' lg' w Hb Hc.
  - exists [], w. split; [reflexivity|]. split; [reflexivity|].
    split; [intros i e Hi; rewrite lookup_nil in Hi; discriminate | apply grows_refl].
  - destruct Hc as [Hc | [-> ->]]; [discriminate|].
    replace (Z.of_nat (S c) - 1) with (Z.of_nat c) in * by lia.
    assert (Hp : 0 < 2 ^ Z.of_nat c) by (apply Z.pow_pos_nonneg; lia).
    assert (Hp' : 2 ^ Z.of_nat (S c) = 2 * 2 ^ Z.of_nat c)
      by (rewrite Nat2Z.inj_succ, Z.pow_succ_r by lia; reflexivity).
    assert (HkM : 0 <= k * M) by nia.
    assert (Hkp : k * M * 1 <= k * M * 2 ^ Z.of_nat c) by (apply Z.mul_le_mono_nonneg_l; lia).
    assert (Hk1 : k * 1 <= k * M) by (apply Z.mul_le_mono_nonneg_l; lia).
    set (p := Enc.with_degree params (M * 2 ^ Z.of_nat c) L'
                (k * (M * 2 ^ Z.of_nat c)) lg').
    assert (Hfit : EncSizes.fits p).
    { unfold EncSizes.fits, is_int.
      cbn [p Enc.with_degree Params.lweDimension Params.glweDimension
             Params.glweRank Params.polyDegree].
      rewrite Hk, Hn. repeat split; try lia; nia. }
    destruct (NewEncryptor_level p w Hfit) as (e & w1 & Hrun & Hok & HP & Hgr).
    { cbn [p Enc.with_degree Params.glweDimension Params.glweRank Params.polyDegree].
      rewrite Hk. reflexivity. }
    cbn [p Enc.with_degree Params.glweRank Params.lweDimension Params.polyDegree] in Hok.
    rewrite Hk, Hn in Hok.
    destruct (IH (Z.quot (M * 2 ^ Z.of_nat c) 2) (Z.quot L' 2)
                 (Z.quot (k * (M * 2 ^ Z.of_nat c)) 2) (int_sub lg' 1) w1)
      as (l & w2 & Hrest & Hlen & Hlev & Hgr2); [lia | |].
    { destruct c as [|c']; [left; reflexivity | right].
      replace (Z.of_nat (S c') - 1) with (Z.of_nat c') by lia.
      assert (Hq : 2 ^ Z.of_nat (S c') = 2 * 2 ^ Z.of_nat c')
        by (rewrite Nat2Z.inj_succ, Z.pow_succ_r by lia; reflexivity).
      rewrite Hq.
      replace (M * (2 * 2 ^ Z.of_nat c')) with (M * 2 ^ Z.of_nat c' * 2) by lia.
      replace (k * (M * 2 ^ Z.of_nat c' * 2)) with (k * (M * 2 ^ Z.of_nat c') * 2) by lia.
      rewrite !Z.quot_mul by lia. split; reflexivity. }
    exists (e :: l), w2. cbn [Enc.buildLevels].
    fold p. rewrite (mbind_Ok _ _ _ _ _ Hrun).
    rewrite (mbind_Ok _ _ _ _ _ Hrest). unfold Enc.ret.
    split; [reflexivity|]. split; [cbn [length]; lia|].
    split; [| eapply grows_trans; eassumption].
    intros [|i] e' Hi.
    + cbn in Hi. injection Hi as <-.
      replace (Z.of_nat c - Z.of_nat 0) with (Z.of_nat c) by lia.
      eapply level_ok_grows; eassumption.
    + cbn in Hi. apply Hlev in Hi.
      replace (Z.of_nat c - Z.of_nat (S i)) with (Z.of_nat c - 1 - Z.of_nat i) by lia.
      exact Hi.
Qed.

Lemma glwe_fold_run large N cnt :
  0 <= N ->
  forall lo (g0 : list Enc.slice),
    0 <= lo ->
    lo + Z.of_nat cnt <= Z.of_nat (length g0) ->
    (lo + Z.of_nat cnt) * N <= Enc.cap large ->
    (lo + Z.of_nat cnt) * N < 2 ^ 63 -> lo + Z.of_nat cnt < 2 ^ 63 ->
    exists g,
      foldl (fun acc j =>
               let! g := acc in
               let! c := Enc.reslice large (int_mul j N) (int_mul (int_add j 1) N) in
               if (j <? Z.of_nat (length g))
               then Ok (<[Z.to_nat j := c]> g)
               else Panic "index out of range")
            (Ok g0) (Slice.range lo cnt) = Ok g /\
      length g = length g0.
Proof.
  intros HN. induction cnt as [|c IH]; intros lo g0 Hlo Hlen Hcap Hb Hb'.
  - exists g0. split; reflexivity.
  - rewrite range_S. cbn [foldl bind].
    assert (E1 : int_mul lo N = lo * N)
      by (unfold int_mul; apply wrapI_id; unfold is_int; nia).
    assert (E2 : int_mul (int_add lo 1) N = (lo + 1) * N).
    { unfold int_mul, int_add. rewrite (wrapI_id (lo + 1)) by (unfold is_int; lia).
      apply wrapI_id. unfold is_int. nia. }
    rewrite E1, E2.
    rewrite reslice_Ok by nia. cbn [bind].
    destruct (Z.ltb_spec lo (Z.of_nat (length g0))) as [_|]; [| lia].
    destruct (IH (lo + 1)
                 (<[Z.to_nat lo := {| Enc.ptr := Enc.ptr large;
                                      Enc.off := Enc.off large + lo * N;
                                      Enc.len := (lo + 1) * N - lo * N;
                                      Enc.cap := Enc.cap large - lo * N |}]> g0))
      as (g & Hg & Hl); rewrite ?length_insert; try lia.
    exists g. split; [exact Hg|]. rewrite Hl, length_insert. reflexivity.
Qed.

Lemma shareKey_run a0 g0 (e : Enc.Encryptor) (w : Enc.World) k n N' :
  let large0 := {| Enc.ptr := a0; Enc.off := 0; Enc.len := g0; Enc.cap := g0 |} in
  EncLevels.level_ok w k n N' e ->
  0 <= k < 2 ^ 63 -> 0 <= N' -> 0 <= n <= g0 -> k * N' <= g0 -> g0 < 2 ^ 63 ->
  exists e' w',
    Enc.shareKey large0 e w = Ok (e', w') /\
    Enc.Parameters e' = Enc.Parameters e /\
    EncLevels.grows w w'.
Proof.
  intros large0 (HN & Hg & Hk & Hn & Hlen & [fk Hfk] & Hs) Hk0 HN0 Hn0 Hfit Hb.
  assert (HkN : 0 <= k * N') by nia.
  set (large := {| Enc.ptr := Enc.ptr large0; Enc.off := Enc.off large0 + 0;
                   Enc.len := k * N' - 0; Enc.cap := Enc.cap large0 - 0 |}).
  destruct (glwe_fold_run large N' (Z.to_nat k) HN0 0 (Enc.GLWEKey (Enc.SecretKey_ e)))
    as (glwe & Hglwe & _);
    rewrite ?Hlen, ?Z2Nat.id by lia; cbn [Enc.cap large large0]; try lia.
  eexists. eexists. split.
  - unfold Enc.shareKey. cbv zeta. rewrite HN, Hg, Hk, Hn.
    erewrite mbind_Ok by (apply lift_Ok, reslice_Ok; cbn [Enc.cap large0]; lia).
    fold large.
    erewrite mbind_Ok by (apply lift_Ok, reslice_Ok; cbn [Enc.cap large large0]; lia).
    erewrite mbind_Ok by (apply lift_Ok; exact Hglwe).
    cbn [Enc.FourierGLWEKey].
    erewrite mbind_Ok by (eapply ToFourier_Ok; exact Hfk).
    unfold Enc.ret. reflexivity.
  - split; [reflexivity|].
    split; cbn [Enc.fourier Enc.samplers]; [| auto].
    intros b Hb'. destruct (decide (Enc.FourierGLWEKey (Enc.SecretKey_ e) = b)) as [->|Hne].
    + rewrite lookup_insert_eq. eauto.
    + rewrite lookup_insert_ne by exact Hne. exact Hb'.
Qed.

End HierarchyForward.

Section HierarchyForward2.

Context {C : Enc.Collaborators}.

Lemma shareLoop_run a0 g0 k n :
  0 <= k < 2 ^ 63 -> 0 <= n <= g0 -> g0 < 2 ^ 63 ->
  forall (count i : nat) (encs : list Enc.Encryptor) (w : Enc.World) e0,
    (1 <= i)%nat -> (i + count = length encs)%nat ->
    encs !! 0%nat = Some e0 ->
    Enc.LWELargeKey (Enc.SecretKey_ e0)
    = {| Enc.ptr := a0; Enc.off := 0; Enc.len := g0; Enc.cap := g0 |} ->
    (forall (j : nat) e, (i <= j)%nat -> encs !! j = Some e ->
       exists N', EncLevels.level_ok w k n N' e /\ 0 <= N' /\ k * N' <= g0) ->
    exists encs' w',
      Enc.shareLoop encs i count w = Ok (encs', w') /\
      length encs' = length encs /\
      forall (j : nat) e', encs' !! j = Some e' ->
        exists e, encs !! j = Some e /\ Enc.Parameters e' = Enc.Parameters e.
Proof.
  intros Hk Hn Hg. induction count as [|c IH]; intros i encs w e0 Hi Hlen H0 Hlarge Hlev.
  - exists encs, w. split; [reflexivity|]. split; [reflexivity|]. eauto.
  - destruct (lookup_lt_is_Some_2 encs i ltac:(lia)) as [ei Hei].
    destruct (Hlev i ei ltac:(lia) Hei) as (N' & Hok & HN & Hfit).
    destruct (shareKey_run a0 g0 ei w k n N' Hok Hk HN Hn Hfit Hg)
      as (ei' & w1 & Hshare & HP & Hgr).
    destruct (IH (S i) (<[i := ei']> encs) w1 e0) as (encs' & w' & Hloop & Hl & Hpar).
    + lia.
    + rewrite length_insert. lia.
    + rewrite list_lookup_insert_ne by lia. exact H0.
    + exact Hlarge.
    + intros j e Hj He. rewrite list_lookup_insert_ne in He by lia.
      destruct (Hlev j e ltac:(lia) He) as (N'' & Hok' & HN' & Hfit').
      exists N''. split; [eapply level_ok_grows; eassumption | auto].
    + exists encs', w'. cbn [Enc.shareLoop]. rewrite H0, Hei.
      rewrite <- Hlarge in Hshare. rewrite (mbind_Ok _ _ _ _ _ Hshare).
      split; [exact Hloop|]. rewrite length_insert in Hl. split; [exact Hl|].
      intros j e' He'. destruct (Hpar j e' He') as (e1 & He1 & HP1).
      destruct (decide (j = i)) as [->|Hne].
      * rewrite list_lookup_insert_eq in He1 by lia. injection He1 as <-.
        exists ei. split; [exact Hei | congruence].
      * rewrite list_lookup_insert_ne in He1 by lia. eauto.
Qed.

(** X21.  [NewEncryptorHierarchyWithSharedLWEKey] returns for a degree
    [N = 2048 * 2^d] with [d >= 1], [glweDimension = k * N] and
    [n <= 2048 * k]: the result has [d] encryptors, and the encryptor
    at index [i] has degree [N / 2^(i+1)], GLWE dimension
    [k * N / 2^(i+1)], rank [k] and LWE dimension [n]; the last one has
    degree 2048. *)
Theorem hierarchy_returns_one_encryptor_per_halving
  (params : Params.Parameters) (w : Enc.World) d k n :
  Params.polyDegree params = 2048 * 2 ^ d -> 1 <= d ->
  Params.glweRank params = k -> 0 <= k ->
  Params.glweDimension params = k * Params.polyDegree params ->
  is_int (Params.polyDegree params) -> is_int (Params.glweDimension params) ->
  Params.lweDimension params = n -> 0 <= n <= k * 2048 ->
  exists encs w',
    Enc.NewEncryptorHierarchyWithSharedLWEKey params w = Ok (encs, w') /\
    Z.of_nat (length encs) = d /\
    forall (i : nat) e, encs !! i = Some e ->
      Params.polyDegree (Enc.Parameters e) = 2048 * 2 ^ (d - 1 - Z.of_nat i) /\
      Params.glweDimension (Enc.Parameters e) = k * (2048 * 2 ^ (d - 1 - Z.of_nat i)) /\
      Params.glweRank (Enc.Parameters e) = k /\
      Params.lweDimension (Enc.Parameters e) = n.
Proof.
  intros HN Hd Hk Hk0 Hg IN Ig Hn Hn0.
  unfold is_int in IN, Ig. rewrite Hg, HN in Ig. rewrite HN in IN.
  assert (Hp : 0 < 2 ^ d) by (apply Z.pow_pos_nonneg; lia).
  assert (Hd63 : d < 63).
  { apply (Z.pow_lt_mono_r_iff 2); lia. }
  assert (Hpd : 2 ^ d = 2 * 2 ^ (d - 1)).
  { replace d with (Z.succ (d - 1)) at 1 by lia. apply Z.pow_succ_r. lia. }
  assert (Hp1 : 0 < 2 ^ (d - 1)) by (apply Z.pow_pos_nonneg; lia).
  assert (Hdepth : Enc.hierarchy_depth params = d).
  { unfold Enc.hierarchy_depth. rewrite HN.
    replace (2048 * 2 ^ d) with (2 ^ d * 2048) by lia.
    rewrite Z.quot_mul by lia. apply TrailingZeros_pow2. lia. }
  assert (Hk1 : k * 1 <= k * (2048 * 2 ^ d)) by (apply Z.mul_le_mono_nonneg_l; lia).
  destruct (buildLevels_run params k n 2048 Hk Hn Hk0 ltac:(lia) Hn0
              (Z.to_nat d)
              (Z.quot (Params.polyDegree params) 2)
              (Z.quot (Params.lookUpTableSize params) 2)
              (Z.quot (Params.glweDimension params) 2)
              (int_sub (Params.logPolyDegree params) 1) w)
    as (l & w1 & Hbuild & Hlen & Hlev & Hgr).
  { rewrite Z2Nat.id by lia. lia. }
  { right. rewrite Z2Nat.id by lia. rewrite Hg, HN, Hpd.
    replace (2048 * (2 * 2 ^ (d - 1))) with (2048 * 2 ^ (d - 1) * 2) by lia.
    replace (k * (2048 * 2 ^ (d - 1) * 2)) with (k * (2048 * 2 ^ (d - 1)) * 2) by lia.
    rewrite !Z.quot_mul by lia. split; reflexivity. }
  rewrite Z2Nat.id in Hlev by lia.
  destruct (lookup_lt_is_Some_2 l 0%nat ltac:(lia)) as [e0 He0].
  pose proof (Hlev 0%nat e0 He0) as Hok0.
  replace (d - 1 - Z.of_nat 0) with (d - 1) in Hok0 by lia.
  destruct Hok0 as (H1 & H2 & H3 & H4 & H5 & H6 & [st Hst]).
  set (g0 := k * (2048 * 2 ^ (d - 1))) in *.
  assert (Hg0 : 0 <= g0 < 2 ^ 63) by (unfold g0; nia).
  assert (Hng : n <= g0) by (unfold g0; nia).
  assert (Hfit : EncSizes.fits (Enc.Parameters e0)).
  { unfold EncSizes.fits, is_int. rewrite H1, H2, H3, H4. fold g0.
    repeat split; try lia. }
  destruct (GenSecretKey_run e0 w1 st Hfit Hst)
    as (sk & fk & HGen & _ & _ & Hlarge & _).
  cbv zeta in HGen, Hlarge. rewrite H2 in Hlarge. fold g0 in Hlarge.
  set (w2 := {| Enc.torus := <[fresh (dom (Enc.torus w1)) :=
                                 fst (Enc.sampledKey (Enc.Parameters e0) st)]> (Enc.torus w1);
                Enc.fourier := <[fresh (dom (Enc.fourier w1)) := fk]> (Enc.fourier w1);
                Enc.samplers := <[Enc.BinarySampler e0 :=
                                    snd (Enc.sampledKey (Enc.Parameters e0) st)]>
                                  (Enc.samplers w1) |}) in *.
  assert (Hgr2 : EncLevels.grows w1 w2).
  { split; intros b [x Hb]; cbn [w2 Enc.fourier Enc.samplers].
    - destruct (decide (fresh (dom (Enc.fourier w1)) = b)) as [->|Hne].
      + rewrite lookup_insert_eq. eauto.
      + rewrite lookup_insert_ne by exact Hne. eauto.
    - destruct (decide (Enc.BinarySampler e0 = b)) as [->|Hne].
      + rewrite lookup_insert_eq. eauto.
      + rewrite lookup_insert_ne by exact Hne. eauto. }
  destruct (shareLoop_run (fresh (dom (Enc.torus w1))) g0 k n ltac:(lia) ltac:(lia) ltac:(lia)
              (Z.to_nat (d - 1)) 1%nat (<[0%nat := Enc.with_key e0 sk]> l) w2
              (Enc.with_key e0 sk))
    as (encs & w' & Hloop & Hl & Hpar).
  - lia.
  - rewrite length_insert. lia.
  - apply list_lookup_insert_eq. lia.
  - exact Hlarge.
  - intros j e Hj He. rewrite list_lookup_insert_ne in He by lia.
    exists (2048 * 2 ^ (d - 1 - Z.of_nat j)).
    assert (Hjl : (j < length l)%nat) by (eapply lookup_lt_Some; exact He).
    assert (0 < 2 ^ (d - 1 - Z.of_nat j)) by (apply Z.pow_pos_nonneg; lia).
    assert (2 ^ (d - 1 - Z.of_nat j) <= 2 ^ (d - 1)) by (apply Z.pow_le_mono_r; lia).
    split; [eapply level_ok_grows; [exact Hgr2 | apply Hlev; exact He]|].
    split; [lia|]. unfold g0. apply Z.mul_le_mono_nonneg_l; lia.
  - exists encs, w'. split.
    + unfold Enc.NewEncryptorHierarchyWithSharedLWEKey. cbv zeta. rewrite Hdepth.
      rewrite (mbind_Ok _ _ _ _ _ Hbuild). rewrite He0.
      rewrite (mbind_Ok _ _ _ _ _ HGen). exact Hloop.
    + rewrite length_insert in Hl. split; [lia|].
      intros i e He. destruct (Hpar i e He) as (e1 & He1 & ->).
      destruct i as [|i].
      * rewrite list_lookup_insert_eq in He1 by lia. injection He1 as <-.
        cbn [Enc.with_key Enc.Parameters].
        replace (d - 1 - Z.of_nat 0) with (d - 1) by lia. auto.
      * rewrite list_lookup_insert_ne in He1 by lia.
        destruct (Hlev _ _ He1) as (A1 & A2 & A3 & A4 & _). auto.
Qed.

End HierarchyForward2.

Lemma hierarchy_returns_one_encryptor_per_halving_witness :
  exists (encs : list (@Enc.Encryptor Inputs.streamCollaborators)) w',
    Enc.NewEncryptorHierarchyWithSharedLWEKey Inputs.params6 Inputs.emptyWorld
    = Ok (encs, w') /\
    Z.of_nat (length encs) = 2 /\
    forall (i : nat) e, encs !! i = Some e ->
      Params.polyDegree (Enc.Parameters e) = 2048 * 2 ^ (2 - 1 - Z.of_nat i) /\
      Params.glweDimension (Enc.Parameters e) = 1 * (2048 * 2 ^ (2 - 1 - Z.of_nat i)) /\
      Params.glweRank (Enc.Parameters e) = 1 /\
      Params.lweDimension (Enc.Parameters e) = 1160.
Proof.
  apply (hierarchy_returns_one_encryptor_per_halving
           Inputs.params6 Inputs.emptyWorld 2 1 1160);
    unfold is_int; cbn; lia.
Defined.

(** ** The properties above on concrete inputs *)

Lemma num_spec_DivRound_exact a b :
  0 < b -> 0 <= a -> a * b < 2 ^ 53 -> num_spec.DivRound (a * b) b = a.
Proof.
  intros Hb Ha _. unfold num_spec.DivRound.
  symmetry. apply (Z.div_unique _ _ a b); lia.
Qed.

Lemma Compile_derived_fields_witness :
  Params.glweDimension Inputs.params6
  = int_mul (Params.glweRank Inputs.params6) (Params.polyDegree Inputs.params6) /\
  Params.lookUpTableSize Inputs.params6
  = Params.polyExtendFactor Inputs.params6 * Params.polyDegree Inputs.params6.
Proof.
  destruct (Compile_derived_fields num_spec.DivRound U64 Params.Params6 Inputs.params6)
    as (_ & H2 & _ & _ & H5 & _).
  - vm_compute. reflexivity.
  - split; [exact H2 | exact H5].
Defined.

Lemma WriteTo_reports_bytes_accepted_by_a_short_sink_witness :
  ParamsIO.WriteTo Inputs.params6 {| io.data := []; io.room := Some 10 |}
  = io.WFail {| io.data := [] ++ take (Z.to_nat 10) (ParamsIO.encoding Inputs.params6);
                io.room := Some 0 |} 10 io.ErrShortWrite.
Proof.
  apply (WriteTo_reports_bytes_accepted_by_a_short_sink Inputs.params6 [] 10). lia.
Defined.

Lemma GenExtendedFDFBLookUpTable_contents_witness :
  FDFB.GenExtendedFDFBLookUpTableCustomFullAssign num_spec.DivRound U64
    Inputs.paramsEBS5 (fun x => x) 32
    (replicate 4096 0) (replicate 2 (replicate 2048 0))
  = Ok (map (FDFB.rawValue U64 32 128 (fun x => x)) (Slice.range 0 (Z.to_nat 4096)),
        map (fun i => map (fun j => FDFB.rawValue U64 32 128 (fun x => x) (j * 2 + i))
                          (Slice.range 0 (Z.to_nat 2048)))
            (Slice.range 0 (Z.to_nat 2))).
Proof.
  apply (GenExtendedFDFBLookUpTable_contents num_spec.DivRound num_spec_DivRound_exact
           U64 Inputs.paramsEBS5 (fun x => x) 32
           (replicate 4096 0) (replicate 2 (replicate 2048 0)) 16 128);
    try (cbn; lia); try (vm_compute; reflexivity).
  apply Forall_replicate. vm_compute. reflexivity.
Defined.

Lemma compress_LUT_first_loop_fills_every_position_witness :
  LUT.GenCompressLUT_lutRaw num_spec.DivRound U64 Inputs.paramsEBS5
  = Ok (map (fun xx => LUT.compressCodeword U64 32 (xx / 128)) (Slice.range 0 2048)) /\
  LUT.GenExtendedCompressLUT_lutRaw num_spec.DivRound U64 Inputs.paramsEBS5
    (replicate 4096 0)
  = Ok (map (fun xx => LUT.compressCodeword U64 32 (xx / 256))
            (Slice.range 0 (Z.to_nat 4096))).
Proof.
  destruct (compress_LUT_first_loop_fills_every_position num_spec.DivRound
              num_spec_DivRound_exact U64 Inputs.paramsEBS5 (replicate 4096 0)
              16 128 256) as (H1 & H2 & _);
    try (cbn; lia); try (vm_compute; reflexivity).
  split; [exact H1 | exact H2].
Defined.

Lemma base_LUT_holds_the_base_table_and_its_negated_mirror_witness :
  Decomposed.baseLUT_lutRaw num_spec.DivRound U64 32 2 (map Z.of_nat (seq 0 16))
  = Ok (map (fun xx =>
               let x := xx / 128 in
               if x <? 8 then nth (Z.to_nat x) (map Z.of_nat (seq 0 16)) 0
               else wrapT U64 (- nth (Z.to_nat (16 - x + 8 - 1)) (map Z.of_nat (seq 0 16)) 0))
            (Slice.range 0 2048)).
Proof.
  apply (base_LUT_holds_the_base_table_and_its_negated_mirror num_spec.DivRound
           num_spec_DivRound_exact U64 32 2 (map Z.of_nat (seq 0 16)) 8 128);
    try (cbn; lia); try (vm_compute; reflexivity).
Defined.

(** ** Further round trips and compositions *)

(** X24.  For gadget parameters [g] compiled from a
    machine-representable literal, [GadgetParameters.MarshalBinary]
    returns the 16 bytes of the encoding and no error;
    [UnmarshalBinary] of these bytes, followed by any trailing bytes,
    sets the receiver to [g] with no error; and [UnmarshalBinary] of
    fewer than 16 bytes returns an error and leaves the receiver as it
    was. *)
Theorem Gadget_MarshalBinary_UnmarshalBinary_round_trip T lit g :
  Gadget.wf_literal T lit -> Gadget.Compile T lit = Ok g ->
  Marshal.GadgetMarshalBinary g = (GadgetIO.encoding g, None) /\
  length (fst (Marshal.GadgetMarshalBinary g)) = 16%nat /\
  (forall g0 trailing,
     Marshal.GadgetUnmarshalBinary T g0 (fst (Marshal.GadgetMarshalBinary g) ++ trailing)
     = Ok (g, None)) /\
  (forall g0 data, (length data < 16)%nat ->
     exists e, Marshal.GadgetUnmarshalBinary T g0 data = Ok (g0, Some e)).
Proof.
  intros Hwf HC.
  assert (E : Marshal.GadgetMarshalBinary g = (GadgetIO.encoding g, None)).
  { unfold Marshal.GadgetMarshalBinary. rewrite Gadget_WriteTo_buffer. reflexivity. }
  rewrite E. cbn [fst].
  split; [reflexivity|]. split; [apply Gadget_encoding_length|]. split.
  - intros g0 trailing. unfold Marshal.GadgetUnmarshalBinary.
    rewrite (Gadget_ReadFrom_encoding T lit g trailing Hwf HC). reflexivity.
  - intros g0 data Hd. unfold Marshal.GadgetUnmarshalBinary.
    pose proof (Gadget_ReadFrom_short_input T data 0 Hd) as H.
    destruct (GadgetIO.ReadFrom T data); try contradiction. eauto.
Qed.

Lemma Gadget_MarshalBinary_UnmarshalBinary_round_trip_witness :
  Marshal.GadgetUnmarshalBinary U64 (Params.keySwitchParameters Inputs.params6)
    (fst (Marshal.GadgetMarshalBinary (Params.blindRotateParameters Inputs.params6))
     ++ [Byte.xff])
  = Ok (Params.blindRotateParameters Inputs.params6, None).
Proof.
  destruct (Gadget_MarshalBinary_UnmarshalBinary_round_trip U64
              {| Gadget.Base := 2 ^ 22; Gadget.Level := 2 |}
              (Params.blindRotateParameters Inputs.params6)) as (_ & _ & H & _).
  - unfold Gadget.wf_literal, is_T, is_int, is_uint.
    repeat split; vm_compute; (reflexivity || discriminate).
  - vm_compute. reflexivity.
  - apply H.
Defined.

Lemma ModSwitchOriginal_index (e : ModSwitchM.Evaluator) (x k : Z) :
  ModSwitchQ.not_negative (ModSwitchM.modSwitchConstant e) ->
  0 <= x -> 0 <= k <= 61 ->
  Params.lookUpTableSize (ModSwitchM.Parameters e) = 2 ^ k ->
  0 <= ModSwitchM.ModSwitchOriginal e x < 2 ^ (k + 1).
Proof.
  intros Hc Hx Hk HL.
  pose proof (of_uint_not_negative x Hx) as Hfx.
  assert (Htwo : ModSwitchQ.not_negative Float.two) by exact I.
  unfold ModSwitchM.ModSwitchOriginal. rewrite HL, int_mul_2_pow2 by exact Hk.
  apply rem_pow2_index; [lia|].
  apply to_int_not_negative, Round_not_negative.
  repeat apply mul_not_negative; assumption.
Qed.

(** X25.  The head of [blindRotateExtendedAssign] on the value of
    [ModSwitchOriginal]: for a constant that is not a negative number,
    a table size [L = 2^k] with [k <= 60] and a positive extend factor
    [e], the rotation [b2N = 2L - ModSwitchOriginal(x)] is in
    [(0, 2L]], the loops read the LUT polynomials [0, ..., e-1] in
    order, write each of the [e] accumulators exactly once, and every
    call satisfies [d * e - ii = b2N - i]. *)
Theorem blindRotateExtendedAssign_rotates_by_the_switched_value
  (e : ModSwitchM.Evaluator) (x k : Z) :
  let p := ModSwitchM.Parameters e in
  ModSwitchQ.not_negative (ModSwitchM.modSwitchConstant e) ->
  0 <= x -> 0 <= k <= 60 ->
  Params.lookUpTableSize p = 2 ^ k ->
  0 < Params.polyExtendFactor p < 2 ^ 62 ->
  exists b2N calls,
    Rotate.extendedHead p (ModSwitchM.ModSwitchOriginal e x) = Ok (b2N, calls) /\
    b2N = 2 * Params.lookUpTableSize p - ModSwitchM.ModSwitchOriginal e x /\
    0 < b2N <= 2 * Params.lookUpTableSize p /\
    map Rotate.lutIndex calls
    = Slice.range 0 (Z.to_nat (Params.polyExtendFactor p)) /\
    NoDup (map Rotate.accIndex calls) /\
    Forall (fun c =>
              0 <= Rotate.accIndex c < Params.polyExtendFactor p /\
              Rotate.degree c * Params.polyExtendFactor p - Rotate.accIndex c
              = b2N - Rotate.lutIndex c)
           calls.
Proof.
  intros p Hc Hx Hk HL He.
  pose proof (ModSwitchOriginal_index e x k Hc Hx ltac:(lia) HL) as Hms.
  set (ms := ModSwitchM.ModSwitchOriginal e x) in *.
  assert (Hpow : 2 ^ (k + 1) = 2 * 2 ^ k) by (rewrite Z.pow_add_r; lia).
  assert (Hle : 2 ^ k <= 2 ^ 60) by (apply Z.pow_le_mono_r; lia).
  unfold Rotate.extendedHead. fold p in HL. rewrite HL.
  rewrite int_mul_2_pow2 by lia. unfold int_sub.
  rewrite wrapI_id by (unfold is_int; lia).
  destruct (monomialLoops_Ok (Params.polyExtendFactor p) (2 ^ (k + 1) - ms))
    as (calls & Hcalls & H1 & H2 & H3); [exact He | lia |].
  rewrite Hcalls. cbn [bind].
  eexists. eexists. split; [reflexivity|].
  split; [lia|]. split; [lia|]. auto.
Qed.

Lemma blindRotateExtendedAssign_rotates_by_the_switched_value_witness :
  exists b2N calls,
    Rotate.extendedHead Inputs.paramsEBS5
      (ModSwitchM.ModSwitchOriginal Inputs.evalEBS5 (2 ^ 62)) = Ok (b2N, calls) /\
    b2N = 2 * 4096 - ModSwitchM.ModSwitchOriginal Inputs.evalEBS5 (2 ^ 62) /\
    0 < b2N <= 2 * 4096.
Proof.
  destruct (blindRotateExtendedAssign_rotates_by_the_switched_value
              Inputs.evalEBS5 (2 ^ 62) 12)
    as (b2N & calls & H1 & H2 & H3 & _);
    [vm_compute; exact I | lia | lia | reflexivity | cbn; lia |].
  exists b2N, calls. split; [exact H1|]. split; [exact H2 | exact H3].
Defined.

(** ** The predefined parameter sets *)

Lemma Compile_table_sizes D T lit :
  Params.enforced_invariants T lit ->
  exists p,
    Params.Compile D T lit = Ok p /\
    Params.lookUpTableSize p = Params.LookUpTableSize (Params.defaulted lit) /\
    Params.messageModulus p = Params.MessageModulus (Params.defaulted lit).
Proof.
  intros Hinv. apply (Compile_returns_iff D T lit) in Hinv.
  destruct (Params.Compile D T lit) as [p|] eqn:HC; [| destruct Hinv].
  exists p. split; [reflexivity|].
  destruct (Compile_Ok_inv D T lit p HC) as (br & ks & _ & _ & ->).
  split; reflexivity.
Qed.

(** X26.  Each of the eight predefined parameter sets is
    machine-representable and compiles on [uint64], whatever
    [num.DivRound] returns.  In the compiled parameters the table size
    is [L = 2048 * 2^k] with [1 <= k <= 4], the message modulus [m]
    divides it with [L = 128 * m], and the base message modulus
    [m / (L / 2048)] is 16: the sizes for which the table builders
    fill their tables completely. *)
Theorem predefined_parameter_sets_compile (D : Z -> Z -> Z) :
  Forall (fun lit =>
            Params.wf_literal U64 lit /\
            exists p k,
              Params.Compile D U64 lit = Ok p /\
              1 <= k <= 4 /\
              Params.lookUpTableSize p = 2048 * 2 ^ k /\
              Params.lookUpTableSize p = 128 * Params.messageModulus p /\
              Params.messageModulus p / (Params.lookUpTableSize p / 2048) = 16)
         [Params.ParamsEBS5; Params.ParamsEBS6; Params.ParamsEBS7; Params.ParamsEBS8;
          Params.Params5; Params.Params6; Params.Params7; Params.Params8].
Proof.
  assert (S : forall lit k,
             Params.wf_literal U64 lit ->
             returns (Params.Compile num_spec.DivRound U64 lit) ->
             1 <= k <= 4 ->
             Params.LookUpTableSize (Params.defaulted lit) = 2048 * 2 ^ k ->
             Params.MessageModulus (Params.defaulted lit) = 16 * 2 ^ k ->
             Params.wf_literal U64 lit /\
             exists p k,
               Params.Compile D U64 lit = Ok p /\
               1 <= k <= 4 /\
               Params.lookUpTableSize p = 2048 * 2 ^ k /\
               Params.lookUpTableSize p = 128 * Params.messageModulus p /\
               Params.messageModulus p / (Params.lookUpTableSize p / 2048) = 16).
  { intros lit k Hwf Hret Hk HL Hm. split; [exact Hwf|].
    apply (Compile_returns_iff num_spec.DivRound U64 lit) in Hret.
    destruct (Compile_table_sizes D U64 lit Hret) as (p & HC & EL & Em).
    exists p, k. split; [exact HC|]. split; [exact Hk|].
    rewrite EL, Em, HL, Hm.
    assert (Hp : 0 < 2 ^ k) by (apply Z.pow_pos_nonneg; lia).
    split; [reflexivity|]. split; [lia|].
    replace (2048 * 2 ^ k) with (2 ^ k * 2048) by lia.
    rewrite Z.div_mul by lia. rewrite Z.div_mul by lia. reflexivity. }
  assert (W : forall lit,
             In lit [Params.ParamsEBS5; Params.ParamsEBS6; Params.ParamsEBS7;
                     Params.ParamsEBS8; Params.Params5; Params.Params6;
                     Params.Params7; Params.Params8] ->
             Params.wf_literal U64 lit).
  { intros lit Hin. unfold Params.wf_literal, Gadget.wf_literal, is_T, is_int, is_uint.
    cbn [In] in Hin.
    repeat (destruct Hin as [<- | Hin];
            [repeat split; vm_compute; (reflexivity || discriminate)|]).
    destruct Hin. }
  repeat (apply Forall_cons; split).
  all: try (apply Forall_nil; exact I).
  - apply (S _ 1); [apply W; cbn [In]; tauto | vm_compute; exact I | lia | reflexivity | reflexivity].
  - apply (S _ 2); [apply W; cbn [In]; tauto | vm_compute; exact I | lia | reflexivity | reflexivity].
  - apply (S _ 3); [apply W; cbn [In]; tauto | vm_compute; exact I | lia | reflexivity | reflexivity].
  - apply (S _ 4); [apply W; cbn [In]; tauto | vm_compute; exact I | lia | reflexivity | reflexivity].
  - apply (S _ 1); [apply W; cbn [In]; tauto | vm_compute; exact I | lia | reflexivity | reflexivity].
  - apply (S _ 2); [apply W; cbn [In]; tauto | vm_compute; exact I | lia | reflexivity | reflexivity].
  - apply (S _ 3); [apply W; cbn [In]; tauto | vm_compute; exact I | lia | reflexivity | reflexivity].
  - apply (S _ 4); [apply W; cbn [In]; tauto | vm_compute; exact I | lia | reflexivity | reflexivity].
Qed.

(** ** The bootstrap over the negacyclic tables only *)

Section DecomposedEntryProofs.

Context {LookUpTable : Type}.

Lemma DecomposedEntry_call_rotate_Ok (p : Params.Parameters) ct
  (lut : LookUpTable) ef ctOut :
  0 < Params.polyDegree p ->
  Params.lookUpTableSize p = Params.polyExtendFactor p * Params.polyDegree p ->
  2 * Params.lookUpTableSize p < 2 ^ 63 ->
  1 <= ef <= Params.polyExtendFactor p ->
  DecomposedEntry.call_blindRotateArbitraryExtendedAssign p ct lut ef ctOut
  = Ok (DecomposedEntry.blindRotateArbitraryExtendedAssign ct lut ef ctOut).
Proof.
  intros HN HL Hfit Hef.
  unfold DecomposedEntry.call_blindRotateArbitraryExtendedAssign.
  cbv zeta. unfold int_mul.
  assert (0 < Params.polyDegree p * ef <= Params.lookUpTableSize p) by nia.
  rewrite (wrapI_id (2 * Params.lookUpTableSize p)) by (unfold is_int; lia).
  rewrite (wrapI_id (Params.polyDegree p * ef)) by (unfold is_int; lia).
  rewrite (wrapI_id (2 * (Params.polyDegree p * ef))) by (unfold is_int; lia).
  destruct (Z.eqb_spec (2 * Params.lookUpTableSize p) 0); [lia|].
  destruct (Z.eqb_spec (2 * (Params.polyDegree p * ef)) 0); [lia|].
  destruct (Z.eqb_spec ef 0); [lia|]. reflexivity.
Qed.

Lemma DecomposedEntry_call_rotate_zero (p : Params.Parameters) ct
  (lut : LookUpTable) ctOut :
  DecomposedEntry.call_blindRotateArbitraryExtendedAssign p ct lut 0 ctOut
  = Panic "integer divide by zero".
Proof.
  unfold DecomposedEntry.call_blindRotateArbitraryExtendedAssign. cbv zeta.
  destruct (int_mul 2 (Params.lookUpTableSize p) =? 0); [reflexivity|].
  unfold int_mul. rewrite Z.mul_0_r. reflexivity.
Qed.

Lemma DecomposedEntry_call_rotate_inv (p : Params.Parameters) ct
  (lut : LookUpTable) ef ctOut c :
  DecomposedEntry.call_blindRotateArbitraryExtendedAssign p ct lut ef ctOut = Ok c ->
  c = DecomposedEntry.blindRotateArbitraryExtendedAssign ct lut ef ctOut.
Proof.
  unfold DecomposedEntry.call_blindRotateArbitraryExtendedAssign. cbv zeta.
  destruct (_ =? 0); [discriminate|].
  destruct (_ =? 0); [discriminate|].
  destruct (_ =? 0); [discriminate|].
  congruence.
Qed.

Lemma DecomposedEntry_negLoop_panics (p : Params.Parameters)
  (dec : list LookUpTable) count :
  let e := Params.polyExtendFactor p in
  0 < Params.polyDegree p ->
  Params.lookUpTableSize p = e * Params.polyDegree p ->
  2 * Params.lookUpTableSize p < 2 ^ 63 ->
  1 <= e ->
  forall i, 0 <= i <= Z.log2 e -> Z.log2 e < i + Z.of_nat count ->
    i + Z.of_nat count <= Z.of_nat (length dec) ->
    DecomposedEntry.negLoop p dec i count = Panic "integer divide by zero".
Proof.
  intros e HN HL Hfit He.
  assert (Hint : is_int e) by (unfold is_int; nia).
  assert (Hlog : Z.log2 e <= 62).
  { assert (Z.log2 e < 63); [| lia]. apply Z.log2_lt_pow2; nia. }
  induction count as [|c IH]; intros i Hi Hc Hlen; [lia|].
  cbn [DecomposedEntry.negLoop].
  destruct (index_in_range dec i ltac:(lia)) as [lut Hl]. rewrite Hl. cbn [bind].
  fold e.
  destruct (Z.eq_dec i (Z.log2 e)) as [Ei|Ei].
  - destruct (int_div_small_by_shl e (i + 1) ltac:(lia) Hint ltac:(lia)) as [-> | ->];
      cbn [bind]; [| reflexivity].
    rewrite DecomposedEntry_call_rotate_zero. reflexivity.
  - rewrite int_div_pow2 by (assumption || lia). cbn [bind].
    assert (Hp : 2 ^ (i + 1) <= e) by (apply pow2_le_of_log2; lia).
    assert (Hp0 : 0 < 2 ^ (i + 1)) by (apply Z.pow_pos_nonneg; lia).
    rewrite DecomposedEntry_call_rotate_Ok; try assumption.
    + cbn [bind]. rewrite IH by lia. reflexivity.
    + fold e. split.
      * apply Z.div_le_lower_bound; lia.
      * apply Z.div_le_upper_bound; nia.
Qed.

Lemma DecomposedEntry_negLoop_ignores_tail (p : Params.Parameters)
  (dec : list LookUpTable) a b count :
  forall i, 0 <= i -> i + Z.of_nat count <= Z.of_nat (length dec) ->
    DecomposedEntry.negLoop p (dec ++ [a]) i count
    = DecomposedEntry.negLoop p (dec ++ [b]) i count.
Proof.
  induction count as [|c IH]; intros i Hi Hlen; [reflexivity|].
  cbn [DecomposedEntry.negLoop].
  assert (Hidx : forall x, Slice.index (dec ++ [x]) i = Slice.index dec i).
  { intros x. unfold Slice.index. rewrite length_app. cbn [length].
    destruct (Z.leb_spec 0 i); [| lia].
    destruct (Z.ltb_spec i (Z.of_nat (length dec + 1))); [| lia].
    destruct (Z.ltb_spec i (Z.of_nat (length dec))); [| lia].
    cbn [andb]. rewrite lookup_app_l by lia. reflexivity. }
  rewrite !Hidx. rewrite IH by lia. reflexivity.
Qed.

Lemma DecomposedEntry_negLoop_operands (p : Params.Parameters)
  (dec : list LookUpTable) count :
  forall i calls,
    DecomposedEntry.negLoop p dec i count = Ok calls ->
    length calls = (2 * count)%nat /\
    Forall (fun c => DecomposedEntry.ctKeySwitchForBootstrap
                       ∉ DecomposedEntry.operands c) calls.
Proof.
  induction count as [|c IH]; intros i calls H.
  - injection H as <-. split; [reflexivity | constructor].
  - cbn [DecomposedEntry.negLoop] in H.
    destruct (Slice.index dec i) as [lut|]; [| discriminate]. cbn [bind] in H.
    destruct (int_div (Params.polyExtendFactor p) (int_shl 1 (i + 1))) as [ef|];
      [| discriminate].
    cbn [bind] in H.
    destruct (DecomposedEntry.call_blindRotateArbitraryExtendedAssign p
                DecomposedEntry.ArgCt lut ef DecomposedEntry.ctRotate)
      as [rot|] eqn:Hrot; [| discriminate].
    apply DecomposedEntry_call_rotate_inv in Hrot. subst rot.
    cbn [bind] in H.
    destruct (DecomposedEntry.negLoop p dec (i + 1) c) as [rest|] eqn:Hr;
      [| discriminate].
    cbn [bind] in H. injection H as <-.
    destruct (IH _ _ Hr) as [Hl HF].
    split; [cbn [length]; lia|].
    apply Forall_cons; split; [| apply Forall_cons; split; [| exact HF] ];
      cbn [DecomposedEntry.operands]; intros Hin;
      repeat (apply elem_of_cons in Hin as [Hin | Hin]; [discriminate|]);
      apply elem_of_nil in Hin; exact Hin.
Qed.


End DecomposedEntryProofs.

